(** * findAndReplaceDOMText (bullshit.js): a shallow embedding and its properties

    The development follows [src/bullshit.js], lines 20-282: the function
    [findAndReplaceDOMText] with its helpers [_getMatchIndexes], [_getText],
    [_stepThroughMatches], [_genReplacer] and the companion [revert]; and,
    of the script that uses it, the function [bulshitize], lines 659-672.

    Layout:
    - [JsString]  : the string operations of the host that the code uses;
    - [Dom]       : the part of the DOM that the code navigates and mutates,
                    as a forest of identity-labelled trees;
    - [Html]      : what the host's parser makes of the serialized stencil
                    element (line 203);
    - [Regex]     : the host's regular expressions, as far as the code sees
                    them ([exec], [match], [global], [lastIndex]);
    - [Far]       : the embedding of the source functions;
    - [Bullshit]  : the embedding of [bulshitize];
    - [Scenario]  : the documents and patterns of the examples;
    - [Invariants]: what the properties are stated with;
    - [Measure]   : what the termination of the walk is stated with;
    - the properties, the claims of the specification among them. *)

From Stdlib Require Import List ZArith Lia Bool Ascii Arith PeanoNat Permutation.
From Stdlib Require String.
Import ListNotations.

Set Implicit Arguments.
Set Warnings "-register-all".

(* ===================================================================== *)
(** ** Strings of the host *)
(* ===================================================================== *)

Module JsString.

(** A string is the sequence of its code units. *)
Definition jsstring := list ascii.

Definition lit (s : String.string) : jsstring := String.list_ascii_of_string s.

Definition eqb (a b : jsstring) : bool :=
  if list_eq_dec ascii_dec a b then true else false.

(** [s.length] *)
Definition len (s : jsstring) : Z := Z.of_nat (length s).

(** An index argument of [substring]: values below 0 count as 0, values
    above the length as the length. *)
Definition clamp (s : jsstring) (i : Z) : nat := Nat.min (Z.to_nat i) (length s).

(** [s.substring(a, b)]; the two arguments are swapped when [a > b]. *)
Definition substring (s : jsstring) (a b : Z) : jsstring :=
  let a' := clamp s a in
  let b' := clamp s b in
  firstn (Nat.max a' b' - Nat.min a' b') (skipn (Nat.min a' b') s).

(** [s.substring(a)] *)
Definition substring_from (s : jsstring) (a : Z) : jsstring :=
  skipn (clamp s a) s.

Fixpoint is_prefix (p s : jsstring) : bool :=
  match p, s with
  | [], _ => true
  | _ :: _, [] => false
  | a :: p', b :: s' => if ascii_dec a b then is_prefix p' s' else false
  end.

Fixpoint index_from (p s : jsstring) (at_ : nat) : option nat :=
  if is_prefix p s then Some at_
  else match s with
       | [] => None
       | _ :: s' => index_from p s' (S at_)
       end.

(** [s.indexOf(p)]: the first position at which [p] occurs, or -1. *)
Definition indexOf (s p : jsstring) : Z :=
  match index_from p s 0 with
  | Some i => Z.of_nat i
  | None => (-1)%Z
  end.

(** Truthiness of a string: the empty string is falsy. *)
Definition truthy (s : jsstring) : bool :=
  match s with [] => false | _ => true end.

End JsString.
Import JsString.

(* ===================================================================== *)
(** ** The DOM of the host *)
(* ===================================================================== *)

Module Dom.

(** A node is a Text node ([nodeType === 3]) or an Element; [nid] is the
    identity of the node object, which is what the code compares with
    [===] and keeps in its variables. *)
Inductive Node : Type :=
| Text (nid : nat) (data : jsstring)
| Element (nid : nat) (tag : jsstring) (childNodes : list Node).

Definition nid (n : Node) : nat :=
  match n with Text i _ => i | Element i _ _ => i end.

Definition is_text (n : Node) : bool :=
  match n with Text _ _ => true | Element _ _ _ => false end.

Definition children (n : Node) : list Node :=
  match n with Text _ _ => [] | Element _ _ cs => cs end.

(** [node.data] of a Text node. *)
Definition data_of (n : Node) : jsstring :=
  match n with Text _ d => d | Element _ _ _ => [] end.

(** The first result of [f] along a list. *)
Definition first_some {A B : Type} (f : A -> option B) : list A -> option B :=
  fix go (l : list A) : option B :=
    match l with
    | [] => None
    | a :: l' => match f a with Some b => Some b | None => go l' end
    end.

(** All the node identities of a tree, in document order. *)
Fixpoint ids (n : Node) : list nat :=
  match n with
  | Text i _ => [i]
  | Element i _ cs => i :: flat_map ids cs
  end.

(** The aggregate text of a tree: what [_getText] computes. *)
Fixpoint text_of (n : Node) : jsstring :=
  match n with
  | Text _ d => d
  | Element _ _ cs => flat_map text_of cs
  end.

(** The node with identity [x] inside a tree. *)
Fixpoint find (x : nat) (n : Node) : option Node :=
  if nid n =? x then Some n
  else match n with
       | Text _ _ => None
       | Element _ _ cs => first_some (find x) cs
       end.

(** Where a child with identity [x] sits in a list of children. *)
Fixpoint split_child (x : nat) (cs : list Node)
  : option (list Node * Node * list Node) :=
  match cs with
  | [] => None
  | c :: cs' =>
      if nid c =? x then Some ([], c, cs')
      else match split_child x cs' with
           | Some (pre, n, post) => Some (c :: pre, n, post)
           | None => None
           end
  end.

(** The parent of [x] inside a tree, with the siblings before and after. *)
Fixpoint place (x : nat) (n : Node)
  : option (nat * (list Node * Node * list Node)) :=
  match n with
  | Text _ _ => None
  | Element i _ cs =>
      match split_child x cs with
      | Some z => Some (i, z)
      | None => first_some (place x) cs
      end
  end.

(** Replace the node with identity [x] by the nodes [g] makes of it. *)
Fixpoint subst (x : nat) (g : Node -> list Node) (n : Node) : list Node :=
  if nid n =? x then g n
  else match n with
       | Text _ _ => [n]
       | Element i t cs => [Element i t (flat_map (subst x g) cs)]
       end.

(** The whole store: the document and every node object that is not, or no
    longer, attached to it; each entry is a tree without a parent. *)
Definition forest := list Node.

Definition lookup (x : nat) (f : forest) : option Node := first_some (find x) f.

Definition place_in (x : nat) (f : forest) := first_some (place x) f.

Definition subst_in (x : nat) (g : Node -> list Node) (f : forest) : forest :=
  flat_map (subst x g) f.

(** [node.parentNode], [node.nextSibling], [node.firstChild]: [None] is
    [null]. *)
Definition parentNode (x : nat) (f : forest) : option nat :=
  match place_in x f with Some (p, _) => Some p | None => None end.

Definition nextSibling (x : nat) (f : forest) : option nat :=
  match place_in x f with
  | Some (_, (_, _, s :: _)) => Some (nid s)
  | _ => None
  end.

Definition firstChild (x : nat) (f : forest) : option nat :=
  match lookup x f with
  | Some (Element _ _ (c :: _)) => Some (nid c)
  | _ => None
  end.

(** Errors the host raises. *)
Inductive DomError : Type := NotFoundError | HierarchyRequestError.

(** [parent.insertBefore(n, ref)]: [n] leaves the place it had, if any, and
    becomes the sibling just before [ref], which has to be a child of
    [parent]. *)
Definition insertBefore (parent : nat) (n : Node) (ref : nat) (f : forest)
  : forest + DomError :=
  let f1 := subst_in (nid n) (fun _ => []) f in
  match parentNode ref f1 with
  | Some p => if p =? parent
              then inl (subst_in ref (fun r => [n; r]) f1)
              else inr NotFoundError
  | None => inr NotFoundError
  end.

(** [parent.removeChild(c)]: the removed node stays in the store, without a
    parent. *)
Definition removeChild (parent : nat) (c : nat) (f : forest)
  : forest + DomError :=
  match parentNode c f, lookup c f with
  | Some p, Some cn => if p =? parent
                       then inl (subst_in c (fun _ => []) f ++ [cn])
                       else inr NotFoundError
  | _, _ => inr NotFoundError
  end.

(** [parent.replaceChild(n, old)] *)
Definition replaceChild (parent : nat) (n : Node) (old : nat) (f : forest)
  : forest + DomError :=
  let f1 := subst_in (nid n) (fun _ => []) f in
  match parentNode old f1, lookup old f1 with
  | Some p, Some on => if p =? parent
                       then inl (subst_in old (fun _ => [n]) f1 ++ [on])
                       else inr NotFoundError
  | _, _ => inr NotFoundError
  end.

(** The number of nodes of a tree. *)
Fixpoint size (n : Node) : nat :=
  match n with
  | Text _ _ => 1
  | Element _ _ cs => S (list_sum (map size cs))
  end.

(** [node.normalize()]: in every list of children below the node, empty
    Text nodes go away and each run of adjacent Text nodes is merged into
    its first node. *)
Fixpoint merge_texts (cs : list Node) : list Node :=
  match cs with
  | [] => []
  | Text i d :: cs' =>
      match d with
      | [] => merge_texts cs'
      | _ => match merge_texts cs' with
             | Text _ d' :: r => Text i (d ++ d') :: r
             | r => Text i d :: r
             end
      end
  | e :: cs' => e :: merge_texts cs'
  end.

Fixpoint normalize_node (n : Node) : Node :=
  match n with
  | Text _ _ => n
  | Element i t cs => Element i t (merge_texts (map normalize_node cs))
  end.

(** The Text nodes of a tree, in document order. *)
Fixpoint texts (n : Node) : list Node :=
  match n with
  | Text _ _ => [n]
  | Element _ _ cs => flat_map texts cs
  end.

(** [x.normalize()]; the Text nodes that are merged away stay in the store,
    without a parent. *)
Definition normalize (x : nat) (f : forest) : forest :=
  match lookup x f with
  | Some n =>
      let n' := normalize_node n in
      subst_in x (fun _ => [n']) f
      ++ filter (fun t => negb (existsb (Nat.eqb (nid t)) (ids n'))) (texts n)
  | None => f
  end.

(** A tree without the identities of its nodes. *)
Inductive Shape : Type :=
| T (data : jsstring)
| E (tag : jsstring) (childNodes : list Shape).

Fixpoint shape (n : Node) : Shape :=
  match n with
  | Text _ d => T d
  | Element _ t cs => E t (map shape cs)
  end.

End Dom.
Import Dom.

(* ===================================================================== *)
(** ** The parser of the host *)
(* ===================================================================== *)

Module Html.
Import String.StringSyntax.
Local Open Scope string_scope.

(** ASCII lower case: how the parser reads the name of a tag. *)
Definition lower (c : ascii) : ascii :=
  let n := nat_of_ascii c in
  if (65 <=? n) && (n <=? 90) then ascii_of_nat (n + 32) else c.

(** The start tags that the parser drops where it reads the content of a
    [div] (the rules "in body" of the HTML standard): no element comes of
    them. *)
Definition dropped_tags : list jsstring :=
  map lit ["caption"; "col"; "colgroup"; "frame"; "frameset"; "head"; "html"; "body";
           "tbody"; "td"; "tfoot"; "th"; "thead"; "tr"].

(** Line 203 for the element that [document.createElement(name)] has made,
    which has no attribute and no child: the children that [clone] has
    after [clone.innerHTML = stencilNode.outerHTML]. A dropped start tag
    leaves none; after the start tag of [plaintext] the parser takes the
    rest of the input, here the end tag, for text; [image] is read as
    [img]; every other name gives the element back. (The tag is kept as
    the caller has written it; a name that does not begin with a letter is
    not the name of an HTML element, and is taken like any other name.) *)
Definition parse_back (name : jsstring) : list Shape :=
  let n := map lower name in
  if existsb (JsString.eqb n) dropped_tags then []
  else if JsString.eqb n (lit "plaintext") then [E name [T (lit "</plaintext>")]]
  else if JsString.eqb n (lit "image") then [E (lit "img") []]
  else [E name []].

(** The number of nodes of a parsed tree. *)
Fixpoint shape_size (s : Shape) : nat :=
  match s with
  | T _ => 1
  | E _ cs => S (list_sum (map shape_size cs))
  end.

(** The node objects of a parsed tree, numbered from [base] on in document
    order. *)
Fixpoint build (base : nat) (s : Shape) : Node :=
  match s with
  | T d => Text base d
  | E t cs =>
      Element base t
        ((fix go (b : nat) (l : list Shape) : list Node :=
            match l with
            | [] => []
            | c :: l' => build b c :: go (b + shape_size c) l'
            end) (S base) cs)
  end.

End Html.
Import Html.

(* ===================================================================== *)
(** ** Regular expressions of the host *)
(* ===================================================================== *)

Module Regex.

(** The array that [exec] and [match] return: [m.index] and the elements
    [m[0]], [m[1]], ...; an element is [None] when it is [undefined] (a
    group that did not participate). *)
Record MatchArray : Type := mkMatch {
  m_index : Z;
  m_elems : list (option jsstring)
}.

(** [m[k]]; out of range is [undefined] as well. *)
Definition elem (m : MatchArray) (k : nat) : option jsstring :=
  match nth_error (m_elems m) k with
  | Some (Some s) => Some s
  | _ => None
  end.

(** A [RegExp] object as the code uses it: the [global] flag, [lastIndex],
    and the matching itself, [exec_at text i] being the first match of the
    pattern in [text] at or after position [i]. *)
Record RegExp : Type := mkRegExp {
  global : bool;
  lastIndex : nat;
  exec_at : jsstring -> nat -> option MatchArray
}.

(** What every pattern guarantees about a match it reports in [text] from
    position [i] on: it starts at or after [i], lies inside [text], and
    [m[0]] is the text at that place. *)
Definition match_ok (text : jsstring) (i : nat) (m : MatchArray) : bool :=
  match elem m 0 with
  | Some m0 =>
      (Z.of_nat i <=? m_index m)%Z
      && (m_index m + len m0 <=? len text)%Z
      && eqb (substring text (m_index m) (m_index m + len m0)) m0
  | None => false
  end.

Definition engine_ok (re : RegExp) (text : jsstring) : bool :=
  forallb (fun i => match exec_at re text i with
                    | Some m => match_ok text i m
                    | None => true
                    end)
          (lastIndex re :: seq 0 (S (length text))).

(** *** A small backtracking matcher, for concrete patterns *)

Inductive Re : Type :=
| Eps
| Chr (c : ascii)
| Digit
| Seq (a b : Re)
| Alt (a b : Re)
| Star (a : Re)
| Plus (a : Re)
| Group (k : nat) (a : Re)
| Ahead (a : Re).

Fixpoint set_nth {A : Type} (k : nat) (x : A) (l : list A) : list A :=
  match k, l with
  | _, [] => []
  | O, _ :: l' => x :: l'
  | S k', y :: l' => y :: set_nth k' x l'
  end.

Definition is_digit (c : ascii) : bool :=
  let n := nat_of_ascii c in (48 <=? n) && (n <=? 57).

Definition slice (s : jsstring) (a b : nat) : jsstring := firstn (b - a) (skipn a s).

(** The groups inside a pattern. *)
Fixpoint groups (r : Re) : list nat :=
  match r with
  | Eps | Chr _ | Digit => []
  | Seq a b | Alt a b => groups a ++ groups b
  | Star a | Plus a | Ahead a => groups a
  | Group k a => k :: groups a
  end.

(** The captures of the matcher: for the whole match (number 0) and for
    each group the range of the text that it has captured, from a position
    up to another, [None] as long as it has captured nothing. *)
Definition caps := list (option (nat * nat)).

(** The captures with the groups [gs] back to [undefined]. *)
Definition reset (gs : list nat) (c : caps) : caps :=
  fold_left (fun c' g => set_nth g None c') gs c.

Section Run.
Variable s : jsstring.

(** [run r R pos c k]: match [r] at [pos] with captures [c] and go on with
    [k]; alternatives are tried in order, repetitions are greedy, each
    round has to consume input and starts with the groups of the repeated
    pattern reset, a look-ahead is not re-entered. *)
Fixpoint run (r : Re) (R : Type) (pos : nat) (c : caps)
         (k : nat -> caps -> option R) {struct r} : option R :=
  match r with
  | Eps => k pos c
  | Chr a => match nth_error s pos with
             | Some b => if ascii_dec a b then k (S pos) c else None
             | None => None
             end
  | Digit => match nth_error s pos with
             | Some b => if is_digit b then k (S pos) c else None
             | None => None
             end
  | Seq a b => run a pos c (fun p c' => run b p c' k)
  | Alt a b => match run a pos c k with
               | Some x => Some x
               | None => run b pos c k
               end
  | Star a =>
      (fix loop (n : nat) (pos : nat) (c : caps) : option R :=
         match n with
         | O => k pos c
         | S n' =>
             match run a pos (reset (groups a) c)
                       (fun p c' => if pos <? p then loop n' p c' else None) with
             | Some x => Some x
             | None => k pos c
             end
         end) (S (length s)) pos c
  | Plus a =>
      run a pos (reset (groups a) c) (fun p0 c0 =>
      (fix loop (n : nat) (pos : nat) (c : caps) : option R :=
         match n with
         | O => k pos c
         | S n' =>
             match run a pos (reset (groups a) c)
                       (fun p c' => if pos <? p then loop n' p c' else None) with
             | Some x => Some x
             | None => k pos c
             end
         end) (S (length s)) p0 c0)
  | Group g a => run a pos c (fun p c' => k p (set_nth g (Some (pos, p)) c'))
  | Ahead a => match run a pos c (fun _ c' => Some c') with
               | Some c' => k pos c'
               | None => None
               end
  end.
End Run.

Fixpoint ngroups (r : Re) : nat :=
  match r with
  | Eps | Chr _ | Digit => 0
  | Seq a b | Alt a b => Nat.max (ngroups a) (ngroups b)
  | Star a | Plus a | Ahead a => ngroups a
  | Group k a => Nat.max k (ngroups a)
  end.

Fixpoint search (r : Re) (s : jsstring) (n : nat) (pos : nat) : option caps :=
  match run s r pos (repeat None (S (ngroups r)))
            (fun p c => Some (set_nth 0 (Some (pos, p)) c)) with
  | Some c => Some c
  | None => match n with
            | O => None
            | S n' => search r s n' (S pos)
            end
  end.

(** The ranges of the first match of [r] in [s] at or after position [i]:
    of the whole match and of every group. *)
Definition exec_spans (r : Re) (s : jsstring) (i : nat) : option caps :=
  if i <=? length s then search r s (length s - i) i else None.

(** The array that the host makes of the ranges: [index] is where the
    whole match starts, the elements are the captured texts. *)
Definition match_of (s : jsstring) (c : caps) : MatchArray :=
  mkMatch (match c with
           | Some (a, _) :: _ => Z.of_nat a
           | _ => 0%Z
           end)
          (map (option_map (fun ab : nat * nat => slice s (fst ab) (snd ab))) c).

Definition exec_re (r : Re) (s : jsstring) (i : nat) : option MatchArray :=
  option_map (match_of s) (exec_spans r s i).

(** The pattern [r] as a [RegExp] object, with or without the [g] flag. *)
Definition compile (g : bool) (r : Re) : RegExp := mkRegExp g 0 (exec_re r).

Fixpoint chars (l : jsstring) : Re :=
  match l with
  | [] => Eps
  | [a] => Chr a
  | a :: l' => Seq (Chr a) (chars l')
  end.

(** A literal pattern such as [/test/]. *)
Definition literal (w : String.string) : Re := chars (lit w).

End Regex.
Import Regex.

(* ===================================================================== *)
(** ** The program *)
(* ===================================================================== *)

Module Far.

(** What the code throws: its two messages, [TypeError] for a property read
    from [null] or [undefined], and the errors of the DOM. *)
Inductive Exn : Type :=
| ZeroLengthMatch       (* 'findAndReplaceDOMText cannot handle zero-length matches' *)
| InvalidCaptureGroup   (* 'Invalid capture group' *)
| TypeError
| DomException (e : DomError).

Inductive Outcome (A : Type) : Type :=
| Ok (a : A)
| Throw (e : Exn)
| OutOfFuel.
Arguments Ok {A} a.
Arguments Throw {A} e.
Arguments OutOfFuel {A}.

(** A recorded inverse of one splice: the closures pushed at lines 237 and
    263, by the variables they capture. *)
Inductive RevertAction : Type :=
| RevertOne (el : nat)
| RevertSpan (elA : nat) (innerEls : list nat) (elB : nat).

(** The store: the node objects, the next fresh identity, and the variable
    [reverts] of line 177, [None] while it is [undefined]. *)
Record State : Type := mkState {
  dom : forest;
  nextId : nat;
  reverts : option (list RevertAction)
}.

Definition M (A : Type) : Type := State -> Outcome A * State.

Definition ret {A : Type} (a : A) : M A := fun st => (Ok a, st).
Definition throw {A : Type} (e : Exn) : M A := fun st => (Throw e, st).
Definition bind {A B : Type} (m : M A) (k : A -> M B) : M B :=
  fun st => match m st with
            | (Ok a, st') => k a st'
            | (Throw e, st') => (Throw e, st')
            | (OutOfFuel, st') => (OutOfFuel, st')
            end.

Declare Scope far_scope.
Delimit Scope far_scope with far.
Notation "x <- m ;; k" := (bind m (fun x => k))
  (at level 61, m at next level, right associativity) : far_scope.
Notation "m ;;; k" := (bind m (fun _ => k))
  (at level 61, right associativity) : far_scope.
Open Scope far_scope.

(** *** Access to the store *)

Definition get_node (x : nat) : M Node :=
  fun st => match lookup x (dom st) with
            | Some n => (Ok n, st)
            | None => (Throw TypeError, st)
            end.

Definition get_parentNode (x : nat) : M (option nat) :=
  fun st => (Ok (parentNode x (dom st)), st).
Definition get_nextSibling (x : nat) : M (option nat) :=
  fun st => (Ok (nextSibling x (dom st)), st).
Definition get_firstChild (x : nat) : M (option nat) :=
  fun st => (Ok (firstChild x (dom st)), st).

(** Reading a property of [o]: a [TypeError] when [o] is [null]. *)
Definition deref {A : Type} (o : option A) : M A :=
  match o with Some a => ret a | None => throw TypeError end.

Definition fresh : M nat :=
  fun st => (Ok (nextId st), mkState (dom st) (S (nextId st)) (reverts st)).

Definition dom_op (op : forest -> forest + DomError) : M unit :=
  fun st => match op (dom st) with
            | inl f => (Ok tt, mkState f (nextId st) (reverts st))
            | inr e => (Throw (DomException e), st)
            end.

(** [document.createTextNode(d)]: the new node is held by the caller until
    it is inserted. *)
Definition createTextNode (d : jsstring) : M Node :=
  i <- fresh ;; ret (Text i d).

(** *** [_getMatchIndexes], lines 59-75 *)

Record MatchLocation : Type := mkLoc {
  loc_start : Z;               (* [0] *)
  loc_end : Z;                 (* [1] *)
  loc_match : list jsstring    (* [2], the array [[m[0]]] *)
}.

Definition _getMatchIndexes (m : option MatchArray) (captureGroup : option Z)
  : Exn + MatchLocation :=
  (* captureGroup = captureGroup || 0 *)
  let captureGroup := match captureGroup with Some c => c | None => 0%Z end in
  match m with
  | None => inl TypeError                         (* m[0] of null *)
  | Some m =>
      match elem m 0 with
      | None | Some [] => inl ZeroLengthMatch     (* if (!m[0]) throw *)
      | Some m0 =>
          let index := m_index m in
          if (captureGroup >? 0)%Z then
            match elem m (Z.to_nat captureGroup) with
            | None | Some [] => inl InvalidCaptureGroup   (* if (!cg) throw *)
            | Some cg =>
                let index := (index + indexOf m0 cg)%Z in
                inr (mkLoc index (index + len cg) [cg])
            end
          else inr (mkLoc index (index + len m0) [m0])
      end
  end.

(** The loop of lines 43-45: [regex.exec] starts at [lastIndex] and moves it
    to the end of the match it reports, before [_getMatchIndexes] narrows
    [m[0]]. *)
Fixpoint collect (fuel : nat) (regex : RegExp) (text : jsstring)
         (captureGroup : option Z) (last : nat) (matches : list MatchLocation)
  : Outcome (list MatchLocation) :=
  match fuel with
  | O => OutOfFuel
  | S fuel' =>
      match exec_at regex text last with
      | None => Ok matches
      | Some m =>
          match _getMatchIndexes (Some m) captureGroup with
          | inl e => Throw e
          | inr loc =>
              let m0 := match elem m 0 with Some s => s | None => [] end in
              collect fuel' regex text captureGroup
                      (Z.to_nat (m_index m + len m0)) (matches ++ [loc])
          end
      end
  end.

(** Lines 42-49. *)
Definition locate (fuel : nat) (regex : RegExp) (text : jsstring)
           (captureGroup : option Z) : Outcome (list MatchLocation) :=
  if global regex then
    collect fuel regex text captureGroup (lastIndex regex) []
  else
    match _getMatchIndexes (exec_at regex text 0) captureGroup with
    | inl e => Throw e
    | inr loc => Ok [loc]
    end.

(** *** [_getText], lines 81-95 *)

Definition _getText (node : nat) : M jsstring :=
  n <- get_node node ;; ret (text_of n).

(** *** [_genReplacer], lines 192-278 *)

(** The third argument of [findAndReplaceDOMText]: a node name; a node to
    clone, by its identity, together with what the host makes of it at line
    203 (the children that [clone] has once the serialization of the node
    is parsed back); or a function that makes the node. *)
Inductive Replacement : Type :=
| NodeName (nodeName : jsstring)
| StencilNode (stencil : nat) (reparse : Node -> list Shape)
| MakeNode (make : jsstring -> Z -> M Node).

(** Line 203 for a node name: the stencil is the element of line 199, which
    nothing but the closure holds. *)
Definition reparse_name (nodeName : jsstring) : Node -> list Shape :=
  fun _ => parse_back nodeName.

Definition alloc (k : nat) : M nat :=
  fun st => (Ok (nextId st), mkState (dom st) (nextId st + k) (reverts st)).

(** Lines 200-209, for the stencil node [stencil]: [el] is the first child
    of [clone], [None] ([null]) when the parser has left [clone] empty;
    [el.appendChild] then reads a property of [null]. *)
Definition makeReplacementNode (stencil : nat) (reparse : Node -> list Shape)
           (fill : jsstring) (matchIndex : Z) : M (option Node) :=
  sn <- get_node stencil ;;
  match reparse sn with
  | [] => if truthy fill then throw TypeError else ret None
  | s :: _ =>
      base <- alloc (shape_size s) ;;
      let el := build base s in
      if truthy fill then
        t <- createTextNode fill ;;
        match el with
        | Element i tg cs => ret (Some (Element i tg (cs ++ [t])))   (* el.appendChild *)
        | Text _ _ => throw (DomException HierarchyRequestError)
        end
      else ret (Some el)
  end.

(** A function given as the third argument returns the node. *)
Definition made_by (make : jsstring -> Z -> M Node) : jsstring -> Z -> M (option Node) :=
  fun fill matchIndex => n <- make fill matchIndex ;; ret (Some n).

Record Range : Type := mkRange {
  r_startNode : nat;
  r_startNodeIndex : Z;
  r_endNode : nat;
  r_endNodeIndex : Z;
  r_innerNodes : list nat;
  r_match : list jsstring;
  r_matchIndex : Z
}.

(** [node.data] of a node that the code takes for a Text node. *)
Definition get_data (x : nat) : M jsstring :=
  n <- get_node x ;;
  match n with
  | Text _ d => ret d
  | Element _ _ _ => throw TypeError
  end.

(** [ref.parentNode.insertBefore(n, ref)] *)
Definition insert_before_it (n : Node) (ref : nat) : M unit :=
  p <- get_parentNode ref ;; p <- deref p ;; dom_op (insertBefore p n ref).

(** [ref.parentNode.insertBefore(el, ref)] for the node [el] that
    [makeReplacementNode] has returned: the host refuses [null] with a
    [TypeError]. The result is the node that is now in the document. *)
Definition insert_made_before (el : option Node) (ref : nat) : M Node :=
  p <- get_parentNode ref ;; p <- deref p ;; n <- deref el ;;
  dom_op (insertBefore p n ref) ;;; ret n.

(** [x.parentNode.removeChild(x)] *)
Definition remove_it (x : nat) : M unit :=
  p <- get_parentNode x ;; p <- deref p ;; dom_op (removeChild p x).

(** [reverts.push(a)] *)
Definition push_revert (a : RevertAction) : M unit :=
  fun st => match reverts st with
            | Some l => (Ok tt, mkState (dom st) (nextId st) (Some (l ++ [a])))
            | None => (Throw TypeError, st)
            end.

(** The loop of lines 250-255. *)
Fixpoint replace_inner (make : jsstring -> Z -> M (option Node)) (matchIndex : Z)
         (innerNodes : list nat) (innerEls : list nat) : M (list nat) :=
  match innerNodes with
  | [] => ret innerEls
  | innerNode :: rest =>
      d <- get_data innerNode ;;
      innerEl <- make d matchIndex ;;
      p <- get_parentNode innerNode ;; p <- deref p ;;
      innerEl <- deref innerEl ;;                  (* replaceChild(null, ...) *)
      dom_op (replaceChild p innerEl innerNode) ;;;
      replace_inner make matchIndex rest (innerEls ++ [nid innerEl])
  end.

(** The function [replace] that [_genReplacer] returns, lines 214-276. *)
Definition replace (make : jsstring -> Z -> M (option Node)) (range : Range) : M nat :=
  let startNode := r_startNode range in
  let endNode := r_endNode range in
  let matchIndex := r_matchIndex range in
  if startNode =? endNode then
    let node := startNode in
    (if (r_startNodeIndex range >? 0)%Z then
       d <- get_data node ;;
       before <- createTextNode (substring d 0 (r_startNodeIndex range)) ;;
       insert_before_it before node
     else ret tt) ;;;
    el <- make (hd [] (r_match range)) matchIndex ;;
    el <- insert_made_before el node ;;
    d <- get_data node ;;
    (if (r_endNodeIndex range <? len d)%Z then
       after <- createTextNode (substring_from d (r_endNodeIndex range)) ;;
       insert_before_it after node
     else ret tt) ;;;
    remove_it node ;;;
    push_revert (RevertOne (nid el)) ;;;
    ret (nid el)
  else
    ds <- get_data startNode ;;
    before <- createTextNode (substring ds 0 (r_startNodeIndex range)) ;;
    de <- get_data endNode ;;
    after <- createTextNode (substring_from de (r_endNodeIndex range)) ;;
    elA <- make (substring_from ds (r_startNodeIndex range)) matchIndex ;;
    innerEls <- replace_inner make matchIndex (r_innerNodes range) [] ;;
    elB <- make (substring de 0 (r_endNodeIndex range)) matchIndex ;;
    insert_before_it before startNode ;;;
    elA <- insert_made_before elA startNode ;;
    remove_it startNode ;;;
    elB <- insert_made_before elB endNode ;;
    insert_before_it after endNode ;;;
    remove_it endNode ;;;
    push_revert (RevertSpan (nid elA) innerEls (nid elB)) ;;;
    ret (nid elB).

(** [_genReplacer(nodeName)]: line 194 resets [reverts]; for a node name,
    line 199 creates the stencil element. *)
Definition _genReplacer (nodeName : Replacement) : M (Range -> M nat) :=
  (fun st => (Ok tt, mkState (dom st) (nextId st) (Some []))) ;;;
  match nodeName with
  | MakeNode make => ret (replace (made_by make))
  | StencilNode stencil reparse => ret (replace (makeReplacementNode stencil reparse))
  | NodeName tg =>
      i <- fresh ;;
      (fun st => (Ok tt, mkState (dom st ++ [Element i tg []]) (nextId st) (reverts st))) ;;;
      ret (replace (makeReplacementNode i (reparse_name tg)))
  end.

(** *** [_stepThroughMatches], lines 101-175 *)

(** The variables of the walk. *)
Record Walk : Type := mkWalk {
  startNode : option nat;
  endNode : option nat;
  startNodeIndex : Z;
  endNodeIndex : Z;
  innerNodes : list nat;
  atIndex : Z;
  curNode : nat;
  matchLocation : MatchLocation;
  matches : list MatchLocation;
  matchIndex : Z
}.

Definition is_some {A : Type} (o : option A) : bool :=
  match o with Some _ => true | None => false end.

(** Lines 117-130: what a Text node [curNode], of length [length], does to
    the variables. *)
Definition visit_text (w : Walk) (length : Z) : Walk :=
  let loc := matchLocation w in
  let found_end := negb (is_some (endNode w)) && (length + atIndex w >=? loc_end loc)%Z in
  let found_start := negb (is_some (startNode w)) && (length + atIndex w >? loc_start loc)%Z in
  mkWalk
    (if found_start then Some (curNode w) else startNode w)
    (if found_end then Some (curNode w) else endNode w)
    (if found_start then (loc_start loc - atIndex w)%Z else startNodeIndex w)
    (if found_end then (loc_end loc - atIndex w)%Z else endNodeIndex w)
    (if found_end then innerNodes w
     else if is_some (startNode w) then innerNodes w ++ [curNode w]
          else innerNodes w)
    (atIndex w + length)%Z
    (curNode w) loc (matches w) (matchIndex w).

Definition out_of_fuel {A : Type} : M A := fun st => (OutOfFuel, st).

(** The inner loop, lines 162-171: the next node, or [None] for
    [break out]. *)
Fixpoint forward_or_up (fuel : nat) (node : nat) (curNode : nat) : M (option nat) :=
  match fuel with
  | O => out_of_fuel
  | S fuel' =>
      ns <- get_nextSibling curNode ;;
      match ns with
      | Some s => ret (Some s)
      | None =>
          p <- get_parentNode curNode ;;
          match p with
          | Some p' => if p' =? node then ret None
                       else forward_or_up fuel' node p'
          | None => throw TypeError          (* nextSibling of null *)
          end
      end
  end.

Inductive Next : Type :=
| Continue (w : Walk)
| Break.

Definition move_to (w : Walk) (c : nat) : Walk :=
  mkWalk (startNode w) (endNode w) (startNodeIndex w) (endNodeIndex w)
         (innerNodes w) (atIndex w) c (matchLocation w) (matches w) (matchIndex w).

(** One round of the outer loop, lines 116-171. *)
Definition walk_step (fuel : nat) (node : nat) (replaceFn : Range -> M nat)
           (w0 : Walk) : M Next :=
  n <- get_node (curNode w0) ;;
  let w := if is_text n then visit_text w0 (len (data_of n)) else w0 in
  match startNode w, endNode w with
  | Some s, Some e =>
      cur <- replaceFn (mkRange s (startNodeIndex w) e (endNodeIndex w)
                                (innerNodes w) (loc_match (matchLocation w))
                                (matchIndex w)) ;;
      de <- get_data e ;;
      let at' := (atIndex w - (len de - endNodeIndex w))%Z in
      match matches w with
      | [] => ret Break
      | loc :: rest =>
          nx <- forward_or_up fuel node cur ;;
          match nx with
          | Some c => ret (Continue (mkWalk None None (startNodeIndex w) (endNodeIndex w)
                                            [] at' c loc rest (matchIndex w + 1)%Z))
          | None => ret Break
          end
      end
  | _, _ =>
      fc <- get_firstChild (curNode w) ;;
      ns <- get_nextSibling (curNode w) ;;
      match (match fc with Some c => Some c | None => ns end) with
      | Some c => ret (Continue (move_to w c))
      | None =>
          nx <- forward_or_up fuel node (curNode w) ;;
          match nx with
          | Some c => ret (Continue (move_to w c))
          | None => ret Break
          end
      end
  end.

Fixpoint walk_loop (fuel : nat) (bound : nat) (node : nat)
         (replaceFn : Range -> M nat) (w : Walk) : M unit :=
  match fuel with
  | O => out_of_fuel
  | S fuel' =>
      nx <- walk_step bound node replaceFn w ;;
      match nx with
      | Break => ret tt
      | Continue w' => walk_loop fuel' bound node replaceFn w'
      end
  end.

(** [matches.shift()] of line 111 is [first]: the caller has checked
    [matches.length]. *)
Definition _stepThroughMatches (fuel : nat) (node : nat)
           (first : MatchLocation) (rest : list MatchLocation)
           (replaceFn : Range -> M nat) : M unit :=
  walk_loop fuel fuel node replaceFn
            (mkWalk None None 0 0 [] 0 node first rest 0).

(** *** [findAndReplaceDOMText], lines 35-54 *)

Definition lift {A : Type} (o : Outcome A) : M A := fun st => (o, st).

Definition findAndReplaceDOMText (fuel : nat) (regex : RegExp) (node : nat)
           (replacementNode : Replacement) (captureGroup : option Z) : M unit :=
  text <- _getText node ;;
  replaceFn <- _genReplacer replacementNode ;;
  if negb (truthy text) then ret tt
  else
    matches <- lift (locate fuel regex text captureGroup) ;;
    match matches with
    | [] => ret tt
    | first :: rest => _stepThroughMatches fuel node first rest replaceFn
    end.

(** *** [findAndReplaceDOMText.revert], lines 181-186 *)

(** Lines 238-241 and 268-271: take the replacement node [el] out again. *)
Definition unwrap (el : nat) : M unit :=
  pnode <- get_parentNode el ;;
  pnode <- deref pnode ;;
  c <- get_firstChild el ;;
  c <- deref c ;;
  cn <- get_node c ;;
  dom_op (insertBefore pnode cn el) ;;;
  dom_op (removeChild pnode el) ;;;
  dom_op (fun f => inl (normalize pnode f)).

Fixpoint unwrap_all (els : list nat) : M unit :=
  match els with
  | [] => ret tt
  | el :: rest => unwrap el ;;; unwrap_all rest
  end.

Fixpoint update_nth {A : Type} (k : nat) (x : A) (l : list A) : list A :=
  match k, l with
  | _, [] => []
  | O, _ :: l' => x :: l'
  | S k', y :: l' => y :: update_nth k' x l'
  end.

(** [reverts[i]()]; the closure of line 263 first extends the array
    [innerEls] it has captured. *)
Definition call_revert (i : nat) : M unit :=
  fun st =>
    match reverts st with
    | None => (Throw TypeError, st)
    | Some l =>
        match nth_error l i with
        | None => (Throw TypeError, st)
        | Some (RevertOne el) => unwrap el st
        | Some (RevertSpan elA innerEls elB) =>
            let innerEls' := elA :: innerEls ++ [elB] in
            unwrap_all innerEls'
              (mkState (dom st) (nextId st)
                       (Some (update_nth i (RevertSpan elA innerEls' elB) l)))
        end
    end.

Fixpoint revert_loop (l : nat) (i : nat) : M unit :=
  match l with
  | O => ret tt
  | S l' => call_revert i ;;; revert_loop l' (S i)
  end.

Definition revert : M unit :=
  fun st =>
    match reverts st with
    | None => (Throw TypeError, st)                 (* reverts.length *)
    | Some l =>
        (revert_loop (length l) 0 ;;;
         (fun st' => (Ok tt, mkState (dom st') (nextId st') (Some [])))) st
    end.

End Far.
Import Far.

(* ===================================================================== *)
(** ** The script that uses the function: [bulshitize] *)
(* ===================================================================== *)

Module Bullshit.
Import String.StringSyntax.
Local Open Scope string_scope.

(** [s.charAt(0)]: the first code unit as a string, the empty string when
    there is none. *)
Definition charAt0 (s : jsstring) : jsstring := firstn 1 s.

(** The code units below 256 that [toUpperCase] changes: a to z, the micro
    sign, the sharp s and the accented small letters of Latin-1. *)
Definition has_upper (a : ascii) : bool :=
  let n := nat_of_ascii a in
  ((97 <=? n) && (n <=? 122)) || (n =? 181)
  || ((223 <=? n) && (n <=? 246)) || ((248 <=? n) && (n <=? 255)).

(** [c === c.toUpperCase()] for the result [c] of [charAt]. *)
Definition is_own_upper (c : jsstring) : bool :=
  match c with
  | [a] => negb (has_upper a)
  | _ => true
  end.

(** [s.substr(start)]: a negative [start] counts from the end. *)
Definition substr (s : jsstring) (start : Z) : jsstring :=
  let from := if (start <? 0)%Z then Z.max (len s + start) 0 else Z.min start (len s) in
  skipn (Z.to_nat from) s.

(** The [abbr] element that [bulshitize] returns, by what the function sets
    on it. *)
Record Abbr : Type := mkAbbr {
  abbr_style : jsstring;
  abbr_title : jsstring;
  abbr_innerHTML : jsstring
}.

(** Lines 659-672. *)
Definition bulshitize (term : jsstring) : Abbr :=
  let c := charAt0 term in
  let bullshit := (if is_own_upper c then lit "B" else lit "b") ++ lit "ullshit" in
  let bullshit := if JsString.eqb (substr term (len term - 3)) (lit "ing")
                  then bullshit ++ lit "ing" else bullshit in
  mkAbbr (lit "color:red") term bullshit.

(** The term ends in ing. *)
Definition ends_ing (s : jsstring) : Prop := exists pre, s = pre ++ lit "ing".

End Bullshit.
Import Bullshit.

(* ===================================================================== *)
(** ** Concrete documents and patterns *)
(* ===================================================================== *)

Module Scenario.
Import String.StringSyntax Ascii.AsciiSyntax.
Local Open Scope string_scope.

(** A store that holds one document, before any call: [reverts] is still
    [undefined]. *)
Definition page (doc : Node) : State := mkState [doc] (S (list_max (ids doc))) None.

Definition em : Replacement := NodeName (lit "em").
Definition plaintext : Replacement := NodeName (lit "plaintext").
Definition td : Replacement := NodeName (lit "td").

(** [<p>This is a test</p>] *)
Definition p_test : Node := Element 0 (lit "p") [Text 1 (lit "This is a test")].

(** [foo <b>bar</b> baz] inside a [div] *)
Definition div_foo : Node :=
  Element 0 (lit "div")
    [Text 1 (lit "foo "); Element 2 (lit "b") [Text 3 (lit "bar")]; Text 4 (lit " baz")].

(** [<p>abc</p>] and [<p>ab</p>] *)
Definition p_abc : Node := Element 0 (lit "p") [Text 1 (lit "abc")].
Definition p_ab : Node := Element 0 (lit "p") [Text 1 (lit "ab")].

(** [<p>a-a</p>] *)
Definition p_a_a : Node := Element 0 (lit "p") [Text 1 (lit "a-a")].

(** [<p>abab</p>] *)
Definition p_abab : Node := Element 0 (lit "p") [Text 1 (lit "abab")].

(** A paragraph whose text is split over three Text nodes, the middle one
    empty. *)
Definition p_fo_o : Node :=
  Element 0 (lit "p") [Text 1 (lit "fo"); Text 2 []; Text 3 (lit "o")].

(** The patterns test, foo, foo bar baz, xyz, x-star, (x-star)ab, c(b-star),
    (digit-plus) followed by " items", and a(?=(bab)), in that order; the
    parentheses are capture group 1, (?= ) is a look-ahead. *)
Definition re_test : Re := literal "test".
Definition re_foo : Re := literal "foo".
Definition re_xyz : Re := literal "xyz".
Definition re_foo_bar_baz : Re := literal "foo bar baz".
Definition re_xstar : Re := Star (Chr "x"%char).
Definition re_xstar_ab : Re := Seq (Group 1 (Star (Chr "x"%char))) (literal "ab").
Definition re_c_bstar : Re := Seq (Chr "c"%char) (Group 1 (Star (Chr "b"%char))).
Definition re_items : Re := Seq (Group 1 (Plus Digit)) (literal " items").
Definition re_ahead : Re := Seq (Chr "a"%char) (Ahead (Group 1 (literal "bab"))).

(** The pattern a, and the patterns a|x-star, (x)|ab and xa(a). *)
Definition re_a : Re := Chr "a"%char.
Definition re_a_or_xstar : Re := Alt (Chr "a"%char) (Star (Chr "x"%char)).
Definition re_x_or_ab : Re := Alt (Group 1 (Chr "x"%char)) (literal "ab").
Definition re_xa_a : Re := Seq (literal "xa") (Group 1 (Chr "a"%char)).

(** [<p>xaa</p>] *)
Definition p_xaa : Node := Element 0 (lit "p") [Text 1 (lit "xaa")].

(** [<p>x<b>ab</b>y</p>], and the patterns xab and by. *)
Definition p_x_ab_y : Node :=
  Element 0 (lit "p")
    [Text 1 (lit "x"); Element 2 (lit "b") [Text 3 (lit "ab")]; Text 4 (lit "y")].
Definition re_xab : Re := literal "xab".
Definition re_by : Re := literal "by".

(** The children of the node [x], without identities. *)
Definition child_shapes (x : nat) (st : State) : option (list Shape) :=
  match lookup x (dom st) with
  | Some n => Some (map shape (children n))
  | None => None
  end.

(** The aggregate text of the node [x]. *)
Definition flat (x : nat) (st : State) : option jsstring :=
  match lookup x (dom st) with
  | Some n => Some (text_of n)
  | None => None
  end.

End Scenario.

(* ===================================================================== *)
(** ** The vocabulary of the properties *)
(* ===================================================================== *)

Unset Implicit Arguments.

Module Invariants.

(** *** Calls and match locations *)

Section Calls.

(** The store after [_genReplacer]: [reverts] is the empty array, and a node
    name has put its stencil element into the store. *)
Definition prepared (nodeName : Replacement) (st : State) : State :=
  match nodeName with
  | NodeName tg => mkState (dom st ++ [Element (nextId st) tg []]) (S (nextId st)) (Some [])
  | _ => mkState (dom st) (nextId st) (Some [])
  end.

Definition replacer (nodeName : Replacement) (st : State) : Range -> M nat :=
  match nodeName with
  | NodeName tg => replace (makeReplacementNode (nextId st) (reparse_name tg))
  | StencilNode stencil reparse => replace (makeReplacementNode stencil reparse)
  | MakeNode make => replace (made_by make)
  end.

(** Where the first search of a call starts. *)
Definition first_search (regex : RegExp) : nat :=
  if global regex then lastIndex regex else 0.

(** Where the search number [k] of the loop of lines 43-45 starts, counted
    from 0 and from the position [last] on: each search before it has
    reported a match that [_getMatchIndexes] has located, and has left
    [lastIndex] at the end of that match. [None] when the loop does not come
    to a search number [k]. *)
Fixpoint search_start (k : nat) (regex : RegExp) (text : jsstring)
         (captureGroup : option Z) (last : nat) : option nat :=
  match k with
  | O => Some last
  | S k' =>
      match exec_at regex text last with
      | Some m =>
          match _getMatchIndexes (Some m) captureGroup with
          | inr _ =>
              let m0 := match elem m 0 with Some s => s | None => [] end in
              search_start k' regex text captureGroup (Z.to_nat (m_index m + len m0))
          | inl _ => None
          end
      | None => None
      end
  end.

(** The same for a call: with the [g] flag the searches start at
    [lastIndex]; without it there is one search, from 0. *)
Definition reached (regex : RegExp) (text : jsstring) (captureGroup : option Z) (k : nat)
  : option nat :=
  if global regex then search_start k regex text captureGroup (lastIndex regex)
  else match k with O => Some O | S _ => None end.

(** The exceptions of the host. *)
Definition host_error (e : Exn) : bool :=
  match e with
  | TypeError | DomException _ => true
  | _ => false
  end.

(** A computation that throws nothing but exceptions of the host. *)
Definition mild {A : Type} (m : M A) : Prop :=
  forall st e st', m st = (Throw e, st') -> host_error e = true.

(** A third argument that, if it is a function of the caller, does not
    throw the two messages of the code itself. *)
Definition tame (nodeName : Replacement) : Prop :=
  match nodeName with
  | MakeNode make => forall fill matchIndex, mild (make fill matchIndex)
  | _ => True
  end.

(** The calls that make no replacement: the text of the node is empty, or
    the search has found nothing. *)
Definition nothing_to_replace (fuel : nat) (regex : RegExp) (text : jsstring)
           (captureGroup : option Z) : Prop :=
  truthy text = false \/ locate fuel regex text captureGroup = Ok [].

End Calls.

Section Order.
Local Open Scope Z_scope.

(** Each location starts at or after [lo], and at or after the end of the
    one before it. *)
Fixpoint chain (lo : Z) (l : list MatchLocation) : Prop :=
  match l with
  | [] => True
  | a :: l' => lo <= loc_start a /\ chain (loc_end a) l'
  end.

Definition last_end (lo : Z) (l : list MatchLocation) : Z :=
  fold_left (fun _ a => loc_end a) l lo.


(** The text of the selected capture group occurs inside the full match, for
    every match the pattern can report in [text]. *)
Definition captures_inside (regex : RegExp) (text : jsstring) (captureGroup : option Z) : bool :=
  match captureGroup with
  | None => true
  | Some c =>
      if c >? 0 then
        forallb (fun i => match exec_at regex text i with
                          | Some m => match elem m 0, elem m (Z.to_nat c) with
                                      | Some m0, Some cg => 0 <=? indexOf m0 cg
                                      | _, _ => true
                                      end
                          | None => true
                          end)
                (lastIndex regex :: seq 0 (S (length text)))
      else true
  end.

End Order.

(** *** Places in the store *)

Section Zipper.

Record Frame : Type := mkFrame {
  f_id : nat;
  f_tag : jsstring;
  f_left : list Node;
  f_right : list Node
}.

Definition wrap (fr : Frame) (n : Node) : Node :=
  Element (f_id fr) (f_tag fr) (f_left fr ++ n :: f_right fr).

(** The frames are listed from the parent of the node upwards. *)
Fixpoint plug (fs : list Frame) (n : Node) : Node :=
  match fs with
  | [] => n
  | fr :: fs' => plug fs' (wrap fr n)
  end.

(** The same with a list of nodes in the place of one. *)
Definition plug_list (fs : list Frame) (ns : list Node) : list Node :=
  match fs with
  | [] => ns
  | fr :: fs' => [plug fs' (Element (f_id fr) (f_tag fr) (f_left fr ++ ns ++ f_right fr))]
  end.

Definition left_text (fs : list Frame) : jsstring :=
  fold_right (fun fr acc => acc ++ flat_map text_of (f_left fr)) [] fs.

Definition right_text (fs : list Frame) : jsstring :=
  flat_map (fun fr => flat_map text_of (f_right fr)) fs.

Definition frame_ids (fs : list Frame) : list nat :=
  flat_map (fun fr => f_id fr :: flat_map ids (f_left fr) ++ flat_map ids (f_right fr)) fs.

Definition left_ids (fs : list Frame) : list nat :=
  flat_map (fun fr => flat_map ids (f_left fr)) fs.

Definition right_ids (fs : list Frame) : list nat :=
  flat_map (fun fr => flat_map ids (f_right fr)) fs.

Definition map_frame (h : list Node -> list Node) (fr : Frame) : Frame :=
  mkFrame (f_id fr) (f_tag fr) (h (f_left fr)) (h (f_right fr)).

End Zipper.

Section StoreIds.

Definition all_ids (f : forest) : list nat := flat_map ids f.

Definition ctx_ids (pre : forest) (fs : list Frame) (post : forest) : list nat :=
  all_ids pre ++ frame_ids fs ++ all_ids post.

End StoreIds.

Section Ops.
Variable k : nat.
Variable tg : jsstring.

(** The stencil element that [_genReplacer] has made for a node name. *)
Definition stencil : Node := Element k tg [].

(** What every step of [replace] keeps: the nodes of the store have
    distinct identities below [nextId]; so do the nodes [P] that have been
    created and not yet inserted; the stencil, an element without a child,
    is in the store, and the parser reads it back as the element [tg]
    without a child, which it reads back as it is; [reverts] is an
    array. *)
Record Kept (st : State) (P : list Node) : Prop := mkKept {
  k_nodup : NoDup (all_ids (dom st));
  k_below : forall i, In i (all_ids (dom st)) -> i < nextId st;
  k_pnodup : NoDup (flat_map ids P);
  k_pbelow : forall i, In i (flat_map ids P) -> i < nextId st;
  k_pfresh : forall i, In i (flat_map ids P) -> ~ In i (all_ids (dom st));
  k_stencil : exists name, In (Element k name []) (dom st)
                           /\ parse_back name = [E tg []];
  k_plain : parse_back tg = [E tg []];
  k_reverts : reverts st <> None
}.

(** The store after the Text node [x] has got the nodes [news] before it
    ([keep]) or in its place. *)
Definition put (x : nat) (dx : jsstring) (news : list Node) (keep : bool)
           (f : forest) : forest :=
  subst_in x (fun r => news ++ (if keep then [r] else [])) f
  ++ (if keep then [] else [Text x dx]).

End Ops.

Section TextSubst.

(** All the nodes of a tree. *)
Fixpoint nodes (n : Node) : list Node :=
  match n with
  | Text _ _ => [n]
  | Element _ _ cs => n :: flat_map nodes cs
  end.

(** A node that is somewhere in the store. *)
Definition inside (m : Node) (f : forest) : Prop :=
  exists pre fs post, f = pre ++ plug fs m :: post.

End TextSubst.

Section Put.

Definition put_fn (news : list Node) (keep : bool) : Node -> list Node :=
  fun r => news ++ (if keep then [r] else []).

End Put.

Section Steps.
Variable k : nat.
Variable tg : jsstring.

Definition set_dom (st : State) (f : forest) : State :=
  mkState f (nextId st) (reverts st).

Definition set_next (st : State) (i : nat) : State :=
  mkState (dom st) i (reverts st).

(** Every Text node of the store is still the same Text node. *)
Definition Persist (st st' : State) : Prop :=
  forall y dy, lookup y (dom st) = Some (Text y dy) ->
               lookup y (dom st') = Some (Text y dy).

(** The replacement node for [fill], with identities from [i] on. *)
Definition make_el (i : nat) (fill : jsstring) : Node :=
  Element i tg (if truthy fill then [Text (S i) fill] else []).

Definition el_size (fill : jsstring) : nat := if truthy fill then 2 else 1.

End Steps.

Section Span.
Variable tg : jsstring.

(** The store after the Text nodes [inner], given with their data, have
    given way one after the other to replacement nodes for their data,
    with identities from [base] on (lines 250-255). *)
Fixpoint put_inner (base : nat) (inner : list (nat * jsstring)) (f : forest) : forest :=
  match inner with
  | [] => f
  | (x, d) :: rest => put_inner (base + el_size d) rest (put x d [make_el tg base d] false f)
  end.

(** The identities of these replacement nodes, and the number of
    identities that the nodes take with their Text children. *)
Fixpoint inner_els (base : nat) (inner : list (nat * jsstring)) : list nat :=
  match inner with
  | [] => []
  | (_, d) :: rest => base :: inner_els (base + el_size d) rest
  end.

Fixpoint inner_size (inner : list (nat * jsstring)) : nat :=
  match inner with
  | [] => 0
  | (_, d) :: rest => el_size d + inner_size rest
  end.

(** The nodes that lines 246-249 and 256 create for a match from the
    index [si] of the start node, with data [ds], to the index [ei] of the
    end node, with data [de], when the next fresh identity is [b]: the Text
    nodes [before] and [after], and the replacement nodes [elA] and
    [elB]. *)
Definition span_before (b : nat) (ds : jsstring) (si : Z) : Node :=
  Text b (substring ds 0 si).

Definition span_after (b : nat) (de : jsstring) (ei : Z) : Node :=
  Text (S b) (substring_from de ei).

Definition span_elA (b : nat) (ds : jsstring) (si : Z) : Node :=
  make_el tg (S (S b)) (substring_from ds si).

Definition span_elB (b : nat) (ds : jsstring) (si : Z) (inner : list (nat * jsstring))
           (de : jsstring) (ei : Z) : Node :=
  make_el tg (S (S b) + el_size (substring_from ds si) + inner_size inner)
          (substring de 0 ei).

(** The store after lines 245-262: every inner node has given way to its
    replacement node; in the place of the start node [s] are [before] and
    [elA], in the place of the end node [e] are [elB] and [after]; the
    nodes that have given way are out of the document. *)
Definition span_replaced (b s : nat) (ds : jsstring) (si : Z) (e : nat) (de : jsstring)
           (ei : Z) (inner : list (nat * jsstring)) (f : forest) : forest :=
  put e de [span_elB b ds si inner de ei; span_after b de ei] false
      (put s ds [span_before b ds si; span_elA b ds si] false
           (put_inner (S (S b) + el_size (substring_from ds si)) inner f)).

End Span.

(** The store between two replacements of a call whose stencil is the
    element [k], made for the node name [name]: the nodes have distinct
    identities below [nextId], the stencil is there, [reverts] is an
    array. *)
Definition between (k : nat) (name : jsstring) (st : State) : Prop :=
  NoDup (all_ids (dom st))
  /\ (forall i, In i (all_ids (dom st)) -> i < nextId st)
  /\ In (Element k name []) (dom st)
  /\ reverts st <> None.

Section Single.
Variable k : nat.
Variable tg : jsstring.

(** The nodes [news] have been created and put before the Text node [x]. *)
Record Inserted (st st' : State) (x : nat) (d : jsstring) (news : list Node) : Prop :=
  mkInserted {
    i_dom : dom st' = put x d news true (dom st);
    i_kept : Kept k tg st' [];
    i_persist : Persist st st';
    i_fresh : ~ In x (flat_map ids news);
    i_next : nextId st <= nextId st';
    i_reverts : reverts st' = reverts st
  }.

End Single.

Section Tracking.

(** Two frames of the same element, with the same text on either side. *)
Definition frame_sim (fr fr' : Frame) : Prop :=
  f_id fr = f_id fr'
  /\ flat_map text_of (f_left fr) = flat_map text_of (f_left fr')
  /\ flat_map text_of (f_right fr) = flat_map text_of (f_right fr').

(** Every node that contains none of the nodes [X] has, in [f'], the place
    it has in [f], up to what [frame_sim] allows. *)
Definition Tracked (X : list nat) (f f' : forest) : Prop :=
  forall pre fs sub post,
    f = pre ++ plug fs sub :: post ->
    (forall x, In x X -> ~ In x (ids sub)) ->
    exists pre' fs' post',
      f' = pre' ++ plug fs' sub :: post' /\ Forall2 frame_sim fs fs'
      /\ ((forall x, In x X -> ~ In x (right_ids fs)) ->
          map f_right fs' = map f_right fs).

End Tracking.

Section Reverts.

(** The replacement nodes that a recorded inverse takes out again, in the
    order in which it does so. *)
Definition rev_els (a : RevertAction) : list nat :=
  match a with
  | RevertOne el => [el]
  | RevertSpan elA innerEls elB => elA :: innerEls ++ [elB]
  end.

Definition pending_els (st : State) : list nat :=
  match reverts st with
  | Some l => flat_map rev_els l
  | None => []
  end.

(** The number of inverses that the revert list holds. *)
Definition recorded (st : State) : nat :=
  match reverts st with
  | Some l => length l
  | None => 0
  end.

(** The children of a replacement node: none, or one Text node. *)
Definition thin (cs : list Node) : bool :=
  match cs with
  | [] => true
  | [Text _ _] => true
  | _ => false
  end.

(** A replacement node as [makeReplacementNode] has made it, or as taking
    it out has left it. *)
Definition wrapper (k : nat) (f : forest) (el : nat) : Prop :=
  k < el /\ exists t cs, lookup el f = Some (Element el t cs) /\ thin cs = true.

End Reverts.

Section Fresh.

(** A computation that, when it returns, has not lowered the next fresh
    identity and has left the revert list alone. *)
Definition keeps {A : Type} (m : M A) : Prop :=
  forall st a st', m st = (Ok a, st') -> nextId st <= nextId st' /\ reverts st' = reverts st.

(** A computation that does not return a value, and one that, when it
    returns, has left the store as it was. *)
Definition fails {A : Type} (m : M A) : Prop :=
  forall st a st', m st <> (Ok a, st').

Definition quiet {A : Type} (m : M A) : Prop :=
  forall st a st', m st = (Ok a, st') -> st' = st.


End Fresh.

Section Undoing.

(** The node [R] with the text [T]; a Text node [R] is out of the
    document when there are replacement nodes [E] to take out. *)
Definition root_ok (R : nat) (T : jsstring) (E : list nat) (f : forest) : Prop :=
  exists n, lookup R f = Some n /\ text_of n = T
            /\ (is_text n = true -> E = [] \/ In n f).

(** A replacement node that has been taken out: it is out of the document
    and has no child. *)
Definition undone (f : forest) (el : nat) : Prop :=
  exists t, In (Element el t []) f.

(** What [revert] keeps while it takes out the replacement nodes [E]. *)
Record Undo (k R : nat) (T : jsstring) (E : list nat) (st : State) : Prop := mkUndo {
  u_nodup : NoDup (all_ids (dom st));
  u_root : root_ok R T E (dom st);
  u_old : R < k;
  u_els : forall el, In el E -> wrapper k (dom st) el
}.

End Undoing.

Section Settled.

(** No replacement node in a subtree: its elements are older than the
    stencil [k]. *)
Definition settled (k : nat) (n : Node) : Prop :=
  forall m, In m (nodes n) -> is_text m = false -> nid m < k.

(** The same for the elements on the way up and the subtrees to their
    right. *)
Definition old_frames (k : nat) (fs : list Frame) : Prop :=
  forall fr, In fr fs -> f_id fr < k /\ forall c, In c (f_right fr) -> settled k c.

(** Every recorded replacement node is as [makeReplacementNode] has made
    it. *)
Definition Wrapped (k : nat) (st : State) : Prop :=
  forall el, In el (pending_els st) -> wrapper k (dom st) el.

(** The node [y] is a Text node whose parent is older than the stencil. *)
Definition parent_old (k : nat) (f : forest) (y : nat) : Prop :=
  (exists d, lookup y f = Some (Text y d))
  /\ exists p, parentNode y f = Some p /\ p < k.

End Settled.

Section Walk.
Local Open Scope Z_scope.
Variable k : nat.
Variable tg : jsstring.
Variable R : nat.
Variable T : jsstring.

(** The matches still to be replaced lie in [T], one after the other from
    [lo] on, and each carries the text that [T] has at its place. *)
Fixpoint chain_in (lo : Z) (l : list MatchLocation) : Prop :=
  match l with
  | [] => True
  | a :: l' =>
      lo <= loc_start a /\ loc_start a < loc_end a /\ loc_end a <= len T
      /\ loc_match a = [substring T (loc_start a) (loc_end a)]
      /\ chain_in (loc_end a) l'
  end.

(** The node [sub] at its place below the node [R], whose text is [T]. *)
Record Place (st : State) (pre : forest) (inner outer : list Frame) (sub : Node)
       (post : forest) : Prop := mkPlace {
  p_kept : Kept k tg st [];
  p_dom : dom st = pre ++ plug (inner ++ outer) sub :: post;
  p_root : nid (plug inner sub) = R;
  p_text : text_of (plug inner sub) = T
}.

(** The start node and the inner nodes are among the nodes [allowed]. *)
Definition seen (w : Walk) (allowed : list nat) : Prop :=
  match startNode w with
  | None => innerNodes w = []
  | Some s => In s allowed /\ (forall x, In x (innerNodes w) -> In x allowed)
  end.

(** Where the current match is, seen from the position [atIndex]. *)
Definition pending (w : Walk) : Prop :=
  endNode w = None
  /\ 0 <= atIndex w
  /\ match startNode w with
     | None => chain_in (atIndex w) (matchLocation w :: matches w)
     | Some _ => atIndex w < loc_end (matchLocation w)
                 /\ loc_end (matchLocation w) <= len T
                 /\ loc_match (matchLocation w)
                    = [substring T (loc_start (matchLocation w)) (loc_end (matchLocation w))]
                 /\ chain_in (loc_end (matchLocation w)) (matches w)
     end.

(** The start node and the inner nodes of the current match. *)
Definition marked (w : Walk) : list nat :=
  match startNode w with
  | Some s => s :: innerNodes w
  | None => []
  end.

(** What the walk keeps for [revert]: the recorded replacement nodes are as
    they were made; on the way up from the current node, and to the right
    of it, there is no replacement node; the nodes of the current match
    are not inside one. *)
Record Extra (w : Walk) (st : State) (fs : list Frame) : Prop := mkExtra {
  x_wrapped : Wrapped k st;
  x_frames : old_frames k fs;
  x_marked : forall y, In y (marked w) -> parent_old k (dom st) y
}.

(** At the top of the outer loop: [atIndex] is the length of the text
    before the current node. *)
Record Inv (w : Walk) (st : State) (pre : forest) (inner outer : list Frame)
       (sub : Node) (post : forest) : Prop := mkInv {
  v_place : Place st pre inner outer sub post;
  v_cur : nid sub = curNode w;
  v_elem : inner = [] -> is_text sub = false;
  v_at : atIndex w = len (left_text inner);
  v_pending : pending w;
  v_seen : seen w (left_ids (inner ++ outer));
  v_settled : settled k sub;
  v_extra : Extra w st (inner ++ outer)
}.

(** After the current node: [atIndex] is the length of the text up to its
    end. *)
Record InvEnd (w : Walk) (st : State) (pre : forest) (inner outer : list Frame)
       (sub : Node) (post : forest) : Prop := mkInvEnd {
  e_place : Place st pre inner outer sub post;
  e_cur : nid sub = curNode w;
  e_inner : inner <> [];
  e_at : atIndex w = len (left_text inner) + len (text_of sub);
  e_pending : pending w;
  e_seen : seen w (left_ids (inner ++ outer) ++ ids sub);
  e_extra : Extra w st (inner ++ outer)
}.

(** The store at the end of the walk. *)
Record Ended (st : State) : Prop := mkEnded {
  n_kept : Kept k tg st [];
  n_wrapped : Wrapped k st;
  n_root : exists n, lookup R (dom st) = Some n /\ text_of n = T /\ is_text n = false
}.

(** What a round of the outer loop does when it has no match to replace,
    lines 155-171. *)
Definition onward (fuel : nat) (w : Walk) : M Next :=
  bind (get_firstChild (curNode w)) (fun fc =>
  bind (get_nextSibling (curNode w)) (fun ns =>
  match (match fc with Some c => Some c | None => ns end) with
  | Some c => ret (Continue (move_to w c))
  | None =>
      bind (forward_or_up fuel R (curNode w)) (fun nx =>
      match nx with
      | Some c => ret (Continue (move_to w c))
      | None => ret Break
      end)
  end)).

Definition step_post (nx : Next) (st' : State) : Prop :=
  match nx with
  | Continue w' =>
      exists pre' inner' outer' sub' post', Inv w' st' pre' inner' outer' sub' post'
  | Break => Ended st'
  end.

(** The round of the outer loop that replaces a match, lines 133-154 with
    the inner loop that follows. *)
Definition replaced (fuel : nat) (w : Walk) (s e : nat) : M Next :=
  bind (replace (makeReplacementNode k (reparse_name tg))
                (mkRange s (startNodeIndex w) e (endNodeIndex w) (innerNodes w)
                         (loc_match (matchLocation w)) (matchIndex w))) (fun cur =>
  bind (get_data e) (fun de =>
  match matches w with
  | [] => ret Break
  | loc :: rest =>
      bind (forward_or_up fuel R cur) (fun nx =>
      match nx with
      | Some c => ret (Continue (mkWalk None None (startNodeIndex w) (endNodeIndex w) []
                                        (atIndex w - (len de - endNodeIndex w)) c loc rest
                                        (matchIndex w + 1)))
      | None => ret Break
      end)
  end)).

End Walk.

Section TextRoot.
Local Open Scope Z_scope.
Variable k : nat.
Variable tg : jsstring.
Variable R : nat.
Variable d : jsstring.

(** What the walk keeps when the node [R] is a Text node with the data
    [d]: the current node is the node [R] itself, or the Text node that
    the last replacement has left behind, with the rest of the data; the
    node [R] is then out of the document. *)
Record Gen (w : Walk) (st : State) : Prop := mkGen {
  g_kept : Kept k tg st [];
  g_wrapped : Wrapped k st;
  g_cur : exists pfx dc,
      d = pfx ++ dc /\ atIndex w = len pfx
      /\ lookup (curNode w) (dom st) = Some (Text (curNode w) dc);
  g_parent : forall p, parentNode (curNode w) (dom st) = Some p -> (p < k)%nat;
  g_free : startNode w = None /\ endNode w = None;
  g_locs : chain_in d (atIndex w) (matchLocation w :: matches w);
  g_root : (curNode w = R /\ atIndex w = 0) \/ In (Text R d) (dom st)
}.

(** The store at the end of that walk. *)
Record TextEnded (st : State) : Prop := mkTextEnded {
  t_kept : Kept k tg st [];
  t_wrapped : Wrapped k st;
  t_root : In (Text R d) (dom st)
}.

End TextRoot.

Section Call.
Local Open Scope Z_scope.

(** The node objects of a store have distinct identities, all below the
    next fresh one. *)
Fixpoint distinct (l : list nat) : bool :=
  match l with
  | [] => true
  | a :: l' => negb (existsb (Nat.eqb a) l') && distinct l'
  end.

Definition well_formed (st : State) : bool :=
  distinct (all_ids (dom st)) && forallb (fun i => i <? nextId st)%nat (all_ids (dom st)).

End Call.

End Invariants.
Import Invariants.

(* ===================================================================== *)
(** ** The way that is left to the walk *)
(* ===================================================================== *)

Module Measure.

(** The nodes that the walk has still to pass: the current node with its
    subtree, and what lies to the right of it below the node given to the
    call. *)
Definition todo (inner : list Frame) (sub : Node) : nat :=
  length (ids sub) + length (right_ids inner).

(** What a round of the outer loop achieves, with [m] nodes and matches to
    go and [p] replacement nodes and matches counted before it: the walk
    goes on with less to go, or it has replaced the last match. *)
Definition advanced (k : nat) (tg : jsstring) (R : nat) (T : jsstring) (m p : nat)
           (nx : Next) (st' : State) : Prop :=
  match nx with
  | Continue w' =>
      exists pre' inner' outer' sub' post',
        Inv k tg R T w' st' pre' inner' outer' sub' post'
        /\ NoDup (marked w')
        /\ todo inner' sub' + length (matches w') < m
        /\ p <= recorded st' + length (matches w')
  | Break => Ended k tg R T st' /\ p < recorded st'
  end.

End Measure.
Import Measure.

(* ===================================================================== *)
(** ** Properties *)
(* ===================================================================== *)

(** *** Strings *)

Section Strings.

Lemma string_eqb_eq (a b : jsstring) : JsString.eqb a b = true <-> a = b.
Proof.
  unfold JsString.eqb. destruct (list_eq_dec ascii_dec a b); split; congruence.
Qed.

End Strings.

(** *** The names that the parser gives back *)

Section HtmlFacts.
Import String.StringSyntax.
Local Open Scope string_scope.

(** What the parser makes of a name: nothing; the [plaintext] element
    with its end tag as text; or an element without a child, under a name
    that it reads back as it is. *)
Lemma parse_back_cases (name : jsstring) :
  parse_back name = []
  \/ (parse_back name = [E name [T (lit "</plaintext>")]]
      /\ map lower name = lit "plaintext")
  \/ exists tg, parse_back name = [E tg []] /\ parse_back tg = [E tg []].
Proof.
  unfold parse_back. cbv zeta.
  destruct (existsb (JsString.eqb (map lower name)) dropped_tags) eqn:E1; [left; reflexivity|].
  destruct (JsString.eqb (map lower name) (lit "plaintext")) eqn:E2.
  { right. left. split; [reflexivity|]. apply string_eqb_eq. exact E2. }
  destruct (JsString.eqb (map lower name) (lit "image")) eqn:E3.
  { right. right. exists (lit "img"). split; reflexivity. }
  right. right. exists name. split; [reflexivity|].
  rewrite E1, E2, E3. reflexivity.
Qed.

Lemma parse_back_again (name tg : jsstring) :
  parse_back name = [E tg []] -> parse_back tg = [E tg []].
Proof.
  intros H. destruct (parse_back_cases name) as [E|[[E _]|(tg' & E & E')]];
    rewrite E in H; try discriminate.
  injection H as <-. exact E'.
Qed.

(** The replacement nodes for a name are those for the name that the
    parser reads back. *)
Lemma reparse_back (name tg : jsstring) :
  parse_back name = [E tg []] -> reparse_name name = reparse_name tg.
Proof.
  intros H. unfold reparse_name. rewrite H, (parse_back_again name tg H). reflexivity.
Qed.

End HtmlFacts.

Section SingleNode.
Import Scenario.
Import String.StringSyntax.
Local Open Scope string_scope.

(** C4. For the paragraph [<p>This is a test</p>], the pattern [/test/]
    and the node name [em], the call leaves the paragraph with exactly the
    two children Text "This is a " and em[Text "test"] (no Text node after
    them), and [revert] then restores the single Text node
    "This is a test". *)
Theorem single_node_scenario (fuel : nat) :
  let r := findAndReplaceDOMText (3 + fuel) (compile false re_test) 0 em None (page p_test) in
  let r' := revert (snd r) in
  fst r = Ok tt
  /\ child_shapes 0 (snd r) = Some [T (lit "This is a "); E (lit "em") [T (lit "test")]]
  /\ fst r' = Ok tt
  /\ child_shapes 0 (snd r') = Some [T (lit "This is a test")]
  /\ reverts (snd r') = Some [].
Proof.
  vm_compute. repeat split; reflexivity.
Qed.

End SingleNode.

(** *** The calls unfolded *)

Section Calls.

Lemma first_some_app {A B : Type} (f : A -> option B) (l1 l2 : list A) (b : B) :
  first_some f l1 = Some b -> first_some f (l1 ++ l2) = Some b.
Proof.
  induction l1 as [|a l1 IH]; simpl; [discriminate|].
  destruct (f a); auto.
Qed.

Lemma genReplacer_eq (nodeName : Replacement) (st : State) :
  _genReplacer nodeName st = (Ok (replacer nodeName st), prepared nodeName st).
Proof.
  destruct nodeName; reflexivity.
Qed.

Lemma prepared_keeps (nodeName : Replacement) (st : State) (x : nat) (n : Node) :
  lookup x (dom st) = Some n -> lookup x (dom (prepared nodeName st)) = Some n.
Proof.
  destruct nodeName; simpl; auto.
  intros H. apply first_some_app. exact H.
Qed.

Lemma prepared_reverts (nodeName : Replacement) (st : State) :
  reverts (prepared nodeName st) = Some [].
Proof.
  destruct nodeName; reflexivity.
Qed.

(** The call up to line 49. *)
Lemma far_unfold (fuel : nat) (regex : RegExp) (node : nat) (nodeName : Replacement)
      (captureGroup : option Z) (st : State) (n : Node) :
  lookup node (dom st) = Some n ->
  findAndReplaceDOMText fuel regex node nodeName captureGroup st =
  if negb (truthy (text_of n)) then (Ok tt, prepared nodeName st)
  else match locate fuel regex (text_of n) captureGroup with
       | Ok [] => (Ok tt, prepared nodeName st)
       | Ok (first :: rest) =>
           _stepThroughMatches fuel node first rest (replacer nodeName st)
                               (prepared nodeName st)
       | Throw e => (Throw e, prepared nodeName st)
       | OutOfFuel => (OutOfFuel, prepared nodeName st)
       end.
Proof.
  intros H.
  unfold findAndReplaceDOMText, _getText, get_node, bind at 1 2.
  rewrite H. unfold ret at 1. unfold bind at 1.
  rewrite genReplacer_eq.
  destruct (negb (truthy (text_of n))); [reflexivity|].
  unfold bind, lift.
  destruct (locate fuel regex (text_of n) captureGroup) as [[|first rest]|e|]; reflexivity.
Qed.

(** An exception of the match location reaches the caller with every node
    of the store as it was. *)
Lemma far_locate_throws (fuel : nat) (regex : RegExp) (node : nat) (nodeName : Replacement)
      (captureGroup : option Z) (st : State) (n : Node) (e : Exn) :
  lookup node (dom st) = Some n ->
  truthy (text_of n) = true ->
  locate fuel regex (text_of n) captureGroup = Throw e ->
  let r := findAndReplaceDOMText fuel regex node nodeName captureGroup st in
  fst r = Throw e
  /\ (forall x m, lookup x (dom st) = Some m -> lookup x (dom (snd r)) = Some m).
Proof.
  intros Hn Ht Hl. cbv zeta.
  rewrite (far_unfold fuel regex node nodeName captureGroup st n Hn), Ht, Hl. simpl.
  split; [reflexivity|]. intros x m. apply prepared_keeps.
Qed.

End Calls.

(** *** Match location: errors *)

Section MatchLocation.
Import Scenario.
Import String.StringSyntax.
Local Open Scope string_scope.

Lemma getMatchIndexes_zero (m : MatchArray) (captureGroup : option Z) :
  elem m 0 = Some [] \/ elem m 0 = None ->
  _getMatchIndexes (Some m) captureGroup = inl ZeroLengthMatch.
Proof.
  intros [H|H]; unfold _getMatchIndexes; rewrite H; reflexivity.
Qed.

(** The loop throws what [_getMatchIndexes] throws in the search number
    [k], if it comes to that search. *)
Lemma collect_reach (regex : RegExp) (text : jsstring) (captureGroup : option Z)
      (m : MatchArray) (e : Exn) (p : nat) :
  exec_at regex text p = Some m ->
  _getMatchIndexes (Some m) captureGroup = inl e ->
  forall (k fuel last : nat) (acc : list MatchLocation),
    search_start k regex text captureGroup last = Some p ->
    k < fuel ->
    collect fuel regex text captureGroup last acc = Throw e.
Proof.
  intros He Hg. induction k as [|k IH]; intros fuel last acc Hs Hf.
  - simpl in Hs. injection Hs as ->. destruct fuel as [|fuel]; [lia|].
    cbn [collect]. rewrite He, Hg. reflexivity.
  - destruct fuel as [|fuel]; [lia|]. cbn [collect]. cbn [search_start] in Hs.
    destruct (exec_at regex text last) as [m1|]; [|discriminate].
    destruct (_getMatchIndexes (Some m1) captureGroup) as [e1|loc]; [discriminate|].
    apply IH; [exact Hs|lia].
Qed.

(** What the loop throws, [_getMatchIndexes] has thrown in one of its
    searches. *)
Lemma collect_throws (regex : RegExp) (text : jsstring) (captureGroup : option Z) (e : Exn) :
  forall (fuel last : nat) (acc : list MatchLocation),
    collect fuel regex text captureGroup last acc = Throw e ->
    exists k p m,
      k < fuel
      /\ search_start k regex text captureGroup last = Some p
      /\ exec_at regex text p = Some m
      /\ _getMatchIndexes (Some m) captureGroup = inl e.
Proof.
  induction fuel as [|fuel IH]; intros last acc H; [discriminate|].
  cbn [collect] in H.
  destruct (exec_at regex text last) as [m|] eqn:He; [|discriminate].
  destruct (_getMatchIndexes (Some m) captureGroup) as [e1|loc] eqn:Hg.
  - injection H as ->. exists 0, last, m. repeat split; auto. lia.
  - destruct (IH _ _ H) as (k & p & m' & Hk & Hs & He' & Hg').
    exists (S k), p, m'. split; [lia|]. split; [|auto].
    cbn [search_start]. rewrite He, Hg. exact Hs.
Qed.

Lemma locate_reach (fuel k : nat) (regex : RegExp) (text : jsstring)
      (captureGroup : option Z) (m : MatchArray) (e : Exn) (p : nat) :
  reached regex text captureGroup k = Some p ->
  exec_at regex text p = Some m ->
  _getMatchIndexes (Some m) captureGroup = inl e ->
  (global regex = true -> k < fuel) ->
  locate fuel regex text captureGroup = Throw e.
Proof.
  unfold reached, locate. intros Hr He Hg Hf. destruct (global regex).
  - exact (collect_reach regex text captureGroup m e p He Hg k fuel _ [] Hr (Hf eq_refl)).
  - destruct k; [|discriminate]. injection Hr as <-. rewrite He, Hg. reflexivity.
Qed.

Lemma locate_throws (fuel : nat) (regex : RegExp) (text : jsstring)
      (captureGroup : option Z) (e : Exn) :
  locate fuel regex text captureGroup = Throw e ->
  e <> TypeError ->
  exists k p m,
    (global regex = true -> k < fuel)
    /\ reached regex text captureGroup k = Some p
    /\ exec_at regex text p = Some m
    /\ _getMatchIndexes (Some m) captureGroup = inl e.
Proof.
  unfold reached, locate. intros H Hne. destruct (global regex).
  - destruct (collect_throws regex text captureGroup e fuel _ [] H)
      as (k & p & m & Hk & Hs & He & Hg).
    exists k, p, m. auto.
  - destruct (exec_at regex text 0) as [m|] eqn:He.
    + destruct (_getMatchIndexes (Some m) captureGroup) as [e1|loc] eqn:Hg; [|discriminate].
      injection H as ->. exists 0, 0, m. repeat split; auto. discriminate.
    + simpl in H. injection H as <-. congruence.
Qed.

(** *** What the walk can throw *)

Lemma mild_bind {A B : Type} (m : M A) (f : A -> M B) :
  mild m -> (forall a, mild (f a)) -> mild (bind m f).
Proof.
  intros Hm Hf st e st'. unfold bind.
  destruct (m st) as [[a|e1|] st1] eqn:E.
  - apply Hf.
  - intros H. injection H as <- <-. exact (Hm _ _ _ E).
  - discriminate.
Qed.

Lemma mild_ret {A : Type} (a : A) : mild (ret a).
Proof. intros st e st' H. discriminate. Qed.

Lemma mild_throw {A : Type} (e : Exn) : host_error e = true -> mild (@throw A e).
Proof. intros He st e' st' H. injection H as <- _. exact He. Qed.

Lemma mild_deref {A : Type} (o : option A) : mild (deref o).
Proof. destruct o; [apply mild_ret|apply mild_throw; reflexivity]. Qed.

Lemma mild_get_node (x : nat) : mild (get_node x).
Proof.
  intros st e st'. unfold get_node. destruct (lookup x (dom st)); [discriminate|].
  intros H. injection H as <- _. reflexivity.
Qed.

Lemma mild_get_data (x : nat) : mild (get_data x).
Proof.
  apply mild_bind; [apply mild_get_node|].
  intros [i d|i t cs]; [apply mild_ret|apply mild_throw; reflexivity].
Qed.

Lemma mild_get {A : Type} (g : State -> A) : mild (fun st => (Ok (g st), st)).
Proof. intros st e st' H. discriminate. Qed.

Lemma mild_dom_op (op : forest -> forest + DomError) : mild (dom_op op).
Proof.
  intros st e st'. unfold dom_op. destruct (op (dom st)); [discriminate|].
  intros H. injection H as <- _. reflexivity.
Qed.

Lemma mild_createTextNode (d : jsstring) : mild (createTextNode d).
Proof. intros st e st' H. discriminate. Qed.

Lemma mild_alloc (k : nat) : mild (alloc k).
Proof. intros st e st' H. discriminate. Qed.

Lemma mild_insert_before_it (n : Node) (x : nat) : mild (insert_before_it n x).
Proof.
  apply mild_bind; [exact (mild_get _)|]. intros p.
  apply mild_bind; [apply mild_deref|]. intros p'. apply mild_dom_op.
Qed.

Lemma mild_insert_made_before (o : option Node) (x : nat) : mild (insert_made_before o x).
Proof.
  apply mild_bind; [exact (mild_get _)|]. intros p.
  apply mild_bind; [apply mild_deref|]. intros p'.
  apply mild_bind; [apply mild_deref|]. intros n.
  apply mild_bind; [apply mild_dom_op|]. intros _. apply mild_ret.
Qed.

Lemma mild_remove_it (x : nat) : mild (remove_it x).
Proof.
  apply mild_bind; [exact (mild_get _)|]. intros p.
  apply mild_bind; [apply mild_deref|]. intros p'. apply mild_dom_op.
Qed.

Lemma mild_push_revert (a : RevertAction) : mild (push_revert a).
Proof.
  intros st e st'. unfold push_revert. destruct (reverts st); [discriminate|].
  intros H. injection H as <- _. reflexivity.
Qed.

Lemma mild_forward_or_up (fuel node cur : nat) : mild (forward_or_up fuel node cur).
Proof.
  revert cur. induction fuel as [|fuel IH]; intros cur; simpl.
  - intros st e st' H. discriminate.
  - apply mild_bind; [exact (mild_get _)|]. intros [s|]; [apply mild_ret|].
    apply mild_bind; [exact (mild_get _)|]. intros [p|]; [|apply mild_throw; reflexivity].
    destruct (p =? node); [apply mild_ret|apply IH].
Qed.

Lemma mild_make (stencil : nat) (reparse : Node -> list Shape) (fill : jsstring) (mi : Z) :
  mild (makeReplacementNode stencil reparse fill mi).
Proof.
  apply mild_bind; [apply mild_get_node|]. intros sn.
  destruct (reparse sn) as [|sh l].
  - destruct (truthy fill); [apply mild_throw; reflexivity|apply mild_ret].
  - apply mild_bind; [apply mild_alloc|]. intros base.
    destruct (truthy fill); [|apply mild_ret].
    apply mild_bind; [apply mild_createTextNode|]. intros t.
    destruct (build base sh); [apply mild_throw; reflexivity|apply mild_ret].
Qed.

Lemma mild_replace_inner (make : jsstring -> Z -> M (option Node)) (mi : Z)
      (inner : list nat) :
  (forall fill i, mild (make fill i)) ->
  forall els, mild (replace_inner make mi inner els).
Proof.
  intros Hm. induction inner as [|x inner IH]; intros els; simpl; [apply mild_ret|].
  apply mild_bind; [apply mild_get_data|]. intros d.
  apply mild_bind; [apply Hm|]. intros o.
  apply mild_bind; [exact (mild_get _)|]. intros p.
  apply mild_bind; [apply mild_deref|]. intros p'.
  apply mild_bind; [apply mild_deref|]. intros n.
  apply mild_bind; [apply mild_dom_op|]. intros _. apply IH.
Qed.

Lemma mild_replace (make : jsstring -> Z -> M (option Node)) (range : Range) :
  (forall fill i, mild (make fill i)) -> mild (replace make range).
Proof.
  intros Hm. unfold replace. destruct (r_startNode range =? r_endNode range).
  - apply mild_bind.
    { destruct (r_startNodeIndex range >? 0)%Z; [|apply mild_ret].
      apply mild_bind; [apply mild_get_data|]. intros d.
      apply mild_bind; [apply mild_createTextNode|]. intros b. apply mild_insert_before_it. }
    intros _. apply mild_bind; [apply Hm|]. intros o.
    apply mild_bind; [apply mild_insert_made_before|]. intros el.
    apply mild_bind; [apply mild_get_data|]. intros d.
    apply mild_bind.
    { destruct (r_endNodeIndex range <? len d)%Z; [|apply mild_ret].
      apply mild_bind; [apply mild_createTextNode|]. intros a. apply mild_insert_before_it. }
    intros _. apply mild_bind; [apply mild_remove_it|]. intros _.
    apply mild_bind; [apply mild_push_revert|]. intros _. apply mild_ret.
  - apply mild_bind; [apply mild_get_data|]. intros ds.
    apply mild_bind; [apply mild_createTextNode|]. intros b.
    apply mild_bind; [apply mild_get_data|]. intros de.
    apply mild_bind; [apply mild_createTextNode|]. intros a.
    apply mild_bind; [apply Hm|]. intros oA.
    apply mild_bind; [apply mild_replace_inner; exact Hm|]. intros els.
    apply mild_bind; [apply Hm|]. intros oB.
    apply mild_bind; [apply mild_insert_before_it|]. intros _.
    apply mild_bind; [apply mild_insert_made_before|]. intros elA.
    apply mild_bind; [apply mild_remove_it|]. intros _.
    apply mild_bind; [apply mild_insert_made_before|]. intros elB.
    apply mild_bind; [apply mild_insert_before_it|]. intros _.
    apply mild_bind; [apply mild_remove_it|]. intros _.
    apply mild_bind; [apply mild_push_revert|]. intros _. apply mild_ret.
Qed.

Lemma mild_walk_step (fuel node : nat) (replaceFn : Range -> M nat) (w : Walk) :
  (forall range, mild (replaceFn range)) -> mild (walk_step fuel node replaceFn w).
Proof.
  intros Hr. unfold walk_step.
  apply mild_bind; [apply mild_get_node|]. intros n.
  set (w1 := if is_text n then visit_text w (len (data_of n)) else w).
  assert (On : mild (fc <- get_firstChild (curNode w1) ;;
                     ns <- get_nextSibling (curNode w1) ;;
                     match (match fc with Some c => Some c | None => ns end) with
                     | Some c => ret (Continue (move_to w1 c))
                     | None =>
                         nx <- forward_or_up fuel node (curNode w1) ;;
                         match nx with
                         | Some c => ret (Continue (move_to w1 c))
                         | None => ret Break
                         end
                     end)).
  { apply mild_bind; [exact (mild_get _)|]. intros fc.
    apply mild_bind; [exact (mild_get _)|]. intros ns.
    destruct (match fc with Some c => Some c | None => ns end); [apply mild_ret|].
    apply mild_bind; [apply mild_forward_or_up|]. intros [c|]; apply mild_ret. }
  destruct (startNode w1) as [s|]; [destruct (endNode w1) as [e|]|]; try exact On.
  apply mild_bind; [apply Hr|]. intros cur.
  apply mild_bind; [apply mild_get_data|]. intros de.
  destruct (matches w1); [apply mild_ret|].
  apply mild_bind; [apply mild_forward_or_up|]. intros [c|]; apply mild_ret.
Qed.

Lemma mild_walk_loop (fuel bound node : nat) (replaceFn : Range -> M nat) :
  (forall range, mild (replaceFn range)) ->
  forall w, mild (walk_loop fuel bound node replaceFn w).
Proof.
  intros Hr. induction fuel as [|fuel IH]; intros w; simpl.
  - intros st e st' H. discriminate.
  - apply mild_bind; [apply mild_walk_step; exact Hr|].
    intros [w'|]; [apply IH|apply mild_ret].
Qed.

(** The replacement function throws nothing but exceptions of the host,
    unless a function of the caller does. *)
Lemma mild_replacer (nodeName : Replacement) (st : State) (range : Range) :
  tame nodeName -> mild (replacer nodeName st range).
Proof.
  destruct nodeName as [tg|stencil rp|make]; simpl; intros H;
    apply mild_replace; intros fill i; try apply mild_make.
  unfold made_by. apply mild_bind; [apply H|]. intros n. apply mild_ret.
Qed.

(** An exception of the code itself comes from the match location. *)
Lemma far_throws_located (fuel : nat) (regex : RegExp) (node : nat) (nodeName : Replacement)
      (captureGroup : option Z) (st : State) (n : Node) (e : Exn) :
  lookup node (dom st) = Some n ->
  tame nodeName ->
  host_error e = false ->
  fst (findAndReplaceDOMText fuel regex node nodeName captureGroup st) = Throw e ->
  truthy (text_of n) = true /\ locate fuel regex (text_of n) captureGroup = Throw e.
Proof.
  intros Hn Hb He.
  rewrite (far_unfold fuel regex node nodeName captureGroup st n Hn).
  destruct (truthy (text_of n)); simpl negb; cbv iota; [|discriminate].
  destruct (locate fuel regex (text_of n) captureGroup) as [[|first rest]|e1|];
    try discriminate.
  - unfold _stepThroughMatches.
    destruct (walk_loop fuel fuel node (replacer nodeName st)
                        (mkWalk None None 0 0 [] 0 node first rest 0) (prepared nodeName st))
      as [o st'] eqn:E.
    simpl. intros ->.
    pose proof (mild_walk_loop fuel fuel node (replacer nodeName st)
                  (fun range => mild_replacer nodeName st range Hb) _ _ _ _ E) as H.
    congruence.
  - simpl. intros H. injection H as ->. auto.
Qed.

(** C5, as amended. When the text of the node is not empty and a search of
    the call, the first one or any later one of a search with the [g]
    flag, reports a match whose full text [m[0]] is empty, the call throws
    the zero-length error during match location, whatever the capture
    group, before anything is replaced: every node of the store is as it
    was, and the revert list is empty. (An empty text returns before any
    search, and a capture group that is empty inside a non-empty match is
    reported as an invalid capture group, see C7.) *)
Theorem zero_length_rejection
        (fuel k : nat) (regex : RegExp) (node : nat) (nodeName : Replacement)
        (captureGroup : option Z) (st : State) (n : Node) (p : nat) (m : MatchArray)
        (Hnode : lookup node (dom st) = Some n)
        (Htext : truthy (text_of n) = true)
        (Hreach : reached regex (text_of n) captureGroup k = Some p)
        (Hexec : exec_at regex (text_of n) p = Some m)
        (Hzero : elem m 0 = Some [] \/ elem m 0 = None)
        (Hfuel : global regex = true -> k < fuel) :
  let r := findAndReplaceDOMText fuel regex node nodeName captureGroup st in
  fst r = Throw ZeroLengthMatch
  /\ (forall x nd, lookup x (dom st) = Some nd -> lookup x (dom (snd r)) = Some nd)
  /\ reverts (snd r) = Some [].
Proof.
  cbv zeta.
  pose proof (locate_reach fuel k regex (text_of n) captureGroup m ZeroLengthMatch p Hreach
                Hexec (getMatchIndexes_zero m captureGroup Hzero) Hfuel) as Hl.
  rewrite (far_unfold fuel regex node nodeName captureGroup st n Hnode), Htext, Hl. simpl.
  split; [reflexivity|]. split; [|apply prepared_reverts].
  intros x nd. apply prepared_keeps.
Qed.

(** The pattern x-star on [<p>abc</p>], without and with the [g] flag; and
    the pattern a|x-star with the [g] flag, whose second search, from
    position 1, reports the empty match. *)
Lemma zero_length_rejection_witness :
  fst (findAndReplaceDOMText 1 (compile false re_xstar) 0 em None (page p_abc))
  = Throw ZeroLengthMatch
  /\ fst (findAndReplaceDOMText 1 (compile true re_xstar) 0 em None (page p_abc))
     = Throw ZeroLengthMatch
  /\ reached (compile true re_a_or_xstar) (lit "abc") None 1 = Some 1%nat
  /\ fst (findAndReplaceDOMText 2 (compile true re_a_or_xstar) 0 em None (page p_abc))
     = Throw ZeroLengthMatch.
Proof.
  split; [|split; [|split]].
  - apply (zero_length_rejection 1 0 (compile false re_xstar) 0 em None (page p_abc) p_abc
             0 (mkMatch 0 [Some []])); [reflexivity|reflexivity|reflexivity|reflexivity| |].
    + left. reflexivity.
    + discriminate.
  - apply (zero_length_rejection 1 0 (compile true re_xstar) 0 em None (page p_abc) p_abc
             0 (mkMatch 0 [Some []])); [reflexivity|reflexivity|reflexivity|reflexivity| |].
    + left. reflexivity.
    + intros _. lia.
  - vm_compute. reflexivity.
  - apply (zero_length_rejection 2 1 (compile true re_a_or_xstar) 0 em None (page p_abc) p_abc
             1 (mkMatch 1 [Some []])); [reflexivity|reflexivity| | | |].
    + vm_compute. reflexivity.
    + vm_compute. reflexivity.
    + left. reflexivity.
    + intros _. lia.
Defined.

(** C5, as stated, fails: for (x-star)ab on [<p>ab</p>] with capture group
    1 the group-adjusted match text is empty, and the call throws the
    invalid-capture-group error, not the zero-length one. *)
Lemma empty_group_is_not_zero_length :
  let r := findAndReplaceDOMText 1 (compile false re_xstar_ab) 0 em (Some 1%Z) (page p_ab) in
  exec_at (compile false re_xstar_ab) (lit "ab") 0 = Some (mkMatch 0 [Some (lit "ab"); Some []])
  /\ fst r = Throw InvalidCaptureGroup
  /\ fst r <> Throw ZeroLengthMatch.
Proof.
  vm_compute. repeat split; try reflexivity. discriminate.
Qed.

Lemma getMatchIndexes_invalid (m : MatchArray) (captureGroup : Z) :
  (0 < captureGroup)%Z ->
  (_getMatchIndexes (Some m) (Some captureGroup) = inl InvalidCaptureGroup
   <-> (exists m0, elem m 0 = Some m0 /\ m0 <> [])
       /\ (elem m (Z.to_nat captureGroup) = None \/ elem m (Z.to_nat captureGroup) = Some [])).
Proof.
  intros Hcg. unfold _getMatchIndexes.
  assert (Hgt : (captureGroup >? 0)%Z = true) by (apply Z.gtb_lt; lia).
  rewrite Hgt.
  destruct (elem m 0) as [[|a m0]|].
  - split; [discriminate|]. intros [(m0 & H & Hne) _]. injection H as <-. congruence.
  - destruct (elem m (Z.to_nat captureGroup)) as [[|b g]|]; split; intros H;
      try reflexivity; try discriminate.
    + split; [exists (a :: m0); split; [reflexivity|discriminate]|auto].
    + destruct H as [_ [H|H]]; discriminate.
    + split; [exists (a :: m0); split; [reflexivity|discriminate]|auto].
  - split; [discriminate|]. intros [(m0 & H & _) _]. discriminate.
Qed.

(** C7, as amended. With a capture group index above zero and a text that
    is not empty: when one of the searches of the call reports a match
    with a non-empty full text in which the group is [undefined] (it did
    not participate, or there is no such group) or has captured the empty
    string, the call throws the invalid-capture-group error, and it does
    so during match location, before anything is replaced: every node of
    the store is as it was and the revert list is empty. And the call
    throws that error in no other case, as long as a function given as the
    third argument does not throw the messages of the code itself
    ([tame]). *)
Theorem invalid_capture_group
        (fuel : nat) (regex : RegExp) (node : nat) (nodeName : Replacement)
        (captureGroup : Z) (st : State) (n : Node)
        (Hcg : (0 < captureGroup)%Z)
        (Hnode : lookup node (dom st) = Some n)
        (Htext : truthy (text_of n) = true) :
  let r := findAndReplaceDOMText fuel regex node nodeName (Some captureGroup) st in
  let undefined_or_empty :=
    exists k p m m0,
      (global regex = true -> k < fuel)
      /\ reached regex (text_of n) (Some captureGroup) k = Some p
      /\ exec_at regex (text_of n) p = Some m
      /\ elem m 0 = Some m0 /\ m0 <> []
      /\ (elem m (Z.to_nat captureGroup) = None
          \/ elem m (Z.to_nat captureGroup) = Some []) in
  (undefined_or_empty ->
   fst r = Throw InvalidCaptureGroup
   /\ (forall x nd, lookup x (dom st) = Some nd -> lookup x (dom (snd r)) = Some nd)
   /\ reverts (snd r) = Some [])
  /\ (tame nodeName -> fst r = Throw InvalidCaptureGroup -> undefined_or_empty).
Proof.
  cbv zeta. split.
  - intros (k & p & m & m0 & Hk & Hr & He & H0 & Hne & Hu).
    assert (Hg : _getMatchIndexes (Some m) (Some captureGroup) = inl InvalidCaptureGroup).
    { apply (getMatchIndexes_invalid m captureGroup Hcg). split; [eauto|exact Hu]. }
    pose proof (locate_reach fuel k regex (text_of n) (Some captureGroup) m
                  InvalidCaptureGroup p Hr He Hg Hk) as Hl.
    rewrite (far_unfold fuel regex node nodeName (Some captureGroup) st n Hnode), Htext, Hl.
    simpl. split; [reflexivity|]. split; [|apply prepared_reverts].
    intros x nd. apply prepared_keeps.
  - intros Htame H.
    destruct (far_throws_located fuel regex node nodeName (Some captureGroup) st n
                InvalidCaptureGroup Hnode Htame eq_refl H) as [_ Hl].
    destruct (locate_throws fuel regex (text_of n) (Some captureGroup) InvalidCaptureGroup Hl)
      as (k & p & m & Hk & Hr & He & Hg); [discriminate|].
    apply (getMatchIndexes_invalid m captureGroup Hcg) in Hg as [(m0 & H0 & Hne) Hu].
    exists k, p, m, m0. auto 10.
Qed.

(** Group 1 of the alternation (x)|ab on [<p>ab</p>] did not participate
    in the match of ab: the call throws, and the paragraph is as it
    was. *)
Lemma invalid_capture_group_witness :
  let r := findAndReplaceDOMText 1 (compile false re_x_or_ab) 0 em (Some 1%Z) (page p_ab) in
  exec_at (compile false re_x_or_ab) (lit "ab") 0 = Some (mkMatch 0 [Some (lit "ab"); None])
  /\ fst r = Throw InvalidCaptureGroup
  /\ (forall x nd, lookup x (dom (page p_ab)) = Some nd -> lookup x (dom (snd r)) = Some nd)
  /\ reverts (snd r) = Some [].
Proof.
  split; [vm_compute; reflexivity|].
  apply (proj1 (invalid_capture_group 1 (compile false re_x_or_ab) 0 em 1 (page p_ab) p_ab
                  ltac:(lia) eq_refl eq_refl)).
  exists 0, 0, (mkMatch 0 [Some (lit "ab"); None]), (lit "ab").
  split; [discriminate|]. split; [reflexivity|]. split; [vm_compute; reflexivity|].
  split; [reflexivity|]. split; [discriminate|]. left. reflexivity.
Defined.

(** C7, as stated, fails: for c(b-star) on [<p>abc</p>] group 1 takes part
    in the match (it captures the empty string, [m[1]] is not [undefined]),
    and the invalid-capture-group error is thrown all the same. *)
Lemma participating_group_is_rejected :
  let r := findAndReplaceDOMText 1 (compile false re_c_bstar) 0 em (Some 1%Z) (page p_abc) in
  exec_at (compile false re_c_bstar) (lit "abc") 0 = Some (mkMatch 2 [Some (lit "c"); Some []])
  /\ nth_error (m_elems (mkMatch 2 [Some (lit "c"); Some []])) 1 <> Some None
  /\ fst r = Throw InvalidCaptureGroup.
Proof.
  vm_compute. repeat split; try reflexivity. discriminate.
Qed.

End MatchLocation.

(** *** Single-shot search, and the revert list *)

Section SingleShotAndRevert.
Import Scenario.
Import String.StringSyntax.
Local Open Scope string_scope.

(** C6. Without the [g] flag the pattern is searched once, from position 0,
    and a call that returns a list of locations returns exactly one. When
    the pattern does not match, line 48 hands [null] to [_getMatchIndexes]
    and the call throws a [TypeError] instead of returning: for the pattern
    xyz on [<p>abc</p>] the outcome is that exception, whereas the same
    pattern with the [g] flag returns without a replacement. *)
Theorem single_shot_mode (fuel : nat) (li : nat)
        (ex : jsstring -> nat -> option MatchArray) (text : jsstring)
        (captureGroup : option Z) :
  locate fuel (mkRegExp false li ex) text captureGroup
  = match _getMatchIndexes (ex text 0) captureGroup with
    | inl e => Throw e
    | inr loc => Ok [loc]
    end
  /\ locate fuel (mkRegExp false li (fun _ _ => None)) text captureGroup = Throw TypeError
  /\ (let r := findAndReplaceDOMText (S fuel) (compile false re_xyz) 0 em None (page p_abc) in
      fst r = Throw TypeError
      /\ child_shapes 0 (snd r) = Some [T (lit "abc")])
  /\ (let r := findAndReplaceDOMText (S fuel) (compile true re_xyz) 0 em None (page p_abc) in
      fst r = Ok tt
      /\ child_shapes 0 (snd r) = Some [T (lit "abc")]).
Proof.
  split; [reflexivity|]. split; [reflexivity|].
  split; vm_compute; split; reflexivity.
Qed.

(** C1. The claim is what [revert] is documented to do ("Reverts the last
    findAndReplaceDOMText process"), and the code misses it when a match
    spans an empty Text node. The replacement node of an empty Text node
    has no child (the test of [fill] at line 205), and the closure of lines
    263-273 hands its [firstChild], [null], to [insertBefore], which
    throws a [TypeError]: [revert] stops there, replacement nodes stay in
    the document and the revert list is not cleared.

    First a paragraph whose three Text children are "fo", the empty string
    and "o", the pattern foo and the node name [em]: the call replaces the
    three nodes and records one revert action; the [revert] that follows
    throws after unwrapping the first replacement node only.

    Then [<p>x<b>ab</b>y</p>], a document without an empty Text node: a
    call for the pattern xab leaves an empty Text node behind the
    replaced "ab" (line 247 creates [after] even when it is empty); a
    second call, for the pattern by, spans that node; the [revert] that
    follows throws, and the replacement nodes of "y" and of the empty Text
    node stay in the paragraph. *)
Theorem revert_after_replace_empty_inner (fuel : nat) :
  (let r := findAndReplaceDOMText (5 + fuel) (compile false re_foo) 0 em None (page p_fo_o) in
   let r' := revert (snd r) in
   fst r = Ok tt
   /\ child_shapes 0 (snd r)
      = Some [T []; E (lit "em") [T (lit "fo")]; E (lit "em") [];
              E (lit "em") [T (lit "o")]; T []]
   /\ (exists a, reverts (snd r) = Some [a])
   /\ fst r' = Throw TypeError
   /\ child_shapes 0 (snd r')
      = Some [T (lit "fo"); E (lit "em") []; E (lit "em") [T (lit "o")]]
   /\ reverts (snd r') <> Some [])
  /\ (let r1 := findAndReplaceDOMText (12 + fuel) (compile false re_xab) 0 em None
                                      (page p_x_ab_y) in
      let r2 := findAndReplaceDOMText (12 + fuel) (compile false re_by) 0 em None (snd r1) in
      let r' := revert (snd r2) in
      fst r1 = Ok tt
      /\ child_shapes 0 (snd r1)
         = Some [T []; E (lit "em") [T (lit "x")];
                 E (lit "b") [E (lit "em") [T (lit "ab")]; T []]; T (lit "y")]
      /\ fst r2 = Ok tt
      /\ child_shapes 0 (snd r2)
         = Some [T []; E (lit "em") [T (lit "x")];
                 E (lit "b") [E (lit "em") [T (lit "a"); E (lit "em") [T (lit "b")]];
                              E (lit "em") []];
                 E (lit "em") [T (lit "y")]; T []]
      /\ (exists a, reverts (snd r2) = Some [a])
      /\ fst r' = Throw TypeError
      /\ child_shapes 0 (snd r')
         = Some [T []; E (lit "em") [T (lit "x")];
                 E (lit "b") [E (lit "em") [T (lit "ab")]; E (lit "em") []];
                 E (lit "em") [T (lit "y")]; T []]
      /\ reverts (snd r') <> Some []).
Proof.
  vm_compute. repeat split; try reflexivity; try (eexists; reflexivity); discriminate.
Qed.

Lemma revert_undefined (st : State) :
  reverts st = None -> revert st = (Throw TypeError, st).
Proof.
  intros H. unfold revert. rewrite H. reflexivity.
Qed.

Lemma revert_empty (st : State) :
  reverts st = Some [] -> revert st = (Ok tt, st).
Proof.
  intros H. unfold revert. rewrite H. simpl. unfold bind, ret. simpl.
  destruct st as [d k r]. simpl in *. subst r. reflexivity.
Qed.

(** C10. As long as [reverts] is [undefined], which it is until line 194
    runs in a first call of [findAndReplaceDOMText], [revert] throws a
    [TypeError] and changes nothing. A call that makes no replacement
    leaves [reverts] as the empty array, and [revert] then returns and
    leaves the store as it is. *)
Theorem revert_before_first_replace
        (fuel : nat) (regex : RegExp) (node : nat) (nodeName : Replacement)
        (captureGroup : option Z) (st : State) (n : Node)
        (Hundef : reverts st = None)
        (Hnode : lookup node (dom st) = Some n)
        (Hnone : nothing_to_replace fuel regex (text_of n) captureGroup) :
  revert st = (Throw TypeError, st)
  /\ let r := findAndReplaceDOMText fuel regex node nodeName captureGroup st in
     fst r = Ok tt
     /\ reverts (snd r) = Some []
     /\ revert (snd r) = (Ok tt, snd r).
Proof.
  split; [apply revert_undefined; exact Hundef|].
  cbv zeta.
  rewrite (far_unfold fuel regex node nodeName captureGroup st n Hnode).
  assert (E : (if negb (truthy (text_of n)) then (Ok tt, prepared nodeName st)
               else match locate fuel regex (text_of n) captureGroup with
                    | Ok [] => (Ok tt, prepared nodeName st)
                    | Ok (first :: rest) =>
                        _stepThroughMatches fuel node first rest (replacer nodeName st)
                                            (prepared nodeName st)
                    | Throw e => (Throw e, prepared nodeName st)
                    | OutOfFuel => (OutOfFuel, prepared nodeName st)
                    end) = (Ok tt, prepared nodeName st)).
  { destruct Hnone as [H|H]; rewrite H; simpl; [reflexivity|].
    destruct (negb (truthy (text_of n))); reflexivity. }
  rewrite E. simpl.
  split; [reflexivity|]. split; [apply prepared_reverts|].
  apply revert_empty. apply prepared_reverts.
Qed.

(** The paragraph [<p>abc</p>], and a global search that finds nothing. *)
Lemma revert_before_first_replace_witness :
  revert (page p_abc) = (Throw TypeError, page p_abc)
  /\ let r := findAndReplaceDOMText 1 (compile true re_xyz) 0 em None (page p_abc) in
     fst r = Ok tt
     /\ reverts (snd r) = Some []
     /\ revert (snd r) = (Ok tt, snd r).
Proof.
  apply (revert_before_first_replace 1 (compile true re_xyz) 0 em None (page p_abc) p_abc).
  - reflexivity.
  - reflexivity.
  - right. reflexivity.
Defined.

End SingleShotAndRevert.

(** *** Order of the locations of a global search *)

Section Order.
Import Scenario.
Import String.StringSyntax.
Local Open Scope string_scope.
Local Open Scope Z_scope.


Lemma last_end_snoc (lo : Z) (l : list MatchLocation) (a : MatchLocation) :
  last_end lo (l ++ [a]) = loc_end a.
Proof.
  unfold last_end. rewrite fold_left_app. reflexivity.
Qed.

Lemma chain_weaken (lo lo' : Z) (l : list MatchLocation) :
  lo' <= lo -> chain lo l -> chain lo' l.
Proof.
  destruct l; simpl; [auto|]. intros H [H1 H2]. split; [lia|exact H2].
Qed.


Lemma is_prefix_length (p s : jsstring) :
  is_prefix p s = true -> (length p <= length s)%nat.
Proof.
  revert s. induction p as [|a p IH]; intros [|b s]; simpl; try lia; try discriminate.
  destruct (ascii_dec a b); [|discriminate]. intros H. apply IH in H. lia.
Qed.

Lemma index_from_bound (p s : jsstring) (k i : nat) :
  index_from p s k = Some i -> (k <= i /\ i - k + length p <= length s)%nat.
Proof.
  revert k. induction s as [|b s IH]; intros k; simpl.
  - destruct (is_prefix p []) eqn:E; [|discriminate].
    intros H. injection H as <-. apply is_prefix_length in E. simpl in E. lia.
  - destruct (is_prefix p (b :: s)) eqn:E.
    + intros H. injection H as <-. apply is_prefix_length in E. simpl in E. lia.
    + intros H. apply IH in H. lia.
Qed.

Lemma indexOf_bound (s p : jsstring) :
  0 <= indexOf s p -> indexOf s p + len p <= len s.
Proof.
  unfold indexOf, len. destruct (index_from p s 0) as [i|] eqn:E; [|lia].
  intros _. apply index_from_bound in E. lia.
Qed.

(** One match, as [_getMatchIndexes] locates it: inside the match that the
    pattern has reported. *)
Lemma getMatchIndexes_inside (text : jsstring) (i : nat) (m : MatchArray)
      (captureGroup : option Z) (loc : MatchLocation) :
  match_ok text i m = true ->
  match captureGroup with
  | Some c => if c >? 0 then
                match elem m 0, elem m (Z.to_nat c) with
                | Some m0, Some cg => 0 <=? indexOf m0 cg
                | _, _ => true
                end
              else true
  | None => true
  end = true ->
  _getMatchIndexes (Some m) captureGroup = inr loc ->
  exists m0, elem m 0 = Some m0
             /\ 0 < len m0
             /\ Z.of_nat i <= m_index m
             /\ m_index m + len m0 <= len text
             /\ m_index m <= loc_start loc
             /\ loc_start loc < loc_end loc
             /\ loc_end loc <= m_index m + len m0.
Proof.
  unfold match_ok, _getMatchIndexes.
  destruct (elem m 0) as [m0|] eqn:E0; [|discriminate].
  intros Hok Hin Hloc. exists m0.
  apply andb_prop in Hok as [Hok _]. apply andb_prop in Hok as [H1 H2].
  apply Z.leb_le in H1. apply Z.leb_le in H2.
  destruct m0 as [|a m0']; [discriminate|].
  assert (Hpos : 0 < len (a :: m0')) by (unfold len; simpl; lia).
  split; [reflexivity|]. split; [exact Hpos|]. split; [exact H1|]. split; [exact H2|].
  destruct captureGroup as [c|].
  - destruct (c >? 0) eqn:Ec.
    + destruct (elem m (Z.to_nat c)) as [[|b cg]|] eqn:Eg; try discriminate.
      injection Hloc as <-. simpl.
      apply Z.leb_le in Hin.
      pose proof (indexOf_bound (a :: m0') (b :: cg) Hin) as Hb.
      assert (0 < len (b :: cg)) by (unfold len; simpl; lia).
      lia.
    + injection Hloc as <-. simpl. lia.
  - simpl in Hloc. injection Hloc as <-. simpl. lia.
Qed.

Lemma engine_ok_at (regex : RegExp) (text : jsstring) (i : nat) (m : MatchArray) :
  engine_ok regex text = true ->
  i = lastIndex regex \/ (i <= length text)%nat ->
  exec_at regex text i = Some m ->
  match_ok text i m = true.
Proof.
  unfold engine_ok. intros H Hi He.
  rewrite forallb_forall in H.
  specialize (H i). rewrite He in H. apply H.
  destruct Hi as [->|Hi]; [left; reflexivity|right]. apply in_seq. lia.
Qed.

Lemma captures_inside_at (regex : RegExp) (text : jsstring) (captureGroup : option Z)
      (i : nat) (m : MatchArray) :
  captures_inside regex text captureGroup = true ->
  i = lastIndex regex \/ (i <= length text)%nat ->
  exec_at regex text i = Some m ->
  match captureGroup with
  | Some c => if c >? 0 then
                match elem m 0, elem m (Z.to_nat c) with
                | Some m0, Some cg => 0 <=? indexOf m0 cg
                | _, _ => true
                end
              else true
  | None => true
  end = true.
Proof.
  unfold captures_inside. intros H Hi He.
  destruct captureGroup as [c|]; [|reflexivity].
  destruct (c >? 0); [|reflexivity].
  rewrite forallb_forall in H.
  specialize (H i). rewrite He in H. apply H.
  destruct Hi as [->|Hi]; [left; reflexivity|right]. apply in_seq. lia.
Qed.







End Order.

(** *** The walk: one Text node, one replacement *)

Section SpanMapping.
Import Scenario.
Import String.StringSyntax.
Local Open Scope string_scope.
Local Open Scope Z_scope.

(** C3. A round of the walk at a Text node, whatever the variables [w0],
    the store and the replacement function. With [atIndex] the running
    offset and [len d] the length of the node: the node becomes the end
    node exactly when no end node is set and [atIndex + len >= match.end]
    ([is_end]), and [endNodeIndex] is then [match.end - atIndex];
    otherwise, if a start node is set, the node is appended to
    [innerNodes]; the node becomes the start node exactly when no start
    node is set and [atIndex + len > match.start] ([is_start]), and
    [startNodeIndex] is then [match.start - atIndex]; [atIndex] grows by
    [len].

    When both nodes are then set, the round calls the replacement
    function with them, the two indexes, the inner nodes, the text of the
    match and its number; [atIndex] goes down by [endNode.length -
    endNodeIndex]; with another match the walk resumes behind the node
    that the function has returned, with no start node, no end node and no
    inner node; with no other match it ends. When one of the two nodes is
    not set, the round calls nothing and the walk moves on, to the first
    child, the next sibling, or up, with the variables as the node has
    left them. *)
Theorem span_mapping
        (fuel : nat) (node : nat) (replaceFn : Range -> M nat)
        (w0 : Walk) (st : State) (x : nat) (d : jsstring)
        (Hcur : lookup (curNode w0) (dom st) = Some (Text x d)) :
  let loc := matchLocation w0 in
  let is_end := negb (is_some (endNode w0)) && (atIndex w0 + len d >=? loc_end loc) in
  let is_start := negb (is_some (startNode w0)) && (atIndex w0 + len d >? loc_start loc) in
  let endNode' := if is_end then Some (curNode w0) else endNode w0 in
  let endNodeIndex' := if is_end then loc_end loc - atIndex w0 else endNodeIndex w0 in
  let innerNodes' := if negb is_end && is_some (startNode w0)
                     then innerNodes w0 ++ [curNode w0] else innerNodes w0 in
  let startNode' := if is_start then Some (curNode w0) else startNode w0 in
  let startNodeIndex' := if is_start then loc_start loc - atIndex w0
                         else startNodeIndex w0 in
  let atIndex' := atIndex w0 + len d in
  walk_step fuel node replaceFn w0 st
  = match startNode', endNode' with
    | Some s, Some e =>
        (cur <- replaceFn (mkRange s startNodeIndex' e endNodeIndex' innerNodes'
                                   (loc_match loc) (matchIndex w0)) ;;
         de <- get_data e ;;
         match matches w0 with
         | [] => ret Break
         | next :: rest =>
             nx <- forward_or_up fuel node cur ;;
             match nx with
             | Some c =>
                 ret (Continue (mkWalk None None startNodeIndex' endNodeIndex' []
                                       (atIndex' - (len de - endNodeIndex')) c next rest
                                       (matchIndex w0 + 1)))
             | None => ret Break
             end
         end) st
    | _, _ =>
        (fc <- get_firstChild (curNode w0) ;;
         ns <- get_nextSibling (curNode w0) ;;
         let onward c := Continue (mkWalk startNode' endNode' startNodeIndex' endNodeIndex'
                                          innerNodes' atIndex' c loc (matches w0)
                                          (matchIndex w0)) in
         match (match fc with Some c => Some c | None => ns end) with
         | Some c => ret (onward c)
         | None =>
             nx <- forward_or_up fuel node (curNode w0) ;;
             match nx with
             | Some c => ret (onward c)
             | None => ret Break
             end
         end) st
    end.
Proof.
  cbv zeta. unfold walk_step, bind at 1, get_node. rewrite Hcur.
  cbn [is_text data_of]. unfold visit_text, move_to.
  cbn [startNode endNode startNodeIndex endNodeIndex innerNodes atIndex curNode
       matchLocation matches matchIndex].
  rewrite (Z.add_comm (len d) (atIndex w0)).
  destruct (negb (is_some (endNode w0)) && (atIndex w0 + len d >=? loc_end (matchLocation w0)))
    eqn:Ee;
  destruct (negb (is_some (startNode w0))
            && (atIndex w0 + len d >? loc_start (matchLocation w0))) eqn:Es;
  destruct (startNode w0) as [s|]; destruct (endNode w0) as [e|];
    try discriminate; reflexivity.
Qed.

(** The match foo bar baz over the three Text nodes of foo [<b>bar</b>]
    baz: the round at "foo " finds the start node; the round at "bar"
    appends an inner node; the round at " baz" finds the end node, calls
    the replacement function for the range from index 0 of node 1 to
    index 4 of node 4 over node 3, and ends the walk, the match being the
    last. And the first round at the Text node of [<p>a-a</p>] for the
    global pattern a: the match 0 to 1 is replaced, and the walk resumes
    behind the replacement node, with [atIndex] 1 and the match 2 to 3. *)
Lemma span_mapping_witness :
  let foo := replacer em (page div_foo) in
  let st := prepared em (page div_foo) in
  let loc := mkLoc 0 11 [lit "foo bar baz"] in
  let a_a := replacer em (page p_a_a) in
  walk_step 9 0 foo (mkWalk None None 0 0 [] 0 1 loc [] 0) st
  = (Ok (Continue (mkWalk (Some 1%nat) None 0 0 [] 4 2 loc [] 0)), st)
  /\ walk_step 9 0 foo (mkWalk (Some 1%nat) None 0 0 [] 4 3 loc [] 0) st
     = (Ok (Continue (mkWalk (Some 1%nat) None 0 0 [3%nat] 7 4 loc [] 0)), st)
  /\ (let r := walk_step 9 0 foo (mkWalk (Some 1%nat) None 0 0 [3%nat] 7 4 loc [] 0) st in
      fst r = Ok Break
      /\ r = (v <- foo (mkRange 1 0 4 4 [3%nat] [lit "foo bar baz"] 0) ;; ret Break) st
      /\ child_shapes 0 (snd r)
         = Some [T []; E (lit "em") [T (lit "foo ")];
                 E (lit "b") [E (lit "em") [T (lit "bar")]];
                 E (lit "em") [T (lit " baz")]; T []])
  /\ fst (walk_step 4 0 a_a
                    (mkWalk None None 0 0 [] 0 1 (mkLoc 0 1 [lit "a"]) [mkLoc 2 3 [lit "a"]] 0)
                    (prepared em (page p_a_a)))
     = Ok (Continue (mkWalk None None 0 1 [] 1 5 (mkLoc 2 3 [lit "a"]) [] 1)).
Proof.
  cbv zeta. split; [|split; [|split]].
  - rewrite (span_mapping 9 0 (replacer em (page div_foo))
               (mkWalk None None 0 0 [] 0 1 (mkLoc 0 11 [lit "foo bar baz"]) [] 0)
               (prepared em (page div_foo)) 1 (lit "foo ") eq_refl).
    vm_compute. reflexivity.
  - rewrite (span_mapping 9 0 (replacer em (page div_foo))
               (mkWalk (Some 1%nat) None 0 0 [] 4 3 (mkLoc 0 11 [lit "foo bar baz"]) [] 0)
               (prepared em (page div_foo)) 3 (lit "bar") eq_refl).
    vm_compute. reflexivity.
  - rewrite (span_mapping 9 0 (replacer em (page div_foo))
               (mkWalk (Some 1%nat) None 0 0 [3%nat] 7 4 (mkLoc 0 11 [lit "foo bar baz"]) [] 0)
               (prepared em (page div_foo)) 4 (lit " baz") eq_refl).
    vm_compute. repeat split; reflexivity.
  - rewrite (span_mapping 4 0 (replacer em (page p_a_a))
               (mkWalk None None 0 0 [] 0 1 (mkLoc 0 1 [lit "a"]) [mkLoc 2 3 [lit "a"]] 0)
               (prepared em (page p_a_a)) 1 (lit "a-a") eq_refl).
    vm_compute. reflexivity.
Defined.

End SpanMapping.

(** *** Trees, places and the text of a subtree *)

(** *** Trees: induction, identities *)

Section TreesFacts.

Lemma Node_induction (P : Node -> Prop) :
  (forall i d, P (Text i d)) ->
  (forall i t cs, Forall P cs -> P (Element i t cs)) ->
  forall n, P n.
Proof.
  intros HT HE. fix IH 1. intros [i d|i t cs]; [apply HT|].
  apply HE. induction cs as [|c cs IHcs]; constructor; [apply IH|exact IHcs].
Qed.

Lemma nid_in_ids (n : Node) : In (nid n) (ids n).
Proof. destruct n; simpl; auto. Qed.

Lemma first_some_none {A B : Type} (f : A -> option B) (l : list A) :
  (forall a, In a l -> f a = None) -> first_some f l = None.
Proof.
  induction l as [|a l IH]; simpl; intros H; [reflexivity|].
  rewrite (H a (or_introl eq_refl)). apply IH. intros b Hb. apply H. right. exact Hb.
Qed.

Lemma first_some_skip {A B : Type} (f : A -> option B) (l1 l2 : list A) :
  (forall a, In a l1 -> f a = None) -> first_some f (l1 ++ l2) = first_some f l2.
Proof.
  induction l1 as [|a l1 IH]; simpl; intros H; [reflexivity|].
  rewrite (H a (or_introl eq_refl)). apply IH. intros b Hb. apply H. right. exact Hb.
Qed.

Lemma first_some_sound {A B : Type} (f : A -> option B) (l : list A) (b : B) :
  first_some f l = Some b ->
  exists l1 a l2, l = l1 ++ a :: l2 /\ f a = Some b.
Proof.
  induction l as [|a l IH]; simpl; [discriminate|].
  destruct (f a) as [b'|] eqn:E.
  - intros H. injection H as <-. exists [], a, l. auto.
  - intros H. destruct (IH H) as (l1 & a' & l2 & -> & Ha).
    exists (a :: l1), a', l2. auto.
Qed.

Lemma find_notin (x : nat) (n : Node) : ~ In x (ids n) -> find x n = None.
Proof.
  induction n as [i d|i t cs IH] using Node_induction; simpl; intros H.
  - destruct (Nat.eqb_spec i x); [tauto|reflexivity].
  - destruct (Nat.eqb_spec i x); [tauto|].
    apply first_some_none. intros c Hc.
    rewrite Forall_forall in IH. apply IH; [exact Hc|].
    intros Hx. apply H. right. apply in_flat_map. exists c. auto.
Qed.

Lemma split_child_notin (x : nat) (cs : list Node) :
  ~ In x (map nid cs) -> split_child x cs = None.
Proof.
  induction cs as [|c cs IH]; simpl; intros H; [reflexivity|].
  destruct (Nat.eqb_spec (nid c) x); [tauto|].
  rewrite IH; [reflexivity|tauto].
Qed.

Lemma in_map_nid_ids (x : nat) (cs : list Node) :
  In x (map nid cs) -> In x (flat_map ids cs).
Proof.
  rewrite in_map_iff, in_flat_map. intros (c & <- & Hc). exists c. split; [exact Hc|apply nid_in_ids].
Qed.

Lemma place_notin (x : nat) (n : Node) :
  ~ In x (flat_map ids (children n)) -> place x n = None.
Proof.
  induction n as [i d|i t cs IH] using Node_induction; simpl; intros H; [reflexivity|].
  rewrite split_child_notin by (intros Hx; apply H, in_map_nid_ids, Hx).
  apply first_some_none. intros c Hc.
  rewrite Forall_forall in IH. apply IH; [exact Hc|].
  intros Hx. apply H. apply in_flat_map. exists c. split; [exact Hc|].
  destruct c; simpl in *; [tauto|right; exact Hx].
Qed.

Lemma flat_map_id_on {A : Type} (h : A -> list A) (l : list A) :
  (forall a, In a l -> h a = [a]) -> flat_map h l = l.
Proof.
  induction l as [|a l IH]; simpl; intros H; [reflexivity|].
  rewrite (H a (or_introl eq_refl)). simpl. f_equal. apply IH. intros b Hb. apply H. right. exact Hb.
Qed.

Lemma subst_notin (x : nat) (g : Node -> list Node) (n : Node) :
  ~ In x (ids n) -> subst x g n = [n].
Proof.
  induction n as [i d|i t cs IH] using Node_induction; simpl; intros H.
  - destruct (Nat.eqb_spec i x); [tauto|reflexivity].
  - destruct (Nat.eqb_spec i x); [tauto|].
    rewrite flat_map_id_on; [reflexivity|].
    intros c Hc. rewrite Forall_forall in IH. apply IH; [exact Hc|].
    intros Hx. apply H. right. apply in_flat_map. exists c. auto.
Qed.

Lemma subst_in_notin (x : nat) (g : Node -> list Node) (f : forest) :
  ~ In x (flat_map ids f) -> subst_in x g f = f.
Proof.
  intros H. apply flat_map_id_on. intros n Hn. apply subst_notin.
  intros Hx. apply H. apply in_flat_map. exists n. auto.
Qed.

Lemma find_nid (x : nat) (n m : Node) : find x n = Some m -> nid m = x.
Proof.
  induction n as [i d|i t cs IH] using Node_induction; simpl.
  - destruct (Nat.eqb_spec i x); [|discriminate]. intros H. injection H as <-. exact e.
  - destruct (Nat.eqb_spec i x).
    + intros H. injection H as <-. exact e.
    + intros H. apply first_some_sound in H as (l1 & c & l2 & -> & Hc).
      rewrite Forall_forall in IH. apply (IH c); [|exact Hc].
      apply in_or_app. right. left. reflexivity.
Qed.

End TreesFacts.

(** *** A node in its place: the path of frames from the node up *)

Section ZipperFacts.

Lemma plug_app (fs1 fs2 : list Frame) (n : Node) :
  plug (fs1 ++ fs2) n = plug fs2 (plug fs1 n).
Proof.
  revert n. induction fs1 as [|fr fs1 IH]; simpl; intros n; [reflexivity|apply IH].
Qed.

Lemma plug_list_one (fs : list Frame) (n : Node) : plug_list fs [n] = [plug fs n].
Proof. destruct fs; reflexivity. Qed.

Lemma text_wrap (fr : Frame) (n : Node) :
  text_of (wrap fr n)
  = flat_map text_of (f_left fr) ++ text_of n ++ flat_map text_of (f_right fr).
Proof.
  unfold wrap. simpl. rewrite flat_map_app. reflexivity.
Qed.

Lemma text_plug (fs : list Frame) (n : Node) :
  text_of (plug fs n) = left_text fs ++ text_of n ++ right_text fs.
Proof.
  revert n. induction fs as [|fr fs IH]; simpl; intros n.
  - rewrite app_nil_r. reflexivity.
  - rewrite IH, text_wrap. rewrite <- !app_assoc. reflexivity.
Qed.

Lemma ids_wrap (fr : Frame) (n : Node) :
  ids (wrap fr n)
  = f_id fr :: flat_map ids (f_left fr) ++ ids n ++ flat_map ids (f_right fr).
Proof.
  unfold wrap. simpl. rewrite flat_map_app. reflexivity.
Qed.

Lemma ids_plug (fs : list Frame) (n : Node) :
  Permutation (ids (plug fs n)) (ids n ++ frame_ids fs).
Proof.
  revert n. induction fs as [|fr fs IH]; simpl; intros n.
  - rewrite app_nil_r. apply Permutation_refl.
  - rewrite IH, ids_wrap. unfold frame_ids at 2. simpl. fold (frame_ids fs).
    rewrite <- ?app_assoc. simpl. rewrite <- ?app_assoc.
    apply Permutation_cons_app. apply Permutation_app_swap_app.
Qed.

Lemma NoDup_app_disj {A : Type} (l1 l2 : list A) (x : A) :
  NoDup (l1 ++ l2) -> In x l1 -> ~ In x l2.
Proof.
  induction l1 as [|a l1 IH]; simpl; intros H; [tauto|].
  inversion H as [|? ? Ha Hn]; subst. intros [->|Hx].
  - intros Hx. apply Ha. apply in_or_app. right. exact Hx.
  - apply IH; assumption.
Qed.

Lemma NoDup_app_l {A : Type} (l1 l2 : list A) : NoDup (l1 ++ l2) -> NoDup l1.
Proof. apply NoDup_app_remove_r. Qed.

Lemma NoDup_app_r {A : Type} (l1 l2 : list A) : NoDup (l1 ++ l2) -> NoDup l2.
Proof. apply NoDup_app_remove_l. Qed.

Lemma NoDup_plug_inner (fs : list Frame) (n : Node) :
  NoDup (ids (plug fs n)) -> NoDup (ids n).
Proof.
  intros H. apply (Permutation_NoDup (ids_plug fs n)) in H. exact (NoDup_app_l _ _ H).
Qed.

Lemma NoDup_plug_frames (fs : list Frame) (n : Node) (x : nat) :
  NoDup (ids (plug fs n)) -> In x (ids n) -> ~ In x (frame_ids fs).
Proof.
  intros H. apply (Permutation_NoDup (ids_plug fs n)) in H. apply NoDup_app_disj. exact H.
Qed.

Lemma find_in (x : nat) (n : Node) : In x (ids n) -> exists m, find x n = Some m.
Proof.
  induction n as [i d|i t cs IH] using Node_induction; simpl.
  - intros [->|[]]. rewrite Nat.eqb_refl. eauto.
  - destruct (Nat.eqb_spec i x); [eauto|].
    intros [H|H]; [contradiction|].
    apply in_flat_map in H as (c & Hc & Hx).
    rewrite Forall_forall in IH. revert Hc Hx IH. clear.
    induction cs as [|c' cs IHcs]; simpl; [tauto|].
    intros [->|Hc] Hx IH.
    + destruct (IH c (or_introl eq_refl) Hx) as [m ->]. eauto.
    + destruct (find x c'); [eauto|]. apply IHcs; auto.
Qed.

Lemma desc_in_ids (x : nat) (n : Node) :
  In x (flat_map ids (children n)) -> In x (ids n).
Proof. destruct n; simpl; [tauto|auto]. Qed.

Lemma NoDup_root_not_desc (n : Node) :
  NoDup (ids n) -> ~ In (nid n) (flat_map ids (children n)).
Proof.
  destruct n as [i d|i t cs]; simpl; [tauto|].
  intros H. inversion H; assumption.
Qed.

Lemma find_wrap (x : nat) (fr : Frame) (n : Node) :
  NoDup (ids (wrap fr n)) -> In x (ids n) -> find x (wrap fr n) = find x n.
Proof.
  intros Hnd Hx. rewrite ids_wrap in Hnd.
  inversion Hnd as [|? ? Hid Hrest]; subst.
  unfold wrap. simpl.
  destruct (Nat.eqb_spec (f_id fr) x) as [E|E].
  { exfalso. apply Hid. rewrite <- E in Hx. apply in_or_app. right. apply in_or_app. left. exact Hx. }
  rewrite first_some_skip.
  - simpl. destruct (find_in x n Hx) as [m ->]. reflexivity.
  - intros c Hc. apply find_notin. intros Hxc.
    refine (NoDup_app_disj _ _ x Hrest _ _).
    + apply in_flat_map. exists c. auto.
    + apply in_or_app. left. exact Hx.
Qed.

Lemma find_plug (x : nat) (fs : list Frame) (t : Node) :
  NoDup (ids (plug fs t)) -> In x (ids t) -> find x (plug fs t) = find x t.
Proof.
  revert t. induction fs as [|fr fs IH]; simpl; intros t Hnd Hx; [reflexivity|].
  rewrite IH; [|exact Hnd|].
  - apply find_wrap; [|exact Hx]. exact (NoDup_plug_inner fs _ Hnd).
  - rewrite ids_wrap. right. apply in_or_app. right. apply in_or_app. left. exact Hx.
Qed.

Lemma find_self (n : Node) : find (nid n) n = Some n.
Proof. destruct n; simpl; rewrite Nat.eqb_refl; reflexivity. Qed.

Lemma split_child_focus (x : nat) (l r : list Node) (n : Node) :
  ~ In x (map nid l) -> nid n = x -> split_child x (l ++ n :: r) = Some (l, n, r).
Proof.
  intros Hl Hn. induction l as [|c l IH]; simpl.
  - rewrite Hn, Nat.eqb_refl. reflexivity.
  - simpl in Hl. destruct (Nat.eqb_spec (nid c) x); [tauto|].
    rewrite IH by tauto. reflexivity.
Qed.

Lemma place_wrap_deep (x : nat) (fr : Frame) (t : Node) :
  NoDup (ids (wrap fr t)) -> In x (flat_map ids (children t)) ->
  place x (wrap fr t) = place x t.
Proof.
  intros Hnd Hx. pose proof Hnd as Hnd0. rewrite ids_wrap in Hnd.
  inversion Hnd as [|? ? Hid Hrest]; subst.
  assert (Hxt : In x (ids t)) by (apply desc_in_ids; exact Hx).
  assert (Hl : ~ In x (flat_map ids (f_left fr))).
  { intros H. refine (NoDup_app_disj _ _ x Hrest H _). apply in_or_app. left. exact Hxt. }
  assert (Hr : ~ In x (flat_map ids (f_right fr))).
  { intros H. apply NoDup_app_r in Hrest. refine (NoDup_app_disj _ _ x Hrest Hxt H). }
  assert (Hroot : x <> nid t).
  { intros ->. apply NoDup_app_r, NoDup_app_l in Hrest.
    exact (NoDup_root_not_desc t Hrest Hx). }
  unfold wrap. simpl.
  rewrite split_child_notin.
  - rewrite first_some_skip.
    + simpl. destruct (place x t); [reflexivity|].
      apply first_some_none. intros c Hc. apply place_notin. intros H.
      apply Hr. apply in_flat_map. exists c. split; [exact Hc|apply desc_in_ids; exact H].
    + intros c Hc. apply place_notin. intros H.
      apply Hl. apply in_flat_map. exists c. split; [exact Hc|apply desc_in_ids; exact H].
  - rewrite map_app. simpl. intros H. apply in_app_or in H as [H|[H|H]].
    + apply Hl, in_map_nid_ids, H.
    + apply Hroot. symmetry. exact H.
    + apply Hr, in_map_nid_ids, H.
Qed.

Lemma place_plug_deep (x : nat) (fs : list Frame) (t : Node) :
  NoDup (ids (plug fs t)) -> In x (flat_map ids (children t)) ->
  place x (plug fs t) = place x t.
Proof.
  revert t. induction fs as [|fr fs IH]; simpl; intros t Hnd Hx; [reflexivity|].
  rewrite IH; [|exact Hnd|].
  - apply place_wrap_deep; [|exact Hx]. exact (NoDup_plug_inner fs _ Hnd).
  - unfold wrap. simpl. apply in_flat_map. exists t. split.
    + apply in_or_app. right. left. reflexivity.
    + apply desc_in_ids. exact Hx.
Qed.

Lemma place_plug_focus (fr : Frame) (fs : list Frame) (n : Node) :
  NoDup (ids (plug (fr :: fs) n)) ->
  place (nid n) (plug (fr :: fs) n) = Some (f_id fr, (f_left fr, n, f_right fr)).
Proof.
  simpl. intros Hnd.
  pose proof (NoDup_plug_inner fs _ Hnd) as Hw.
  rewrite place_plug_deep; [|exact Hnd|].
  - unfold wrap. simpl. rewrite split_child_focus; [reflexivity| |reflexivity].
    rewrite ids_wrap in Hw. inversion Hw as [|? ? _ Hrest]; subst.
    intros H. apply in_map_nid_ids in H.
    refine (NoDup_app_disj _ _ _ Hrest H _). apply in_or_app. left. apply nid_in_ids.
  - unfold wrap. simpl. apply in_flat_map. exists n. split.
    + apply in_or_app. right. left. reflexivity.
    + apply nid_in_ids.
Qed.

(** *** A node in its place in the store *)

Lemma ids_forest_split (pre post : forest) (t : Node) :
  flat_map ids (pre ++ t :: post) = flat_map ids pre ++ ids t ++ flat_map ids post.
Proof. rewrite flat_map_app. reflexivity. Qed.

Lemma NoDup_forest_tree (pre post : forest) (t : Node) :
  NoDup (flat_map ids (pre ++ t :: post)) -> NoDup (ids t).
Proof.
  rewrite ids_forest_split. intros H. apply NoDup_app_r, NoDup_app_l in H. exact H.
Qed.

Lemma forest_not_pre (pre post : forest) (t : Node) (x : nat) :
  NoDup (flat_map ids (pre ++ t :: post)) -> In x (ids t) -> ~ In x (flat_map ids pre).
Proof.
  rewrite ids_forest_split. intros H Hx Hp.
  refine (NoDup_app_disj _ _ x H Hp _). apply in_or_app. left. exact Hx.
Qed.

Lemma forest_not_post (pre post : forest) (t : Node) (x : nat) :
  NoDup (flat_map ids (pre ++ t :: post)) -> In x (ids t) -> ~ In x (flat_map ids post).
Proof.
  rewrite ids_forest_split. intros H Hx Hp. apply NoDup_app_r in H.
  exact (NoDup_app_disj _ _ x H Hx Hp).
Qed.

Lemma in_ids_plug (x : nat) (fs : list Frame) (n : Node) :
  In x (ids n) -> In x (ids (plug fs n)).
Proof.
  intros H. apply (Permutation_in x (Permutation_sym (ids_plug fs n))).
  apply in_or_app. left. exact H.
Qed.

Lemma lookup_focus (pre post : forest) (fs : list Frame) (n : Node) :
  NoDup (flat_map ids (pre ++ plug fs n :: post)) ->
  lookup (nid n) (pre ++ plug fs n :: post) = Some n.
Proof.
  intros H. unfold lookup. rewrite first_some_skip.
  - simpl. rewrite find_plug, find_self; [reflexivity| |apply nid_in_ids].
    exact (NoDup_forest_tree _ _ _ H).
  - intros c Hc. apply find_notin. intros Hx.
    apply (forest_not_pre _ _ _ (nid n) H); [apply in_ids_plug, nid_in_ids|].
    apply in_flat_map. exists c. auto.
Qed.

Lemma place_in_focus (pre post : forest) (fr : Frame) (fs : list Frame) (n : Node) :
  NoDup (flat_map ids (pre ++ plug (fr :: fs) n :: post)) ->
  place_in (nid n) (pre ++ plug (fr :: fs) n :: post)
  = Some (f_id fr, (f_left fr, n, f_right fr)).
Proof.
  intros H. unfold place_in. rewrite first_some_skip.
  - cbn [first_some]. rewrite place_plug_focus; [reflexivity|].
    exact (NoDup_forest_tree _ _ _ H).
  - intros c Hc. apply place_notin. intros Hx.
    apply (forest_not_pre _ _ _ (nid n) H); [apply in_ids_plug, nid_in_ids|].
    apply in_flat_map. exists c. split; [exact Hc|apply desc_in_ids, Hx].
Qed.

Lemma place_in_top (pre post : forest) (n : Node) :
  NoDup (flat_map ids (pre ++ n :: post)) ->
  place_in (nid n) (pre ++ n :: post) = None.
Proof.
  intros H. unfold place_in. apply first_some_none. intros c Hc.
  apply place_notin. intros Hx. apply in_app_or in Hc as [Hc|[<-|Hc]].
  - apply (forest_not_pre _ _ _ (nid n) H); [apply nid_in_ids|].
    apply in_flat_map. exists c. split; [exact Hc|apply desc_in_ids, Hx].
  - exact (NoDup_root_not_desc n (NoDup_forest_tree _ _ _ H) Hx).
  - apply (forest_not_post _ _ _ (nid n) H); [apply nid_in_ids|].
    apply in_flat_map. exists c. split; [exact Hc|apply desc_in_ids, Hx].
Qed.

(** *** Substitution below frames *)

Lemma subst_plug (x : nat) (g : Node -> list Node) (fs : list Frame) (t : Node) :
  (forall fr, In fr fs -> f_id fr <> x) ->
  subst x g (plug fs t)
  = plug_list (map (map_frame (flat_map (subst x g))) fs) (subst x g t).
Proof.
  revert t. induction fs as [|fr fs IH]; simpl; intros t H; [reflexivity|].
  rewrite IH by (intros fr' Hfr; apply H; right; exact Hfr).
  unfold wrap at 1. simpl.
  destruct (Nat.eqb_spec (f_id fr) x) as [E|E]; [exfalso; exact (H fr (or_introl eq_refl) E)|].
  rewrite plug_list_one. rewrite flat_map_app. reflexivity.
Qed.

Lemma map_frames_id (h : list Node -> list Node) (fs : list Frame) :
  (forall fr, In fr fs -> h (f_left fr) = f_left fr /\ h (f_right fr) = f_right fr) ->
  map (map_frame h) fs = fs.
Proof.
  induction fs as [|fr fs IH]; simpl; intros H; [reflexivity|].
  rewrite IH by (intros fr' Hfr; apply H; right; exact Hfr).
  destruct (H fr (or_introl eq_refl)) as [Hl Hr].
  destruct fr as [i t l r]. unfold map_frame. simpl in *. rewrite Hl, Hr. reflexivity.
Qed.

Lemma frame_id_in (fr : Frame) (fs : list Frame) :
  In fr fs -> In (f_id fr) (frame_ids fs).
Proof.
  intros H. unfold frame_ids. apply in_flat_map. exists fr. split; [exact H|left; reflexivity].
Qed.

Lemma frame_left_in (x : nat) (fr : Frame) (fs : list Frame) :
  In fr fs -> In x (flat_map ids (f_left fr)) -> In x (frame_ids fs).
Proof.
  intros H Hx. unfold frame_ids. apply in_flat_map. exists fr. split; [exact H|].
  right. apply in_or_app. left. exact Hx.
Qed.

Lemma frame_right_in (x : nat) (fr : Frame) (fs : list Frame) :
  In fr fs -> In x (flat_map ids (f_right fr)) -> In x (frame_ids fs).
Proof.
  intros H Hx. unfold frame_ids. apply in_flat_map. exists fr. split; [exact H|].
  right. apply in_or_app. right. exact Hx.
Qed.

(** Substitution at the node in focus. *)
Lemma subst_focus (g : Node -> list Node) (fs : list Frame) (n : Node) :
  NoDup (ids (plug fs n)) ->
  subst (nid n) g (plug fs n) = plug_list fs (g n).
Proof.
  intros H.
  pose proof (NoDup_plug_frames fs n (nid n) H (nid_in_ids n)) as Hfr.
  rewrite subst_plug.
  - rewrite map_frames_id.
    + destruct n; simpl; rewrite Nat.eqb_refl; reflexivity.
    + intros fr Hin. split; apply flat_map_id_on; intros c Hc; apply subst_notin; intros Hx; apply Hfr.
      * apply (frame_left_in _ fr); [exact Hin|]. apply in_flat_map. exists c. auto.
      * apply (frame_right_in _ fr); [exact Hin|]. apply in_flat_map. exists c. auto.
  - intros fr Hin E. apply Hfr. rewrite <- E. apply frame_id_in. exact Hin.
Qed.

Lemma subst_in_focus (g : Node -> list Node) (pre post : forest) (fs : list Frame) (n : Node) :
  NoDup (flat_map ids (pre ++ plug fs n :: post)) ->
  subst_in (nid n) g (pre ++ plug fs n :: post) = pre ++ plug_list fs (g n) ++ post.
Proof.
  intros H. unfold subst_in. rewrite flat_map_app. simpl.
  rewrite subst_focus by exact (NoDup_forest_tree _ _ _ H).
  fold (subst_in (nid n) g pre). fold (subst_in (nid n) g post).
  rewrite !subst_in_notin; [reflexivity| |].
  - apply (forest_not_post _ _ _ _ H). apply in_ids_plug, nid_in_ids.
  - apply (forest_not_pre _ _ _ _ H). apply in_ids_plug, nid_in_ids.
Qed.

(** *** Every node that is found has a place *)

Lemma find_sound (x : nat) (t n : Node) :
  find x t = Some n -> exists fs, t = plug fs n.
Proof.
  induction t as [i d|i tg cs IH] using Node_induction; simpl.
  - destruct (i =? x); [|discriminate]. intros H. injection H as <-. exists []. reflexivity.
  - destruct (i =? x).
    + intros H. injection H as <-. exists []. reflexivity.
    + intros H. apply first_some_sound in H as (l1 & c & l2 & -> & Hc).
      rewrite Forall_forall in IH.
      destruct (IH c (in_elt c l1 l2) Hc) as [fs ->].
      exists (fs ++ [mkFrame i tg l1 l2]). rewrite plug_app. reflexivity.
Qed.

Lemma split_child_sound (x : nat) (cs l r : list Node) (n : Node) :
  split_child x cs = Some (l, n, r) -> cs = l ++ n :: r /\ nid n = x.
Proof.
  revert l. induction cs as [|c cs IH]; simpl; intros l; [discriminate|].
  destruct (Nat.eqb_spec (nid c) x).
  - intros H. injection H as <- <- <-. auto.
  - destruct (split_child x cs) as [[[l' n'] r']|]; [|discriminate].
    intros H. injection H as <- <- <-. destruct (IH l' eq_refl) as [-> Hn]. auto.
Qed.

Lemma place_sound (x p : nat) (t n : Node) (l r : list Node) :
  place x t = Some (p, (l, n, r)) ->
  exists tg fs, t = plug (mkFrame p tg l r :: fs) n /\ nid n = x.
Proof.
  induction t as [i d|i tg cs IH] using Node_induction; simpl; [discriminate|].
  destruct (split_child x cs) as [[[l' n'] r']|] eqn:E.
  - intros H. injection H as <- <- <- <-.
    apply split_child_sound in E as [-> Hn]. exists tg, []. auto.
  - intros H. apply first_some_sound in H as (l1 & c & l2 & -> & Hc).
    rewrite Forall_forall in IH.
    destruct (IH c (in_elt c l1 l2) Hc) as (tg' & fs & -> & Hn).
    exists tg', (fs ++ [mkFrame i tg l1 l2]). split; [|exact Hn].
    change (mkFrame p tg' l r :: fs ++ [mkFrame i tg l1 l2])
      with ((mkFrame p tg' l r :: fs) ++ [mkFrame i tg l1 l2]).
    rewrite plug_app. reflexivity.
Qed.

Lemma lookup_sound (x : nat) (f : forest) (n : Node) :
  lookup x f = Some n ->
  exists pre fs post, f = pre ++ plug fs n :: post /\ nid n = x.
Proof.
  intros H. pose proof H as H0. apply first_some_sound in H as (pre & t & post & -> & Ht).
  destruct (find_sound x t n Ht) as [fs ->].
  exists pre, fs, post. split; [reflexivity|]. exact (find_nid x _ n Ht).
Qed.

Lemma place_in_sound (x p : nat) (f : forest) (n : Node) (l r : list Node) :
  place_in x f = Some (p, (l, n, r)) ->
  exists pre tg fs post, f = pre ++ plug (mkFrame p tg l r :: fs) n :: post /\ nid n = x.
Proof.
  intros H. apply first_some_sound in H as (pre & t & post & -> & Ht).
  destruct (place_sound x p t n l r Ht) as (tg & fs & -> & Hn).
  exists pre, tg, fs, post. auto.
Qed.

End ZipperFacts.

(** *** Identities of the store under a substitution *)

Section StoreIdsFacts.

Lemma ids_plug_list (fs : list Frame) (ns : list Node) :
  Permutation (flat_map ids (plug_list fs ns)) (flat_map ids ns ++ frame_ids fs).
Proof.
  destruct fs as [|fr fs]; simpl.
  - rewrite app_nil_r. apply Permutation_refl.
  - rewrite app_nil_r.
    rewrite (ids_plug fs). simpl. rewrite !flat_map_app.
    unfold frame_ids at 2. simpl. fold (frame_ids fs).
    rewrite <- ?app_assoc. simpl. rewrite <- ?app_assoc.
    apply Permutation_cons_app. apply Permutation_app_swap_app.
Qed.

Lemma all_ids_focus_list (pre post : forest) (fs : list Frame) (ns : list Node) :
  Permutation (all_ids (pre ++ plug_list fs ns ++ post))
              (flat_map ids ns ++ ctx_ids pre fs post).
Proof.
  unfold all_ids, ctx_ids. rewrite !flat_map_app.
  rewrite (ids_plug_list fs ns).
  rewrite <- ?app_assoc. apply Permutation_app_swap_app.
Qed.

Lemma all_ids_focus (pre post : forest) (fs : list Frame) (n : Node) :
  Permutation (all_ids (pre ++ plug fs n :: post)) (ids n ++ ctx_ids pre fs post).
Proof.
  pose proof (all_ids_focus_list pre post fs [n]) as H.
  rewrite plug_list_one in H. simpl in H. rewrite app_nil_r in H. exact H.
Qed.

(** The identities after the node in focus has been replaced by [g] of
    it. *)
Lemma all_ids_subst_focus (g : Node -> list Node) (pre post : forest)
      (fs : list Frame) (n : Node) :
  NoDup (all_ids (pre ++ plug fs n :: post)) ->
  Permutation (all_ids (subst_in (nid n) g (pre ++ plug fs n :: post)) ++ ids n)
              (flat_map ids (g n) ++ all_ids (pre ++ plug fs n :: post)).
Proof.
  intros H. rewrite subst_in_focus by exact H.
  rewrite (all_ids_focus_list pre post fs (g n)).
  rewrite (all_ids_focus pre post fs n).
  rewrite <- ?app_assoc. apply Permutation_app_head.
  rewrite Permutation_app_comm. simpl. apply Permutation_refl.
Qed.

End StoreIdsFacts.

(** *** The operations on the store, one by one *)

Section OpsFacts.

Variable k : nat.
Variable tg : jsstring.
Local Abbreviation stencil := (Invariants.stencil k tg).
Local Abbreviation Kept := (Invariants.Kept k tg).

Lemma bind_ok {A B : Type} (m : M A) (f : A -> M B) (st st' : State) (b : B) :
  bind m f st = (Ok b, st') ->
  exists a st1, m st = (Ok a, st1) /\ f a st1 = (Ok b, st').
Proof.
  unfold bind. destruct (m st) as [[a|e|] st1]; try discriminate.
  intros H. exists a, st1. auto.
Qed.

Lemma lookup_in_top (f : forest) (n : Node) :
  NoDup (all_ids f) -> In n f -> lookup (nid n) f = Some n.
Proof.
  intros Hnd Hin. apply in_split in Hin as (pre & post & ->).
  exact (lookup_focus pre post [] n Hnd).
Qed.

Lemma parent_none_top (f : forest) (n : Node) :
  NoDup (all_ids f) -> In n f -> parentNode (nid n) f = None.
Proof.
  intros Hnd Hin. apply in_split in Hin as (pre & post & ->).
  unfold parentNode. rewrite (place_in_top pre post n Hnd). reflexivity.
Qed.

Lemma lookup_ids (x : nat) (f : forest) (n : Node) :
  lookup x f = Some n -> In x (all_ids f).
Proof.
  intros H. apply lookup_sound in H as (pre & fs & post & -> & <-).
  unfold all_ids. rewrite ids_forest_split. apply in_or_app. right. apply in_or_app. left.
  apply in_ids_plug, nid_in_ids.
Qed.

(** A Text node is not one of the ancestors of a node. *)
Lemma text_not_frame (f pre post : forest) (fs : list Frame) (sub : Node)
      (x : nat) (dx : jsstring) :
  NoDup (all_ids f) -> f = pre ++ plug fs sub :: post ->
  lookup x f = Some (Text x dx) ->
  forall fr, In fr fs -> f_id fr <> x.
Proof.
  intros Hnd -> Hx fr Hin E. apply in_split in Hin as (fs1 & fs2 & ->).
  rewrite plug_app in Hx, Hnd. simpl in Hx, Hnd.
  pose proof (lookup_focus pre post fs2 (wrap fr (plug fs1 sub)) Hnd) as H.
  simpl in H. rewrite E in H. rewrite H in Hx. discriminate.
Qed.

Lemma subst_other_focus (x : nat) (g : Node -> list Node) (pre post : forest)
      (fs : list Frame) (sub : Node) :
  (forall fr, In fr fs -> f_id fr <> x) -> ~ In x (ids sub) ->
  subst_in x g (pre ++ plug fs sub :: post)
  = subst_in x g pre
    ++ plug (map (map_frame (flat_map (subst x g))) fs) sub :: subst_in x g post.
Proof.
  intros Hfr Hsub. unfold subst_in. rewrite flat_map_app. simpl.
  rewrite subst_plug by exact Hfr.
  rewrite subst_notin by exact Hsub. rewrite plug_list_one. reflexivity.
Qed.

(** Another Text node stays what it is when the Text node [x] is
    replaced. *)
Lemma persist_other (f f' extra : forest) (x y : nat) (dx dy : jsstring)
      (g : Node -> list Node) :
  NoDup (all_ids f) -> NoDup (all_ids f') ->
  lookup x f = Some (Text x dx) ->
  f' = subst_in x g f ++ extra ->
  y <> x ->
  lookup y f = Some (Text y dy) ->
  lookup y f' = Some (Text y dy).
Proof.
  intros Hnd Hnd' Hx -> Hyx Hy.
  destruct (lookup_sound y f _ Hy) as (pre & fs & post & E & _).
  rewrite E. rewrite subst_other_focus.
  - rewrite E in Hnd'. rewrite subst_other_focus in Hnd'.
    + rewrite <- app_assoc in Hnd' |- *. simpl in Hnd' |- *.
      exact (lookup_focus _ _ _ (Text y dy) Hnd').
    + exact (text_not_frame f pre post fs _ x dx Hnd E Hx).
    + simpl. intros [H|[]]. exact (Hyx H).
  - exact (text_not_frame f pre post fs _ x dx Hnd E Hx).
  - simpl. intros [H|[]]. exact (Hyx H).
Qed.

Lemma NoDup_app_mid {A : Type} (l1 l2 l3 : list A) :
  NoDup (l1 ++ l2 ++ l3) -> NoDup (l1 ++ l3).
Proof.
  induction l2 as [|a l2 IH]; simpl; [auto|].
  intros H. apply NoDup_remove_1 in H. exact (IH H).
Qed.

Lemma NoDup_app_intro {A : Type} (l1 l2 : list A) :
  NoDup l1 -> NoDup l2 -> (forall a, In a l1 -> ~ In a l2) -> NoDup (l1 ++ l2).
Proof.
  induction l1 as [|a l1 IH]; simpl; intros H1 H2 H; [exact H2|].
  inversion H1; subst. constructor.
  - intros Hin. apply in_app_or in Hin as [Hin|Hin]; [contradiction|].
    exact (H a (or_introl eq_refl) Hin).
  - apply IH; auto.
Qed.

Lemma put_ids (x : nat) (dx : jsstring) (news : list Node) (keep : bool) (f : forest) :
  NoDup (all_ids f) ->
  lookup x f = Some (Text x dx) ->
  Permutation (all_ids (put x dx news keep f)) (flat_map ids news ++ all_ids f).
Proof.
  intros Hnd Hx.
  destruct (lookup_sound x f _ Hx) as (pre & fs & post & E & _).
  unfold put. rewrite E in Hnd |- *.
  change x with (nid (Text x dx)) at 1.
  rewrite subst_in_focus by exact Hnd.
  unfold all_ids at 1. rewrite flat_map_app. fold (all_ids (pre ++ plug_list fs (news ++ (if keep then [Text x dx] else [])) ++ post)).
  rewrite all_ids_focus_list, (all_ids_focus pre post fs (Text x dx)).
  rewrite flat_map_app. destruct keep; simpl.
  - rewrite app_nil_r. rewrite <- ?app_assoc. reflexivity.
  - rewrite ?app_nil_r. rewrite <- ?app_assoc. apply Permutation_app_head.
    apply Permutation_sym. apply Permutation_cons_append.
Qed.

Lemma stencil_not_text (name : jsstring) (f : forest) (x : nat) (dx : jsstring) :
  NoDup (all_ids f) -> In (Element k name []) f -> lookup x f = Some (Text x dx) -> k <> x.
Proof.
  intros Hnd Hs Hx E. pose proof (lookup_in_top f (Element k name []) Hnd Hs) as H.
  simpl in H. rewrite E in H. rewrite H in Hx. discriminate.
Qed.

Lemma put_stencil (name : jsstring) (x : nat) (dx : jsstring) (news : list Node)
      (keep : bool) (f : forest) :
  k <> x -> In (Element k name []) f -> In (Element k name []) (put x dx news keep f).
Proof.
  intros Hk Hs. unfold put. apply in_or_app. left.
  unfold subst_in. apply in_flat_map. exists (Element k name []). split; [exact Hs|].
  simpl. destruct (Nat.eqb_spec k x); [contradiction|]. left. reflexivity.
Qed.

Lemma Kept_put (st : State) (P1 P2 news : list Node) (x : nat) (dx : jsstring) (keep : bool) :
  Kept st (P1 ++ news ++ P2) ->
  lookup x (dom st) = Some (Text x dx) ->
  Kept (mkState (put x dx news keep (dom st)) (nextId st) (reverts st)) (P1 ++ P2).
Proof.
  intros [Hnd Hb Hpn Hpb Hpf Hs Hpl Hr] Hx.
  pose proof (put_ids x dx news keep (dom st) Hnd Hx) as Hperm.
  assert (Hnews : forall i, In i (flat_map ids news) -> In i (flat_map ids (P1 ++ news ++ P2))).
  { intros i Hi. rewrite !flat_map_app. apply in_or_app. right. apply in_or_app. left. exact Hi. }
  assert (Hrest : forall i, In i (flat_map ids (P1 ++ P2)) -> In i (flat_map ids (P1 ++ news ++ P2))).
  { intros i Hi. rewrite !flat_map_app in *. apply in_app_or in Hi as [Hi|Hi];
      apply in_or_app; [left; exact Hi|right; apply in_or_app; right; exact Hi]. }
  rewrite !flat_map_app in Hpn.
  constructor; simpl.
  - apply (Permutation_NoDup (Permutation_sym Hperm)).
    apply NoDup_app_intro; [|exact Hnd|].
    + apply NoDup_app_r, NoDup_app_l in Hpn. exact Hpn.
    + intros i Hi. apply Hpf, Hnews, Hi.
  - intros i Hi. apply (Permutation_in i Hperm) in Hi. apply in_app_or in Hi as [Hi|Hi].
    + apply Hpb, Hnews, Hi.
    + apply Hb, Hi.
  - rewrite flat_map_app. exact (NoDup_app_mid _ _ _ Hpn).
  - intros i Hi. apply Hpb, Hrest, Hi.
  - intros i Hi Hin. apply (Permutation_in i Hperm) in Hin. apply in_app_or in Hin as [Hin|Hin].
    + rewrite flat_map_app in Hi. apply in_app_or in Hi as [Hi|Hi].
      * exact (NoDup_app_disj _ _ i Hpn Hi (in_or_app _ _ _ (or_introl Hin))).
      * apply NoDup_app_r in Hpn. exact (NoDup_app_disj _ _ i Hpn Hin Hi).
    + exact (Hpf i (Hrest i Hi) Hin).
  - destruct Hs as (name & Hs & Hback). exists name. split; [|exact Hback].
    apply put_stencil; [|exact Hs]. exact (stencil_not_text name (dom st) x dx Hnd Hs Hx).
  - exact Hpl.
  - exact Hr.
Qed.

End OpsFacts.

(** *** Text under a substitution *)

Section TextSubstFacts.

Lemma nodes_plug (t m : Node) : In m (nodes t) -> exists fs, t = plug fs m.
Proof.
  induction t as [i d|i tg cs IH] using Node_induction; simpl.
  - intros [<-|[]]. exists []. reflexivity.
  - intros [<-|H]; [exists []; reflexivity|].
    apply in_flat_map in H as (c & Hc & Hm).
    rewrite Forall_forall in IH. destruct (IH c Hc Hm) as [fs ->].
    apply in_split in Hc as (l1 & l2 & ->).
    exists (fs ++ [mkFrame i tg l1 l2]). rewrite plug_app. reflexivity.
Qed.

Lemma inside_lookup (m : Node) (f : forest) :
  NoDup (all_ids f) -> inside m f -> lookup (nid m) f = Some m.
Proof.
  intros Hnd (pre & fs & post & ->). exact (lookup_focus pre post fs m Hnd).
Qed.

Lemma inside_tree (m c : Node) (pre post : forest) :
  In m (nodes c) -> inside m (pre ++ c :: post).
Proof.
  intros H. destruct (nodes_plug c m H) as [fs ->]. exists pre, fs, post. reflexivity.
Qed.

Lemma inside_pre (m c : Node) (pre post : forest) :
  In c pre -> In m (nodes c) -> inside m (pre ++ post).
Proof.
  intros Hc Hm. apply in_split in Hc as (p1 & p2 & ->).
  rewrite <- app_assoc. simpl. apply inside_tree. exact Hm.
Qed.

Lemma inside_post (m c : Node) (pre post : forest) :
  In c post -> In m (nodes c) -> inside m (pre ++ post).
Proof.
  intros Hc Hm. apply in_split in Hc as (p1 & p2 & ->).
  rewrite app_assoc. apply inside_tree. exact Hm.
Qed.

Lemma inside_frame (m c sub : Node) (pre post : forest) (fs : list Frame) (fr : Frame) :
  In fr fs -> In c (f_left fr) \/ In c (f_right fr) -> In m (nodes c) ->
  inside m (pre ++ plug fs sub :: post).
Proof.
  intros Hfr Hc Hm. apply in_split in Hfr as (fs1 & fs2 & ->).
  destruct (nodes_plug c m Hm) as [fsc ->].
  rewrite plug_app. simpl. destruct fr as [i tg l r]. unfold wrap. simpl in *.
  destruct Hc as [Hc|Hc]; apply in_split in Hc as (l1 & l2 & ->).
  - exists pre, (fsc ++ mkFrame i tg l1 (l2 ++ plug fs1 sub :: r) :: fs2), post.
    rewrite plug_app. simpl. unfold wrap. simpl. rewrite <- app_assoc. reflexivity.
  - exists pre, (fsc ++ mkFrame i tg (l ++ plug fs1 sub :: l1) l2 :: fs2), post.
    rewrite plug_app. simpl. unfold wrap. simpl. rewrite <- app_assoc. reflexivity.
Qed.

Lemma text_subst (x : nat) (g : Node -> list Node) (t : Node) :
  (forall m, In m (nodes t) -> nid m = x -> flat_map text_of (g m) = text_of m) ->
  flat_map text_of (subst x g t) = text_of t.
Proof.
  induction t as [i d|i tg cs IH] using Node_induction; intros H.
  - simpl. destruct (Nat.eqb_spec i x) as [E|E].
    + apply (H (Text i d)); [left; reflexivity|exact E].
    + simpl. apply app_nil_r.
  - simpl. destruct (Nat.eqb_spec i x) as [E|E].
    + apply (H (Element i tg cs)); [left; reflexivity|exact E].
    + simpl. rewrite app_nil_r.
      rewrite Forall_forall in IH.
      assert (Hc : forall c, In c cs ->
                             flat_map text_of (subst x g c) = text_of c).
      { intros c Hc. apply IH; [exact Hc|]. intros m Hm. apply H. simpl. right.
        apply in_flat_map. exists c. auto. }
      clear IH H. induction cs as [|c cs IHcs]; simpl; [reflexivity|].
      rewrite flat_map_app, (Hc c (or_introl eq_refl)). f_equal.
      apply IHcs. intros c' Hc'. apply Hc. right. exact Hc'.
Qed.

Lemma text_subst_list (x : nat) (g : Node -> list Node) (l : list Node) :
  (forall c m, In c l -> In m (nodes c) -> nid m = x -> flat_map text_of (g m) = text_of m) ->
  flat_map text_of (flat_map (subst x g) l) = flat_map text_of l.
Proof.
  induction l as [|c l IH]; simpl; intros H; [reflexivity|].
  rewrite flat_map_app, text_subst.
  - f_equal. apply IH. intros c' m Hc'. apply H. right. exact Hc'.
  - intros m. apply H. left. reflexivity.
Qed.

Lemma left_text_map (h : list Node -> list Node) (fs : list Frame) :
  (forall fr, In fr fs -> flat_map text_of (h (f_left fr)) = flat_map text_of (f_left fr)) ->
  left_text (map (map_frame h) fs) = left_text fs.
Proof.
  induction fs as [|fr fs IH]; simpl; intros H; [reflexivity|].
  rewrite IH by (intros fr' Hfr; apply H; right; exact Hfr).
  rewrite (H fr (or_introl eq_refl)). reflexivity.
Qed.

Lemma right_text_map (h : list Node -> list Node) (fs : list Frame) :
  (forall fr, In fr fs -> flat_map text_of (h (f_right fr)) = flat_map text_of (f_right fr)) ->
  right_text (map (map_frame h) fs) = right_text fs.
Proof.
  induction fs as [|fr fs IH]; simpl; intros H; [reflexivity|].
  unfold right_text in *. simpl.
  rewrite IH by (intros fr' Hfr; apply H; right; exact Hfr).
  rewrite (H fr (or_introl eq_refl)). reflexivity.
Qed.

Lemma nid_plug_cong (fs : list Frame) (n n' : Node) :
  nid n = nid n' -> nid (plug fs n) = nid (plug fs n').
Proof.
  revert n n'. induction fs as [|fr fs IH]; simpl; intros n n' H; [exact H|].
  apply IH. reflexivity.
Qed.

Lemma nid_plug_map (h : list Node -> list Node) (fs : list Frame) (n : Node) :
  nid (plug (map (map_frame h) fs) n) = nid (plug fs n).
Proof.
  revert n. induction fs as [|fr fs IH]; simpl; intros n; [reflexivity|].
  rewrite IH. apply nid_plug_cong. reflexivity.
Qed.

End TextSubstFacts.

(** *** What [put] does to the nodes of the store *)

Section PutFacts.

Lemma put_eq (x : nat) (dx : jsstring) (news : list Node) (keep : bool) (f : forest) :
  put x dx news keep f
  = subst_in x (put_fn news keep) f ++ (if keep then [] else [Text x dx]).
Proof. reflexivity. Qed.

Lemma subst_in_focus_text (x : nat) (dx : jsstring) (g : Node -> list Node)
      (pre post : forest) (fs : list Frame) :
  NoDup (all_ids (pre ++ plug fs (Text x dx) :: post)) ->
  subst_in x g (pre ++ plug fs (Text x dx) :: post)
  = pre ++ plug_list fs (g (Text x dx)) ++ post.
Proof. exact (subst_in_focus g pre post fs (Text x dx)). Qed.

(** The node in focus gets new siblings before it, or gives way to them. *)
Lemma put_focus (x : nat) (dx : jsstring) (news : list Node) (keep : bool)
      (pre post : forest) (fr : Frame) (fs : list Frame) :
  NoDup (all_ids (pre ++ plug (fr :: fs) (Text x dx) :: post)) ->
  put x dx news keep (pre ++ plug (fr :: fs) (Text x dx) :: post)
  = pre
    ++ plug fs (Element (f_id fr) (f_tag fr)
                        (f_left fr ++ (news ++ (if keep then [Text x dx] else []))
                                ++ f_right fr))
    :: post ++ (if keep then [] else [Text x dx]).
Proof.
  intros H. rewrite put_eq.
  rewrite subst_in_focus_text by exact H. simpl. unfold put_fn.
  rewrite <- app_assoc. reflexivity.
Qed.

Lemma put_persist (x : nat) (dx : jsstring) (news : list Node) (keep : bool)
      (f : forest) (y : nat) (dy : jsstring) :
  NoDup (all_ids f) -> NoDup (all_ids (put x dx news keep f)) ->
  lookup x f = Some (Text x dx) ->
  lookup y f = Some (Text y dy) ->
  lookup y (put x dx news keep f) = Some (Text y dy).
Proof.
  intros Hnd Hnd' Hx Hy.
  destruct (Nat.eq_dec y x) as [->|Hyx].
  - rewrite Hx in Hy. injection Hy as <-.
    destruct keep.
    + destruct (lookup_sound x f _ Hx) as (pre & fs & post & E & _).
      rewrite put_eq, app_nil_r in Hnd' |- *. rewrite E in Hnd' |- *.
      rewrite E in Hnd.
      rewrite subst_in_focus_text in Hnd' |- * by exact Hnd.
      unfold put_fn in *. destruct fs as [|fr fs]; simpl in Hnd' |- *.
      * rewrite <- app_assoc in Hnd' |- *. rewrite app_assoc in Hnd' |- *.
        simpl in Hnd' |- *.
        exact (lookup_focus (pre ++ news) post [] (Text x dx) Hnd').
      * assert (Ef : plug fs (Element (f_id fr) (f_tag fr)
                                      (f_left fr ++ (news ++ [Text x dx]) ++ f_right fr))
                     = plug (mkFrame (f_id fr) (f_tag fr) (f_left fr ++ news) (f_right fr) :: fs)
                            (Text x dx)).
        { simpl. unfold wrap. simpl. rewrite <- !app_assoc. reflexivity. }
        rewrite Ef in Hnd' |- *.
        exact (lookup_focus pre post _ (Text x dx) Hnd').
    + rewrite put_eq in Hnd' |- *.
      exact (lookup_focus _ [] [] (Text x dx) Hnd').
  - rewrite put_eq in Hnd' |- *.
    exact (persist_other f _ _ x y dx dy _ Hnd Hnd' Hx eq_refl Hyx Hy).
Qed.

(** A node in focus elsewhere keeps its place, and the text on either side
    of it, when the Text node [x] gives way to nodes with the same text. *)
Lemma put_other_focus (x : nat) (dx : jsstring) (news : list Node)
      (pre post : forest) (fs : list Frame) (sub : Node) :
  let f := pre ++ plug fs sub :: post in
  let h := flat_map (subst x (put_fn news false)) in
  NoDup (all_ids f) ->
  lookup x f = Some (Text x dx) ->
  ~ In x (ids sub) ->
  flat_map text_of news = dx ->
  put x dx news false f
  = subst_in x (put_fn news false) pre
    ++ plug (map (map_frame h) fs) sub
    :: (subst_in x (put_fn news false) post ++ [Text x dx])
  /\ (forall fr, In fr fs ->
                 flat_map text_of (h (f_left fr)) = flat_map text_of (f_left fr)
                 /\ flat_map text_of (h (f_right fr)) = flat_map text_of (f_right fr)).
Proof.
  intros f h Hnd Hx Hsub Htext.
  assert (Hfr : forall fr, In fr fs -> f_id fr <> x)
    by exact (text_not_frame f pre post fs sub x dx Hnd eq_refl Hx).
  split.
  - rewrite put_eq. unfold f. rewrite subst_other_focus by assumption.
    rewrite <- app_assoc. reflexivity.
  - assert (Hu : forall m, inside m f -> nid m = x ->
                           flat_map text_of (put_fn news false m) = text_of m).
    { intros m Hm E. pose proof (inside_lookup m f Hnd Hm) as Hl.
      rewrite E, Hx in Hl. injection Hl as <-. unfold put_fn. simpl.
      rewrite app_nil_r. exact Htext. }
    intros fr Hin. split; apply text_subst_list; intros c m Hc Hm; apply Hu;
      apply (inside_frame m c sub pre post fs fr Hin); auto.
Qed.

(** Two substitutions at the same node, one after the other. *)
Lemma subst_subst (x : nat) (g1 g2 : Node -> list Node) (t : Node) :
  flat_map (subst x g2) (subst x g1 t)
  = subst x (fun m => flat_map (subst x g2) (g1 m)) t.
Proof.
  induction t as [i d|i tg cs IH] using Node_induction; simpl.
  - destruct (Nat.eqb_spec i x) as [E|E]; [reflexivity|].
    simpl. destruct (Nat.eqb_spec i x); [contradiction|]. reflexivity.
  - destruct (Nat.eqb_spec i x) as [E|E]; [reflexivity|].
    simpl. destruct (Nat.eqb_spec i x); [contradiction|]. simpl. f_equal. f_equal.
    rewrite Forall_forall in IH. clear E n.
    induction cs as [|c cs IHcs]; simpl; [reflexivity|].
    rewrite flat_map_app, IH by (left; reflexivity). f_equal.
    apply IHcs. intros c' Hc'. apply IH. right. exact Hc'.
Qed.

Lemma subst_ext (x : nat) (g g' : Node -> list Node) (t : Node) :
  (forall m, nid m = x -> g m = g' m) -> subst x g t = subst x g' t.
Proof.
  intros H. induction t as [i d|i tg cs IH] using Node_induction; simpl.
  - destruct (Nat.eqb_spec i x) as [E|E]; [apply H; exact E|reflexivity].
  - destruct (Nat.eqb_spec i x) as [E|E]; [apply H; exact E|].
    f_equal. f_equal. rewrite Forall_forall in IH.
    induction cs as [|c cs IHcs]; simpl; [reflexivity|].
    rewrite IH by (left; reflexivity). f_equal.
    apply IHcs. intros c' Hc'. apply IH. right. exact Hc'.
Qed.

Lemma flat_map_ext_in {A B : Type} (h h' : A -> list B) (l : list A) :
  (forall a, In a l -> h a = h' a) -> flat_map h l = flat_map h' l.
Proof.
  induction l as [|a l IH]; simpl; intros H; [reflexivity|].
  rewrite (H a (or_introl eq_refl)). f_equal. apply IH. intros b Hb. apply H. right. exact Hb.
Qed.

Lemma flat_map_comp {A B C : Type} (h1 : A -> list B) (h2 : B -> list C) (l : list A) :
  flat_map h2 (flat_map h1 l) = flat_map (fun a => flat_map h2 (h1 a)) l.
Proof.
  induction l as [|a l IH]; simpl; [reflexivity|].
  rewrite flat_map_app, IH. reflexivity.
Qed.

(** Nodes put before [x], and then more nodes put before it or in its
    place. *)
Lemma put_put (x : nat) (dx : jsstring) (n1 n2 : list Node) (keep : bool) (f : forest) :
  ~ In x (flat_map ids n1) ->
  put x dx n2 keep (put x dx n1 true f) = put x dx (n1 ++ n2) keep f.
Proof.
  intros Hn1. rewrite !put_eq. rewrite app_nil_r. f_equal.
  unfold subst_in. rewrite flat_map_comp.
  apply flat_map_ext_in. intros t _. rewrite subst_subst. apply subst_ext.
  intros m Hm. unfold put_fn. rewrite flat_map_app.
  assert (E1 : flat_map (subst x (fun r => n2 ++ (if keep then [r] else []))) n1 = n1).
  { apply flat_map_id_on. intros c Hc. apply subst_notin. intros Hx. apply Hn1.
    apply in_flat_map. exists c. auto. }
  rewrite E1. simpl. rewrite app_nil_r.
  assert (E2 : subst x (fun r => n2 ++ (if keep then [r] else [])) m
               = n2 ++ (if keep then [m] else [])).
  { destruct m; simpl in *; subst; rewrite Nat.eqb_refl; reflexivity. }
  rewrite E2, app_assoc. reflexivity.
Qed.

End PutFacts.

(** *** The steps of [replace] *)

Section StepsFacts.

Variable k : nat.
Variable tg : jsstring.
Local Abbreviation make_el := (Invariants.make_el tg).

Lemma Persist_refl (st : State) : Persist st st.
Proof. intros y dy H. exact H. Qed.

Lemma Persist_trans (st1 st2 st3 : State) :
  Persist st1 st2 -> Persist st2 st3 -> Persist st1 st3.
Proof. intros H1 H2 y dy H. apply H2, H1, H. Qed.

Lemma get_data_inv (x : nat) (st st' : State) (d : jsstring) :
  get_data x st = (Ok d, st') ->
  st' = st /\ lookup x (dom st) = Some (Text x d).
Proof.
  unfold get_data, bind, get_node.
  destruct (lookup x (dom st)) as [n|] eqn:E; [|discriminate].
  pose proof (lookup_sound x (dom st) n E) as (_ & _ & _ & _ & Hn).
  destruct n as [i d'|i t cs]; simpl in *; [|discriminate].
  unfold ret. intros H. injection H as <- <-. subst i. auto.
Qed.

Lemma get_data_eq (x : nat) (st : State) (d : jsstring) :
  lookup x (dom st) = Some (Text x d) -> get_data x st = (Ok d, st).
Proof.
  intros H. unfold get_data, bind, get_node. rewrite H. reflexivity.
Qed.

Lemma createTextNode_eq (d : jsstring) (st : State) :
  createTextNode d st = (Ok (Text (nextId st) d), set_next st (S (nextId st))).
Proof. reflexivity. Qed.

Lemma text_make_el (i : nat) (fill : jsstring) : text_of (make_el i fill) = fill.
Proof.
  unfold Invariants.make_el. destruct fill; simpl; [reflexivity|]. rewrite app_nil_r. reflexivity.
Qed.

Lemma ids_make_el (i j : nat) (fill : jsstring) :
  In j (ids (make_el i fill)) -> i <= j < i + el_size fill.
Proof.
  unfold Invariants.make_el, el_size. destruct (truthy fill); simpl; intros H; lia.
Qed.

Lemma NoDup_make_el (i : nat) (fill : jsstring) : NoDup (ids (make_el i fill)).
Proof.
  unfold Invariants.make_el. destruct (truthy fill); simpl.
  - constructor; [simpl; lia|]. constructor; [simpl; tauto|constructor].
  - constructor; [simpl; tauto|constructor].
Qed.

Lemma nid_make_el (i : nat) (fill : jsstring) : nid (make_el i fill) = i.
Proof. reflexivity. Qed.

Lemma makeReplacementNode_eq (P : list Node) (fill : jsstring) (mi : Z) (st : State) :
  Kept k tg st P ->
  makeReplacementNode k (reparse_name tg) fill mi st
  = (Ok (Some (make_el (nextId st) fill)), set_next st (nextId st + el_size fill)).
Proof.
  intros HK. unfold makeReplacementNode, bind at 1, get_node.
  destruct (k_stencil _ _ _ _ HK) as (name & Hin & _).
  pose proof (lookup_in_top (dom st) (Element k name []) (k_nodup _ _ _ _ HK) Hin) as Hs.
  simpl in Hs. rewrite Hs.
  unfold ret at 1, reparse_name. rewrite (k_plain _ _ _ _ HK).
  unfold bind at 1, alloc. simpl.
  unfold Invariants.make_el, el_size, set_next. destruct (truthy fill); simpl.
  - unfold bind, createTextNode, bind, fresh, ret. simpl.
    replace (S (nextId st + 1)) with (nextId st + 2) by lia.
    replace (nextId st + 1) with (S (nextId st)) by lia. reflexivity.
  - reflexivity.
Qed.

(** [insertBefore] of a node that has been made. *)
Lemma insert_made_before_inv (n n' : Node) (x : nat) (st st' : State) :
  insert_made_before (Some n) x st = (Ok n', st') ->
  n' = n /\ insert_before_it n x st = (Ok tt, st').
Proof.
  unfold insert_made_before, insert_before_it, bind, get_parentNode.
  destruct (parentNode x (dom st)) as [p|]; simpl; [|discriminate].
  destruct (dom_op (insertBefore p n x) st) as [[[]|e|] st1]; try discriminate.
  unfold ret. intros H. injection H as <- <-. split; reflexivity.
Qed.

Lemma insert_made_before_eq (n : Node) (x : nat) (st st' : State) :
  insert_before_it n x st = (Ok tt, st') ->
  insert_made_before (Some n) x st = (Ok n, st').
Proof.
  unfold insert_made_before, insert_before_it, bind, get_parentNode.
  destruct (parentNode x (dom st)) as [p|]; simpl; [|discriminate].
  destruct (dom_op (insertBefore p n x) st) as [[[]|e|] st1]; try discriminate.
  unfold ret. intros H. injection H as <-. reflexivity.
Qed.

Lemma Kept_new (st : State) (P : list Node) (n : Node) (i : nat) :
  Kept k tg st P ->
  NoDup (ids n) ->
  (forall j, In j (ids n) -> nextId st <= j < i) ->
  nextId st <= i ->
  Kept k tg (set_next st i) (P ++ [n]).
Proof.
  intros [Hnd Hb Hpn Hpb Hpf Hs Hpl Hr] Hn Hi Hle.
  constructor; simpl; auto.
  - intros j Hj. specialize (Hb j Hj). lia.
  - rewrite flat_map_app. simpl. rewrite app_nil_r.
    apply NoDup_app_intro; auto.
    intros j Hj Hjn. specialize (Hpb j Hj). specialize (Hi j Hjn). lia.
  - intros j Hj. rewrite flat_map_app in Hj. simpl in Hj. rewrite app_nil_r in Hj.
    apply in_app_or in Hj as [Hj|Hj]; [specialize (Hpb j Hj)|specialize (Hi j Hj)]; lia.
  - intros j Hj Hin. rewrite flat_map_app in Hj. simpl in Hj. rewrite app_nil_r in Hj.
    apply in_app_or in Hj as [Hj|Hj]; [exact (Hpf j Hj Hin)|].
    specialize (Hb j Hin). specialize (Hi j Hj). lia.
Qed.

Lemma Kept_text (st : State) (P : list Node) (d : jsstring) :
  Kept k tg st P ->
  Kept k tg (set_next st (S (nextId st))) (P ++ [Text (nextId st) d]).
Proof.
  intros HK. apply Kept_new; auto.
  - constructor; [simpl; tauto|constructor].
  - simpl. intros j [<-|[]]. lia.
Qed.

Lemma Kept_el (st : State) (P : list Node) (fill : jsstring) :
  Kept k tg st P ->
  Kept k tg (set_next st (nextId st + el_size fill)) (P ++ [make_el (nextId st) fill]).
Proof.
  intros HK. apply Kept_new; auto.
  - apply NoDup_make_el.
  - intros j Hj. apply ids_make_el in Hj. lia.
  - lia.
Qed.

Lemma pending_fresh (st : State) (P1 P2 : list Node) (n : Node) :
  Kept k tg st (P1 ++ [n] ++ P2) -> ~ In (nid n) (all_ids (dom st)).
Proof.
  intros HK. apply (k_pfresh _ _ _ _ HK).
  rewrite !flat_map_app. apply in_or_app. right. apply in_or_app. left.
  simpl. rewrite app_nil_r. apply nid_in_ids.
Qed.

Lemma insert_before_it_inv (st st' : State) (P1 P2 : list Node) (n : Node)
      (x : nat) (dx : jsstring) :
  Kept k tg st (P1 ++ [n] ++ P2) ->
  lookup x (dom st) = Some (Text x dx) ->
  insert_before_it n x st = (Ok tt, st') ->
  st' = set_dom st (put x dx [n] true (dom st)).
Proof.
  intros HK Hx. unfold insert_before_it, bind, get_parentNode.
  destruct (parentNode x (dom st)) as [p|] eqn:Ep; simpl; [|discriminate].
  unfold dom_op, insertBefore.
  rewrite (subst_in_notin (nid n) _ (dom st) (pending_fresh st P1 P2 n HK)).
  rewrite Ep, Nat.eqb_refl. intros H. injection H as <-.
  unfold set_dom, put. rewrite app_nil_r. reflexivity.
Qed.

Lemma remove_it_inv (st st' : State) (x : nat) (dx : jsstring) :
  lookup x (dom st) = Some (Text x dx) ->
  remove_it x st = (Ok tt, st') ->
  st' = set_dom st (put x dx [] false (dom st)).
Proof.
  intros Hx. unfold remove_it, bind, get_parentNode.
  destruct (parentNode x (dom st)) as [p|] eqn:Ep; simpl; [|discriminate].
  unfold dom_op, removeChild. rewrite Ep, Hx, Nat.eqb_refl.
  intros H. injection H as <-. reflexivity.
Qed.

(** Lines 253: [innerNode.parentNode.replaceChild(innerEl, innerNode)]. *)
Lemma replace_child_inv (st st' : State) (P1 P2 : list Node) (n : Node)
      (x : nat) (dx : jsstring) :
  Kept k tg st (P1 ++ [n] ++ P2) ->
  lookup x (dom st) = Some (Text x dx) ->
  bind (get_parentNode x) (fun p => bind (deref p) (fun p => dom_op (replaceChild p n x))) st
  = (Ok tt, st') ->
  st' = set_dom st (put x dx [n] false (dom st)).
Proof.
  intros HK Hx. unfold bind, get_parentNode.
  destruct (parentNode x (dom st)) as [p|] eqn:Ep; simpl; [|discriminate].
  unfold dom_op, replaceChild.
  rewrite (subst_in_notin (nid n) _ (dom st) (pending_fresh st P1 P2 n HK)).
  rewrite Ep, Hx, Nat.eqb_refl. intros H. injection H as <-. reflexivity.
Qed.

Lemma Kept_put_state (st : State) (P1 P2 news : list Node) (x : nat) (dx : jsstring)
      (keep : bool) :
  Kept k tg st (P1 ++ news ++ P2) ->
  lookup x (dom st) = Some (Text x dx) ->
  Kept k tg (set_dom st (put x dx news keep (dom st))) (P1 ++ P2)
  /\ Persist st (set_dom st (put x dx news keep (dom st))).
Proof.
  intros HK Hx. pose proof (Kept_put k tg st P1 P2 news x dx keep HK Hx) as HK'.
  split; [exact HK'|].
  intros y dy Hy. simpl.
  exact (put_persist x dx news keep (dom st) y dy (k_nodup _ _ _ _ HK)
           (k_nodup _ _ _ _ HK') Hx Hy).
Qed.

Lemma push_revert_inv (a : RevertAction) (st st' : State) :
  push_revert a st = (Ok tt, st') ->
  dom st' = dom st /\ nextId st' = nextId st /\ reverts st' <> None.
Proof.
  unfold push_revert. destruct (reverts st); [|discriminate].
  intros H. injection H as <-. simpl. repeat split. discriminate.
Qed.

Lemma Kept_same_dom (st st' : State) (P : list Node) :
  Kept k tg st P -> dom st' = dom st -> nextId st' = nextId st -> reverts st' <> None ->
  Kept k tg st' P.
Proof.
  intros [Hnd Hb Hpn Hpb Hpf Hs Hpl Hr] Hd Hn Hr'.
  constructor; rewrite ?Hd, ?Hn; auto.
Qed.

End StepsFacts.

(** *** The single-node branch of [replace], lines 220-243 *)

Section SingleFacts.

Variable k : nat.
Variable tg : jsstring.
Local Abbreviation Inserted := (Invariants.Inserted k tg).
Local Abbreviation i_dom := (Invariants.i_dom k tg).
Local Abbreviation i_kept := (Invariants.i_kept k tg).
Local Abbreviation i_persist := (Invariants.i_persist k tg).
Local Abbreviation i_fresh := (Invariants.i_fresh k tg).
Local Abbreviation i_next := (Invariants.i_next k tg).
Local Abbreviation i_reverts := (Invariants.i_reverts k tg).

Lemma subst_self (x : nat) (t : Node) : subst x (fun r => [r]) t = [t].
Proof.
  induction t as [i d|i tg' cs IH] using Node_induction; simpl.
  - destruct (i =? x); reflexivity.
  - destruct (i =? x); [reflexivity|]. f_equal. f_equal.
    rewrite Forall_forall in IH. apply flat_map_id_on. exact IH.
Qed.

Lemma put_nil_keep (x : nat) (d : jsstring) (f : forest) : put x d [] true f = f.
Proof.
  unfold put. rewrite app_nil_r. simpl. unfold subst_in.
  apply flat_map_id_on. intros t _. apply subst_self.
Qed.

Lemma Inserted_refl (st : State) (x : nat) (d : jsstring) :
  Kept k tg st [] -> Inserted st st x d [].
Proof.
  intros HK. constructor; auto.
  - symmetry. apply put_nil_keep.
  - apply Persist_refl.
Qed.

Lemma push_revert_eq (a : RevertAction) (st st' : State) :
  push_revert a st = (Ok tt, st') ->
  pending_els st' = pending_els st ++ rev_els a.
Proof.
  unfold push_revert, pending_els. destruct (reverts st) as [l|]; [|discriminate].
  intros H. injection H as <-. simpl. rewrite flat_map_app. simpl.
  rewrite app_nil_r. reflexivity.
Qed.

Lemma Inserted_trans (st st1 st2 : State) (x : nat) (d : jsstring) (n1 n2 : list Node) :
  Inserted st st1 x d n1 -> Inserted st1 st2 x d n2 -> Inserted st st2 x d (n1 ++ n2).
Proof.
  intros [D1 K1 P1 F1 N1 R1] [D2 K2 P2 F2 N2 R2]. constructor.
  - rewrite D2, D1. apply put_put. exact F1.
  - exact K2.
  - exact (Persist_trans _ _ _ P1 P2).
  - rewrite flat_map_app. intros H. apply in_app_or in H as [H|H]; auto.
  - lia.
  - congruence.
Qed.

(** One node, created at the state [st0] and inserted at the state [st]. *)
Lemma Inserted_one (st st' : State) (x : nat) (d : jsstring) (n : Node) :
  Kept k tg st [n] ->
  lookup x (dom st) = Some (Text x d) ->
  insert_before_it n x st = (Ok tt, st') ->
  Inserted st st' x d [n].
Proof.
  intros HK Hx Hi.
  pose proof (insert_before_it_inv k tg st st' [] [] n x d HK Hx Hi) as ->.
  destruct (Kept_put_state k tg st [] [] [n] x d true HK Hx) as [HK' HP].
  constructor; auto.
  simpl. rewrite app_nil_r. intros Hin.
  apply (k_pfresh _ _ _ _ HK x); [simpl; rewrite app_nil_r; exact Hin|].
  exact (lookup_ids x (dom st) _ Hx).
Qed.

Lemma Persist_next (st : State) (i : nat) : Persist st (set_next st i).
Proof. intros y dy H. exact H. Qed.

Lemma Inserted_weaken (st0 st st' : State) (x : nat) (d : jsstring) (news : list Node) :
  dom st = dom st0 -> nextId st0 <= nextId st -> reverts st = reverts st0 ->
  Inserted st st' x d news -> Inserted st0 st' x d news.
Proof.
  intros E E1 E2 [D K0 P F N0 R0]. constructor; auto.
  - rewrite D, E. reflexivity.
  - intros y dy H. apply P. rewrite E. exact H.
  - lia.
  - congruence.
Qed.

(** Lines 222-226 and 231-235: a Text node is created and inserted. *)
Lemma insert_text (st st' : State) (x : nat) (d t : jsstring) :
  Kept k tg st [] ->
  lookup x (dom st) = Some (Text x d) ->
  bind (createTextNode t) (fun n => insert_before_it n x) st = (Ok tt, st') ->
  Inserted st st' x d [Text (nextId st) t].
Proof.
  intros HK Hx. unfold bind at 1. rewrite createTextNode_eq. intros Hi.
  apply (Inserted_weaken st (set_next st (S (nextId st))));
    [reflexivity|simpl; lia|reflexivity|].
  apply Inserted_one; auto.
  exact (Kept_text k tg st [] t HK).
Qed.

(** The single-node branch as a whole: the Text node [x] gives way to an
    optional Text node, the replacement node and another optional Text
    node. *)
Lemma replace_single (st st' : State) (x : nat) (d : jsstring) (si ei : Z)
      (inner : list nat) (mt : list jsstring) (mi : Z) (el : nat) :
  Kept k tg st [] ->
  lookup x (dom st) = Some (Text x d) ->
  replace (makeReplacementNode k (reparse_name tg)) (mkRange x si x ei inner mt mi) st = (Ok el, st') ->
  exists bef eln aft,
    dom st' = put x d (bef ++ [eln] ++ aft) false (dom st)
    /\ Kept k tg st' []
    /\ Persist st st'
    /\ nid eln = el
    /\ text_of eln = hd [] mt
    /\ flat_map text_of bef = (if (si >? 0)%Z then substring d 0 si else [])
    /\ flat_map text_of aft = (if (ei <? len d)%Z then substring_from d ei else [])
    /\ eln = make_el tg el (hd [] mt)
    /\ nextId st <= el
    /\ (forall m, In m (bef ++ aft) -> is_text m = true)
    /\ pending_els st' = pending_els st ++ [el]
    /\ ((ei <? len d)%Z = true -> exists a, aft = [Text a (substring_from d ei)]).
Proof.
  intros HK Hx Hrun. unfold replace in Hrun.
  cbn [r_startNode r_endNode r_matchIndex r_startNodeIndex r_endNodeIndex r_match] in Hrun.
  rewrite Nat.eqb_refl in Hrun.
  (* the Text node before the match *)
  apply bind_ok in Hrun as ([] & st1 & HA & Hrun).
  assert (A : exists bef, Inserted st st1 x d bef
                          /\ flat_map text_of bef
                             = (if (si >? 0)%Z then substring d 0 si else [])
                          /\ forall m, In m bef -> is_text m = true).
  { destruct (si >? 0)%Z.
    - apply bind_ok in HA as (d' & sta & Hg & HA).
      apply get_data_inv in Hg as [-> Hd]. rewrite Hx in Hd. injection Hd as <-.
      exists [Text (nextId st) (substring d 0 si)]. split; [|split].
      + apply insert_text; assumption.
      + simpl. apply app_nil_r.
      + intros m [<-|[]]. reflexivity.
    - unfold ret in HA. injection HA as <-. exists []. split; [|split; [reflexivity|]].
      + apply Inserted_refl; assumption.
      + intros m []. }
  destruct A as (bef & IA & TA & XA).
  pose proof (i_persist _ _ _ _ _ IA x d Hx) as Hx1.
  pose proof (i_kept _ _ _ _ _ IA) as HK1.
  (* the replacement node *)
  apply bind_ok in Hrun as (eln & st2 & HB & Hrun).
  rewrite (makeReplacementNode_eq k tg [] (hd [] mt) mi st1 HK1) in HB.
  injection HB as <- <-.
  apply bind_ok in Hrun as (eln & st3 & HC & Hrun).
  apply insert_made_before_inv in HC as [-> HC].
  assert (IB : Inserted st1 st3 x d [make_el tg (nextId st1) (hd [] mt)]).
  { apply (Inserted_weaken st1 (set_next st1 (nextId st1 + el_size (hd [] mt))));
      [reflexivity|simpl; lia|reflexivity|].
    apply Inserted_one; auto. exact (Kept_el k tg st1 [] (hd [] mt) HK1). }
  pose proof (i_persist _ _ _ _ _ IB x d Hx1) as Hx3.
  pose proof (i_kept _ _ _ _ _ IB) as HK3.
  (* the Text node after the match *)
  apply bind_ok in Hrun as (d' & st4 & HD & Hrun).
  apply get_data_inv in HD as [-> Hd]. rewrite Hx3 in Hd. injection Hd as <-.
  apply bind_ok in Hrun as ([] & st5 & HE & Hrun).
  assert (C : exists aft, Inserted st3 st5 x d aft
                          /\ flat_map text_of aft
                             = (if (ei <? len d)%Z then substring_from d ei else [])
                          /\ (forall m, In m aft -> is_text m = true)
                          /\ ((ei <? len d)%Z = true ->
                              exists a, aft = [Text a (substring_from d ei)])).
  { destruct (ei <? len d)%Z.
    - exists [Text (nextId st3) (substring_from d ei)]. split; [|split; [|split]].
      + apply insert_text; assumption.
      + simpl. apply app_nil_r.
      + intros m [<-|[]]. reflexivity.
      + intros _. eexists. reflexivity.
    - unfold ret in HE. injection HE as <-.
      exists []. split; [|split; [reflexivity|split]].
      + apply Inserted_refl; assumption.
      + intros m [].
      + discriminate. }
  destruct C as (aft & IC & TC & XC & YC).
  pose proof (i_next _ _ _ _ _ IA) as NA.
  pose proof (Inserted_trans _ _ _ x d _ _ IA (Inserted_trans _ _ _ x d _ _ IB IC))
    as [D5 K5 P5 F5 N5 R5].
  pose proof (P5 x d Hx) as Hx5.
  (* the Text node goes *)
  apply bind_ok in Hrun as ([] & st6 & HF & Hrun).
  pose proof (remove_it_inv st5 st6 x d Hx5 HF) as ->.
  destruct (Kept_put_state k tg st5 [] [] [] x d false K5 Hx5) as [K6 P6].
  apply bind_ok in Hrun as ([] & st7 & HG & Hrun).
  pose proof (push_revert_eq _ _ _ HG) as Hp7.
  apply push_revert_inv in HG as (Hd7 & Hn7 & Hr7).
  unfold ret in Hrun. injection Hrun as <- <-.
  exists bef, (make_el tg (nextId st1) (hd [] mt)), aft.
  split; [|split; [|split; [|split; [|split; [|split; [|split; [|split; [|split; [|split;
    [|split; [|exact YC]]]]]]]]]]].
  - rewrite Hd7. simpl. rewrite D5. rewrite put_put by exact F5.
    rewrite app_nil_r. reflexivity.
  - exact (Kept_same_dom k tg _ _ _ K6 Hd7 Hn7 Hr7).
  - intros y dy Hy. rewrite Hd7. apply P6, P5, Hy.
  - reflexivity.
  - apply text_make_el.
  - exact TA.
  - exact TC.
  - reflexivity.
  - exact NA.
  - intros m Hm. apply in_app_or in Hm as [Hm|Hm]; auto.
  - rewrite Hp7. unfold pending_els. simpl. rewrite R5. reflexivity.
Qed.

End SingleFacts.

(** *** Places that a replacement elsewhere leaves alone *)

Section TrackingFacts.

Lemma frame_sim_refl (fr : Frame) : frame_sim fr fr.
Proof. repeat split. Qed.

Lemma frame_sim_trans (a b c : Frame) : frame_sim a b -> frame_sim b c -> frame_sim a c.
Proof.
  intros (H1 & H2 & H3) (H4 & H5 & H6). repeat split; congruence.
Qed.

Lemma Forall2_sim_refl (fs : list Frame) : Forall2 frame_sim fs fs.
Proof. induction fs; constructor; auto using frame_sim_refl. Qed.

Lemma Forall2_sim_trans (a b c : list Frame) :
  Forall2 frame_sim a b -> Forall2 frame_sim b c -> Forall2 frame_sim a c.
Proof.
  intros H. revert c. induction H as [|x y l l' Hxy Hl IH]; intros c Hc;
    inversion Hc; subst; constructor; eauto using frame_sim_trans.
Qed.

Lemma Tracked_refl (X : list nat) (f : forest) : Tracked X f f.
Proof.
  intros pre fs sub post -> _. exists pre, fs, post.
  split; [reflexivity|]. split; [apply Forall2_sim_refl|reflexivity].
Qed.

Lemma right_ids_eq (a b : list Frame) :
  map f_right a = map f_right b -> right_ids a = right_ids b.
Proof.
  intros H. unfold right_ids.
  rewrite !(flat_map_concat_map (fun fr => flat_map ids (f_right fr))).
  rewrite <- !(map_map f_right (flat_map ids)), H. reflexivity.
Qed.

Lemma Tracked_trans (X : list nat) (f1 f2 f3 : forest) :
  Tracked X f1 f2 -> Tracked X f2 f3 -> Tracked X f1 f3.
Proof.
  intros H1 H2 pre fs sub post E HX.
  destruct (H1 pre fs sub post E HX) as (pre' & fs' & post' & E' & S1 & R1).
  destruct (H2 pre' fs' sub post' E' HX) as (pre'' & fs'' & post'' & E'' & S2 & R2).
  exists pre'', fs'', post''. split; [exact E''|].
  split; [exact (Forall2_sim_trans _ _ _ S1 S2)|].
  intros HR. rewrite <- (R1 HR). apply R2.
  rewrite (right_ids_eq _ _ (R1 HR)). exact HR.
Qed.

Lemma Tracked_more (X X' : list nat) (f f' : forest) :
  (forall x, In x X -> In x X') -> Tracked X f f' -> Tracked X' f f'.
Proof.
  intros HX H pre fs sub post E HX'.
  destruct (H pre fs sub post E) as (pre' & fs' & post' & E' & S1 & R1).
  { intros x Hx. apply HX', HX, Hx. }
  exists pre', fs', post'. split; [exact E'|]. split; [exact S1|].
  intros HR. apply R1. intros x Hx. apply HR, HX, Hx.
Qed.

Lemma Forall2_sim_map (h : list Node -> list Node) (fs : list Frame) :
  (forall fr, In fr fs ->
              flat_map text_of (h (f_left fr)) = flat_map text_of (f_left fr)
              /\ flat_map text_of (h (f_right fr)) = flat_map text_of (f_right fr)) ->
  Forall2 frame_sim fs (map (map_frame h) fs).
Proof.
  induction fs as [|fr fs IH]; simpl; intros H; constructor.
  - destruct (H fr (or_introl eq_refl)) as [Hl Hr]. repeat split; simpl; auto.
  - apply IH. intros fr' Hfr. apply H. right. exact Hfr.
Qed.

Lemma Tracked_put (X : list nat) (x : nat) (dx : jsstring) (news : list Node) (f : forest) :
  NoDup (all_ids f) ->
  lookup x f = Some (Text x dx) ->
  flat_map text_of news = dx ->
  In x X ->
  Tracked X f (put x dx news false f).
Proof.
  intros Hnd Hx Ht Hin pre fs sub post E HX. subst f.
  destruct (put_other_focus x dx news pre post fs sub Hnd Hx (HX x Hin) Ht) as [Ep Hs].
  eexists _, _, _. split; [exact Ep|]. split; [apply Forall2_sim_map; exact Hs|].
  intros HR. specialize (HR x Hin). rewrite map_map. apply map_ext_in.
  intros fr Hfr. simpl. apply subst_in_notin.
  intros Hin'. apply HR. unfold right_ids. apply in_flat_map. exists fr. auto.
Qed.

Lemma sim_left_text (fs fs' : list Frame) :
  Forall2 frame_sim fs fs' -> left_text fs = left_text fs'.
Proof.
  induction 1 as [|fr fr' l l' (H1 & H2 & H3) Hl IH]; simpl; [reflexivity|].
  rewrite IH, H2. reflexivity.
Qed.

Lemma sim_right_text (fs fs' : list Frame) :
  Forall2 frame_sim fs fs' -> right_text fs = right_text fs'.
Proof.
  induction 1 as [|fr fr' l l' (H1 & H2 & H3) Hl IH]; simpl; [reflexivity|].
  unfold right_text in *. simpl. rewrite IH, H3. reflexivity.
Qed.

Lemma sim_nid_plug (fs fs' : list Frame) (n : Node) :
  Forall2 frame_sim fs fs' -> nid (plug fs n) = nid (plug fs' n).
Proof.
  intros H. revert n. induction H as [|fr fr' l l' (H1 & H2 & H3) Hl IH]; simpl; intros n;
    [reflexivity|].
  rewrite IH. apply nid_plug_cong. exact H1.
Qed.

Lemma sim_text_plug (fs fs' : list Frame) (n : Node) :
  Forall2 frame_sim fs fs' -> text_of (plug fs n) = text_of (plug fs' n).
Proof.
  intros H. rewrite !text_plug, (sim_left_text _ _ H), (sim_right_text _ _ H). reflexivity.
Qed.

End TrackingFacts.

(** *** Replacement nodes that a later replacement leaves alone *)

Section WrappedFacts.

Variable k : nat.
Variable tg : jsstring.

Lemma Tracked_lookup (X : list nat) (f f' : forest) (x : nat) (n : Node) :
  Tracked X f f' -> NoDup (all_ids f') ->
  lookup x f = Some n ->
  (forall y, In y X -> ~ In y (ids n)) ->
  lookup x f' = Some n.
Proof.
  intros HT Hnd Hx HX.
  destruct (lookup_sound x f n Hx) as (pre & fs & post & Hf & Hid).
  destruct (HT pre fs n post Hf HX) as (pre' & fs' & post' & Hf' & _).
  rewrite <- Hid, Hf'. apply lookup_focus. rewrite <- Hf'. exact Hnd.
Qed.

Lemma child_parent (f : forest) (el : nat) (t : jsstring) (cs : list Node) (c : Node) :
  NoDup (all_ids f) -> lookup el f = Some (Element el t cs) -> In c cs ->
  parentNode (nid c) f = Some el.
Proof.
  intros Hnd Hel Hc.
  destruct (lookup_sound el f _ Hel) as (pre & fs & post & Hf & _).
  apply in_split in Hc as (l & r & ->).
  unfold parentNode.
  assert (E : f = pre ++ plug (mkFrame el t l r :: fs) c :: post) by exact Hf.
  rewrite E, place_in_focus; [reflexivity|]. rewrite <- E. exact Hnd.
Qed.

(** A Text node whose parent is older than the stencil is not inside a
    replacement node. *)
Lemma wrapper_avoid (f : forest) (el x : nat) (n : Node) :
  NoDup (all_ids f) -> wrapper k f el ->
  lookup el f = Some n ->
  parent_old k f x ->
  ~ In x (ids n).
Proof.
  intros Hnd (Hk & t & cs & Hel & Hthin) Hn ((d & Hx) & p & Hp & Hpk) Hin.
  rewrite Hel in Hn. injection Hn as <-. simpl in Hin. destruct Hin as [->|Hin].
  - congruence.
  - destruct cs as [|[c dc|] [|]]; try discriminate; simpl in Hin; [destruct Hin|].
    destruct Hin as [->|[]].
    pose proof (child_parent f el t [Text x dc] (Text x dc) Hnd Hel (or_introl eq_refl)) as H.
    simpl in H. rewrite H in Hp. injection Hp as <-. lia.
Qed.

Lemma inside_more (m : Node) (f extra : forest) : inside m f -> inside m (f ++ extra).
Proof.
  intros (pre & fs & post & ->). exists pre, fs, (post ++ extra).
  rewrite <- app_assoc. reflexivity.
Qed.

(** The nodes that [put] inserts are in the store. *)
Lemma put_new_lookup (x : nat) (dx : jsstring) (news : list Node) (keep : bool)
      (f : forest) (m : Node) :
  NoDup (all_ids f) ->
  NoDup (all_ids (put x dx news keep f)) ->
  lookup x f = Some (Text x dx) ->
  In m news ->
  lookup (nid m) (put x dx news keep f) = Some m.
Proof.
  intros Hnd Hnd' Hx Hm. apply inside_lookup; [exact Hnd'|].
  destruct (lookup_sound x f _ Hx) as (pre & fs & post & Hf & _).
  rewrite put_eq. apply inside_more. rewrite Hf.
  rewrite subst_in_focus_text by (rewrite <- Hf; exact Hnd).
  unfold put_fn. apply in_split in Hm as (l & r & ->).
  destruct fs as [|fr fs]; simpl.
  - exists (pre ++ l), [], ((r ++ if keep then [Text x dx] else []) ++ post).
    simpl. rewrite <- !app_assoc. reflexivity.
  - exists pre, (mkFrame (f_id fr) (f_tag fr) (f_left fr ++ l)
                         ((r ++ if keep then [Text x dx] else []) ++ f_right fr) :: fs), post.
    simpl. unfold wrap. simpl. rewrite <- !app_assoc. reflexivity.
Qed.

Lemma thin_make_el (i : nat) (fill : jsstring) : thin (children (make_el tg i fill)) = true.
Proof. unfold make_el. simpl. destruct (truthy fill); reflexivity. Qed.

Lemma wrapper_make_el (f : forest) (el : nat) (fill : jsstring) :
  k < el -> lookup el f = Some (make_el tg el fill) -> wrapper k f el.
Proof.
  intros Hk Hl. split; [exact Hk|].
  exists tg, (children (make_el tg el fill)). split; [exact Hl|apply thin_make_el].
Qed.

Lemma stencil_below (st : State) (P : list Node) : Kept k tg st P -> k < nextId st.
Proof.
  intros HK. destruct (k_stencil _ _ _ _ HK) as (name & Hin & _).
  apply (k_below _ _ _ _ HK). unfold all_ids. apply in_flat_map.
  exists (Element k name []). split; [exact Hin|left; reflexivity].
Qed.

(** A replacement node stays as it is when a Text node outside it gives
    way to nodes with its text. *)
Lemma wrapper_put (f : forest) (el x : nat) (dx : jsstring) (news : list Node) :
  NoDup (all_ids f) -> NoDup (all_ids (put x dx news false f)) ->
  lookup x f = Some (Text x dx) ->
  flat_map text_of news = dx ->
  parent_old k f x ->
  wrapper k f el -> wrapper k (put x dx news false f) el.
Proof.
  intros Hnd Hnd' Hx Ht Hp Hw.
  pose proof Hw as (Hk & t & cs & Hel & Hthin).
  split; [exact Hk|]. exists t, cs. split; [|exact Hthin].
  apply (Tracked_lookup [x] f); auto.
  - apply Tracked_put; auto. left. reflexivity.
  - intros y [<-|[]]. exact (wrapper_avoid f el x _ Hnd Hw Hel Hp).
Qed.

End WrappedFacts.

(** *** The branch of [replace] for a match over several nodes, lines 245-275 *)

Section MultiFacts.

Variable k : nat.
Variable tg : jsstring.

Lemma substring_split (d : jsstring) (i : Z) :
  substring d 0 i ++ substring_from d i = d.
Proof.
  unfold substring, substring_from, clamp. simpl.
  rewrite Nat.sub_0_r. apply firstn_skipn.
Qed.

Lemma replace_inner_inv (mi : Z) (inner : list nat) :
  forall (els : list nat) (st st' : State) (P : list Node) (out : list nat),
    Kept k tg st P ->
    (forall y, In y inner -> y < nextId st) ->
    replace_inner (makeReplacementNode k (reparse_name tg)) mi inner els st = (Ok out, st') ->
    Kept k tg st' P
    /\ Persist st st'
    /\ Tracked inner (dom st) (dom st')
    /\ nextId st <= nextId st'
    /\ reverts st' = reverts st
    /\ exists news,
         out = els ++ news
         /\ forall e', In e' news ->
                       nextId st <= e'
                       /\ exists fill, lookup e' (dom st') = Some (make_el tg e' fill).
Proof.
  induction inner as [|x inner IH]; intros els st st' P out HK Hold Hrun; simpl in Hrun.
  - unfold ret in Hrun. injection Hrun as <- <-.
    split; [exact HK|]. split; [apply Persist_refl|]. split; [apply Tracked_refl|].
    split; [lia|]. split; [reflexivity|].
    exists []. split; [symmetry; apply app_nil_r|intros e' []].
  - apply bind_ok in Hrun as (d & st1 & Hg & Hrun).
    apply get_data_inv in Hg as [-> Hx].
    apply bind_ok in Hrun as (eln & st2 & Hm & Hrun).
    rewrite (makeReplacementNode_eq k tg P d mi st HK) in Hm. injection Hm as <- <-.
    pose proof (Kept_el k tg st P d HK) as HK2.
    apply bind_ok in Hrun as (p & st3 & Hp & Hrun).
    apply bind_ok in Hrun as (p' & st4 & Hp' & Hrun).
    apply bind_ok in Hrun as (eln & st4' & Hde & Hrun).
    simpl in Hde. unfold ret in Hde. injection Hde as <- <-.
    apply bind_ok in Hrun as ([] & st5 & Hr & Hrun).
    assert (Hrc : bind (get_parentNode x)
                       (fun p => bind (deref p)
                                      (fun p => dom_op (replaceChild p (make_el tg (nextId st) d) x)))
                       (set_next st (nextId st + el_size d))
                  = (Ok tt, st5)).
    { unfold bind at 1. rewrite Hp. unfold bind at 1. rewrite Hp'. exact Hr. }
    rewrite <- (app_nil_r (P ++ [make_el tg (nextId st) d])) in HK2.
    rewrite <- app_assoc in HK2.
    pose proof (replace_child_inv k tg _ st5 P [] _ x d HK2 Hx Hrc) as ->.
    destruct (Kept_put_state k tg _ P [] [make_el tg (nextId st) d] x d false HK2 Hx)
      as [HK5 HP5].
    rewrite app_nil_r in HK5.
    assert (Hold5 : forall y, In y inner -> y < nextId st + el_size d).
    { intros y Hy. pose proof (Hold y (or_intror Hy)). lia. }
    destruct (IH _ _ _ _ _ HK5 Hold5 Hrun) as (HK' & HP' & HT' & HN' & HR' & news & -> & Hnews).
    simpl in HN', HR'.
    assert (Hnew : lookup (nextId st) (dom st') = Some (make_el tg (nextId st) d)).
    { apply (Tracked_lookup inner _ _ _ _ HT' (k_nodup _ _ _ _ HK')).
      - apply (put_new_lookup x d [make_el tg (nextId st) d] false (dom st)
                              (make_el tg (nextId st) d)).
        + exact (k_nodup _ _ _ _ HK).
        + exact (k_nodup _ _ _ _ HK5).
        + exact Hx.
        + left. reflexivity.
      - intros y Hy Hin. apply ids_make_el in Hin.
        pose proof (Hold y (or_intror Hy)). lia. }
    split; [exact HK'|]. split; [|split; [|split; [|split]]].
    + intros y dy Hy. apply HP', HP5. exact Hy.
    + apply (Tracked_trans _ _ (put x d [make_el tg (nextId st) d] false (dom st))).
      * apply Tracked_put.
        -- exact (k_nodup _ _ _ _ HK).
        -- exact Hx.
        -- cbn [flat_map]. rewrite app_nil_r. apply text_make_el.
        -- left. reflexivity.
      * apply (Tracked_more inner); [intros y Hy; right; exact Hy|exact HT'].
    + lia.
    + exact HR'.
    + exists (nextId st :: news). split.
      * rewrite <- app_assoc. reflexivity.
      * intros e' [<-|He'].
        -- split; [lia|]. exists d. exact Hnew.
        -- destruct (Hnews e' He') as [H1 H2]. simpl in H1. split; [lia|exact H2].
Qed.

Lemma pending_not (st : State) (P : list Node) (n : Node) (x : nat) (xn : Node) :
  Kept k tg st P -> In n P -> lookup x (dom st) = Some xn -> ~ In x (ids n).
Proof.
  intros HK Hn Hx Hin.
  apply (k_pfresh _ _ _ _ HK x).
  - apply in_flat_map. exists n. auto.
  - exact (lookup_ids x (dom st) xn Hx).
Qed.

(** The branch as a whole: the inner nodes and the start node give way to
    nodes with their text, which leaves the place of the end node alone;
    then the end node gives way to the replacement node [elB] and the Text
    node [aft]. *)
Lemma replace_multi (st st' : State) (s e : nat) (si ei : Z)
      (inner : list nat) (mt : list jsstring) (mi : Z) (el : nat) :
  Kept k tg st [] ->
  s <> e ->
  (forall y, In y inner -> y < nextId st) ->
  replace (makeReplacementNode k (reparse_name tg)) (mkRange s si e ei inner mt mi) st = (Ok el, st') ->
  exists ds de f1 elB aft,
    lookup s (dom st) = Some (Text s ds)
    /\ lookup e (dom st) = Some (Text e de)
    /\ Tracked (s :: inner) (dom st) f1
    /\ NoDup (all_ids f1)
    /\ lookup e f1 = Some (Text e de)
    /\ dom st' = put e de [elB; aft] false f1
    /\ nid elB = el
    /\ text_of elB = substring de 0 ei
    /\ text_of aft = substring_from de ei
    /\ Kept k tg st' []
    /\ Persist st st'
    /\ is_text aft = true
    /\ elB = make_el tg el (substring de 0 ei)
    /\ nextId st <= el
    /\ exists elA innerEls,
         pending_els st' = pending_els st ++ elA :: innerEls ++ [el]
         /\ forall e', In e' (elA :: innerEls) ->
                       nextId st <= e'
                       /\ exists fill, lookup e' f1 = Some (make_el tg e' fill).
Proof.
  intros HK Hse Hold Hrun. unfold replace in Hrun.
  cbn [r_startNode r_endNode r_matchIndex r_startNodeIndex r_endNodeIndex r_match
       r_innerNodes] in Hrun.
  destruct (Nat.eqb_spec s e) as [E|_]; [contradiction|].
  apply bind_ok in Hrun as (ds & st1 & Hg & Hrun). apply get_data_inv in Hg as [-> Hs].
  apply bind_ok in Hrun as (before & st1 & Hc & Hrun).
  rewrite createTextNode_eq in Hc. injection Hc as <- <-.
  pose proof (Kept_text k tg st [] (substring ds 0 si) HK) as HK1.
  apply bind_ok in Hrun as (de & st2 & Hg & Hrun). apply get_data_inv in Hg as [-> He].
  simpl in He.
  apply bind_ok in Hrun as (after & st2 & Hc & Hrun).
  rewrite createTextNode_eq in Hc. injection Hc as <- <-.
  pose proof (Kept_text k tg _ _ (substring_from de ei) HK1) as HK2.
  apply bind_ok in Hrun as (elA & st3 & Hm & Hrun).
  rewrite (makeReplacementNode_eq k tg _ _ mi _ HK2) in Hm. injection Hm as <- <-.
  pose proof (Kept_el k tg _ _ (substring_from ds si) HK2) as HK3.
  set (before := Text (nextId st) (substring ds 0 si)) in *.
  set (after := Text (nextId (set_next st (S (nextId st)))) (substring_from de ei)) in *.
  set (elA := make_el tg (nextId (set_next (set_next st (S (nextId st)))
                                           (S (nextId (set_next st (S (nextId st)))))))
                      (substring_from ds si)) in *.
  set (st3 := set_next _ _) in HK3, Hrun.
  apply bind_ok in Hrun as (innerEls & st4 & Hin & Hrun).
  assert (Hold3 : forall y, In y inner -> y < nextId st3).
  { intros y Hy. pose proof (Hold y Hy). unfold st3. simpl. lia. }
  destruct (replace_inner_inv mi inner [] st3 st4 _ innerEls HK3 Hold3 Hin)
    as (HK4 & HP4 & HT4 & HN4 & HR4 & news & Enews & Hnews).
  simpl in Enews. subst innerEls. unfold st3 in HN4, HR4. simpl in HN4, HR4.
  assert (Hs4 : lookup s (dom st4) = Some (Text s ds)) by (apply HP4; exact Hs).
  assert (He4 : lookup e (dom st4) = Some (Text e de)) by (apply HP4; exact He).
  apply bind_ok in Hrun as (elB & st5 & Hm & Hrun).
  rewrite (makeReplacementNode_eq k tg _ _ mi _ HK4) in Hm. injection Hm as <- <-.
  pose proof (Kept_el k tg _ _ (substring de 0 ei) HK4) as HK5.
  set (elB := make_el tg (nextId st4) (substring de 0 ei)) in *.
  set (st5 := set_next st4 _) in HK5, Hrun.
  (* the start node *)
  apply bind_ok in Hrun as ([] & st6 & Hi & Hrun).
  pose proof (insert_before_it_inv k tg st5 st6 [] [after; elA; elB] before s ds HK5 Hs4 Hi) as ->. clear Hi.
  destruct (Kept_put_state k tg st5 [] [after; elA; elB] [before] s ds true HK5 Hs4)
    as [HK6 HP6].
  set (st6 := set_dom st5 _) in HK6, HP6, Hrun.
  assert (Hs6 : lookup s (dom st6) = Some (Text s ds)) by (apply HP6; exact Hs4).
  apply bind_ok in Hrun as (elA' & st7 & Hi & Hrun).
  apply insert_made_before_inv in Hi as [-> Hi].
  pose proof (insert_before_it_inv k tg st6 st7 [after] [elB] elA s ds HK6 Hs6 Hi) as ->. clear Hi.
  destruct (Kept_put_state k tg st6 [after] [elB] [elA] s ds true HK6 Hs6) as [HK7 HP7].
  set (st7 := set_dom st6 _) in HK7, HP7, Hrun.
  assert (Hs7 : lookup s (dom st7) = Some (Text s ds)) by (apply HP7; exact Hs6).
  apply bind_ok in Hrun as ([] & st8 & Hi & Hrun).
  pose proof (remove_it_inv st7 st8 s ds Hs7 Hi) as ->. clear Hi.
  destruct (Kept_put_state k tg st7 [] [after; elB] [] s ds false HK7 Hs7) as [HK8 HP8].
  set (st8 := set_dom st7 _) in HK8, HP8, Hrun.
  assert (Hf1 : dom st8 = put s ds [before; elA] false (dom st4)).
  { unfold st8, st7, st6. simpl.
    rewrite (put_put s ds [before] [elA] true).
    - rewrite (put_put s ds ([before] ++ [elA]) [] false); [reflexivity|].
      simpl. rewrite app_nil_r. intros [H|H].
      + exact (pending_not st5 _ before s _ HK5 (or_introl eq_refl) Hs4 (or_introl H)).
      + exact (pending_not st5 _ elA s _ HK5 (or_intror (or_intror (or_introl eq_refl))) Hs4 H).
    - simpl. intros [H|[]].
      exact (pending_not st5 _ before s _ HK5 (or_introl eq_refl) Hs4 (or_introl H)). }
  assert (HT8 : Tracked (s :: inner) (dom st) (dom st8)).
  { apply (Tracked_trans _ _ (dom st4)).
    - apply (Tracked_more inner); [intros y Hy; right; exact Hy|exact HT4].
    - rewrite Hf1. apply Tracked_put.
      + exact (k_nodup _ _ _ _ HK4).
      + exact Hs4.
      + unfold before. cbn [flat_map text_of]. rewrite app_nil_r.
        fold (text_of elA). unfold elA. rewrite text_make_el. apply substring_split.
      + left. reflexivity. }
  assert (He8 : lookup e (dom st8) = Some (Text e de)).
  { apply HP8, HP7, HP6. exact He4. }
  (* the end node *)
  apply bind_ok in Hrun as (elB' & st9 & Hi & Hrun).
  apply insert_made_before_inv in Hi as [-> Hi].
  pose proof (insert_before_it_inv k tg st8 st9 [after] [] elB e de HK8 He8 Hi) as ->. clear Hi.
  destruct (Kept_put_state k tg st8 [after] [] [elB] e de true HK8 He8) as [HK9 HP9].
  set (st9 := set_dom st8 _) in HK9, HP9, Hrun.
  assert (He9 : lookup e (dom st9) = Some (Text e de)) by (apply HP9; exact He8).
  apply bind_ok in Hrun as ([] & st10 & Hi & Hrun).
  pose proof (insert_before_it_inv k tg st9 st10 [] [] after e de HK9 He9 Hi) as ->. clear Hi.
  destruct (Kept_put_state k tg st9 [] [] [after] e de true HK9 He9) as [HK10 HP10].
  set (st10 := set_dom st9 _) in HK10, HP10, Hrun.
  assert (He10 : lookup e (dom st10) = Some (Text e de)) by (apply HP10; exact He9).
  apply bind_ok in Hrun as ([] & st11 & Hi & Hrun).
  pose proof (remove_it_inv st10 st11 e de He10 Hi) as ->. clear Hi.
  destruct (Kept_put_state k tg st10 [] [] [] e de false HK10 He10) as [HK11 HP11].
  set (st11 := set_dom st10 _) in HK11, HP11, Hrun.
  apply bind_ok in Hrun as ([] & st12 & Hp & Hrun).
  pose proof (push_revert_eq _ _ _ Hp) as Hp12.
  apply push_revert_inv in Hp as (Hd12 & Hn12 & Hr12).
  unfold ret in Hrun. injection Hrun as <- <-.
  assert (Hsold : s < nextId st).
  { apply (k_below _ _ _ _ HK). exact (lookup_ids s _ _ Hs). }
  exists ds, de, (dom st8), elB, after.
  split; [exact Hs|]. split; [exact He|]. split; [exact HT8|].
  split; [exact (k_nodup _ _ _ _ HK8)|]. split; [exact He8|].
  split; [|split; [reflexivity|split; [apply text_make_el|split; [reflexivity|split;
    [|split; [|split; [reflexivity|split; [reflexivity|split; [simpl; lia|]]]]]]]]].
  - rewrite Hd12. unfold st11, st10, st9. simpl.
    rewrite (put_put e de [elB] [after] true).
    + rewrite (put_put e de ([elB] ++ [after]) [] false); [reflexivity|].
      cbn [flat_map app]. rewrite app_nil_r. intros H.
      apply in_app_or in H as [H|H].
      * exact (pending_not st8 _ elB e _ HK8 (or_intror (or_introl eq_refl)) He8 H).
      * exact (pending_not st8 _ after e _ HK8 (or_introl eq_refl) He8 H).
    + cbn [flat_map]. rewrite app_nil_r. intros H.
      exact (pending_not st8 _ elB e _ HK8 (or_intror (or_introl eq_refl)) He8 H).
  - exact (Kept_same_dom k tg _ _ _ HK11 Hd12 Hn12 Hr12).
  - intros y dy Hy. rewrite Hd12.
    apply HP11, HP10, HP9, HP8, HP7, HP6. simpl. apply HP4. exact Hy.
  - exists (nid elA), news. split.
    + rewrite Hp12. unfold pending_els. simpl. rewrite HR4. reflexivity.
    + intros e' [<-|He'].
      * split; [simpl; lia|]. exists (substring_from ds si).
        rewrite Hf1.
        apply (put_new_lookup s ds [before; elA] false (dom st4) elA).
        -- exact (k_nodup _ _ _ _ HK4).
        -- rewrite <- Hf1. exact (k_nodup _ _ _ _ HK8).
        -- exact Hs4.
        -- right. left. reflexivity.
      * destruct (Hnews e' He') as [H1 (fill & H2)]. split; [simpl in H1; lia|].
        exists fill. rewrite Hf1.
        apply (Tracked_lookup [s] (dom st4)).
        -- apply Tracked_put.
           ++ exact (k_nodup _ _ _ _ HK4).
           ++ exact Hs4.
           ++ unfold before. cbn [flat_map text_of]. rewrite app_nil_r.
              fold (text_of elA). unfold elA. rewrite text_make_el. apply substring_split.
           ++ left. reflexivity.
        -- rewrite <- Hf1. exact (k_nodup _ _ _ _ HK8).
        -- exact H2.
        -- intros y [<-|[]] Hin'. apply ids_make_el in Hin'. simpl in H1. lia.
Qed.

End MultiFacts.

(** *** The nodes of a match over several nodes, one by one *)

Section SpanFacts.

Variable k : nat.
Variable tg : jsstring.

Lemma Kept_between (name : jsstring) (st : State) :
  between k name st -> parse_back name = [E tg []] -> Kept k tg st [].
Proof.
  intros (Hnd & Hb & Hs & Hr) Hback. constructor.
  - exact Hnd.
  - exact Hb.
  - constructor.
  - intros i [].
  - intros i [].
  - exists name. auto.
  - exact (parse_back_again name tg Hback).
  - exact Hr.
Qed.

Lemma replace_inner_exact (mi : Z) (inner : list nat) :
  forall (dl : list jsstring) (els : list nat) (st st' : State) (P : list Node)
         (out : list nat),
    Kept k tg st P ->
    Forall2 (fun x d => lookup x (dom st) = Some (Text x d)) inner dl ->
    replace_inner (makeReplacementNode k (reparse_name tg)) mi inner els st = (Ok out, st') ->
    dom st' = put_inner tg (nextId st) (combine inner dl) (dom st)
    /\ nextId st' = nextId st + inner_size (combine inner dl)
    /\ out = els ++ inner_els (nextId st) (combine inner dl).
Proof.
  induction inner as [|x inner IH]; intros dl els st st' P out HK Hdl Hrun; simpl in Hrun.
  - unfold ret in Hrun. injection Hrun as <- <-. simpl.
    split; [reflexivity|]. split; [lia|]. symmetry. apply app_nil_r.
  - inversion Hdl as [|x' d inner' dl' Hx Hrest]; subst. clear Hdl.
    apply bind_ok in Hrun as (d' & st1 & Hg & Hrun).
    apply get_data_inv in Hg as [-> Hx'].
    rewrite Hx in Hx'. injection Hx' as <-.
    apply bind_ok in Hrun as (eln & st2 & Hm & Hrun).
    rewrite (makeReplacementNode_eq k tg P d mi st HK) in Hm. injection Hm as <- <-.
    pose proof (Kept_el k tg st P d HK) as HK2.
    apply bind_ok in Hrun as (p & st3 & Hp & Hrun).
    apply bind_ok in Hrun as (p' & st4 & Hp' & Hrun).
    apply bind_ok in Hrun as (eln & st4' & Hde & Hrun).
    simpl in Hde. unfold ret in Hde. injection Hde as <- <-.
    apply bind_ok in Hrun as ([] & st5 & Hr & Hrun).
    assert (Hrc : bind (get_parentNode x)
                       (fun p => bind (deref p)
                                      (fun p => dom_op (replaceChild p (make_el tg (nextId st) d) x)))
                       (set_next st (nextId st + el_size d))
                  = (Ok tt, st5)).
    { unfold bind at 1. rewrite Hp. unfold bind at 1. rewrite Hp'. exact Hr. }
    rewrite <- (app_nil_r (P ++ [make_el tg (nextId st) d])) in HK2.
    rewrite <- app_assoc in HK2.
    pose proof (replace_child_inv k tg _ st5 P [] _ x d HK2 Hx Hrc) as ->.
    destruct (Kept_put_state k tg _ P [] [make_el tg (nextId st) d] x d false HK2 Hx)
      as [HK5 HP5].
    rewrite app_nil_r in HK5.
    assert (Hrest5 : Forall2 (fun y dy =>
                                lookup y (dom (set_dom (set_next st (nextId st + el_size d))
                                                 (put x d [make_el tg (nextId st) d] false
                                                      (dom st))))
                                = Some (Text y dy)) inner dl').
    { revert Hrest. apply Forall2_impl. intros y dy Hy. apply HP5. exact Hy. }
    destruct (IH _ _ _ _ _ _ HK5 Hrest5 Hrun) as (Hd & Hn & Ho).
    simpl in Hd, Hn, Ho. simpl.
    split; [exact Hd|]. split; [lia|]. rewrite Ho, <- app_assoc. reflexivity.
Qed.

Lemma replace_multi_exact (st st' : State) (s e : nat) (ds de : jsstring) (si ei : Z)
      (inner : list nat) (dl : list jsstring) (mt : list jsstring) (mi : Z) (el : nat) :
  Kept k tg st [] ->
  s <> e ->
  lookup s (dom st) = Some (Text s ds) ->
  lookup e (dom st) = Some (Text e de) ->
  Forall2 (fun x d => lookup x (dom st) = Some (Text x d)) inner dl ->
  replace (makeReplacementNode k (reparse_name tg)) (mkRange s si e ei inner mt mi) st
  = (Ok el, st') ->
  dom st' = span_replaced tg (nextId st) s ds si e de ei (combine inner dl) (dom st)
  /\ el = nid (span_elB tg (nextId st) ds si (combine inner dl) de ei)
  /\ pending_els st'
     = pending_els st
       ++ nid (span_elA tg (nextId st) ds si)
       :: inner_els (S (S (nextId st)) + el_size (substring_from ds si)) (combine inner dl)
       ++ [el].
Proof.
  intros HK Hse Hs0 He0 Hdl Hrun. unfold replace in Hrun.
  cbn [r_startNode r_endNode r_matchIndex r_startNodeIndex r_endNodeIndex r_match
       r_innerNodes] in Hrun.
  destruct (Nat.eqb_spec s e) as [E|_]; [contradiction|].
  apply bind_ok in Hrun as (ds' & st1 & Hg & Hrun). apply get_data_inv in Hg as [-> Hs].
  rewrite Hs0 in Hs. injection Hs as <-. rename Hs0 into Hs.
  apply bind_ok in Hrun as (before & st1 & Hc & Hrun).
  rewrite createTextNode_eq in Hc. injection Hc as <- <-.
  pose proof (Kept_text k tg st [] (substring ds 0 si) HK) as HK1.
  apply bind_ok in Hrun as (de' & st2 & Hg & Hrun). apply get_data_inv in Hg as [-> He].
  simpl in He. rewrite He0 in He. injection He as <-. rename He0 into He.
  apply bind_ok in Hrun as (after & st2 & Hc & Hrun).
  rewrite createTextNode_eq in Hc. injection Hc as <- <-.
  pose proof (Kept_text k tg _ _ (substring_from de ei) HK1) as HK2.
  apply bind_ok in Hrun as (elA & st3 & Hm & Hrun).
  rewrite (makeReplacementNode_eq k tg _ _ mi _ HK2) in Hm. injection Hm as <- <-.
  pose proof (Kept_el k tg _ _ (substring_from ds si) HK2) as HK3.
  set (before := Text (nextId st) (substring ds 0 si)) in *.
  set (after := Text (nextId (set_next st (S (nextId st)))) (substring_from de ei)) in *.
  set (elA := make_el tg (nextId (set_next (set_next st (S (nextId st)))
                                           (S (nextId (set_next st (S (nextId st)))))))
                      (substring_from ds si)) in *.
  set (st3 := set_next _ _) in HK3, Hrun.
  apply bind_ok in Hrun as (innerEls & st4 & Hin & Hrun).
  assert (Hold : forall y, In y inner -> y < nextId st).
  { clear - HK Hdl. induction Hdl as [|x d inner dl Hx _ IH]; intros y [].
    - subst y. apply (k_below _ _ _ _ HK). exact (lookup_ids x _ _ Hx).
    - apply IH. assumption. }
  assert (Hold3 : forall y, In y inner -> y < nextId st3).
  { intros y Hy. pose proof (Hold y Hy). unfold st3. simpl. lia. }
  destruct (replace_inner_inv k tg mi inner [] st3 st4 _ innerEls HK3 Hold3 Hin)
    as (HK4 & HP4 & _ & _ & HR4 & _).
  destruct (replace_inner_exact mi inner dl [] st3 st4 _ innerEls HK3 Hdl Hin)
    as (Hd4 & Hn4 & Ho4).
  simpl in Ho4. subst innerEls. unfold st3 in HR4. simpl in HR4.
  assert (Hs4 : lookup s (dom st4) = Some (Text s ds)) by (apply HP4; exact Hs).
  assert (He4 : lookup e (dom st4) = Some (Text e de)) by (apply HP4; exact He).
  apply bind_ok in Hrun as (elB & st5 & Hm & Hrun).
  rewrite (makeReplacementNode_eq k tg _ _ mi _ HK4) in Hm. injection Hm as <- <-.
  pose proof (Kept_el k tg _ _ (substring de 0 ei) HK4) as HK5.
  set (elB := make_el tg (nextId st4) (substring de 0 ei)) in *.
  set (st5 := set_next st4 _) in HK5, Hrun.
  (* the start node *)
  apply bind_ok in Hrun as ([] & st6 & Hi & Hrun).
  pose proof (insert_before_it_inv k tg st5 st6 [] [after; elA; elB] before s ds HK5 Hs4 Hi) as ->. clear Hi.
  destruct (Kept_put_state k tg st5 [] [after; elA; elB] [before] s ds true HK5 Hs4)
    as [HK6 HP6].
  set (st6 := set_dom st5 _) in HK6, HP6, Hrun.
  assert (Hs6 : lookup s (dom st6) = Some (Text s ds)) by (apply HP6; exact Hs4).
  apply bind_ok in Hrun as (elA' & st7 & Hi & Hrun).
  apply insert_made_before_inv in Hi as [-> Hi].
  pose proof (insert_before_it_inv k tg st6 st7 [after] [elB] elA s ds HK6 Hs6 Hi) as ->. clear Hi.
  destruct (Kept_put_state k tg st6 [after] [elB] [elA] s ds true HK6 Hs6) as [HK7 HP7].
  set (st7 := set_dom st6 _) in HK7, HP7, Hrun.
  assert (Hs7 : lookup s (dom st7) = Some (Text s ds)) by (apply HP7; exact Hs6).
  apply bind_ok in Hrun as ([] & st8 & Hi & Hrun).
  pose proof (remove_it_inv st7 st8 s ds Hs7 Hi) as ->. clear Hi.
  destruct (Kept_put_state k tg st7 [] [after; elB] [] s ds false HK7 Hs7) as [HK8 HP8].
  set (st8 := set_dom st7 _) in HK8, HP8, Hrun.
  assert (Hf1 : dom st8 = put s ds [before; elA] false (dom st4)).
  { unfold st8, st7, st6. simpl.
    rewrite (put_put s ds [before] [elA] true).
    - rewrite (put_put s ds ([before] ++ [elA]) [] false); [reflexivity|].
      simpl. rewrite app_nil_r. intros [H|H].
      + exact (pending_not k tg st5 _ before s _ HK5 (or_introl eq_refl) Hs4 (or_introl H)).
      + exact (pending_not k tg st5 _ elA s _ HK5 (or_intror (or_intror (or_introl eq_refl))) Hs4 H).
    - simpl. intros [H|[]].
      exact (pending_not k tg st5 _ before s _ HK5 (or_introl eq_refl) Hs4 (or_introl H)). }
  assert (He8 : lookup e (dom st8) = Some (Text e de)).
  { apply HP8, HP7, HP6. exact He4. }
  (* the end node *)
  apply bind_ok in Hrun as (elB' & st9 & Hi & Hrun).
  apply insert_made_before_inv in Hi as [-> Hi].
  pose proof (insert_before_it_inv k tg st8 st9 [after] [] elB e de HK8 He8 Hi) as ->. clear Hi.
  destruct (Kept_put_state k tg st8 [after] [] [elB] e de true HK8 He8) as [HK9 HP9].
  set (st9 := set_dom st8 _) in HK9, HP9, Hrun.
  assert (He9 : lookup e (dom st9) = Some (Text e de)) by (apply HP9; exact He8).
  apply bind_ok in Hrun as ([] & st10 & Hi & Hrun).
  pose proof (insert_before_it_inv k tg st9 st10 [] [] after e de HK9 He9 Hi) as ->. clear Hi.
  destruct (Kept_put_state k tg st9 [] [] [after] e de true HK9 He9) as [HK10 HP10].
  set (st10 := set_dom st9 _) in HK10, HP10, Hrun.
  assert (He10 : lookup e (dom st10) = Some (Text e de)) by (apply HP10; exact He9).
  apply bind_ok in Hrun as ([] & st11 & Hi & Hrun).
  pose proof (remove_it_inv st10 st11 e de He10 Hi) as ->. clear Hi.
  apply bind_ok in Hrun as ([] & st12 & Hp & Hrun).
  pose proof (push_revert_eq _ _ _ Hp) as Hp12.
  apply push_revert_inv in Hp as (Hd12 & Hn12 & Hr12).
  unfold ret in Hrun. injection Hrun as <- <-.
  assert (EB : elB = span_elB tg (nextId st) ds si (combine inner dl) de ei).
  { unfold elB, span_elB. rewrite Hn4. reflexivity. }
  assert (Hfin : dom st12 = put e de [elB; after] false (dom st8)).
  { rewrite Hd12. unfold st10, st9. simpl.
    rewrite (put_put e de [elB] [after] true).
    + rewrite (put_put e de ([elB] ++ [after]) [] false); [reflexivity|].
      cbn [flat_map app]. rewrite app_nil_r. intros H.
      apply in_app_or in H as [H|H].
      * exact (pending_not k tg st8 _ elB e _ HK8 (or_intror (or_introl eq_refl)) He8 H).
      * exact (pending_not k tg st8 _ after e _ HK8 (or_introl eq_refl) He8 H).
    + cbn [flat_map]. rewrite app_nil_r. intros H.
      exact (pending_not k tg st8 _ elB e _ HK8 (or_intror (or_introl eq_refl)) He8 H). }
  split; [|split].
  - rewrite Hfin, Hf1, Hd4, EB. reflexivity.
  - rewrite <- EB. reflexivity.
  - rewrite Hp12. unfold pending_els. simpl. rewrite HR4. reflexivity.
Qed.

End SpanFacts.

(** *** Pieces of a string *)

Section PiecesFacts.
Local Open Scope Z_scope.

Lemma len_app (a b : jsstring) : len (a ++ b) = len a + len b.
Proof. unfold len. rewrite length_app. lia. Qed.

Lemma len_nonneg (a : jsstring) : 0 <= len a.
Proof. unfold len. lia. Qed.

Lemma clamp_inside (s : jsstring) (i : Z) :
  0 <= i <= len s -> clamp s i = Z.to_nat i.
Proof. unfold clamp, len. intros H. lia. Qed.

Lemma substring_inside (s : jsstring) (a b : Z) :
  0 <= a <= b -> b <= len s ->
  substring s a b = firstn (Z.to_nat b - Z.to_nat a) (skipn (Z.to_nat a) s).
Proof.
  intros H1 H2. unfold substring.
  rewrite !clamp_inside by lia.
  rewrite Nat.max_r, Nat.min_l by lia. reflexivity.
Qed.

Lemma substring_middle (A d B : jsstring) (a b : Z) :
  len A <= a <= b -> b <= len A + len d ->
  substring (A ++ d ++ B) a b = substring d (a - len A) (b - len A).
Proof.
  intros H1 H2. pose proof (len_nonneg A) as HA.
  rewrite !substring_inside; try lia.
  - unfold len in *.
    replace (Z.to_nat a) with (length A + Z.to_nat (a - Z.of_nat (length A)))%nat by lia.
    rewrite skipn_app, skipn_all2 by lia. simpl.
    replace (length A + Z.to_nat (a - Z.of_nat (length A)) - length A)%nat
      with (Z.to_nat (a - Z.of_nat (length A))) by lia.
    rewrite skipn_app, firstn_app.
    rewrite length_skipn.
    replace (Z.to_nat b - (length A + Z.to_nat (a - Z.of_nat (length A)))
             - (length d - Z.to_nat (a - Z.of_nat (length A))))%nat with 0%nat by lia.
    simpl. rewrite app_nil_r. f_equal. lia.
  - rewrite !len_app. pose proof (len_nonneg B). lia.
Qed.

Lemma substring_len (d : jsstring) (a b : Z) :
  0 <= a <= b -> b <= len d -> len (substring d a b) = b - a.
Proof.
  intros H1 H2. rewrite substring_inside by lia. unfold len in *.
  rewrite length_firstn, length_skipn. lia.
Qed.

(** The three pieces of the single-node branch make up the node's text. *)
Lemma three_pieces (d : jsstring) (si ei : Z) :
  0 <= si -> si < ei -> ei <= len d ->
  (if si >? 0 then substring d 0 si else [])
    ++ substring d si ei
    ++ (if ei <? len d then substring_from d ei else [])
  = d.
Proof.
  intros H1 H2 H3.
  assert (G : firstn (Z.to_nat si) d ++ substring d si ei ++ skipn (Z.to_nat ei) d = d).
  { rewrite substring_inside by lia.
    replace (skipn (Z.to_nat ei) d)
      with (skipn (Z.to_nat ei - Z.to_nat si) (skipn (Z.to_nat si) d)).
    - rewrite firstn_skipn. apply firstn_skipn.
    - rewrite skipn_skipn. f_equal. lia. }
  destruct (Z.gtb_spec si 0); destruct (Z.ltb_spec ei (len d)).
  - rewrite substring_inside by lia. unfold substring_from. rewrite clamp_inside by lia.
    simpl skipn. rewrite Nat.sub_0_r. exact G.
  - rewrite substring_inside by lia. simpl skipn. rewrite Nat.sub_0_r.
    rewrite skipn_all2 in G by (unfold len in *; lia). exact G.
  - unfold substring_from. rewrite clamp_inside by lia.
    replace (Z.to_nat si) with 0%nat in G by lia. exact G.
  - replace (Z.to_nat si) with 0%nat in G by lia.
    rewrite skipn_all2 in G by (unfold len in *; lia). exact G.
Qed.

Lemma piece_before_len (d : jsstring) (si : Z) :
  0 <= si <= len d -> len (if si >? 0 then substring d 0 si else []) = si.
Proof.
  intros H. destruct (Z.gtb_spec si 0).
  - rewrite substring_len; lia.
  - unfold len. simpl. lia.
Qed.

End PiecesFacts.

(** *** Subtrees without replacement nodes *)

Section SettledFacts.

Variable k : nat.

Lemma settled_text (x : nat) (d : jsstring) : settled k (Text x d).
Proof. intros m [<-|[]]. discriminate. Qed.

Lemma settled_root (i : nat) (t : jsstring) (cs : list Node) :
  settled k (Element i t cs) -> i < k.
Proof. intros H. apply (H (Element i t cs)); [left; reflexivity|reflexivity]. Qed.

Lemma settled_child (i : nat) (t : jsstring) (cs : list Node) (c : Node) :
  settled k (Element i t cs) -> In c cs -> settled k c.
Proof.
  intros H Hc m Hm. apply H. right. apply in_flat_map. exists c. auto.
Qed.

Lemma settled_is_text (n : Node) : is_text n = true -> settled k n.
Proof. destruct n; [intros _; apply settled_text|discriminate]. Qed.

Lemma old_frames_app (a b : list Frame) :
  old_frames k (a ++ b) <-> old_frames k a /\ old_frames k b.
Proof.
  unfold old_frames. split.
  - intros H. split; intros fr Hfr; apply H; apply in_or_app; auto.
  - intros [Ha Hb] fr Hfr. apply in_app_or in Hfr as [Hfr|Hfr]; auto.
Qed.

Lemma old_frames_cons (fr : Frame) (fs : list Frame) :
  old_frames k (fr :: fs)
  <-> (f_id fr < k /\ forall c, In c (f_right fr) -> settled k c) /\ old_frames k fs.
Proof.
  unfold old_frames. split.
  - intros H. split; [apply H; left; reflexivity|].
    intros fr' Hfr. apply H. right. exact Hfr.
  - intros [Ha Hb] fr' [<-|Hfr]; auto.
Qed.

(** Frames with the identities and the right parts of old frames. *)
Lemma old_frames_sim (fs fs' : list Frame) :
  Forall2 frame_sim fs fs' -> map f_right fs' = map f_right fs ->
  old_frames k fs -> old_frames k fs'.
Proof.
  induction 1 as [|fr fr' l l' (H1 & _ & _) Hl IH]; intros Hr Ho; [exact Ho|].
  simpl in Hr. injection Hr as Hr1 Hr2.
  apply old_frames_cons in Ho as [[Ha Hb] Ho].
  apply old_frames_cons. split; [|exact (IH Hr2 Ho)].
  rewrite <- H1, Hr1. auto.
Qed.

Lemma plug_element (fs : list Frame) (m : Node) :
  is_text m = false -> is_text (plug fs m) = false.
Proof.
  revert m. induction fs as [|fr fs IH]; intros m H; simpl; [exact H|].
  apply IH. reflexivity.
Qed.

Lemma plug_is_element (fr : Frame) (fs : list Frame) (n : Node) :
  is_text (plug (fr :: fs) n) = false.
Proof. simpl. apply plug_element. reflexivity. Qed.

Lemma left_ids_frame (fs : list Frame) (y : nat) :
  In y (left_ids fs) -> In y (frame_ids fs).
Proof.
  unfold left_ids, frame_ids. rewrite !in_flat_map. intros (fr & Hfr & Hy).
  exists fr. split; [exact Hfr|]. right. apply in_or_app. left. exact Hy.
Qed.

Lemma left_not_right (fs : list Frame) (y : nat) :
  NoDup (frame_ids fs) -> In y (left_ids fs) -> ~ In y (right_ids fs).
Proof.
  induction fs as [|fr fs IH]; [intros _ []|].
  unfold frame_ids, left_ids, right_ids. cbn [flat_map].
  fold (frame_ids fs) (left_ids fs) (right_ids fs).
  intros Hnd Hl Hr. inversion Hnd as [|? ? _ Hnd0]; subst.
  rewrite <- app_assoc in Hnd0.
  apply in_app_or in Hl as [Hl|Hl]; apply in_app_or in Hr as [Hr|Hr].
  - apply (NoDup_app_disj _ _ y Hnd0 Hl). apply in_or_app. left. exact Hr.
  - apply (NoDup_app_disj _ _ y Hnd0 Hl). apply in_or_app. right.
    unfold right_ids in Hr. apply in_flat_map in Hr as (fr' & Hfr & Hy).
    exact (frame_right_in y fr' fs Hfr Hy).
  - apply NoDup_app_r in Hnd0.
    apply (NoDup_app_disj _ _ y Hnd0 Hr).
    unfold left_ids in Hl. apply in_flat_map in Hl as (fr' & Hfr & Hy).
    exact (frame_left_in y fr' fs Hfr Hy).
  - apply NoDup_app_r, NoDup_app_r in Hnd0. exact (IH Hnd0 Hl Hr).
Qed.

End SettledFacts.

(** *** The walk below an element *)

Section WalkFacts.
Local Open Scope Z_scope.

Variable k : nat.
Variable tg : jsstring.
(** The node given to [findAndReplaceDOMText], and its text at the call. *)
Variable R : nat.
Variable T : jsstring.
Hypothesis T_not_empty : T <> [].
Local Abbreviation Place := (Invariants.Place k tg R T).
Local Abbreviation p_kept := (Invariants.p_kept k tg R T).
Local Abbreviation p_dom := (Invariants.p_dom k tg R T).
Local Abbreviation p_root := (Invariants.p_root k tg R T).
Local Abbreviation p_text := (Invariants.p_text k tg R T).
Local Abbreviation Inv := (Invariants.Inv k tg R T).
Local Abbreviation v_place := (Invariants.v_place k tg R T).
Local Abbreviation v_cur := (Invariants.v_cur k tg R T).
Local Abbreviation v_elem := (Invariants.v_elem k tg R T).
Local Abbreviation v_at := (Invariants.v_at k tg R T).
Local Abbreviation v_pending := (Invariants.v_pending k tg R T).
Local Abbreviation v_seen := (Invariants.v_seen k tg R T).
Local Abbreviation InvEnd := (Invariants.InvEnd k tg R T).
Local Abbreviation e_place := (Invariants.e_place k tg R T).
Local Abbreviation e_cur := (Invariants.e_cur k tg R T).
Local Abbreviation e_inner := (Invariants.e_inner k tg R T).
Local Abbreviation e_at := (Invariants.e_at k tg R T).
Local Abbreviation e_pending := (Invariants.e_pending k tg R T).
Local Abbreviation e_seen := (Invariants.e_seen k tg R T).
Local Abbreviation step_post := (Invariants.step_post k tg R T).
Local Abbreviation chain_in := (Invariants.chain_in T).
Local Abbreviation pending := (Invariants.pending T).
Local Abbreviation onward := (Invariants.onward R).
Local Abbreviation replaced := (Invariants.replaced k tg R).
Local Abbreviation Extra := (Invariants.Extra k).
Local Abbreviation x_wrapped := (Invariants.x_wrapped k).
Local Abbreviation x_frames := (Invariants.x_frames k).
Local Abbreviation x_marked := (Invariants.x_marked k).
Local Abbreviation v_settled := (Invariants.v_settled k tg R T).
Local Abbreviation v_extra := (Invariants.v_extra k tg R T).
Local Abbreviation e_extra := (Invariants.e_extra k tg R T).
Local Abbreviation Ended := (Invariants.Ended k tg R T).

Lemma seen_more (w : Walk) (a b : list nat) :
  (forall x, In x a -> In x b) -> seen w a -> seen w b.
Proof.
  unfold seen. intros H. destruct (startNode w); [|auto].
  intros [H1 H2]. split; auto.
Qed.

Lemma Place_lookup (st : State) (pre post : forest) (inner outer : list Frame) (sub : Node) :
  Place st pre inner outer sub post -> lookup (nid sub) (dom st) = Some sub.
Proof.
  intros [HK Hd _ _]. rewrite Hd. apply lookup_focus. rewrite <- Hd.
  exact (k_nodup _ _ _ _ HK).
Qed.

Lemma Place_place (st : State) (pre post : forest) (fr : Frame) (inner outer : list Frame)
      (sub : Node) :
  Place st pre (fr :: inner) outer sub post ->
  place_in (nid sub) (dom st) = Some (f_id fr, (f_left fr, sub, f_right fr)).
Proof.
  intros [HK Hd _ _]. rewrite Hd. simpl app. apply place_in_focus.
  change (fr :: inner ++ outer) with ((fr :: inner) ++ outer). rewrite <- Hd.
  exact (k_nodup _ _ _ _ HK).
Qed.

Lemma Place_ended (st : State) (pre post : forest) (inner outer : list Frame) (sub : Node) :
  Place st pre inner outer sub post -> inner <> [] -> Wrapped k st -> Ended st.
Proof.
  intros HP Hne HW. pose proof HP as [HK Hd Hr Ht].
  constructor; [exact HK|exact HW|].
  exists (plug inner sub). split; [|split; [exact Ht|]].
  - rewrite <- Hr. rewrite Hd, plug_app.
    apply lookup_focus. rewrite <- plug_app, <- Hd. exact (k_nodup _ _ _ _ HK).
  - destruct inner; [contradiction|apply plug_is_element].
Qed.

(** Down to the first child. *)
Lemma step_down (w : Walk) (st : State) (pre post : forest) (inner outer : list Frame)
      (i : nat) (t : jsstring) (c : Node) (cs : list Node) :
  Inv w st pre inner outer (Element i t (c :: cs)) post ->
  Inv (move_to w (nid c)) st pre (mkFrame i t [] cs :: inner) outer c post.
Proof.
  intros [[HK Hd Hr Ht] Hc He Ha Hp Hs Hse [X1 X2 X3]]. constructor; simpl; auto.
  - constructor; auto.
  - discriminate.
  - rewrite app_nil_r. exact Ha.
  - exact (settled_child k i t (c :: cs) c Hse (or_introl eq_refl)).
  - constructor; [exact X1| |exact X3].
    apply (old_frames_cons k (mkFrame i t [] cs)). split; [|exact X2].
    split; [exact (settled_root k i t _ Hse)|].
    intros c' Hc'. exact (settled_child k i t (c :: cs) c' Hse (or_intror Hc')).
Qed.

(** On to the next sibling. *)
Lemma step_next (w : Walk) (st : State) (pre post : forest) (fr : Frame)
      (inner outer : list Frame) (sub sib : Node) (r : list Node) :
  InvEnd w st pre (fr :: inner) outer sub post ->
  f_right fr = sib :: r ->
  Inv (move_to w (nid sib)) st pre
      (mkFrame (f_id fr) (f_tag fr) (f_left fr ++ [sub]) r :: inner) outer sib post.
Proof.
  intros [[HK Hd Hr Ht] Hc He Ha Hp Hs [X1 X2 X3]] Er.
  assert (Ew : forall fs, plug (mkFrame (f_id fr) (f_tag fr) (f_left fr ++ [sub]) r :: fs) sib
                          = plug (fr :: fs) sub).
  { intros fs. simpl. unfold wrap. simpl. rewrite Er, <- app_assoc. reflexivity. }
  simpl app in X2. apply old_frames_cons in X2 as [[X2a X2b] X2c].
  constructor.
  - constructor; auto.
    + rewrite Hd. f_equal. f_equal. exact (eq_sym (Ew (inner ++ outer))).
    + rewrite <- Hr. exact (f_equal nid (Ew inner)).
    + rewrite <- Ht. exact (f_equal text_of (Ew inner)).
  - reflexivity.
  - discriminate.
  - simpl. rewrite Ha. simpl. rewrite flat_map_app. simpl. rewrite app_nil_r.
    rewrite !len_app. lia.
  - exact Hp.
  - apply (seen_more w (left_ids ((fr :: inner) ++ outer) ++ ids sub)); [|exact Hs].
    intros x Hx. simpl in Hx |- *.
    unfold left_ids in *. simpl in Hx |- *. rewrite flat_map_app. simpl. rewrite app_nil_r.
    rewrite <- !app_assoc in Hx |- *.
    apply in_app_or in Hx as [Hx|Hx]; [apply in_or_app; left; exact Hx|].
    apply in_app_or in Hx as [Hx|Hx].
    + apply in_or_app. right. apply in_or_app. right. exact Hx.
    + apply in_or_app. right. apply in_or_app. left. exact Hx.
  - apply X2b. rewrite Er. left. reflexivity.
  - constructor; [exact X1| |exact X3].
    apply (old_frames_cons k (mkFrame (f_id fr) (f_tag fr) (f_left fr ++ [sub]) r)).
    split; [|exact X2c]. split; [exact X2a|].
    intros c Hc'. apply X2b. rewrite Er. right. exact Hc'.
Qed.

(** Up to the parent, when there is no next sibling. *)
Lemma step_up (w : Walk) (st : State) (pre post : forest) (fr : Frame)
      (inner outer : list Frame) (sub : Node) :
  InvEnd w st pre (fr :: inner) outer sub post ->
  f_right fr = [] ->
  f_id fr <> R ->
  InvEnd (move_to w (f_id fr)) st pre inner outer (wrap fr sub) post.
Proof.
  intros [[HK Hd Hr Ht] Hc He Ha Hp Hs [X1 X2 X3]] Er HR.
  simpl app in X2. apply old_frames_cons in X2 as [_ X2c].
  constructor.
  - constructor; auto.
  - reflexivity.
  - intros ->. apply HR. exact Hr.
  - simpl. rewrite Ha. simpl. rewrite Er. rewrite flat_map_app. simpl.
    rewrite app_nil_r. unfold len. rewrite !length_app. lia.
  - exact Hp.
  - apply (seen_more w (left_ids ((fr :: inner) ++ outer) ++ ids sub)); [|exact Hs].
    intros x Hx. rewrite ids_wrap. unfold left_ids in *. simpl in Hx.
    rewrite <- !app_assoc in Hx.
    apply in_app_or in Hx as [Hx|Hx].
    + apply in_or_app. right. right. apply in_or_app. left. exact Hx.
    + apply in_app_or in Hx as [Hx|Hx].
      * apply in_or_app. left. exact Hx.
      * apply in_or_app. right. right. apply in_or_app. right. apply in_or_app. left. exact Hx.
  - constructor; [exact X1|exact X2c|exact X3].
Qed.

Lemma next_sibling_at (st : State) (pre post : forest) (fr : Frame)
      (inner outer : list Frame) (sub : Node) :
  Place st pre (fr :: inner) outer sub post ->
  nextSibling (nid sub) (dom st)
  = match f_right fr with s :: _ => Some (nid s) | [] => None end
  /\ parentNode (nid sub) (dom st) = Some (f_id fr).
Proof.
  intros HP. unfold nextSibling, parentNode. rewrite (Place_place _ _ _ _ _ _ _ HP).
  split; reflexivity.
Qed.

(** The inner loop of the walk, lines 162-171. *)
Lemma forward_or_up_inv (fuel : nat) :
  forall (w : Walk) (st st' : State) (pre post : forest) (inner outer : list Frame)
         (sub : Node) (o : option nat),
    InvEnd w st pre inner outer sub post ->
    forward_or_up fuel R (nid sub) st = (Ok o, st') ->
    st' = st
    /\ match o with
       | Some c => exists inner' sub', Inv (move_to w c) st pre inner' outer sub' post
       | None => True
       end.
Proof.
  induction fuel as [|fuel IH]; intros w st st' pre post inner outer sub o HI Hrun;
    [discriminate|].
  destruct inner as [|fr inner]; [exfalso; exact (e_inner _ _ _ _ _ _ _ HI eq_refl)|].
  destruct (next_sibling_at st pre post fr inner outer sub (e_place _ _ _ _ _ _ _ HI))
    as [Hns Hpn].
  cbn [forward_or_up] in Hrun. unfold bind at 1, get_nextSibling in Hrun.
  rewrite Hns in Hrun.
  destruct (f_right fr) as [|sib r] eqn:Er.
  - unfold bind at 1, get_parentNode in Hrun. rewrite Hpn in Hrun.
    destruct (Nat.eqb_spec (f_id fr) R) as [E|E].
    + unfold ret in Hrun. injection Hrun as <- <-. auto.
    + destruct (IH (move_to w (f_id fr)) st st' pre post inner outer (wrap fr sub) o
                  (step_up w st pre post fr inner outer sub HI Er E) Hrun) as [-> Ho].
      split; [reflexivity|]. destruct o; [|exact I]. exact Ho.
  - unfold ret in Hrun. injection Hrun as <- <-. split; [reflexivity|].
    eexists _, _. exact (step_next w st pre post fr inner outer sub sib r HI Er).
Qed.

Lemma Inv_inner (w : Walk) (st : State) (pre post : forest) (inner outer : list Frame)
      (x : nat) (d : jsstring) :
  Inv w st pre inner outer (Text x d) post -> exists fr inner0, inner = fr :: inner0.
Proof.
  intros HI. destruct inner as [|fr inner0]; [|eauto].
  pose proof (v_elem _ _ _ _ _ _ _ HI eq_refl). discriminate.
Qed.

(** A match inside one Text node: the place of the replacement node after
    the call of [replace]. *)
Lemma after_single (w : Walk) (st st1 : State) (pre post : forest)
      (inner outer : list Frame) (x : nat) (d : jsstring) (si ei : Z)
      (inn : list nat) (mt : list jsstring) (mi : Z) (el : nat) :
  Inv w st pre inner outer (Text x d) post ->
  0 <= si -> si < ei -> ei <= len d ->
  hd [] mt = substring d si ei ->
  replace (makeReplacementNode k (reparse_name tg)) (mkRange x si x ei inn mt mi) st = (Ok el, st1) ->
  exists pre' inner' sub' post',
    Place st1 pre' inner' outer sub' post'
    /\ nid sub' = el
    /\ inner' <> []
    /\ len (left_text inner') + len (text_of sub') = len (left_text inner) + ei
    /\ lookup x (dom st1) = Some (Text x d)
    /\ Wrapped k st1
    /\ old_frames k (inner' ++ outer).
Proof.
  intros HI H0 H1 H2 Hmt Hrun.
  destruct (Inv_inner _ _ _ _ _ _ _ _ HI) as (fr & inner0 & ->).
  pose proof (v_place _ _ _ _ _ _ _ HI) as [HK Hd Hr Ht].
  pose proof (v_extra _ _ _ _ _ _ _ HI) as [X1 X2 _].
  pose proof (Place_lookup _ _ _ _ _ _ (v_place _ _ _ _ _ _ _ HI)) as Hx. simpl in Hx.
  destruct (next_sibling_at st pre post fr inner0 outer _ (v_place _ _ _ _ _ _ _ HI))
    as [_ Hpx]. simpl in Hpx.
  destruct (replace_single k tg st st1 x d si ei inn mt mi el HK Hx Hrun)
    as (bef & eln & aft & Hd1 & HK1 & HP1 & Hel & Te & Tb & Ta & Ee & Hnx & Htx & Hpe & _).
  assert (Hnd : NoDup (all_ids (pre ++ plug (fr :: inner0 ++ outer) (Text x d) :: post))).
  { change (fr :: inner0 ++ outer) with ((fr :: inner0) ++ outer). rewrite <- Hd.
    exact (k_nodup _ _ _ _ HK). }
  assert (E3 : flat_map text_of bef ++ text_of eln ++ flat_map text_of aft = d).
  { rewrite Tb, Ta, Te, Hmt. apply three_pieces; assumption. }
  simpl app in X2. apply old_frames_cons in X2 as [[X2a X2b] X2c].
  assert (HW : Wrapped k st1).
  { intros e' He'. rewrite Hpe in He'. pose proof (k_nodup _ _ _ _ HK1) as Hnd1.
    rewrite Hd1 in Hnd1 |- *.
    apply in_app_or in He' as [He'|[<-|[]]].
    - apply (wrapper_put k (dom st) e' x d); auto.
      + exact (k_nodup _ _ _ _ HK).
      + rewrite !flat_map_app. simpl. rewrite app_nil_r. exact E3.
      + split; [exists d; exact Hx|]. exists (f_id fr). split; [exact Hpx|exact X2a].
    - apply (wrapper_make_el k tg _ _ (hd [] mt)).
      + pose proof (stencil_below k tg st [] HK). lia.
      + rewrite <- Ee. rewrite <- Hel at 1.
        apply (put_new_lookup x d _ false (dom st) eln); auto.
        * exact (k_nodup _ _ _ _ HK).
        * apply in_or_app. right. left. reflexivity. }
  rewrite Hd in Hd1. simpl app in Hd1. rewrite (put_focus x d _ false pre post fr _ Hnd) in Hd1.
  set (fr' := mkFrame (f_id fr) (f_tag fr) (f_left fr ++ bef) (aft ++ f_right fr)).
  exists pre, (fr' :: inner0), eln, (post ++ [Text x d]).
  split; [|split; [exact Hel|split; [discriminate|split; [|split; [|split; [exact HW|]]]]]].
  - constructor.
    + exact HK1.
    + rewrite Hd1. simpl. unfold wrap, fr'. simpl.
      rewrite app_nil_r. rewrite <- !app_assoc. reflexivity.
    + rewrite <- Hr. simpl. apply nid_plug_cong. reflexivity.
    + rewrite <- Ht. rewrite !text_plug. simpl. unfold right_text. simpl.
      fold (right_text inner0). rewrite !flat_map_app.
      rewrite <- E3. rewrite <- !app_assoc. reflexivity.
  - simpl. rewrite flat_map_app, Te, Hmt, !len_app, Tb.
    rewrite piece_before_len by lia. rewrite substring_len by lia. lia.
  - apply HP1. exact Hx.
  - simpl app. apply (old_frames_cons k fr'). split; [|exact X2c].
    split; [exact X2a|]. simpl. intros c Hc. apply in_app_or in Hc as [Hc|Hc].
    + apply settled_is_text. apply Htx. apply in_or_app. right. exact Hc.
    + apply X2b. exact Hc.
Qed.

Lemma Forall2_sim_cons (fr : Frame) (fs fs' : list Frame) :
  Forall2 frame_sim (fr :: fs) fs' ->
  exists fr' fs0', fs' = fr' :: fs0' /\ frame_sim fr fr' /\ Forall2 frame_sim fs fs0'.
Proof. intros H. inversion H; subst. eauto. Qed.

(** A match over several nodes: the place of the last replacement node
    after the call of [replace]. *)
Lemma after_multi (w : Walk) (st st1 : State) (pre post : forest)
      (inner outer : list Frame) (s e : nat) (de : jsstring) (si ei : Z)
      (inn : list nat) (mt : list jsstring) (mi : Z) (el : nat) :
  Inv w st pre inner outer (Text e de) post ->
  s <> e -> ~ In e inn ->
  (forall y, In y (s :: inn) -> In y (left_ids (inner ++ outer))) ->
  (forall y, In y (s :: inn) -> parent_old k (dom st) y) ->
  0 <= ei -> ei <= len de ->
  replace (makeReplacementNode k (reparse_name tg)) (mkRange s si e ei inn mt mi) st = (Ok el, st1) ->
  exists pre' inner' outer' sub' post',
    Place st1 pre' inner' outer' sub' post'
    /\ nid sub' = el
    /\ inner' <> []
    /\ len (left_text inner') + len (text_of sub') = len (left_text inner) + ei
    /\ lookup e (dom st1) = Some (Text e de)
    /\ Wrapped k st1
    /\ old_frames k (inner' ++ outer').
Proof.
  intros HI Hse Hin Hleft Hpar H0 H1 Hrun.
  destruct (Inv_inner _ _ _ _ _ _ _ _ HI) as (fr & inner0 & ->).
  pose proof (v_place _ _ _ _ _ _ _ HI) as [HK Hd Hr Ht].
  pose proof (v_extra _ _ _ _ _ _ _ HI) as [X1 X2 _].
  pose proof (k_nodup _ _ _ _ HK) as Hnd0.
  assert (Hfn : NoDup (frame_ids ((fr :: inner0) ++ outer))).
  { rewrite Hd in Hnd0. apply NoDup_forest_tree in Hnd0.
    apply (Permutation_NoDup (ids_plug _ _)) in Hnd0. exact (NoDup_app_r _ _ Hnd0). }
  assert (Hold : forall y, In y inn -> (y < nextId st)%nat).
  { intros y Hy. apply (k_below _ _ _ _ HK). rewrite Hd.
    unfold all_ids. rewrite ids_forest_split. apply in_or_app. right. apply in_or_app. left.
    apply (Permutation_in _ (Permutation_sym (ids_plug _ _))).
    apply in_or_app. right. apply left_ids_frame. apply Hleft. right. exact Hy. }
  destruct (replace_multi k tg st st1 s e si ei inn mt mi el HK Hse Hold Hrun)
    as (ds & de' & f1 & elB & aft & Hs & He & HT & Hnd1 & He1 & Hd1 & Hel & TB & TA & HK1 & HP1
        & Haft & EB & Hnx & elA & innerEls & Hpe & Hnews).
  pose proof (Place_lookup _ _ _ _ _ _ (v_place _ _ _ _ _ _ _ HI)) as He0. simpl in He0.
  rewrite He0 in He. injection He as <-.
  destruct (HT pre ((fr :: inner0) ++ outer) (Text e de) post Hd)
    as (pre' & fs' & post' & Ef1 & Hsim & Hright).
  { intros y [<-|Hy] [E|[]]; [exact (Hse (eq_sym E))|]. apply Hin. rewrite E. exact Hy. }
  assert (Hrs : map f_right fs' = map f_right ((fr :: inner0) ++ outer)).
  { apply Hright. intros y Hy. apply left_not_right; [exact Hfn|]. apply Hleft. exact Hy. }
  pose proof (old_frames_sim k _ _ Hsim Hrs X2) as X2'.
  apply Forall2_app_inv_l in Hsim as (inner' & outer' & Hsi & Hso & ->).
  destruct (Forall2_sim_cons _ _ _ Hsi) as (fr' & inner0' & -> & Hfr & Hsi0).
  simpl app in X2'. apply old_frames_cons in X2' as [[X2a X2b] X2c].
  assert (E2 : text_of elB ++ text_of aft = de).
  { rewrite TB, TA. apply substring_split. }
  assert (Hpe1 : parent_old k f1 e).
  { split; [exists de; exact He1|]. exists (f_id fr'). split; [|exact X2a].
    unfold parentNode. rewrite Ef1 in Hnd1 |- *. cbn [app] in Hnd1 |- *.
    pose proof (place_in_focus pre' post' fr' (inner0' ++ outer') (Text e de) Hnd1) as E.
    cbn [nid] in E. rewrite E. reflexivity. }
  assert (HW1 : forall e', In e' (pending_els st ++ elA :: innerEls) -> wrapper k f1 e').
  { intros e' He'. apply in_app_or in He' as [He'|He'].
    - pose proof (X1 e' He') as Hw. pose proof Hw as (Hk & t & cs & Hl & Hthin).
      split; [exact Hk|]. exists t, cs. split; [|exact Hthin].
      apply (Tracked_lookup (s :: inn) (dom st)); auto.
      intros y Hy. exact (wrapper_avoid k (dom st) e' y _ Hnd0 Hw Hl (Hpar y Hy)).
    - destruct (Hnews e' He') as [Hn (fill & Hl)].
      apply (wrapper_make_el k tg f1 e' fill); [|exact Hl].
      pose proof (stencil_below k tg st [] HK). lia. }
  assert (HW : Wrapped k st1).
  { intros e' He'. rewrite Hpe in He'. pose proof (k_nodup _ _ _ _ HK1) as Hnd1'.
    rewrite Hd1 in Hnd1' |- *.
    change (elA :: innerEls ++ [el]) with ((elA :: innerEls) ++ [el]) in He'.
    rewrite app_assoc in He'.
    apply in_app_or in He' as [He'|[<-|[]]].
    - apply (wrapper_put k f1 e' e de); auto.
      cbn [flat_map]. rewrite app_nil_r. exact E2.
    - apply (wrapper_make_el k tg _ _ (substring de 0 ei)).
      + pose proof (stencil_below k tg st [] HK). lia.
      + rewrite <- EB. rewrite <- Hel at 1.
        apply (put_new_lookup e de _ false f1 elB); auto. left. reflexivity. }
  rewrite Ef1 in Hd1, Hnd1. simpl app in Hd1, Hnd1.
  rewrite (put_focus e de _ false pre' post' fr' _ Hnd1) in Hd1.
  set (frB := mkFrame (f_id fr') (f_tag fr') (f_left fr') (aft :: f_right fr')).
  exists pre', (frB :: inner0'), outer', elB, (post' ++ [Text e de]).
  split; [|split; [exact Hel|split; [discriminate|split; [|split; [|split; [exact HW|]]]]]].
  - constructor.
    + exact HK1.
    + rewrite Hd1. simpl. unfold wrap, frB. simpl. reflexivity.
    + rewrite <- Hr. rewrite (sim_nid_plug _ _ (Text e de) Hsi). simpl.
      apply nid_plug_cong. reflexivity.
    + rewrite <- Ht. rewrite (sim_text_plug _ _ (Text e de) Hsi).
      rewrite !text_plug. simpl. unfold right_text. simpl. fold (right_text inner0').
      rewrite <- E2. rewrite <- !app_assoc. reflexivity.
  - rewrite (sim_left_text _ _ Hsi).
    change (left_text (frB :: inner0')) with (left_text (fr' :: inner0')).
    rewrite TB. rewrite substring_len by lia. lia.
  - apply HP1. exact He0.
  - simpl app. apply (old_frames_cons k frB). split; [|exact X2c].
    split; [exact X2a|]. simpl. intros c [<-|Hc].
    + apply settled_is_text. exact Haft.
    + apply X2b. exact Hc.
Qed.

Lemma onward_inv (fuel : nat) (w : Walk) (st st' : State) (pre post : forest)
      (inner outer : list Frame) (sub : Node) (nx : Next) :
  InvEnd w st pre inner outer sub post ->
  children sub = [] ->
  onward fuel w st = (Ok nx, st') ->
  step_post nx st'.
Proof.
  intros HI Hch Hrun. pose proof (e_place _ _ _ _ _ _ _ HI) as HP.
  pose proof (Place_lookup _ _ _ _ _ _ HP) as Hl.
  destruct inner as [|fr inner]; [exfalso; exact (e_inner _ _ _ _ _ _ _ HI eq_refl)|].
  destruct (next_sibling_at st pre post fr inner outer sub HP) as [Hns _].
  unfold Invariants.onward, bind at 1, get_firstChild in Hrun.
  rewrite <- (e_cur _ _ _ _ _ _ _ HI) in Hrun.
  assert (Hfc : firstChild (nid sub) (dom st) = None).
  { unfold firstChild. rewrite Hl. destruct sub; simpl in Hch; [reflexivity|].
    rewrite Hch. reflexivity. }
  rewrite Hfc in Hrun. unfold bind at 1, get_nextSibling in Hrun. rewrite Hns in Hrun.
  destruct (f_right fr) as [|sib r] eqn:Er.
  - apply bind_ok in Hrun as (o & st1 & Hf & Hrun).
    destruct (forward_or_up_inv fuel w st st1 pre post (fr :: inner) outer sub o HI Hf)
      as [-> Ho].
    destruct o as [c|]; unfold ret in Hrun; injection Hrun as <- <-.
    + destruct Ho as (inner' & sub' & Ho). exists pre, inner', outer, sub', post. exact Ho.
    + apply (Place_ended _ _ _ _ _ _ HP); [discriminate|].
      exact (x_wrapped _ _ _ (e_extra _ _ _ _ _ _ _ HI)).
  - unfold ret in Hrun. injection Hrun as <- <-.
    eexists pre, _, outer, sib, post.
    exact (step_next w st pre post fr inner outer sub sib r HI Er).
Qed.

Lemma not_seen (st : State) (pre post : forest) (inner outer : list Frame) (sub : Node)
      (y : nat) :
  Place st pre inner outer sub post ->
  In y (left_ids (inner ++ outer)) -> y <> nid sub.
Proof.
  intros [HK Hd _ _] Hy E. pose proof (k_nodup _ _ _ _ HK) as Hnd.
  rewrite Hd in Hnd. apply NoDup_forest_tree in Hnd.
  apply (NoDup_plug_frames _ _ (nid sub) Hnd (nid_in_ids sub)).
  rewrite <- E. apply left_ids_frame. exact Hy.
Qed.

Lemma text_at (st : State) (pre post : forest) (inner outer : list Frame) (sub : Node) :
  Place st pre inner outer sub post ->
  T = left_text inner ++ text_of sub ++ right_text inner.
Proof.
  intros [_ _ _ Ht]. rewrite <- Ht. apply text_plug.
Qed.

Lemma walk_step_eq (fuel : nat) (w : Walk) (st : State) (n : Node) :
  lookup (curNode w) (dom st) = Some n ->
  walk_step fuel R (replace (makeReplacementNode k (reparse_name tg))) w st
  = let w1 := if is_text n then visit_text w (len (data_of n)) else w in
    match startNode w1, endNode w1 with
    | Some s, Some e => replaced fuel w1 s e st
    | _, _ => onward fuel w1 st
    end.
Proof.
  intros H. unfold walk_step, bind at 1, get_node. rewrite H. unfold ret at 1.
  cbv zeta. destruct (startNode _) as [s|]; [destruct (endNode _) as [e|]|]; reflexivity.
Qed.

(** After the replacement: the walk goes on behind the node that [replace]
    has returned, or stops. *)
Lemma replaced_inv (fuel : nat) (w1 : Walk) (s e : nat) (de : jsstring)
      (st st' : State) (nx : Next) :
  (forall el st1,
      replace (makeReplacementNode k (reparse_name tg))
              (mkRange s (startNodeIndex w1) e (endNodeIndex w1) (innerNodes w1)
                       (loc_match (matchLocation w1)) (matchIndex w1)) st = (Ok el, st1) ->
      exists pre' inner' outer' sub' post',
        Place st1 pre' inner' outer' sub' post'
        /\ nid sub' = el
        /\ inner' <> []
        /\ len (left_text inner') + len (text_of sub')
           = atIndex w1 - (len de - endNodeIndex w1)
        /\ lookup e (dom st1) = Some (Text e de)
        /\ Wrapped k st1
        /\ old_frames k (inner' ++ outer')) ->
  0 <= atIndex w1 - (len de - endNodeIndex w1) ->
  chain_in (atIndex w1 - (len de - endNodeIndex w1)) (matches w1) ->
  replaced fuel w1 s e st = (Ok nx, st') ->
  step_post nx st'.
Proof.
  intros Hrep H0 Hch Hrun. unfold Invariants.replaced in Hrun.
  apply bind_ok in Hrun as (el & st1 & Hr & Hrun).
  destruct (Hrep el st1 Hr)
    as (pre' & inner' & outer' & sub' & post' & HP & Hel & Hin & Hat & He & HW & HF).
  unfold bind at 1 in Hrun. rewrite (get_data_eq e st1 de He) in Hrun.
  destruct (matches w1) as [|loc rest] eqn:Em.
  - unfold ret in Hrun. injection Hrun as <- <-. exact (Place_ended _ _ _ _ _ _ HP Hin HW).
  - apply bind_ok in Hrun as (o & st2 & Hf & Hrun).
    set (wmid := mkWalk None None (startNodeIndex w1) (endNodeIndex w1) []
                        (atIndex w1 - (len de - endNodeIndex w1)) el loc rest
                        (matchIndex w1 + 1)).
    assert (HI : InvEnd wmid st1 pre' inner' outer' sub' post').
    { constructor; auto.
      - split; [reflexivity|]. split; [exact H0|]. exact Hch.
      - reflexivity.
      - constructor; [exact HW|exact HF|intros y []]. }
    rewrite <- Hel in Hf.
    destruct (forward_or_up_inv fuel wmid st1 st2 pre' post' inner' outer' sub' o HI Hf)
      as [-> Ho].
    destruct o as [c|]; unfold ret in Hrun; injection Hrun as <- <-.
    + destruct Ho as (inner'' & sub'' & Ho). exists pre', inner'', outer', sub'', post'.
      exact Ho.
    + exact (Place_ended _ _ _ _ _ _ HP Hin HW).
Qed.

Lemma visit_free (w : Walk) (L : Z) :
  startNode w = None -> endNode w = None ->
  visit_text w L
  = let bs := L + atIndex w >? loc_start (matchLocation w) in
    let be := L + atIndex w >=? loc_end (matchLocation w) in
    mkWalk (if bs then Some (curNode w) else None)
           (if be then Some (curNode w) else None)
           (if bs then loc_start (matchLocation w) - atIndex w else startNodeIndex w)
           (if be then loc_end (matchLocation w) - atIndex w else endNodeIndex w)
           (innerNodes w) (atIndex w + L) (curNode w) (matchLocation w)
           (matches w) (matchIndex w).
Proof.
  intros Hs He. unfold visit_text. rewrite Hs, He. simpl.
  destruct (L + atIndex w >? _), (L + atIndex w >=? _); reflexivity.
Qed.

Lemma visit_mid (w : Walk) (L : Z) (s : nat) :
  startNode w = Some s -> endNode w = None ->
  visit_text w L
  = let be := L + atIndex w >=? loc_end (matchLocation w) in
    mkWalk (Some s)
           (if be then Some (curNode w) else None)
           (startNodeIndex w)
           (if be then loc_end (matchLocation w) - atIndex w else endNodeIndex w)
           (if be then innerNodes w else innerNodes w ++ [curNode w])
           (atIndex w + L) (curNode w) (matchLocation w)
           (matches w) (matchIndex w).
Proof.
  intros Hs He. unfold visit_text. rewrite Hs, He. simpl.
  destruct (L + atIndex w >=? _); reflexivity.
Qed.

Lemma focus_parent_old (w : Walk) (st : State) (pre post : forest)
      (inner outer : list Frame) (x : nat) (d : jsstring) :
  Inv w st pre inner outer (Text x d) post -> parent_old k (dom st) x.
Proof.
  intros HI. destruct (Inv_inner _ _ _ _ _ _ _ _ HI) as (fr & inner0 & ->).
  pose proof (v_place _ _ _ _ _ _ _ HI) as HP.
  destruct (next_sibling_at st pre post fr inner0 outer _ HP) as [_ Hp]. simpl in Hp.
  pose proof (Place_lookup _ _ _ _ _ _ HP) as Hl. simpl in Hl.
  split; [exists d; exact Hl|]. exists (f_id fr). split; [exact Hp|].
  apply (x_frames _ _ _ (v_extra _ _ _ _ _ _ _ HI)). left. reflexivity.
Qed.

Lemma Extra_marked (w w' : Walk) (st : State) (fs : list Frame) :
  Extra w st fs ->
  (forall y, In y (marked w') -> In y (marked w) \/ parent_old k (dom st) y) ->
  Extra w' st fs.
Proof.
  intros [X1 X2 X3] H. constructor; [exact X1|exact X2|].
  intros y Hy. destruct (H y Hy) as [Hm|Hp]; [exact (X3 y Hm)|exact Hp].
Qed.

(** One round of the outer loop. *)
Lemma walk_step_inv (fuel : nat) (w : Walk) (st st' : State) (pre post : forest)
      (inner outer : list Frame) (sub : Node) (nx : Next) :
  Inv w st pre inner outer sub post ->
  walk_step fuel R (replace (makeReplacementNode k (reparse_name tg))) w st = (Ok nx, st') ->
  step_post nx st'.
Proof.
  intros HI Hrun.
  pose proof (v_place _ _ _ _ _ _ _ HI) as HP.
  pose proof (Place_lookup _ _ _ _ _ _ HP) as Hl.
  pose proof (v_cur _ _ _ _ _ _ _ HI) as Hcur.
  pose proof (v_at _ _ _ _ _ _ _ HI) as Hat.
  pose proof (v_seen _ _ _ _ _ _ _ HI) as Hseen. unfold seen in Hseen.
  pose proof (v_extra _ _ _ _ _ _ _ HI) as HX.
  rewrite Hcur in Hl.
  rewrite (walk_step_eq fuel w st sub Hl) in Hrun. cbv zeta in Hrun.
  destruct (v_pending _ _ _ _ _ _ _ HI) as (Hend & Hat0 & Hmode).
  destruct sub as [x d | i t cs].
  - (* a Text node *)
    simpl is_text in Hrun. simpl data_of in Hrun. simpl in Hcur.
    pose proof (text_at _ _ _ _ _ _ HP) as HT. simpl in HT.
    pose proof (len_nonneg d) as Hd0.
    pose proof (focus_parent_old _ _ _ _ _ _ _ _ HI) as Hpo.
    destruct (startNode w) as [s|] eqn:Es.
    + (* the start node is set *)
      destruct Hmode as (Hlt & Hle & Hmt & Hch).
      destruct Hseen as [Hs Hinn].
      rewrite (visit_mid w (len d) s Es Hend) in Hrun. cbv zeta in Hrun.
      destruct (len d + atIndex w >=? loc_end (matchLocation w)) eqn:Ee.
      * apply Z.geb_le in Ee. simpl in Hrun.
        refine (replaced_inv fuel _ s (curNode w) d st st' nx _ _ _ Hrun); simpl.
        -- intros el st1 Hr. rewrite <- Hcur in Hr |- *.
           assert (Hse : s <> x) by exact (not_seen _ _ _ _ _ _ s HP Hs).
           assert (Hnin : ~ In x (innerNodes w)).
           { intros Hx. exact (not_seen _ _ _ _ _ _ x HP (Hinn x Hx) eq_refl). }
           assert (Hleft : forall y, In y (s :: innerNodes w) ->
                                     In y (left_ids (inner ++ outer))).
           { intros y [<-|Hy]; [exact Hs|exact (Hinn y Hy)]. }
           assert (Hpar : forall y, In y (s :: innerNodes w) -> parent_old k (dom st) y).
           { intros y Hy. apply (x_marked _ _ _ HX). unfold marked. rewrite Es. exact Hy. }
           destruct (after_multi w st st1 pre post inner outer s x d (startNodeIndex w)
                       (loc_end (matchLocation w) - atIndex w) (innerNodes w)
                       (loc_match (matchLocation w)) (matchIndex w) el HI Hse Hnin
                       Hleft Hpar ltac:(lia) ltac:(lia) Hr)
             as (pre' & inner' & outer' & sub' & post' & H1 & H2 & H3 & H4 & H5 & H6).
           exists pre', inner', outer', sub', post'.
           refine (conj H1 (conj H2 (conj H3 (conj _ (conj H5 H6))))). lia.
        -- lia.
        -- replace (atIndex w + len d - (len d - (loc_end (matchLocation w) - atIndex w)))
             with (loc_end (matchLocation w)) by lia. exact Hch.
      * rewrite Z.geb_leb in Ee. apply Z.leb_gt in Ee. simpl in Hrun.
        refine (onward_inv fuel _ st st' pre post inner outer (Text x d) nx _ eq_refl Hrun).
        destruct (Inv_inner _ _ _ _ _ _ _ _ HI) as (fr & inner0 & Ein).
        constructor.
        -- exact HP.
        -- exact Hcur.
        -- rewrite Ein. discriminate.
        -- simpl. rewrite Hat. lia.
        -- split; [reflexivity|]. split; [simpl; lia|]. simpl.
           split; [lia|]. split; [exact Hle|]. split; [exact Hmt|exact Hch].
        -- unfold seen. simpl. split.
           ++ apply in_or_app. left. exact Hs.
           ++ intros y Hy. apply in_app_or in Hy as [Hy|[<-|[]]].
              ** apply in_or_app. left. apply Hinn, Hy.
              ** apply in_or_app. right. left. exact Hcur.
        -- apply (Extra_marked w); [exact HX|]. unfold marked. simpl. rewrite Es.
           intros y [<-|Hy]; [left; left; reflexivity|].
           apply in_app_or in Hy as [Hy|[<-|[]]]; [left; right; exact Hy|].
           right. rewrite <- Hcur. exact Hpo.
    + (* no start node yet *)
      simpl in Hmode. destruct Hmode as (Hlo & Hlt & Hle & Hmt & Hch).
      rewrite (visit_free w (len d) Es Hend) in Hrun. cbv zeta in Hrun.
      destruct (len d + atIndex w >? loc_start (matchLocation w)) eqn:Eb;
        destruct (len d + atIndex w >=? loc_end (matchLocation w)) eqn:Ee;
        simpl in Hrun.
      * (* the match lies in this node *)
        apply Z.geb_le in Ee. apply Z.gtb_lt in Eb.
        refine (replaced_inv fuel _ (curNode w) (curNode w) d st st' nx _ _ _ Hrun); simpl.
        -- intros el st1 Hr. rewrite <- Hcur in Hr |- *.
           assert (Hmt' : hd [] (loc_match (matchLocation w))
                          = substring d (loc_start (matchLocation w) - atIndex w)
                                      (loc_end (matchLocation w) - atIndex w)).
           { rewrite Hmt. simpl. rewrite HT.
             rewrite substring_middle by (rewrite <- Hat; lia).
             rewrite <- Hat. reflexivity. }
           destruct (after_single w st st1 pre post inner outer x d
                       (loc_start (matchLocation w) - atIndex w)
                       (loc_end (matchLocation w) - atIndex w) (innerNodes w)
                       (loc_match (matchLocation w)) (matchIndex w) el HI
                       ltac:(lia) ltac:(lia) ltac:(lia) Hmt' Hr)
             as (pre' & inner' & sub' & post' & H1 & H2 & H3 & H4 & H5 & H6).
           exists pre', inner', outer, sub', post'.
           refine (conj H1 (conj H2 (conj H3 (conj _ (conj H5 H6))))). lia.
        -- lia.
        -- replace (atIndex w + len d - (len d - (loc_end (matchLocation w) - atIndex w)))
             with (loc_end (matchLocation w)) by lia. exact Hch.
      * (* the match starts in this node *)
        rewrite Z.geb_leb in Ee. apply Z.leb_gt in Ee. apply Z.gtb_lt in Eb.
        refine (onward_inv fuel _ st st' pre post inner outer (Text x d) nx _ eq_refl Hrun).
        destruct (Inv_inner _ _ _ _ _ _ _ _ HI) as (fr & inner0 & Ein).
        constructor.
        -- exact HP.
        -- exact Hcur.
        -- rewrite Ein. discriminate.
        -- simpl. rewrite Hat. lia.
        -- split; [reflexivity|]. split; [simpl; lia|]. simpl.
           split; [lia|]. split; [exact Hle|]. split; [exact Hmt|exact Hch].
        -- unfold seen. simpl. rewrite Hseen. split.
           ++ apply in_or_app. right. left. exact Hcur.
           ++ intros y [].
        -- apply (Extra_marked w); [exact HX|]. unfold marked. simpl. rewrite Hseen.
           intros y [<-|[]]. right. rewrite <- Hcur. exact Hpo.
      * exfalso. apply Z.geb_le in Ee.
        destruct (Z.gtb_spec (len d + atIndex w) (loc_start (matchLocation w)));
          [discriminate|lia].
      * (* the match starts later *)
        assert (Eb' : len d + atIndex w <= loc_start (matchLocation w)).
        { destruct (Z.gtb_spec (len d + atIndex w) (loc_start (matchLocation w)));
            [discriminate|lia]. }
        refine (onward_inv fuel _ st st' pre post inner outer (Text x d) nx _ eq_refl Hrun).
        destruct (Inv_inner _ _ _ _ _ _ _ _ HI) as (fr & inner0 & Ein).
        constructor.
        -- exact HP.
        -- exact Hcur.
        -- rewrite Ein. discriminate.
        -- simpl. rewrite Hat. lia.
        -- split; [reflexivity|]. split; [simpl; lia|]. simpl.
           split; [lia|]. split; [exact Hlt|]. split; [exact Hle|]. split; [exact Hmt|exact Hch].
        -- unfold seen. simpl. exact Hseen.
        -- apply (Extra_marked w); [exact HX|]. unfold marked. simpl. rewrite Es.
           intros y [].
  - (* an element *)
    cbn [is_text] in Hrun.
    assert (Hon : onward fuel w st = (Ok nx, st')).
    { rewrite Hend in Hrun. destruct (startNode w); exact Hrun. }
    clear Hrun.
    destruct cs as [|c cs].
    + refine (onward_inv fuel w st st' pre post inner outer (Element i t []) nx _ eq_refl Hon).
      constructor.
      * exact HP.
      * exact Hcur.
      * intros ->. apply T_not_empty. rewrite <- (p_text _ _ _ _ _ _ HP). reflexivity.
      * rewrite Hat. unfold len at 3. simpl. lia.
      * exact (v_pending _ _ _ _ _ _ _ HI).
      * apply (seen_more w (left_ids (inner ++ outer))); [|exact (v_seen _ _ _ _ _ _ _ HI)].
        intros y Hy. apply in_or_app. left. exact Hy.
      * exact HX.
    + unfold Invariants.onward, bind at 1, get_firstChild in Hon.
      unfold firstChild in Hon. rewrite Hl in Hon.
      unfold bind at 1, get_nextSibling in Hon. unfold ret in Hon.
      injection Hon as <- <-.
      eexists pre, _, outer, c, post.
      exact (step_down w st pre post inner outer i t c cs HI).
Qed.

End WalkFacts.

(** *** The locations that the search returns carry the text at their place *)

Section FaithfulFacts.
Local Open Scope Z_scope.

Lemma is_prefix_firstn (p s : jsstring) :
  is_prefix p s = true -> firstn (length p) s = p.
Proof.
  revert s. induction p as [|a p IH]; intros [|b s]; simpl; try reflexivity; try discriminate.
  destruct (ascii_dec a b) as [->|]; [|discriminate]. intros H. rewrite IH by exact H. reflexivity.
Qed.

Lemma index_from_prefix (p s : jsstring) (k i : nat) :
  index_from p s k = Some i -> is_prefix p (skipn (i - k) s) = true.
Proof.
  revert k. induction s as [|b s IH]; intros k; simpl.
  - destruct (is_prefix p []) eqn:E; [|discriminate].
    intros H. injection H as <-. rewrite Nat.sub_diag. exact E.
  - destruct (is_prefix p (b :: s)) eqn:E.
    + intros H. injection H as <-. rewrite Nat.sub_diag. exact E.
    + intros H. pose proof (index_from_bound p s (S k) i H) as [Hk _].
      apply IH in H. replace (i - k)%nat with (S (i - S k)) by lia. exact H.
Qed.

Lemma indexOf_spec (s p : jsstring) :
  0 <= indexOf s p ->
  firstn (length p) (skipn (Z.to_nat (indexOf s p)) s) = p
  /\ indexOf s p + len p <= len s.
Proof.
  intros H. split; [|apply indexOf_bound; exact H].
  unfold indexOf in *. destruct (index_from p s 0) as [i|] eqn:E; [|lia].
  apply index_from_prefix in E. rewrite Nat.sub_0_r in E.
  rewrite Nat2Z.id. apply is_prefix_firstn. exact E.
Qed.

Lemma substring_sub (text m0 g : jsstring) (index io : Z) :
  0 <= index -> 0 <= io ->
  index + len m0 <= len text ->
  io + len g <= len m0 ->
  substring text index (index + len m0) = m0 ->
  firstn (length g) (skipn (Z.to_nat io) m0) = g ->
  substring text (index + io) (index + io + len g) = g.
Proof.
  intros H1 H2 H3 H4 Hm Hg. pose proof (len_nonneg g) as Hg0.
  rewrite substring_inside in Hm |- * by lia.
  rewrite <- Hg at 2. rewrite <- Hm.
  rewrite skipn_firstn_comm, firstn_firstn, skipn_skipn.
  unfold len in *.
  replace (Z.to_nat io + Z.to_nat index)%nat with (Z.to_nat (index + io)) by lia.
  f_equal. lia.
Qed.

(** One match, as [_getMatchIndexes] locates it, with its text. *)
Lemma getMatchIndexes_faithful (text : jsstring) (i : nat) (m : MatchArray)
      (captureGroup : option Z) (loc : MatchLocation) :
  match_ok text i m = true ->
  match captureGroup with
  | Some c => if c >? 0 then
                match elem m 0, elem m (Z.to_nat c) with
                | Some m0, Some cg => 0 <=? indexOf m0 cg
                | _, _ => true
                end
              else true
  | None => true
  end = true ->
  _getMatchIndexes (Some m) captureGroup = inr loc ->
  loc_match loc = [substring text (loc_start loc) (loc_end loc)].
Proof.
  unfold match_ok, _getMatchIndexes.
  destruct (elem m 0) as [m0|] eqn:E0; [|discriminate].
  intros Hok Hin Hloc.
  apply andb_prop in Hok as [Hok H3]. apply andb_prop in Hok as [H1 H2].
  apply Z.leb_le in H1. apply Z.leb_le in H2. apply string_eqb_eq in H3.
  destruct m0 as [|a m0']; [discriminate|].
  assert (Hfull : [a :: m0'] = [substring text (m_index m) (m_index m + len (a :: m0'))])
    by (rewrite H3; reflexivity).
  destruct captureGroup as [c|]; [destruct (c >? 0) eqn:Ec|];
    try (injection Hloc as <-; simpl; exact Hfull).
  destruct (elem m (Z.to_nat c)) as [[|b cg]|] eqn:Eg; try discriminate.
  injection Hloc as <-. simpl. f_equal. symmetry.
  apply Z.leb_le in Hin.
  destruct (indexOf_spec (a :: m0') (b :: cg) Hin) as [Hg Hb].
  apply (substring_sub text (a :: m0') (b :: cg)); auto; lia.
Qed.

End FaithfulFacts.

(** *** Narrowing a match to a capture group *)

Section Narrowing.
Import Scenario.
Import String.StringSyntax.
Local Open Scope string_scope.
Local Open Scope Z_scope.

Lemma is_prefix_app (p s : jsstring) : is_prefix p (p ++ s) = true.
Proof.
  induction p as [|a p IH]; simpl; [reflexivity|].
  destruct (ascii_dec a a) as [_|N]; [exact IH|congruence].
Qed.

(** [indexOf] finds the first occurrence: it is not after any occurrence. *)
Lemma index_from_first (p pre post : jsstring) (k : nat) :
  exists i, index_from p (pre ++ p ++ post) k = Some i /\ (i <= k + length pre)%nat.
Proof.
  revert k. induction pre as [|b pre IH]; intros k.
  - simpl app. exists k. split; [|lia].
    pose proof (is_prefix_app p post) as E.
    destruct (p ++ post) as [|c s]; simpl in *; rewrite E; reflexivity.
  - simpl app. simpl index_from.
    destruct (is_prefix p (b :: pre ++ p ++ post)).
    + exists k. split; [reflexivity|lia].
    + destruct (IH (S k)) as [i [Hi Hle]]. exists i. split; [exact Hi|simpl; lia].
Qed.

Lemma indexOf_first (p pre post : jsstring) :
  0 <= indexOf (pre ++ p ++ post) p <= len pre.
Proof.
  unfold indexOf, len. destruct (index_from_first p pre post 0) as [i [-> Hle]]. lia.
Qed.

(** X10. What line 70 does find. With a capture group index above zero
    whose group captured a text that is not empty and occurs inside the
    full match, [_getMatchIndexes] returns a location: it starts at the
    start of the full match plus [m[0].indexOf(cg)], which is the offset of
    the first occurrence of the captured text inside the full match, it
    carries the captured text, and it ends at its start plus the length of
    the captured text. For (digit-plus) items with group 1 on "42 items"
    the location is 0 to 2 with text "42". *)
Theorem capture_group_narrowing
        (m : MatchArray) (captureGroup : Z) (m0 cg pre post : jsstring)
        (Hcg : 0 < captureGroup)
        (Hm0 : elem m 0 = Some m0)
        (Hg : elem m (Z.to_nat captureGroup) = Some cg)
        (Hne : cg <> [])
        (Hin : m0 = pre ++ cg ++ post) :
  (exists loc, _getMatchIndexes (Some m) (Some captureGroup) = inr loc
               /\ loc_start loc = m_index m + indexOf m0 cg
               /\ loc_match loc = [cg]
               /\ loc_end loc = loc_start loc + len cg)
  /\ (0 <= indexOf m0 cg <= len pre
      /\ indexOf m0 cg + len cg <= len m0
      /\ substring m0 (indexOf m0 cg) (indexOf m0 cg + len cg) = cg)
  /\ locate 1 (compile false re_items) (lit "42 items") (Some 1)
     = Ok [mkLoc 0 2 [lit "42"]].
Proof.
  assert (Hgt : (captureGroup >? 0) = true) by (apply Z.gtb_lt; lia).
  pose proof (indexOf_first cg pre post) as Hfirst. rewrite <- Hin in Hfirst.
  destruct (indexOf_spec m0 cg (proj1 Hfirst)) as [Hsub Hb].
  split; [|split].
  - unfold _getMatchIndexes. rewrite Hm0.
    destruct m0 as [|a m0'].
    { destruct pre; [destruct cg; [congruence|discriminate]|discriminate]. }
    rewrite Hgt, Hg. destruct cg as [|b cg']; [congruence|].
    eexists. split; [reflexivity|]. simpl. auto.
  - split; [exact Hfirst|]. split; [exact Hb|].
    pose proof (len_nonneg cg) as Hc.
    rewrite substring_inside by lia.
    replace (Z.to_nat (indexOf m0 cg + len cg) - Z.to_nat (indexOf m0 cg))%nat
      with (length cg) by (unfold len; lia).
    exact Hsub.
  - vm_compute. reflexivity.
Qed.

Lemma capture_group_narrowing_witness :
  exists loc,
    _getMatchIndexes (Some (mkMatch 0 [Some (lit "42 items"); Some (lit "42")])) (Some 1)
    = inr loc
    /\ loc_start loc = 0 + indexOf (lit "42 items") (lit "42")
    /\ loc_match loc = [lit "42"]
    /\ loc_end loc = loc_start loc + len (lit "42").
Proof.
  apply (capture_group_narrowing (mkMatch 0 [Some (lit "42 items"); Some (lit "42")])
           1 (lit "42 items") (lit "42") [] (lit " items"));
    [lia | reflexivity | reflexivity | discriminate | reflexivity].
Defined.

(** A group inside a look-ahead captures text outside the full match: in
    a(?=(bab)) on "abab" the full match is "a" at 0 and group 1 has
    captured the positions 1 to 4; [indexOf] does not find "bab" in "a",
    and the location starts at -1, before the full match, and covers "ab"
    of the text, not the captured "bab". *)
Lemma lookahead_group_starts_before_match :
  let m := mkMatch 0 [Some (lit "a"); Some (lit "bab")] in
  exec_spans re_ahead (lit "abab") 0 = Some [Some (0, 1)%nat; Some (1, 4)%nat]
  /\ exec_at (compile false re_ahead) (lit "abab") 0 = Some m
  /\ _getMatchIndexes (Some m) (Some 1) = inr (mkLoc (-1) 2 [lit "bab"])
  /\ loc_start (mkLoc (-1) 2 [lit "bab"]) < m_index m
  /\ substring (lit "abab") (-1) 2 = lit "ab".
Proof.
  vm_compute. repeat split; reflexivity.
Qed.

(** C8. The claim is what [_getMatchIndexes] is documented to do ("Gets the
    start and end indexes of a match", for the capture group that the
    caller names), and the code misses it: line 70 looks the captured text
    up in the full match by [indexOf], which finds its first occurrence,
    not the place where the group captured it. For xa(a) with group 1 on
    [<p>xaa</p>] the full match is "xaa" at 0 and group 1 has captured the
    second a, positions 2 to 3; the location is 1 to 2, and the call wraps
    the first a. *)
Theorem capture_group_span_missed :
  let text := lit "xaa" in
  let m := mkMatch 0 [Some (lit "xaa"); Some (lit "a")] in
  let r := findAndReplaceDOMText 9 (compile false re_xa_a) 0 em (Some 1) (page p_xaa) in
  exec_spans re_xa_a text 0 = Some [Some (0, 3)%nat; Some (2, 3)%nat]
  /\ exec_at (compile false re_xa_a) text 0 = Some m
  /\ indexOf (lit "xaa") (lit "a") = 1
  /\ _getMatchIndexes (Some m) (Some 1) = inr (mkLoc 1 2 [lit "a"])
  /\ mkLoc 1 2 [lit "a"] <> mkLoc 2 3 [lit "a"]
  /\ locate 1 (compile false re_xa_a) text (Some 1) = Ok [mkLoc 1 2 [lit "a"]]
  /\ fst r = Ok tt
  /\ lookup 0 (dom (snd r))
     = Some (Element 0 (lit "p")
               [Text 3 (lit "x"); Element 4 (lit "em") [Text 5 (lit "a")]; Text 6 (lit "a")]).
Proof.
  vm_compute. repeat split; try reflexivity. discriminate.
Qed.

Lemma slice_length (s : jsstring) (a b : nat) :
  (b <= length s)%nat -> length (slice s a b) = (b - a)%nat.
Proof.
  intros H. unfold slice. rewrite length_firstn, length_skipn. lia.
Qed.

Lemma elem_match_of (s : jsstring) (c : caps) (k a b : nat) :
  nth_error c k = Some (Some (a, b)) -> elem (match_of s c) k = Some (slice s a b).
Proof.
  intros H. unfold elem, match_of. cbn [m_elems].
  rewrite nth_error_map, H. reflexivity.
Qed.

(** X13. The location of a capture group is the range that the group has
    captured whenever the first occurrence of the captured text in the
    full match is the one that the group has captured. The matcher reports
    the ranges [s] to [e] of the full match and [a] to [b] of the group
    [cg]; the range of the group is not empty and lies in the full match;
    and [m[0].indexOf(m[cg])] is [a - s]. Then [_getMatchIndexes] returns
    the location [a] to [b] with the captured text. *)
Theorem capture_group_span
        (r : Re) (g : bool) (text : jsstring) (i cg : nat) (c : caps) (s e a b : nat)
        (Hcg : (0 < cg)%nat)
        (Hexec : exec_spans r text i = Some c)
        (Hm : nth_error c 0 = Some (Some (s, e)))
        (Hg : nth_error c cg = Some (Some (a, b)))
        (Hin : (s <= a /\ a < b /\ b <= e /\ e <= length text)%nat)
        (Hfirst : indexOf (slice text s e) (slice text a b) = Z.of_nat (a - s)) :
  _getMatchIndexes (exec_at (compile g r) text i) (Some (Z.of_nat cg))
  = inr (mkLoc (Z.of_nat a) (Z.of_nat b) [slice text a b]).
Proof.
  destruct Hin as (Hsa & Hab & Hbe & He).
  cbn [exec_at compile]. unfold exec_re. rewrite Hexec. cbn [option_map].
  unfold _getMatchIndexes.
  rewrite (elem_match_of text c 0 s e Hm).
  pose proof (slice_length text s e He) as L0.
  pose proof (slice_length text a b ltac:(lia)) as L1.
  destruct (slice text s e) as [|x m0] eqn:E0; [simpl in L0; lia|].
  assert (Hgt : (Z.of_nat cg >? 0) = true) by (apply Z.gtb_lt; lia).
  rewrite Hgt, Nat2Z.id, (elem_match_of text c cg a b Hg).
  destruct (slice text a b) as [|y sg] eqn:E1; [simpl in L1; lia|].
  rewrite Hfirst.
  assert (Hi : m_index (match_of text c) = Z.of_nat s).
  { unfold match_of. cbn [m_index]. destruct c as [|o c']; [discriminate|].
    simpl in Hm. injection Hm as ->. reflexivity. }
  rewrite Hi. f_equal. f_equal; unfold len; rewrite ?L1; lia.
Qed.

(** The pattern (digit-plus) items on "42 items": the group has captured
    the range 0 to 2. *)
Lemma capture_group_span_witness :
  _getMatchIndexes (exec_at (compile false re_items) (lit "42 items") 0) (Some (Z.of_nat 1))
  = inr (mkLoc (Z.of_nat 0) (Z.of_nat 2) [slice (lit "42 items") 0 2]).
Proof.
  apply (capture_group_span re_items false (lit "42 items") 0 1
           [Some (0, 8)%nat; Some (0, 2)%nat] 0 8 0 2).
  - lia.
  - vm_compute. reflexivity.
  - reflexivity.
  - reflexivity.
  - simpl. lia.
  - vm_compute. reflexivity.
Defined.

End Narrowing.

Section LocateChainFacts.
Local Open Scope Z_scope.

Lemma chain_in_snoc (T : jsstring) (lo : Z) (l : list MatchLocation) (a : MatchLocation) :
  chain_in T lo l ->
  last_end lo l <= loc_start a ->
  loc_start a < loc_end a -> loc_end a <= len T ->
  loc_match a = [substring T (loc_start a) (loc_end a)] ->
  chain_in T lo (l ++ [a]).
Proof.
  revert lo. induction l as [|b l IH]; simpl; intros lo H1 H2 H3 H4 H5.
  - auto.
  - destruct H1 as (Ha & Hb & Hc & Hd & He). repeat split; auto.
Qed.

Lemma chain_in_weaken (T : jsstring) (lo lo' : Z) (l : list MatchLocation) :
  lo' <= lo -> chain_in T lo l -> chain_in T lo' l.
Proof.
  destruct l; simpl; [auto|]. intros H (H1 & H2). split; [lia|exact H2].
Qed.

Lemma collect_chain_in (regex : RegExp) (text : jsstring) (captureGroup : option Z) :
  engine_ok regex text = true ->
  captures_inside regex text captureGroup = true ->
  forall (fuel last : nat) (lo : Z) (acc ds : list MatchLocation),
    last = lastIndex regex \/ (last <= length text)%nat ->
    chain_in text lo acc ->
    last_end lo acc <= Z.of_nat last ->
    collect fuel regex text captureGroup last acc = Ok ds ->
    chain_in text lo ds.
Proof.
  intros Hok Hin. induction fuel as [|fuel IH]; intros last lo acc ds Hlast Hc Hle;
    cbn [collect].
  - discriminate.
  - destruct (exec_at regex text last) as [m|] eqn:He.
    + destruct (_getMatchIndexes (Some m) captureGroup) as [e|loc] eqn:Hg; [discriminate|].
      pose proof (engine_ok_at regex text last m Hok Hlast He) as Hm.
      pose proof (captures_inside_at regex text captureGroup last m Hin Hlast He) as Hci.
      pose proof (getMatchIndexes_faithful text last m captureGroup loc Hm Hci Hg) as Hf.
      destruct (getMatchIndexes_inside text last m captureGroup loc Hm Hci Hg)
        as (m0 & E0 & Hpos & H1 & H2 & H3 & H4 & H5).
      rewrite E0. apply IH.
      * right. unfold len in *. lia.
      * apply chain_in_snoc; auto; lia.
      * rewrite last_end_snoc. unfold len in *. lia.
    + intros H. injection H as <-. exact Hc.
Qed.

(** The matches of a call, all of them inside the text. *)
Lemma locate_chain_in (fuel : nat) (regex : RegExp) (text : jsstring)
      (captureGroup : option Z) (ds : list MatchLocation) :
  engine_ok regex text = true ->
  captures_inside regex text captureGroup = true ->
  locate fuel regex text captureGroup = Ok ds ->
  chain_in text 0 ds.
Proof.
  intros Hok Hin. unfold locate. destruct (global regex).
  - intros H. apply (chain_in_weaken text (Z.of_nat (lastIndex regex))); [lia|].
    apply (collect_chain_in regex text captureGroup Hok Hin fuel (lastIndex regex)
             (Z.of_nat (lastIndex regex)) [] ds); simpl; auto; lia.
  - destruct (exec_at regex text 0) as [m|] eqn:He; [|discriminate].
    destruct (_getMatchIndexes (Some m) captureGroup) as [e|loc] eqn:Hg; [discriminate|].
    intros H. injection H as <-.
    assert (H0 : 0%nat = lastIndex regex \/ (0 <= length text)%nat) by (right; lia).
    pose proof (engine_ok_at regex text 0 m Hok H0 He) as Hm.
    pose proof (captures_inside_at regex text captureGroup 0 m Hin H0 He) as Hci.
    pose proof (getMatchIndexes_faithful text 0 m captureGroup loc Hm Hci Hg) as Hf.
    destruct (getMatchIndexes_inside text 0 m captureGroup loc Hm Hci Hg)
      as (m0 & E0 & Hpos & H1 & H2 & H3 & H4 & H5).
    simpl. repeat split; auto; lia.
Qed.

End LocateChainFacts.

(** *** The walk from a Text node *)

Section TextRootFacts.
Local Open Scope Z_scope.

Variable k : nat.
Variable tg : jsstring.
Variable R : nat.
Variable d : jsstring.
Local Abbreviation Gen := (Invariants.Gen k tg R d).
Local Abbreviation TextEnded := (Invariants.TextEnded k tg R d).

(** A Text node out of the document stays where it is when another node
    gives way. *)
Lemma put_keeps_top (x : nat) (dx : jsstring) (news : list Node) (keep : bool)
      (f : forest) (n : Node) :
  In n f -> is_text n = true -> nid n <> x -> In n (put x dx news keep f).
Proof.
  intros Hin Ht Hx. unfold put. apply in_or_app. left.
  unfold subst_in. apply in_flat_map. exists n. split; [exact Hin|].
  destruct n as [i di|]; [|discriminate]. simpl in *.
  destruct (Nat.eqb_spec i x); [contradiction|]. left. reflexivity.
Qed.

(** [makeReplacementNode] leaves the store as it is, but for the next fresh
    identity. *)
Lemma make_keeps (stencil : nat) (reparse : Node -> list Shape) (fill : jsstring) (mi : Z)
      (st st' : State) (o : Outcome (option Node)) :
  makeReplacementNode stencil reparse fill mi st = (o, st') ->
  dom st' = dom st /\ reverts st' = reverts st /\ (nextId st <= nextId st')%nat.
Proof.
  unfold makeReplacementNode, bind at 1, get_node.
  destruct (lookup stencil (dom st)) as [sn|].
  2:{ intros H. injection H as <- <-. auto. }
  destruct (reparse sn) as [|sh l].
  - destruct (truthy fill); unfold throw, ret; intros H; injection H as <- <-; auto.
  - unfold bind at 1, alloc. destruct (truthy fill).
    + unfold bind at 1. rewrite createTextNode_eq.
      destruct (build _ sh); unfold throw, ret; intros H; injection H as <- <-;
        simpl; repeat split; lia.
    + unfold ret. intros H. injection H as <- <-. simpl. repeat split; lia.
Qed.

(** The first insertion of the single-node branch needs the parent of the
    node. *)
Lemma replace_single_parent (st st' : State) (x : nat) (si ei : Z)
      (inner : list nat) (mt : list jsstring) (mi : Z) (el : nat) :
  replace (makeReplacementNode k (reparse_name tg)) (mkRange x si x ei inner mt mi) st = (Ok el, st') ->
  exists p, parentNode x (dom st) = Some p.
Proof.
  intros Hrun. destruct (parentNode x (dom st)) as [p|] eqn:Hp; [eauto|exfalso].
  unfold replace in Hrun.
  cbn [r_startNode r_endNode r_matchIndex r_startNodeIndex r_endNodeIndex r_match] in Hrun.
  rewrite Nat.eqb_refl in Hrun.
  apply bind_ok in Hrun as ([] & st1 & HA & Hrun).
  destruct (si >? 0).
  - apply bind_ok in HA as (d' & sta & Hg & HA).
    unfold get_data in Hg. apply bind_ok in Hg as (n & stb & Hg & Hn).
    unfold get_node in Hg. destruct (lookup x (dom st)) as [n0|]; [|discriminate].
    injection Hg as <- <-. destruct n0; [|discriminate]. unfold ret in Hn. injection Hn as <- <-.
    apply bind_ok in HA as (b & stc & Hc & HA).
    rewrite createTextNode_eq in Hc. injection Hc as <- <-.
    unfold insert_before_it, bind at 1, get_parentNode in HA. simpl dom in HA.
    rewrite Hp in HA. discriminate.
  - unfold ret in HA. injection HA as <-.
    apply bind_ok in Hrun as (eln & st2 & HB & Hrun).
    destruct (make_keeps _ _ _ _ _ _ _ HB) as (Hd2 & _ & _).
    apply bind_ok in Hrun as (eln' & st3 & HC & Hrun).
    unfold insert_made_before, bind at 1, get_parentNode in HC.
    rewrite Hd2, Hp in HC. discriminate.
Qed.

(** One round of the outer loop at a Text node that holds the rest of the
    data: the next match lies in it and is replaced. *)
Lemma gen_step (fuel : nat) (w : Walk) (st st' : State) (nx : Next) :
  Gen w st ->
  walk_step fuel R (replace (makeReplacementNode k (reparse_name tg))) w st = (Ok nx, st') ->
  match nx with
  | Continue w' => Gen w' st'
  | Break => TextEnded st'
  end.
Proof.
  intros [HK HW (pfx & dc & Ed & Hat & Hl) Hpar [Hs He] Hch Hroot] Hrun.
  rewrite (walk_step_eq k tg R fuel w st _ Hl) in Hrun. cbv zeta in Hrun.
  cbn [is_text data_of] in Hrun.
  rewrite (visit_free w (len dc) Hs He) in Hrun. cbv zeta in Hrun.
  simpl in Hch. destruct Hch as (Hlo & Hlt & Hle & Hmt & Hch).
  assert (Hlen : len d = len pfx + len dc) by (rewrite Ed; apply len_app).
  pose proof (len_nonneg pfx) as Hp0. pose proof (len_nonneg dc) as Hd0.
  destruct (len dc + atIndex w >? loc_start (matchLocation w)) eqn:Eb.
  2:{ exfalso. destruct (Z.gtb_spec (len dc + atIndex w) (loc_start (matchLocation w)));
        [discriminate|lia]. }
  destruct (len dc + atIndex w >=? loc_end (matchLocation w)) eqn:Ee.
  2:{ exfalso. rewrite Z.geb_leb in Ee. apply Z.leb_gt in Ee. lia. }
  simpl in Hrun. unfold Invariants.replaced in Hrun.
  apply bind_ok in Hrun as (el & st1 & Hr & Hrun).
  cbn [startNodeIndex endNodeIndex innerNodes matchLocation matchIndex matches atIndex]
    in Hr, Hrun.
  set (x := curNode w) in *.
  set (si := loc_start (matchLocation w) - atIndex w) in *.
  set (ei := loc_end (matchLocation w) - atIndex w) in *.
  destruct (replace_single_parent st st1 x si ei _ _ _ el Hr) as [p Hp].
  pose proof (Hpar p Hp) as Hpk.
  destruct (replace_single k tg st st1 x dc si ei _ _ _ el HK Hl Hr)
    as (bef & eln & aft & Hd1 & HK1 & HP1 & Hel & Te & Tb & Ta & Eel & Hnx & Htx & Hpe & Haft).
  assert (Hmt' : hd [] (loc_match (matchLocation w)) = substring dc si ei).
  { rewrite Hmt. simpl. rewrite Ed. rewrite <- (app_nil_r dc) at 1.
    rewrite substring_middle by lia. unfold si, ei. rewrite Hat. reflexivity. }
  assert (E3 : flat_map text_of bef ++ text_of eln ++ flat_map text_of aft = dc).
  { rewrite Tb, Ta, Te, Hmt'. apply three_pieces; unfold si, ei; lia. }
  pose proof (k_nodup _ _ _ _ HK) as Hnd. pose proof (k_nodup _ _ _ _ HK1) as Hnd1.
  assert (HW1 : Wrapped k st1).
  { intros e' He'. rewrite Hpe in He'. rewrite Hd1 in Hnd1 |- *.
    apply in_app_or in He' as [He'|[<-|[]]].
    - apply (wrapper_put k (dom st) e' x dc); auto.
      + rewrite !flat_map_app. simpl. rewrite app_nil_r. exact E3.
      + split; [exists dc; exact Hl|]. exists p. auto.
    - apply (wrapper_make_el k tg _ _ (hd [] (loc_match (matchLocation w)))).
      + pose proof (stencil_below k tg st [] HK). lia.
      + rewrite <- Eel. rewrite <- Hel at 1.
        apply (put_new_lookup x dc _ false (dom st) eln); auto.
        apply in_or_app. right. left. reflexivity. }
  assert (HR1 : In (Text R d) (dom st1)).
  { rewrite Hd1. destruct Hroot as [[HxR H0]|Hin].
    - assert (pfx = []) by (destruct pfx; [reflexivity|unfold len in *; simpl in *; lia]).
      subst pfx. simpl in Ed. subst dc. fold x in HxR. rewrite <- HxR.
      unfold put. apply in_or_app. right. left. reflexivity.
    - apply put_keeps_top; [exact Hin|reflexivity|]. simpl. intros ->.
      pose proof (parent_none_top _ _ Hnd Hin) as Hn. simpl in Hn. congruence. }
  unfold bind at 1 in Hrun. rewrite (get_data_eq x st1 dc (HP1 x dc Hl)) in Hrun.
  destruct (matches w) as [|loc rest] eqn:Em.
  - unfold ret in Hrun. injection Hrun as <- <-. constructor; assumption.
  - simpl in Hch. destruct Hch as (Hlo' & Hlt' & Hle' & Hmt2 & Hch').
    destruct Haft as [a ->]; [apply Z.ltb_lt; unfold ei; lia|].
    (* the place of the nodes that have come in *)
    unfold parentNode in Hp.
    destruct (place_in x (dom st)) as [[p' [[l n] r]]|] eqn:Hpl; [|discriminate].
    injection Hp as ->.
    destruct (place_in_sound _ _ _ _ _ _ Hpl) as (pre & tg' & fs & post & Ef & Hn).
    assert (En : n = Text x dc).
    { pose proof (lookup_focus pre post (mkFrame p tg' l r :: fs) n) as H.
      rewrite <- Ef, Hn in H. specialize (H Hnd). congruence. }
    subst n. clear Hn.
    rewrite Ef in Hd1, Hnd.
    rewrite (put_focus x dc _ false pre post (mkFrame p tg' l r) fs Hnd) in Hd1.
    cbn [f_id f_tag f_left f_right] in Hd1. rewrite app_nil_r in Hd1.
    set (ta := Text a (substring_from dc ei)) in *.
    assert (Ze : dom st1 = pre ++ plug (mkFrame p tg' (l ++ bef) (ta :: r) :: fs) eln
                               :: (post ++ [Text x dc])).
    { rewrite Hd1. simpl. unfold wrap. simpl. rewrite <- !app_assoc. reflexivity. }
    assert (Za : dom st1 = pre ++ plug (mkFrame p tg' (l ++ bef ++ [eln]) r :: fs) ta
                               :: (post ++ [Text x dc])).
    { rewrite Hd1. simpl. unfold wrap. simpl. rewrite <- !app_assoc. reflexivity. }
    assert (Hns : nextSibling el (dom st1) = Some a).
    { unfold nextSibling. rewrite <- Hel. rewrite Ze at 1.
      rewrite place_in_focus by (rewrite <- Ze; exact Hnd1). reflexivity. }
    assert (Hpa : parentNode a (dom st1) = Some p).
    { unfold parentNode. change a with (nid ta). rewrite Za at 1.
      rewrite place_in_focus by (rewrite <- Za; exact Hnd1). reflexivity. }
    assert (Hla : lookup a (dom st1) = Some ta).
    { change a with (nid ta). rewrite Za at 1.
      apply lookup_focus. rewrite <- Za. exact Hnd1. }
    apply bind_ok in Hrun as (o & st2 & Hf & Hrun).
    destruct fuel as [|fuel]; [discriminate|].
    cbn [forward_or_up] in Hf. unfold bind at 1, get_nextSibling in Hf.
    rewrite Hns in Hf. unfold ret in Hf. injection Hf as <- <-.
    unfold ret in Hrun. injection Hrun as <- <-.
    constructor; cbn [curNode atIndex startNode endNode matchLocation matches].
    + exact HK1.
    + exact HW1.
    + exists (pfx ++ substring dc 0 ei), (substring_from dc ei).
      split; [|split; [|exact Hla]].
      * rewrite <- app_assoc, substring_split. exact Ed.
      * rewrite len_app, substring_len by (unfold ei; lia). unfold ei. lia.
    + intros p' Hp'. rewrite Hpa in Hp'. injection Hp' as <-. exact Hpk.
    + split; reflexivity.
    + replace (atIndex w + len dc - (len dc - ei)) with (loc_end (matchLocation w))
        by (unfold ei; lia).
      simpl. auto.
    + right. exact HR1.
Qed.

Lemma gen_loop (fuel bound : nat) :
  forall (w : Walk) (st st' : State),
    Gen w st ->
    walk_loop fuel bound R (replace (makeReplacementNode k (reparse_name tg))) w st = (Ok tt, st') ->
    TextEnded st'.
Proof.
  induction fuel as [|fuel IH]; intros w st st' HG Hrun; [discriminate|].
  cbn [walk_loop] in Hrun. apply bind_ok in Hrun as (nx & st1 & Hs & Hrun).
  pose proof (gen_step bound w st st1 nx HG Hs) as H.
  destruct nx as [w'|].
  - exact (IH w' st1 st' H Hrun).
  - unfold ret in Hrun. injection Hrun as <-. exact H.
Qed.

End TextRootFacts.

(** *** [normalize]: text and identities *)

Section NormalizeFacts.

Lemma text_merge (cs : list Node) :
  flat_map text_of (merge_texts cs) = flat_map text_of cs.
Proof.
  induction cs as [|c cs IH]; [reflexivity|].
  destruct c as [i d|i t l]; cbn [merge_texts].
  - destruct d as [|a d]; [exact IH|].
    destruct (merge_texts cs) as [|[j d'|j t l] r] eqn:E;
      cbn [flat_map text_of] in *; rewrite <- IH; rewrite <- ?app_assoc; reflexivity.
  - cbn [flat_map]. rewrite IH. reflexivity.
Qed.

Lemma text_normalize (n : Node) : text_of (normalize_node n) = text_of n.
Proof.
  induction n as [i d|i t cs IH] using Node_induction; [reflexivity|].
  cbn [normalize_node text_of]. rewrite text_merge.
  induction IH as [|c cs Hc _ IH]; [reflexivity|].
  cbn [map flat_map]. rewrite Hc, IH. reflexivity.
Qed.

Lemma nid_normalize (n : Node) : nid (normalize_node n) = nid n.
Proof. destruct n; reflexivity. Qed.

Lemma is_text_normalize (n : Node) : is_text (normalize_node n) = is_text n.
Proof. destruct n; reflexivity. Qed.

(** The children after [merge_texts]: the elements are all there, and a
    Text node has the identity of a Text node among the children. *)
Lemma merge_in (cs : list Node) (m : Node) :
  In m (merge_texts cs) ->
  (is_text m = false /\ In m cs)
  \/ (exists d, In (Text (nid m) d) cs /\ is_text m = true).
Proof.
  induction cs as [|c cs IH]; [intros []|].
  destruct c as [i d|i t l]; cbn [merge_texts].
  - destruct d as [|a d].
    + intros H. destruct (IH H) as [[H1 H2]|(d' & H1 & H2)].
      * left. split; [exact H1|right; exact H2].
      * right. exists d'. split; [right; exact H1|exact H2].
    + destruct (merge_texts cs) as [|[j d'|j t l] r] eqn:E.
      * intros [<-|[]]. right. exists (a :: d). split; [left; reflexivity|reflexivity].
      * intros [<-|H].
        -- right. exists (a :: d). split; [left; reflexivity|reflexivity].
        -- destruct (IH (or_intror H)) as [[H1 H2]|(d0 & H1 & H2)].
           ++ left. split; [exact H1|right; exact H2].
           ++ right. exists d0. split; [right; exact H1|exact H2].
      * intros [<-|H].
        -- right. exists (a :: d). split; [left; reflexivity|reflexivity].
        -- destruct (IH H) as [[H1 H2]|(d0 & H1 & H2)].
           ++ left. split; [exact H1|right; exact H2].
           ++ right. exists d0. split; [right; exact H1|exact H2].
  - intros [<-|H].
    + left. split; [reflexivity|left; reflexivity].
    + destruct (IH H) as [[H1 H2]|(d0 & H1 & H2)].
      * left. split; [exact H1|right; exact H2].
      * right. exists d0. split; [right; exact H1|exact H2].
Qed.

Lemma ids_merge (cs : list Node) (x : nat) :
  In x (flat_map ids (merge_texts cs)) -> In x (flat_map ids cs).
Proof.
  intros H. apply in_flat_map in H as (m & Hm & Hx).
  destruct (merge_in cs m Hm) as [[_ H]|(d & H & Ht)].
  - apply in_flat_map. exists m. auto.
  - destruct m as [i d'|]; [|discriminate]. simpl in Hx, H. destruct Hx as [<-|[]].
    apply in_flat_map. exists (Text i d). split; [exact H|left; reflexivity].
Qed.

Lemma NoDup_merge (cs : list Node) :
  NoDup (flat_map ids cs) -> NoDup (flat_map ids (merge_texts cs)).
Proof.
  induction cs as [|c cs IH]; [intros; constructor|].
  cbn [flat_map]. intros H.
  pose proof (NoDup_app_l _ _ H) as Hc. pose proof (NoDup_app_r _ _ H) as Hcs.
  specialize (IH Hcs).
  assert (D : forall x, In x (ids c) -> ~ In x (flat_map ids (merge_texts cs))).
  { intros x Hx Hin. exact (NoDup_app_disj _ _ x H Hx (ids_merge cs x Hin)). }
  destruct c as [i d|i t l]; cbn [merge_texts].
  - destruct d as [|a d]; [exact IH|].
    destruct (merge_texts cs) as [|[j d'|j t l] r] eqn:E.
    + simpl. constructor; [intros []|constructor].
    + cbn [flat_map ids app] in *. constructor.
      * intros Hin. apply (D i (or_introl eq_refl)). right. exact Hin.
      * inversion IH; assumption.
    + cbn [flat_map ids app] in *. constructor; [|exact IH].
      exact (D i (or_introl eq_refl)).
  - cbn [flat_map]. apply NoDup_app_intro; auto.
Qed.

Lemma NoDup_flat_map_incl {A : Type} (f g : A -> list nat) (l : list A) :
  (forall a, In a l -> NoDup (g a) /\ (forall x, In x (g a) -> In x (f a))) ->
  NoDup (flat_map f l) -> NoDup (flat_map g l).
Proof.
  induction l as [|a l IH]; [intros; constructor|].
  cbn [flat_map]. intros H Hnd.
  destruct (H a (or_introl eq_refl)) as [Ha Hi].
  apply NoDup_app_intro.
  - exact Ha.
  - apply IH; [intros b Hb; apply H; right; exact Hb|exact (NoDup_app_r _ _ Hnd)].
  - intros x Hx Hin. apply in_flat_map in Hin as (b & Hb & Hxb).
    apply (NoDup_app_disj _ _ x Hnd (Hi x Hx)).
    apply in_flat_map. exists b. split; [exact Hb|].
    destruct (H b (or_intror Hb)) as [_ Hib]. exact (Hib x Hxb).
Qed.

Lemma ids_normalize (n : Node) (x : nat) :
  In x (ids (normalize_node n)) -> In x (ids n).
Proof.
  revert x. induction n as [i d|i t cs IH] using Node_induction; intros x; [tauto|].
  cbn [normalize_node ids]. intros [H|H]; [left; exact H|right].
  apply ids_merge in H. apply in_flat_map in H as (m & Hm & Hx).
  apply in_map_iff in Hm as (c & <- & Hc).
  rewrite Forall_forall in IH. apply in_flat_map. exists c. split; [exact Hc|].
  exact (IH c Hc x Hx).
Qed.

Lemma NoDup_normalize (n : Node) : NoDup (ids n) -> NoDup (ids (normalize_node n)).
Proof.
  induction n as [i d|i t cs IH] using Node_induction; [tauto|].
  cbn [normalize_node ids]. intros H. inversion H as [|? ? Hi Hcs]; subst.
  constructor.
  - intros Hin. apply Hi. apply ids_merge in Hin.
    apply in_flat_map in Hin as (m & Hm & Hx).
    apply in_map_iff in Hm as (c & <- & Hc).
    apply in_flat_map. exists c. split; [exact Hc|exact (ids_normalize c i Hx)].
  - apply NoDup_merge. rewrite flat_map_concat_map, map_map, <- flat_map_concat_map.
    apply (NoDup_flat_map_incl ids); [|exact Hcs].
    intros c Hc. rewrite Forall_forall in IH. split.
    + apply IH; [exact Hc|].
      clear - Hcs Hc. induction cs as [|c' cs IH]; [destruct Hc|].
      cbn [flat_map] in Hcs. destruct Hc as [->|Hc].
      * exact (NoDup_app_l _ _ Hcs).
      * exact (IH (NoDup_app_r _ _ Hcs) Hc).
    + intros x. apply ids_normalize.
Qed.

End NormalizeFacts.

(** *** Subtrees put in the place of others *)

Section SpliceFacts.

(** Nodes of the subtree [n] put in its place, or set aside. *)
Lemma NoDup_splice (pre post extra : forest) (fs : list Frame) (n : Node) (ns : list Node) :
  NoDup (all_ids (pre ++ plug fs n :: post)) ->
  NoDup (flat_map ids ns ++ flat_map ids extra) ->
  (forall x, In x (flat_map ids ns ++ flat_map ids extra) -> In x (ids n)) ->
  NoDup (all_ids (pre ++ plug_list fs ns ++ post ++ extra)).
Proof.
  intros Hnd Hns Hin.
  apply (Permutation_NoDup (Permutation_sym (all_ids_focus_list pre (post ++ extra) fs ns))).
  apply (Permutation_NoDup (all_ids_focus pre post fs n)) in Hnd.
  unfold ctx_ids, all_ids in *. rewrite flat_map_app.
  apply (Permutation_NoDup
           (l := (flat_map ids ns ++ flat_map ids extra)
                   ++ flat_map ids pre ++ frame_ids fs ++ flat_map ids post)).
  - rewrite <- !app_assoc. apply Permutation_app_head.
    etransitivity; [apply Permutation_app_comm|].
    rewrite <- !app_assoc. reflexivity.
  - apply NoDup_app_intro.
    + exact Hns.
    + exact (NoDup_app_r _ _ Hnd).
    + intros x Hx. exact (NoDup_app_disj _ _ x Hnd (Hin x Hx)).
Qed.

Lemma texts_text (n t : Node) :
  In t (texts n) -> t = Text (nid t) (data_of t) /\ In (nid t) (ids n).
Proof.
  induction n as [i d|i tg cs IH] using Node_induction; simpl.
  - intros [<-|[]]. simpl. auto.
  - intros H. apply in_flat_map in H as (c & Hc & Ht).
    rewrite Forall_forall in IH. destruct (IH c Hc Ht) as [E Hi].
    split; [exact E|]. right. apply in_flat_map. exists c. auto.
Qed.

Lemma NoDup_texts (n : Node) : NoDup (ids n) -> NoDup (flat_map ids (texts n)).
Proof.
  induction n as [i d|i tg cs IH] using Node_induction; simpl; [tauto|].
  intros H. inversion H as [|? ? _ Hcs]; subst. clear H.
  rewrite flat_map_comp.
  apply (NoDup_flat_map_incl ids); [|exact Hcs].
  intros c Hc. rewrite Forall_forall in IH. split.
  - apply IH; [exact Hc|].
    clear - Hcs Hc. induction cs as [|c' cs IH]; [destruct Hc|].
    cbn [flat_map] in Hcs. destruct Hc as [->|Hc].
    + exact (NoDup_app_l _ _ Hcs).
    + exact (IH (NoDup_app_r _ _ Hcs) Hc).
  - intros x Hx. apply in_flat_map in Hx as (t & Ht & Hx).
    destruct (texts_text c t Ht) as [E Hi]. rewrite E in Hx. simpl in Hx.
    destruct Hx as [<-|[]]. exact Hi.
Qed.

Lemma NoDup_filter_ids (p : Node -> bool) (l : list Node) :
  NoDup (flat_map ids l) -> NoDup (flat_map ids (filter p l)).
Proof.
  induction l as [|a l IH]; [intros; constructor|].
  cbn [flat_map filter]. intros H.
  specialize (IH (NoDup_app_r _ _ H)).
  destruct (p a); [|exact IH].
  cbn [flat_map]. apply NoDup_app_intro; [exact (NoDup_app_l _ _ H)|exact IH|].
  intros x Hx Hin. apply (NoDup_app_disj _ _ x H Hx).
  apply in_flat_map in Hin as (b & Hb & Hxb). apply filter_In in Hb as [Hb _].
  apply in_flat_map. exists b. auto.
Qed.

(** What [normalize] makes of a subtree, with the Text nodes that it has
    merged away. *)
Lemma normalize_ids (n : Node) :
  NoDup (ids n) ->
  let n' := normalize_node n in
  let gone := filter (fun t => negb (existsb (Nat.eqb (nid t)) (ids n'))) (texts n) in
  NoDup (flat_map ids [n'] ++ flat_map ids gone)
  /\ (forall x, In x (flat_map ids [n'] ++ flat_map ids gone) -> In x (ids n)).
Proof.
  intros Hnd n' gone. cbn [flat_map]. rewrite app_nil_r. split.
  - apply NoDup_app_intro.
    + apply NoDup_normalize. exact Hnd.
    + apply NoDup_filter_ids, NoDup_texts. exact Hnd.
    + intros x Hx Hin. apply in_flat_map in Hin as (t & Ht & Hxt).
      apply filter_In in Ht as [Ht Hp].
      destruct (texts_text n t Ht) as [E _]. rewrite E in Hxt. simpl in Hxt.
      destruct Hxt as [<-|[]].
      apply negb_true_iff in Hp.
      assert (existsb (Nat.eqb (nid t)) (ids n') = true); [|congruence].
      apply existsb_exists. exists (nid t). split; [exact Hx|apply Nat.eqb_refl].
  - intros x Hx. apply in_app_or in Hx as [Hx|Hx].
    + apply ids_normalize. exact Hx.
    + apply in_flat_map in Hx as (t & Ht & Hxt).
      apply filter_In in Ht as [Ht _].
      destruct (texts_text n t Ht) as [E Hi]. rewrite E in Hxt. simpl in Hxt.
      destruct Hxt as [<-|[]]. exact Hi.
Qed.

End SpliceFacts.

(** *** [unwrap]: the store after it *)

Section UnwrapFacts.

Lemma unwrap_eq (st st' : State) (el : nat) (t : jsstring) (cs : list Node) :
  NoDup (all_ids (dom st)) ->
  lookup el (dom st) = Some (Element el t cs) ->
  thin cs = true ->
  unwrap el st = (Ok tt, st') ->
  exists pre fr fs post c d extra,
    cs = [Text c d]
    /\ dom st = pre ++ plug (fr :: fs) (Element el t [Text c d]) :: post
    /\ dom st'
       = pre ++ plug fs (normalize_node
                           (Element (f_id fr) (f_tag fr)
                                    (f_left fr ++ Text c d :: f_right fr)))
             :: post ++ Element el t [] :: extra
    /\ NoDup (all_ids (dom st'))
    /\ (forall m, In m extra -> is_text m = true)
    /\ nextId st' = nextId st /\ reverts st' = reverts st.
Proof.
  intros Hnd Hel Hthin Hrun. unfold unwrap in Hrun.
  unfold bind at 1, get_parentNode in Hrun.
  destruct (parentNode el (dom st)) as [p|] eqn:Hp; [|discriminate].
  unfold bind at 1 in Hrun. simpl deref in Hrun. unfold ret at 1 in Hrun.
  unfold parentNode in Hp.
  destruct (place_in el (dom st)) as [[p' [[l n] r]]|] eqn:Hpl; [|discriminate].
  injection Hp as ->.
  destruct (place_in_sound _ _ _ _ _ _ Hpl) as (pre & tg & fs & post & Hd & Hn).
  assert (En : n = Element el t cs).
  { pose proof (lookup_focus pre post (mkFrame p tg l r :: fs) n) as H.
    rewrite <- Hd, Hn in H. specialize (H Hnd). congruence. }
  subst n. clear Hn.
  unfold bind at 1, get_firstChild in Hrun. unfold firstChild in Hrun.
  rewrite Hel in Hrun.
  destruct cs as [|[c d|] [|]]; try discriminate.
  unfold bind at 1 in Hrun. simpl deref in Hrun. unfold ret at 1 in Hrun.
  simpl nid in Hrun.
  set (fr := mkFrame p tg l r) in *.
  set (frel := mkFrame el t [] []).
  assert (Hc : dom st = pre ++ plug (frel :: fr :: fs) (Text c d) :: post) by exact Hd.
  assert (Hlc : lookup c (dom st) = Some (Text c d)).
  { rewrite Hc. apply (lookup_focus pre post (frel :: fr :: fs) (Text c d)).
    rewrite <- Hc. exact Hnd. }
  unfold bind at 1, get_node in Hrun. rewrite Hlc in Hrun.
  (* insertBefore *)
  unfold bind at 1, dom_op at 1, insertBefore in Hrun. simpl nid in Hrun.
  assert (E1 : subst_in c (fun _ => []) (dom st)
               = pre ++ plug_list (fr :: fs) [Element el t []] ++ post).
  { rewrite Hc. rewrite (subst_in_focus_text c d). reflexivity. rewrite <- Hc. exact Hnd. }
  rewrite E1 in Hrun. clear E1.
  rewrite plug_list_one in Hrun. cbn [app] in Hrun.
  assert (Hnd' : NoDup (all_ids (pre ++ plug (fr :: fs) (Element el t [Text c d]) :: post)))
    by (rewrite <- Hd; exact Hnd).
  assert (N1 : NoDup (all_ids (pre ++ plug (fr :: fs) (Element el t []) :: post))).
  { pose proof (NoDup_splice pre post [] (fr :: fs) (Element el t [Text c d])
                             [Element el t []] Hnd') as H.
    rewrite plug_list_one, !app_nil_r in H. apply H.
    - simpl. constructor; [intros []|constructor].
    - simpl. intros x [<-|[]]. left. reflexivity. }
  unfold parentNode in Hrun.
  pose proof (place_in_focus pre post fr fs (Element el t []) N1) as E2.
  cbn [nid] in E2. rewrite E2 in Hrun. clear E2.
  cbn [f_id fr] in Hrun. rewrite Nat.eqb_refl in Hrun.
  pose proof (subst_in_focus (fun r : Node => [Text c d; r]) pre post (fr :: fs)
                             (Element el t []) N1) as E2.
  cbn [nid] in E2. rewrite E2 in Hrun. clear E2.
  cbv iota beta in Hrun.
  (* removeChild *)
  set (fr2 := mkFrame p tg (l ++ [Text c d]) r).
  assert (F2 : pre ++ plug_list (fr :: fs) [Text c d; Element el t []] ++ post
               = pre ++ plug (fr2 :: fs) (Element el t []) :: post).
  { unfold plug_list, fr, fr2. cbn. unfold wrap. cbn. rewrite <- app_assoc. reflexivity. }
  assert (Hce : c <> el).
  { pose proof (NoDup_plug_inner _ _ (NoDup_forest_tree _ _ _ Hnd')) as H.
    simpl in H. inversion H as [|? ? Hi _]; subst. intros ->. apply Hi. left. reflexivity. }
  assert (N2 : NoDup (all_ids (pre ++ plug (fr2 :: fs) (Element el t []) :: post))).
  { rewrite <- F2.
    pose proof (NoDup_splice pre post [] (fr :: fs) (Element el t [Text c d])
                             [Text c d; Element el t []] Hnd') as H.
    rewrite !app_nil_r in H. apply H.
    - simpl. constructor; [intros [E|[]]; congruence|]. constructor; [intros []|constructor].
    - simpl. intros x [<-|[<-|[]]]; auto. }
  rewrite F2 in Hrun. clear F2.
  unfold bind at 1, dom_op at 1, removeChild, parentNode in Hrun. cbn [dom] in Hrun.
  pose proof (place_in_focus pre post fr2 fs (Element el t []) N2) as E3.
  cbn [nid] in E3. rewrite E3 in Hrun. clear E3.
  pose proof (lookup_focus pre post (fr2 :: fs) (Element el t []) N2) as E3.
  cbn [nid] in E3. rewrite E3 in Hrun. clear E3.
  cbn [f_id fr2] in Hrun. rewrite Nat.eqb_refl in Hrun.
  pose proof (subst_in_focus (fun _ : Node => []) pre post (fr2 :: fs)
                             (Element el t []) N2) as E3.
  cbn [nid] in E3. rewrite E3 in Hrun. clear E3.
  cbv iota beta in Hrun. cbn [nextId reverts] in Hrun.
  (* normalize *)
  set (P := Element p tg (l ++ Text c d :: r)).
  assert (F3 : (pre ++ plug_list (fr2 :: fs) [] ++ post) ++ [Element el t []]
               = pre ++ plug fs P :: (post ++ [Element el t []])).
  { unfold plug_list, fr2, P. cbn. rewrite <- !app_assoc. reflexivity. }
  assert (N3 : NoDup (all_ids (pre ++ plug fs P :: (post ++ [Element el t []])))).
  { pose proof (NoDup_splice pre post [Element el t []] (fr :: fs)
                             (Element el t [Text c d]) [Text c d] Hnd') as H.
    apply H.
    - simpl. constructor; [intros [E|[]]; congruence|]. constructor; [intros []|constructor].
    - simpl. intros x [<-|[<-|[]]]; auto. }
  rewrite F3 in Hrun. clear F3.
  unfold dom_op, normalize in Hrun. cbn [dom nextId reverts] in Hrun.
  pose proof (lookup_focus pre (post ++ [Element el t []]) fs P N3) as E4.
  cbn [nid P] in E4. rewrite E4 in Hrun. clear E4.
  pose proof (subst_in_focus (fun _ : Node => [normalize_node P]) pre
                             (post ++ [Element el t []]) fs P N3) as E4.
  cbn [nid P] in E4. rewrite E4 in Hrun. clear E4.
  rewrite plug_list_one in Hrun.
  injection Hrun as <-.
  destruct (normalize_ids P (NoDup_plug_inner _ _ (NoDup_forest_tree _ _ _ N3))) as [G1 G2].
  set (gone := filter _ (texts P)) in *.
  exists pre, fr, fs, post, c, d, gone.
  split; [reflexivity|]. split; [exact Hd|].
  cbn [dom nextId reverts].
  split; [rewrite <- !app_assoc; cbn [app]; rewrite <- ?app_assoc; reflexivity|].
  split.
  - pose proof (NoDup_splice pre (post ++ [Element el t []]) gone fs P
                             [normalize_node P] N3 G1 G2) as H.
    rewrite plug_list_one in H. rewrite <- !app_assoc. exact H.
  - split; [|split; reflexivity].
    intros m Hm. apply filter_In in Hm as [Hm _].
    destruct (texts_text P m Hm) as [E _]. rewrite E. reflexivity.
Qed.

End UnwrapFacts.

(** *** Nodes and their places *)

Section SpliceLookup.

Lemma nodes_self (n : Node) : In n (nodes n).
Proof. destruct n; left; reflexivity. Qed.

Lemma nodes_child (i : nat) (t : jsstring) (cs : list Node) (c m : Node) :
  In c cs -> In m (nodes c) -> In m (nodes (Element i t cs)).
Proof.
  intros Hc Hm. right. apply in_flat_map. exists c. auto.
Qed.

Lemma nodes_up (fs : list Frame) (a b : Node) :
  In a (nodes b) -> In a (nodes (plug fs b)).
Proof.
  revert b. induction fs as [|fr fs IH]; intros b H; simpl; [exact H|].
  apply IH. unfold wrap. apply (nodes_child _ _ _ b); [apply in_elt|exact H].
Qed.

Lemma plug_in_nodes (fs : list Frame) (n : Node) : In n (nodes (plug fs n)).
Proof. apply nodes_up, nodes_self. Qed.

Lemma nodes_plug_cases (fs : list Frame) (A n : Node) :
  In n (nodes (plug fs A)) ->
  In n (nodes A)
  \/ (exists fs1 fs2, fs = fs1 ++ fs2 /\ fs1 <> [] /\ n = plug fs1 A)
  \/ (exists fr c, In fr fs /\ (In c (f_left fr) \/ In c (f_right fr)) /\ In n (nodes c)).
Proof.
  revert A. induction fs as [|fr fs IH]; intros A H; simpl in H; [left; exact H|].
  destruct (IH _ H) as [H1|[(fs1 & fs2 & -> & _ & ->)|(fr' & c & Hfr & Hc & Hn)]].
  - unfold wrap in H1. simpl in H1. destruct H1 as [<-|H1].
    + right. left. exists [fr], fs. split; [reflexivity|]. split; [discriminate|reflexivity].
    + apply in_flat_map in H1 as (c & Hc & Hn).
      apply in_app_or in Hc as [Hc|[<-|Hc]].
      * right. right. exists fr, c. split; [left; reflexivity|]. auto.
      * left. exact Hn.
      * right. right. exists fr, c. split; [left; reflexivity|]. auto.
  - right. left. exists (fr :: fs1), fs2. split; [reflexivity|]. split; [discriminate|reflexivity].
  - right. right. exists fr', c. split; [right; exact Hfr|]. auto.
Qed.

Lemma lookup_nodes (x : nat) (f : forest) (n : Node) :
  lookup x f = Some n -> exists t, In t f /\ In n (nodes t) /\ nid n = x.
Proof.
  intros H. destruct (lookup_sound x f n H) as (pre & fs & post & -> & Hn).
  exists (plug fs n). split; [apply in_elt|]. split; [apply plug_in_nodes|exact Hn].
Qed.

Lemma merge_keeps (cs : list Node) (e : Node) :
  In e cs -> is_text e = false -> In e (merge_texts cs).
Proof.
  induction cs as [|c cs IH]; [intros []|].
  intros [->|H] He.
  - destruct e as [|i t l]; [discriminate|]. left. reflexivity.
  - specialize (IH H He). destruct c as [i d|i t l]; cbn [merge_texts].
    + destruct d as [|a d]; [exact IH|].
      destruct (merge_texts cs) as [|[j d'|j t l] r] eqn:E.
      * destruct IH.
      * destruct IH as [<-|IH]; [discriminate|]. right. exact IH.
      * right. exact IH.
    + right. exact IH.
Qed.

(** An element of a subtree is, normalized, an element of the normalized
    subtree. *)
Lemma nodes_normalize (t n : Node) :
  In n (nodes t) -> is_text n = false -> In (normalize_node n) (nodes (normalize_node t)).
Proof.
  induction t as [i d|i tg cs IH] using Node_induction; intros H Hn.
  - simpl in H. destruct H as [<-|[]]. discriminate.
  - simpl in H. destruct H as [<-|H]; [apply nodes_self|].
    apply in_flat_map in H as (c & Hc & Hm).
    rewrite Forall_forall in IH. specialize (IH c Hc Hm Hn).
    cbn [normalize_node]. apply (nodes_child _ _ _ (normalize_node c)); [|exact IH].
    apply merge_keeps.
    + apply in_map. exact Hc.
    + rewrite is_text_normalize. destruct c; [|reflexivity].
      simpl in Hm. destruct Hm as [<-|[]]. discriminate.
Qed.

(** A subtree [A] gives way to [A'], and nodes are added to the store: the
    nodes outside [A] are where they were, and those above it are above
    [A']. *)
Lemma splice_lookup (pre post extra : forest) (fs : list Frame) (A A' : Node)
      (x : nat) (n : Node) :
  NoDup (all_ids (pre ++ plug fs A' :: post ++ extra)) ->
  nid A' = nid A ->
  lookup x (pre ++ plug fs A :: post) = Some n ->
  In n (nodes A)
  \/ lookup x (pre ++ plug fs A' :: post ++ extra) = Some n
  \/ (exists fs1 fs2,
         fs = fs1 ++ fs2 /\ fs1 <> [] /\ n = plug fs1 A
         /\ lookup x (pre ++ plug fs A' :: post ++ extra) = Some (plug fs1 A')).
Proof.
  intros Hnd HA Hx.
  destruct (lookup_nodes x _ n Hx) as (t & Ht & Hn & Hid).
  apply in_app_or in Ht as [Ht|[<-|Ht]].
  - right. left. rewrite <- Hid. apply inside_lookup; [exact Hnd|].
    exact (inside_pre n t pre _ Ht Hn).
  - destruct (nodes_plug_cases fs A n Hn)
      as [H|[(fs1 & fs2 & -> & Hne & ->)|(fr & c & Hfr & Hc & Hm)]].
    + left. exact H.
    + right. right. exists fs1, fs2. repeat split; auto.
      rewrite <- Hid, (nid_plug_cong fs1 A A' (eq_sym HA)).
      apply inside_lookup; [exact Hnd|].
      exists pre, fs2, (post ++ extra). rewrite plug_app. reflexivity.
    + right. left. rewrite <- Hid. apply inside_lookup; [exact Hnd|].
      exact (inside_frame n c A' pre _ fs fr Hfr Hc Hm).
  - right. left. rewrite <- Hid. apply inside_lookup; [exact Hnd|].
    change (pre ++ plug fs A' :: post ++ extra)
      with (pre ++ [plug fs A'] ++ (post ++ extra)).
    rewrite app_assoc. apply (inside_post n t); [|exact Hn].
    apply in_or_app. left. exact Ht.
Qed.

End SpliceLookup.

(** *** [unwrap]: the other nodes *)

Section UnwrapKeeps.

Lemma plug_has_element (fs : list Frame) (A : Node) :
  fs <> [] -> is_text A = false ->
  exists e, In e (children (plug fs A)) /\ is_text e = false.
Proof.
  revert A. induction fs as [|fr fs IH]; intros A Hne HA; [contradiction|].
  destruct fs as [|fr' fs].
  - simpl. exists A. split; [apply in_elt|exact HA].
  - change (plug (fr :: fr' :: fs) A) with (plug (fr' :: fs) (wrap fr A)).
    apply IH; [discriminate|reflexivity].
Qed.

Lemma thin_normalize (cs : list Node) :
  thin cs = true -> thin (merge_texts (map normalize_node cs)) = true.
Proof.
  destruct cs as [|[c d|] [|]]; try discriminate; intros _; [reflexivity|].
  simpl. destruct d; reflexivity.
Qed.

(** What taking out the replacement node [el] does to the other nodes of
    the store. *)
Lemma unwrap_inv (st st' : State) (el : nat) (t : jsstring) (cs : list Node) :
  NoDup (all_ids (dom st)) ->
  lookup el (dom st) = Some (Element el t cs) ->
  thin cs = true ->
  unwrap el st = (Ok tt, st') ->
  NoDup (all_ids (dom st'))
  /\ nextId st' = nextId st /\ reverts st' = reverts st
  /\ lookup el (dom st') = Some (Element el t [])
  /\ In (Element el t []) (dom st')
  /\ (forall n, In n (dom st) -> children n = [] -> In n (dom st'))
  /\ (forall x n,
         lookup x (dom st) = Some n -> is_text n = false -> x <> el ->
         lookup x (dom st') = Some n
         \/ lookup x (dom st') = Some (normalize_node n)
         \/ (exists n', lookup x (dom st') = Some n' /\ text_of n' = text_of n
                        /\ is_text n' = false
                        /\ exists e, In e (children n) /\ is_text e = false)).
Proof.
  intros Hnd Hel Hthin Hrun.
  destruct (unwrap_eq st st' el t cs Hnd Hel Hthin Hrun)
    as (pre & fr & fs & post & c & d & extra & -> & Hd & Hd' & Hnd' & Hex & Hn & Hr).
  set (A := wrap fr (Element el t [Text c d])).
  set (P := Element (f_id fr) (f_tag fr) (f_left fr ++ Text c d :: f_right fr)) in *.
  assert (HtA : text_of (normalize_node P) = text_of A).
  { rewrite text_normalize. unfold P, A, wrap. cbn [text_of].
    rewrite !flat_map_app. cbn [flat_map text_of]. rewrite app_nil_r. reflexivity. }
  assert (Hin : In (Element el t []) (dom st')).
  { rewrite Hd'. apply in_or_app. right. right. apply in_or_app. right. left. reflexivity. }
  split; [exact Hnd'|]. split; [exact Hn|]. split; [exact Hr|].
  split; [exact (lookup_in_top _ _ Hnd' Hin)|].
  split; [exact Hin|].
  split.
  - intros n Hn0 Ht. rewrite Hd in Hn0. rewrite Hd'.
    apply in_app_or in Hn0 as [H|[H|H]].
    + apply in_or_app. left. exact H.
    + rewrite <- H in Ht. destruct (plug_has_element (fr :: fs) (Element el t [Text c d]))
        as (e & He & _); [discriminate|reflexivity|]. rewrite Ht in He. destruct He.
    + apply in_or_app. right. right. apply in_or_app. left. exact H.
  - intros x n Hx Hnt Hxe. rewrite Hd in Hx. rewrite Hd' in *.
    change (plug (fr :: fs) (Element el t [Text c d])) with (plug fs A) in Hx.
    destruct (splice_lookup pre post (Element el t [] :: extra) fs A (normalize_node P)
                            x n Hnd' eq_refl Hx)
      as [H|[H|(fs1 & fs2 & -> & Hne & -> & H)]].
    + destruct (lookup_nodes _ _ _ Hx) as (_ & _ & _ & Hid).
      unfold A, wrap in H. simpl in H. destruct H as [<-|H].
      * right. right. exists (normalize_node P). split.
        -- simpl in Hid. rewrite <- Hid.
           change (f_id fr) with (nid (normalize_node P)).
           apply inside_lookup; [exact Hnd'|]. exists pre, fs, (post ++ Element el t [] :: extra).
           reflexivity.
        -- split; [exact HtA|]. split; [reflexivity|].
           exists (Element el t [Text c d]). split; [apply in_elt|reflexivity].
      * apply in_flat_map in H as (c0 & Hc0 & Hm).
        assert (Hc0' : In c0 (f_left fr ++ Text c d :: f_right fr)
                       \/ c0 = Element el t [Text c d]).
        { apply in_app_or in Hc0 as [Hc0|[<-|Hc0]].
          - left. apply in_or_app. left. exact Hc0.
          - right. reflexivity.
          - left. apply in_or_app. right. right. exact Hc0. }
        destruct Hc0' as [Hc0'| ->].
        -- right. left. rewrite <- Hid, <- (nid_normalize n).
           apply inside_lookup; [exact Hnd'|]. apply inside_tree. apply nodes_up.
           apply nodes_normalize; [|exact Hnt].
           unfold P. exact (nodes_child _ _ _ c0 n Hc0' Hm).
        -- simpl in Hm. destruct Hm as [<-|[<-|[]]]; [|discriminate].
           simpl in Hid. congruence.
    + left. exact H.
    + right. right. exists (plug fs1 (normalize_node P)). split; [exact H|].
      split; [rewrite !text_plug, HtA; reflexivity|].
      split; [destruct fs1; [contradiction|apply plug_is_element]|].
      apply plug_has_element; [exact Hne|reflexivity].
Qed.

End UnwrapKeeps.

(** *** [revert] *)

Section RevertFacts.

Variable k : nat.
Variable R : nat.
Variable T : jsstring.
Variable E : list nat.

Lemma lookup_nid (x : nat) (f : forest) (n : Node) : lookup x f = Some n -> nid n = x.
Proof. intros H. destruct (lookup_nodes x f n H) as (_ & _ & _ & E0). exact E0. Qed.

Lemma unwrap_Undo (st st' : State) (el : nat) (D : list nat) :
  Undo k R T E st ->
  (forall e, In e D -> undone (dom st) e) ->
  In el E ->
  unwrap el st = (Ok tt, st') ->
  Undo k R T E st'
  /\ (forall e, In e (D ++ [el]) -> undone (dom st') e)
  /\ reverts st' = reverts st.
Proof.
  intros [Hnd (n & HR & HT & Htop) Hold Hels] HD Hel Hrun.
  destruct (Hels el Hel) as (Hk & t & cs & Hl & Hthin).
  destruct (unwrap_inv st st' el t cs Hnd Hl Hthin Hrun)
    as (Hnd' & _ & Hr & Hl' & Hin & Hkeep & Hother).
  split; [|split; [|exact Hr]].
  - constructor.
    + exact Hnd'.
    + destruct (is_text n) eqn:Hn.
      * destruct (Htop eq_refl) as [->|Hin0]; [destruct Hel|].
        assert (Hin' : In n (dom st')).
        { apply Hkeep; [exact Hin0|]. destruct n; [reflexivity|discriminate]. }
        exists n. split; [|split; [exact HT|]].
        -- rewrite <- (lookup_nid _ _ _ HR). exact (lookup_in_top _ _ Hnd' Hin').
        -- intros _. right. exact Hin'.
      * assert (Hne : R <> el) by lia.
        destruct (Hother R n HR Hn Hne) as [H|[H|(n' & H & Ht' & Hn' & _)]].
        -- exists n. split; [exact H|]. split; [exact HT|]. rewrite Hn. discriminate.
        -- exists (normalize_node n). split; [exact H|].
           split; [rewrite text_normalize; exact HT|].
           rewrite is_text_normalize, Hn. discriminate.
        -- exists n'. split; [exact H|]. split; [congruence|]. rewrite Hn'. discriminate.
    + exact Hold.
    + intros e He. destruct (Nat.eq_dec e el) as [->|Hne].
      * split; [exact Hk|]. exists t, []. split; [exact Hl'|reflexivity].
      * destruct (Hels e He) as (Hke & t' & cs' & Hle & Hthin').
        split; [exact Hke|].
        destruct (Hother e _ Hle eq_refl Hne) as [H|[H|(n' & H & _ & _ & x & Hx & Hxt)]].
        -- exists t', cs'. auto.
        -- exists t', (merge_texts (map normalize_node cs')).
           split; [exact H|apply thin_normalize; exact Hthin'].
        -- simpl in Hx. destruct cs' as [|[c d|] [|]]; try discriminate.
           ++ destruct Hx.
           ++ destruct Hx as [<-|[]]. discriminate.
  - intros e He. apply in_app_or in He as [He|[<-|[]]].
    + destruct (HD e He) as (t' & Ht'). exists t'. apply Hkeep; [exact Ht'|reflexivity].
    + exists t. exact Hin.
Qed.

Lemma unwrap_all_Undo (els : list nat) :
  forall (st st' : State) (D : list nat),
    Undo k R T E st ->
    (forall e, In e D -> undone (dom st) e) ->
    (forall e, In e els -> In e E) ->
    unwrap_all els st = (Ok tt, st') ->
    Undo k R T E st'
    /\ (forall e, In e (D ++ els) -> undone (dom st') e)
    /\ reverts st' = reverts st.
Proof.
  induction els as [|el els IH]; intros st st' D HU HD Hin Hrun; simpl in Hrun.
  - unfold ret in Hrun. injection Hrun as <-. rewrite app_nil_r. auto.
  - apply bind_ok in Hrun as ([] & st1 & H1 & Hrun).
    destruct (unwrap_Undo st st1 el D HU HD (Hin el (or_introl eq_refl)) H1)
      as (HU1 & HD1 & Hr1).
    destruct (IH st1 st' (D ++ [el]) HU1 HD1 (fun e He => Hin e (or_intror He)) Hrun)
      as (HU' & HD' & Hr').
    split; [exact HU'|]. split; [|congruence].
    intros e He. apply HD'. rewrite <- app_assoc. exact He.
Qed.

Lemma Undo_same_dom (st st' : State) :
  dom st' = dom st -> Undo k R T E st -> Undo k R T E st'.
Proof.
  intros Hd [H1 H2 H3 H4]. constructor; rewrite ?Hd; auto.
Qed.

Lemma nth_error_update_nth {A : Type} (i j : nat) (x : A) (l : list A) :
  j <> i -> nth_error (update_nth i x l) j = nth_error l j.
Proof.
  revert i j. induction l as [|a l IH]; intros [|i] [|j] H; simpl; auto; try congruence.
Qed.

Lemma length_update_nth {A : Type} (i : nat) (x : A) (l : list A) :
  length (update_nth i x l) = length l.
Proof.
  revert i. induction l as [|a l IH]; intros [|i]; simpl; auto.
Qed.

(** [reverts[i]()] takes out the replacement nodes of the [i]th splice. *)
Lemma call_revert_Undo (i : nat) (st st' : State) (l : list RevertAction)
      (a : RevertAction) (D : list nat) :
  reverts st = Some l ->
  nth_error l i = Some a ->
  (forall e, In e (rev_els a) -> In e E) ->
  Undo k R T E st ->
  (forall e, In e D -> undone (dom st) e) ->
  call_revert i st = (Ok tt, st') ->
  Undo k R T E st'
  /\ (forall e, In e (D ++ rev_els a) -> undone (dom st') e)
  /\ exists l', reverts st' = Some l' /\ length l' = length l
                /\ forall j, j <> i -> nth_error l' j = nth_error l j.
Proof.
  intros Hr Hn Ha HU HD Hrun. unfold call_revert in Hrun. rewrite Hr, Hn in Hrun.
  destruct a as [el|elA inn elB].
  - destruct (unwrap_Undo st st' el D HU HD (Ha el (or_introl eq_refl)) Hrun)
      as (HU' & HD' & Hr').
    split; [exact HU'|]. split; [exact HD'|].
    exists l. split; [congruence|]. split; reflexivity.
  - set (st0 := mkState _ _ _) in Hrun.
    destruct (unwrap_all_Undo (elA :: inn ++ [elB]) st0 st' D) as (HU' & HD' & Hr').
    + apply (Undo_same_dom st); [reflexivity|exact HU].
    + exact HD.
    + exact Ha.
    + exact Hrun.
    + split; [exact HU'|]. split; [exact HD'|].
      eexists. split; [rewrite Hr'; reflexivity|].
      split; [apply length_update_nth|].
      intros j Hj. apply nth_error_update_nth. exact Hj.
Qed.

Lemma revert_loop_Undo (n : nat) :
  forall (i : nat) (st st' : State) (l : list RevertAction) (D : list nat),
    reverts st = Some l ->
    i + n = length l ->
    (forall j a e, i <= j -> nth_error l j = Some a -> In e (rev_els a) -> In e E) ->
    Undo k R T E st ->
    (forall e, In e D -> undone (dom st) e) ->
    revert_loop n i st = (Ok tt, st') ->
    Undo k R T E st'
    /\ (forall e, In e D -> undone (dom st') e)
    /\ (forall j a e, i <= j -> nth_error l j = Some a -> In e (rev_els a) ->
                      undone (dom st') e).
Proof.
  induction n as [|n IH]; intros i st st' l D Hr Hlen Hin HU HD Hrun; simpl in Hrun.
  - unfold ret in Hrun. injection Hrun as <-. split; [exact HU|]. split; [exact HD|].
    intros j a e Hj Hn _.
    assert (j < length l) by (apply nth_error_Some; congruence). lia.
  - apply bind_ok in Hrun as ([] & st1 & H1 & Hrun).
    destruct (nth_error l i) as [a|] eqn:Hn.
    2:{ apply nth_error_None in Hn. lia. }
    destruct (call_revert_Undo i st st1 l a D Hr Hn
                               (fun e He => Hin i a e (Nat.le_refl i) Hn He) HU HD H1)
      as (HU1 & HD1 & l' & Hr1 & Hlen1 & Hnth).
    destruct (IH (S i) st1 st' l' (D ++ rev_els a) Hr1) as (HU' & HD' & Hrest).
    + lia.
    + intros j b e Hj Hb He. rewrite Hnth in Hb by lia. exact (Hin j b e ltac:(lia) Hb He).
    + exact HU1.
    + exact HD1.
    + exact Hrun.
    + split; [exact HU'|]. split.
      * intros e He. apply HD'. apply in_or_app. left. exact He.
      * intros j b e Hj Hb He. destruct (Nat.eq_dec j i) as [->|Hji].
        -- apply HD'. apply in_or_app. right. congruence.
        -- apply (Hrest j b e); [lia| |exact He]. rewrite Hnth by exact Hji. exact Hb.
Qed.

(** [revert] on a store whose recorded replacement nodes are all as
    [makeReplacementNode] has made them: if it returns, the text of the
    node [R] is what it was, the replacement nodes are out of the document,
    and [reverts] is the empty array. *)
Lemma revert_Undo (st st' : State) :
  Undo k R T E st ->
  (forall e, In e (pending_els st) -> In e E) ->
  revert st = (Ok tt, st') ->
  Undo k R T E st'
  /\ reverts st' = Some []
  /\ (forall e, In e (pending_els st) -> undone (dom st') e).
Proof.
  intros HU HE Hrun. unfold revert in Hrun. unfold pending_els in *.
  destruct (reverts st) as [l|] eqn:Hr; [|discriminate].
  apply bind_ok in Hrun as ([] & st1 & H1 & Hrun). injection Hrun as <-.
  destruct (revert_loop_Undo (length l) 0 st st1 l [] Hr eq_refl) as (HU1 & _ & HD1).
  - intros j a e _ Hn He. apply HE. apply in_flat_map. exists a.
    split; [exact (nth_error_In _ _ Hn)|exact He].
  - exact HU.
  - intros e [].
  - exact H1.
  - split; [apply (Undo_same_dom st1); [reflexivity|exact HU1]|].
    split; [reflexivity|].
    intros e He. apply in_flat_map in He as (a & Ha & He).
    apply In_nth_error in Ha as (j & Hj).
    exact (HD1 j a e (Nat.le_0_l j) Hj He).
Qed.

End RevertFacts.

(** *** The call as a whole *)

Section CallFacts.
Local Open Scope Z_scope.

Lemma walk_loop_inv (k : nat) (tg : jsstring) (R : nat) (T : jsstring) (HT : T <> [])
      (fuel bound : nat) :
  forall (w : Walk) (st st' : State) (pre post : forest) (inner outer : list Frame)
         (sub : Node),
    Inv k tg R T w st pre inner outer sub post ->
    walk_loop fuel bound R (replace (makeReplacementNode k (reparse_name tg))) w st = (Ok tt, st') ->
    Ended k tg R T st'.
Proof.
  induction fuel as [|fuel IH]; intros w st st' pre post inner outer sub HI Hrun;
    [discriminate|].
  cbn [walk_loop] in Hrun. apply bind_ok in Hrun as (nx & st1 & Hs & Hrun).
  pose proof (walk_step_inv k tg R T HT bound w st st1 pre post inner outer sub nx HI Hs) as H.
  destruct nx as [w'|].
  - destruct H as (pre' & inner' & outer' & sub' & post' & H).
    exact (IH w' st1 st' pre' post' inner' outer' sub' H Hrun).
  - unfold ret in Hrun. injection Hrun as <-. exact H.
Qed.

Lemma distinct_NoDup (l : list nat) : distinct l = true -> NoDup l.
Proof.
  induction l as [|a l IH]; simpl; intros H; constructor.
  - apply andb_prop in H as [H _]. intros Hin.
    assert (E : existsb (Nat.eqb a) l = true).
    { apply existsb_exists. exists a. split; [exact Hin|apply Nat.eqb_refl]. }
    rewrite E in H. discriminate.
  - apply andb_prop in H as [_ H]. exact (IH H).
Qed.

Lemma well_formed_spec (st : State) :
  well_formed st = true ->
  NoDup (all_ids (dom st)) /\ (forall i, In i (all_ids (dom st)) -> (i < nextId st)%nat).
Proof.
  unfold well_formed. intros H. apply andb_prop in H as [H1 H2]. split.
  - exact (distinct_NoDup _ H1).
  - intros i Hi. rewrite forallb_forall in H2. apply Nat.ltb_lt. exact (H2 i Hi).
Qed.

(** The store after [_genReplacer], for a node name. *)
Lemma Kept_prepared (name tg : jsstring) (st : State) :
  well_formed st = true ->
  parse_back name = [E tg []] ->
  Kept (nextId st) tg (prepared (NodeName name) st) [].
Proof.
  intros H Hpl. apply well_formed_spec in H as [Hnd Hb].
  constructor; simpl.
  - unfold all_ids. rewrite flat_map_app. simpl.
    apply NoDup_app_intro; [exact Hnd| |].
    + constructor; [simpl; tauto|constructor].
    + intros i Hi [<-|[]]. specialize (Hb _ Hi). lia.
  - intros i Hi. unfold all_ids in Hi. rewrite flat_map_app in Hi.
    apply in_app_or in Hi as [Hi|[<-|[]]]; [specialize (Hb i Hi)|]; lia.
  - constructor.
  - intros i [].
  - intros i [].
  - exists name. split; [|exact Hpl]. apply in_or_app. right. left. reflexivity.
  - exact (parse_back_again name tg Hpl).
  - discriminate.
Qed.

Lemma truthy_not_empty (s : jsstring) : truthy s = true -> s <> [].
Proof. destruct s; [discriminate|discriminate]. Qed.

Lemma nodes_ids (n m : Node) : In m (nodes n) -> In (nid m) (ids n).
Proof.
  intros H. destruct (nodes_plug n m H) as [fs ->]. apply in_ids_plug, nid_in_ids.
Qed.

(** The nodes of a store in which every identity is below [k]. *)
Lemma settled_below (k : nat) (n : Node) :
  (forall i, In i (ids n) -> (i < k)%nat) -> settled k n.
Proof.
  intros H m Hm _. apply H, nodes_ids, Hm.
Qed.

Lemma old_frames_below (k : nat) (fs : list Frame) :
  (forall i, In i (frame_ids fs) -> (i < k)%nat) -> old_frames k fs.
Proof.
  intros H fr Hfr. split; [exact (H _ (frame_id_in fr fs Hfr))|].
  intros c Hc. apply settled_below. intros i Hi. apply H.
  apply (frame_right_in i fr fs Hfr). apply in_flat_map. exists c. auto.
Qed.

(** The store after a call that has returned: what [revert] starts from. *)
Lemma call_Undo (fuel : nat) (regex : RegExp) (node : nat) (tag tg : jsstring)
      (captureGroup : option Z) (st st' : State) (n : Node) :
  well_formed st = true ->
  parse_back tag = [E tg []] ->
  lookup node (dom st) = Some n ->
  engine_ok regex (text_of n) = true ->
  captures_inside regex (text_of n) captureGroup = true ->
  findAndReplaceDOMText fuel regex node (NodeName tag) captureGroup st = (Ok tt, st') ->
  Undo (nextId st) node (text_of n) (pending_els st') st'.
Proof.
  intros Hwf Hpl Hnode Hok Hin Hrun.
  rewrite (far_unfold fuel regex node (NodeName tag) captureGroup st n Hnode) in Hrun.
  pose proof (prepared_keeps (NodeName tag) st node n Hnode) as Hn'.
  pose proof (Kept_prepared tag tg st Hwf Hpl) as HK.
  destruct (well_formed_spec st Hwf) as [Hnd Hb].
  assert (Hold : (node < nextId st)%nat) by exact (Hb _ (lookup_ids _ _ _ Hnode)).
  assert (Hnone : Undo (nextId st) node (text_of n)
                       (pending_els (prepared (NodeName tag) st))
                       (prepared (NodeName tag) st)).
  { constructor.
    - exact (k_nodup _ _ _ _ HK).
    - exists n. split; [exact Hn'|]. split; [reflexivity|]. intros _. left. reflexivity.
    - exact Hold.
    - intros el []. }
  destruct (truthy (text_of n)) eqn:Et; simpl negb in Hrun; cbv iota in Hrun.
  2:{ injection Hrun as <-. exact Hnone. }
  destruct (locate fuel regex (text_of n) captureGroup) as [[|first rest]|e|] eqn:Hl;
    try discriminate.
  { injection Hrun as <-. exact Hnone. }
  clear Hnone.
  pose proof (locate_chain_in fuel regex (text_of n) captureGroup _ Hok Hin Hl) as Hch.
  unfold _stepThroughMatches in Hrun. simpl replacer in Hrun.
  rewrite (reparse_back tag tg Hpl) in Hrun.
  destruct (lookup_sound _ _ _ Hnode) as (pre & fs & post & Hd & Hid).
  assert (Hd' : dom (prepared (NodeName tag) st)
                = pre ++ plug fs n :: (post ++ [stencil (nextId st) tag])).
  { simpl. rewrite Hd, <- app_assoc. reflexivity. }
  assert (Hsub : forall i, In i (ids n) -> (i < nextId st)%nat).
  { intros i Hi. apply Hb. rewrite Hd. unfold all_ids. rewrite ids_forest_split.
    apply in_or_app. right. apply in_or_app. left. apply in_ids_plug. exact Hi. }
  assert (Hfs : forall i, In i (frame_ids fs) -> (i < nextId st)%nat).
  { intros i Hi. apply Hb. rewrite Hd. unfold all_ids. rewrite ids_forest_split.
    apply in_or_app. right. apply in_or_app. left.
    apply (Permutation_in _ (Permutation_sym (ids_plug fs n))).
    apply in_or_app. right. exact Hi. }
  destruct n as [x d|i t cs].
  - simpl in Hid. subst x.
    assert (HG : Gen (nextId st) tg node d
                     (mkWalk None None 0 0 [] 0 node first rest 0)
                     (prepared (NodeName tag) st)).
    { constructor; cbn [curNode atIndex startNode endNode matchLocation matches].
      - exact HK.
      - intros el [].
      - exists [], d. split; [reflexivity|]. split; [reflexivity|exact Hn'].
      - intros p Hp. unfold parentNode in Hp. rewrite Hd' in Hp.
        pose proof (k_nodup _ _ _ _ HK) as Hnd'. rewrite Hd' in Hnd'.
        destruct fs as [|fr fs].
        + pose proof (place_in_top pre _ (Text node d) Hnd') as E.
          simpl in E, Hp. rewrite E in Hp. discriminate.
        + pose proof (place_in_focus pre _ fr fs (Text node d) Hnd') as E.
          simpl nid in E. rewrite E in Hp. injection Hp as <-.
          apply Hfs. left. reflexivity.
      - split; reflexivity.
      - exact Hch.
      - left. split; reflexivity. }
    destruct (gen_loop (nextId st) tg node d fuel fuel _ _ st' HG Hrun)
      as [HK' HW' Hin'].
    constructor.
    + exact (k_nodup _ _ _ _ HK').
    + exists (Text node d). split; [|split; [reflexivity|intros _; right; exact Hin']].
      exact (lookup_in_top _ _ (k_nodup _ _ _ _ HK') Hin').
    + exact Hold.
    + exact HW'.
  - simpl in Hid. subst i.
    assert (HI : Inv (nextId st) tg node (text_of (Element node t cs))
                     (mkWalk None None 0 0 [] 0 node first rest 0)
                     (prepared (NodeName tag) st) pre [] fs (Element node t cs)
                     (post ++ [stencil (nextId st) tag])).
    { constructor.
      - constructor; auto.
      - reflexivity.
      - reflexivity.
      - reflexivity.
      - split; [reflexivity|]. split; [simpl; lia|]. exact Hch.
      - reflexivity.
      - apply settled_below. exact Hsub.
      - constructor.
        + intros el [].
        + apply old_frames_below. exact Hfs.
        + intros y []. }
    destruct (walk_loop_inv (nextId st) tg node (text_of (Element node t cs))
                (truthy_not_empty _ Et) fuel fuel _ _ st' pre
                (post ++ [stencil (nextId st) tag]) [] fs
                (Element node t cs) HI Hrun)
      as [HK' HW' (n' & Hl' & Ht' & He')].
    constructor.
    + exact (k_nodup _ _ _ _ HK').
    + exists n'. split; [exact Hl'|]. split; [exact Ht'|]. rewrite He'. discriminate.
    + exact Hold.
    + exact HW'.
Qed.

End CallFacts.

(** *** A node name that the parser does not give back *)

Section NoElement.

Lemma fails_bind_l {A B : Type} (m : M A) (f : A -> M B) : fails m -> fails (bind m f).
Proof.
  intros H st b st'. unfold bind. destruct (m st) as [[a|e|] st1] eqn:E; try discriminate.
  exfalso. exact (H _ _ _ E).
Qed.

Lemma fails_bind_when {A B : Type} (m : M A) (f : A -> M B) (P : A -> Prop) :
  (forall st a st', m st = (Ok a, st') -> P a) ->
  (forall a, P a -> fails (f a)) ->
  fails (bind m f).
Proof.
  intros Hm Hf st b st'. unfold bind. destruct (m st) as [[a|e|] st1] eqn:E; try discriminate.
  apply Hf. exact (Hm _ _ _ E).
Qed.

Lemma fails_bind_r {A B : Type} (m : M A) (f : A -> M B) :
  (forall a, fails (f a)) -> fails (bind m f).
Proof.
  intros Hf. apply (fails_bind_when m f (fun _ => True)); auto.
Qed.

Lemma fails_insert_none (x : nat) : fails (insert_made_before None x).
Proof.
  unfold insert_made_before. apply fails_bind_r. intros p. apply fails_bind_r. intros p'.
  apply fails_bind_l. intros st a st' H. discriminate.
Qed.

(** Without an element from the parser, [makeReplacementNode] returns
    [null] for an empty text and throws for any other. *)
Lemma make_none (stencil : nat) (name fill : jsstring) (mi : Z) (st st' : State)
      (o : option Node) :
  parse_back name = [] ->
  makeReplacementNode stencil (reparse_name name) fill mi st = (Ok o, st') -> o = None.
Proof.
  intros Hb. unfold makeReplacementNode, bind, get_node, reparse_name.
  destruct (lookup stencil (dom st)); [|discriminate].
  rewrite Hb. destruct (truthy fill); [discriminate|].
  intros H. injection H as <- _. reflexivity.
Qed.

(** [replace] then throws, in either branch, at the latest when it
    inserts the first replacement node. *)
Lemma replace_fails (make : jsstring -> Z -> M (option Node)) (range : Range) :
  (forall fill mi st o st', make fill mi st = (Ok o, st') -> o = None) ->
  fails (replace make range).
Proof.
  intros Hm. unfold replace. destruct (r_startNode range =? r_endNode range).
  - apply fails_bind_r. intros _.
    apply (fails_bind_when _ _ (fun o => o = None)); [intros st a st'; apply Hm|].
    intros o ->. apply fails_bind_l. apply fails_insert_none.
  - apply fails_bind_r; intros ds. apply fails_bind_r; intros b.
    apply fails_bind_r; intros de. apply fails_bind_r; intros a.
    apply (fails_bind_when _ _ (fun o => o = None)); [intros st x st'; apply Hm|].
    intros o ->. apply fails_bind_r; intros els. apply fails_bind_r; intros oB.
    apply fails_bind_r; intros _. apply fails_bind_l. apply fails_insert_none.
Qed.

Lemma quiet_bind {A B : Type} (m : M A) (f : A -> M B) :
  quiet m -> (forall a, quiet (f a)) -> quiet (bind m f).
Proof.
  intros Hm Hf st b st'. unfold bind. destruct (m st) as [[a|e|] st1] eqn:E; try discriminate.
  intros H. rewrite (Hf a _ _ _ H). exact (Hm _ _ _ E).
Qed.

Lemma quiet_fails {A : Type} (m : M A) : fails m -> quiet m.
Proof. intros H st a st' E. exfalso. exact (H _ _ _ E). Qed.

Lemma quiet_ret {A : Type} (a : A) : quiet (ret a).
Proof. intros st b st' H. injection H as _ <-. reflexivity. Qed.

Lemma quiet_throw {A : Type} (e : Exn) : quiet (@throw A e).
Proof. intros st b st' H. discriminate. Qed.

Lemma quiet_get {A : Type} (g : State -> A) : quiet (fun st => (Ok (g st), st)).
Proof. intros st b st' H. injection H as _ <-. reflexivity. Qed.

Lemma quiet_get_node (x : nat) : quiet (get_node x).
Proof.
  intros st b st'. unfold get_node. destruct (lookup x (dom st)); [|discriminate].
  intros H. injection H as _ <-. reflexivity.
Qed.

Lemma quiet_forward_or_up (fuel node cur : nat) : quiet (forward_or_up fuel node cur).
Proof.
  revert cur. induction fuel as [|fuel IH]; intros cur; simpl.
  - intros st b st' H. discriminate.
  - apply quiet_bind; [exact (quiet_get _)|]. intros [s|]; [apply quiet_ret|].
    apply quiet_bind; [exact (quiet_get _)|]. intros [p|]; [|apply quiet_throw].
    destruct (p =? node); [apply quiet_ret|apply IH].
Qed.

(** A walk whose replacement function never returns leaves the store as
    it is, if it returns itself. *)
Lemma quiet_walk_step (fuel node : nat) (replaceFn : Range -> M nat) (w : Walk) :
  (forall range, fails (replaceFn range)) -> quiet (walk_step fuel node replaceFn w).
Proof.
  intros Hr. unfold walk_step.
  apply quiet_bind; [apply quiet_get_node|]. intros n.
  set (w1 := if is_text n then visit_text w (len (data_of n)) else w).
  assert (On : quiet (fc <- get_firstChild (curNode w1) ;;
                      ns <- get_nextSibling (curNode w1) ;;
                      match (match fc with Some c => Some c | None => ns end) with
                      | Some c => ret (Continue (move_to w1 c))
                      | None =>
                          nx <- forward_or_up fuel node (curNode w1) ;;
                          match nx with
                          | Some c => ret (Continue (move_to w1 c))
                          | None => ret Break
                          end
                      end)).
  { apply quiet_bind; [exact (quiet_get _)|]. intros fc.
    apply quiet_bind; [exact (quiet_get _)|]. intros ns.
    destruct (match fc with Some c => Some c | None => ns end); [apply quiet_ret|].
    apply quiet_bind; [apply quiet_forward_or_up|]. intros [c|]; apply quiet_ret. }
  destruct (startNode w1) as [s|]; [destruct (endNode w1) as [e|]|]; try exact On.
  apply quiet_fails, fails_bind_l, Hr.
Qed.

Lemma quiet_walk_loop (fuel bound node : nat) (replaceFn : Range -> M nat) :
  (forall range, fails (replaceFn range)) ->
  forall w, quiet (walk_loop fuel bound node replaceFn w).
Proof.
  intros Hr. induction fuel as [|fuel IH]; intros w; simpl.
  - intros st b st' H. discriminate.
  - apply quiet_bind; [apply quiet_walk_step; exact Hr|].
    intros [w'|]; [apply IH|apply quiet_ret].
Qed.

(** A call with such a node name makes no replacement: if it returns, the
    store is as [_genReplacer] has left it. *)
Lemma call_without_element (fuel : nat) (regex : RegExp) (node : nat) (tag : jsstring)
      (captureGroup : option Z) (st st' : State) (n : Node) :
  parse_back tag = [] ->
  lookup node (dom st) = Some n ->
  findAndReplaceDOMText fuel regex node (NodeName tag) captureGroup st = (Ok tt, st') ->
  st' = prepared (NodeName tag) st.
Proof.
  intros Hb Hnode.
  rewrite (far_unfold fuel regex node (NodeName tag) captureGroup st n Hnode).
  destruct (negb (truthy (text_of n))); [intros H; injection H as <-; reflexivity|].
  destruct (locate fuel regex (text_of n) captureGroup) as [[|first rest]|e|];
    try discriminate.
  - intros H. injection H as <-. reflexivity.
  - unfold _stepThroughMatches. simpl replacer. intros H.
    refine (quiet_walk_loop fuel fuel node _ _ _ _ _ _ H).
    intros range. apply replace_fails.
    intros fill mi st1 o st2. apply make_none. exact Hb.
Qed.

End NoElement.

(** *** Replace, then revert *)

Section RoundTrip.
Import Scenario.
Import String.StringSyntax.
Local Open Scope string_scope.
Local Open Scope Z_scope.

(** X11. A call with a node name that the parser reads back as an element
    without a child, which completes, and then a [revert] that completes:
    [reverts] is the empty array; the node has the aggregate text that it
    had before the call; and every replacement node that the call has
    recorded, in the order of the replacements, has been taken out: it is
    out of the document and has no child. The conditions on the store, on
    the host's [exec] and on the selected capture group are those of the
    call alone ([well_formed], [engine_ok], [captures_inside]). *)
Theorem round_trip
        (fuel : nat) (regex : RegExp) (node : nat) (tag tg : jsstring)
        (captureGroup : option Z) (st st1 st2 : State) (n : Node)
        (Hwf : well_formed st = true)
        (Hback : parse_back tag = [E tg []])
        (Hnode : lookup node (dom st) = Some n)
        (Hok : engine_ok regex (text_of n) = true)
        (Hin : captures_inside regex (text_of n) captureGroup = true)
        (Hrun : findAndReplaceDOMText fuel regex node (NodeName tag) captureGroup st
                = (Ok tt, st1))
        (Hrev : revert st1 = (Ok tt, st2)) :
  reverts st2 = Some []
  /\ (exists n', lookup node (dom st2) = Some n' /\ text_of n' = text_of n)
  /\ (forall el, In el (pending_els st1) -> undone (dom st2) el).
Proof.
  pose proof (call_Undo fuel regex node tag tg captureGroup st st1 n Hwf Hback Hnode Hok Hin
                        Hrun) as HU.
  destruct (revert_Undo (nextId st) node (text_of n) (pending_els st1) st1 st2 HU
                        (fun e He => He) Hrev)
    as ([_ (n' & Hl & Ht & _) _ _] & Hr & Hd).
  split; [exact Hr|]. split; [exists n'; auto|exact Hd].
Qed.

(** The match that spans the three Text nodes of [foo <b>bar</b> baz]: the
    call records the three replacement nodes 8, 10 and 12; [revert] then
    leaves the [div] with the children Text "foo ", b[Text "bar"] and
    Text " baz". *)
Lemma round_trip_witness :
  let r := findAndReplaceDOMText 9 (compile true re_foo_bar_baz) 0 em None (page div_foo) in
  let r' := revert (snd r) in
  fst r = Ok tt
  /\ pending_els (snd r) = [8; 10; 12]%nat
  /\ fst r' = Ok tt
  /\ child_shapes 0 (snd r')
     = Some [T (lit "foo "); E (lit "b") [T (lit "bar")]; T (lit " baz")]
  /\ reverts (snd r') = Some []
  /\ (exists n', lookup 0 (dom (snd r')) = Some n' /\ text_of n' = lit "foo bar baz")
  /\ (forall el, In el (pending_els (snd r)) -> undone (dom (snd r')) el).
Proof.
  split; [vm_compute; reflexivity|].
  split; [vm_compute; reflexivity|].
  split; [vm_compute; reflexivity|].
  split; [vm_compute; reflexivity|].
  apply (round_trip 9 (compile true re_foo_bar_baz) 0 (lit "em") (lit "em") None
           (page div_foo)
           (snd (findAndReplaceDOMText 9 (compile true re_foo_bar_baz) 0 em None
                   (page div_foo)))
           (snd (revert (snd (findAndReplaceDOMText 9 (compile true re_foo_bar_baz) 0 em
                                None (page div_foo)))))
           div_foo); vm_compute; reflexivity.
Defined.

(** With a group inside a look-ahead the text is not restored: the pattern
    a(?=(bab)) with capture group 1 on [<p>abab</p>] makes one
    replacement, with the text "bab" that lies after the match "a";
    [revert] completes and clears the revert list, and the paragraph is
    left with the single Text node "babab". *)
Lemma lookahead_group_round_trip :
  let r := findAndReplaceDOMText 9 (compile false re_ahead) 0 em (Some 1) (page p_abab) in
  let r' := revert (snd r) in
  fst r = Ok tt
  /\ pending_els (snd r) = [3%nat]
  /\ fst r' = Ok tt
  /\ reverts (snd r') = Some []
  /\ flat 0 (page p_abab) = Some (lit "abab")
  /\ child_shapes 0 (snd r') = Some [T (lit "babab")]
  /\ flat 0 (snd r') = Some (lit "babab").
Proof.
  vm_compute. repeat split; reflexivity.
Qed.

End RoundTrip.

(* ===================================================================== *)
(** ** Further properties *)
(* ===================================================================== *)

(** *** The locations of the matches *)

Section DescriptorFacts.
Import Scenario.
Import String.StringSyntax.
Local Open Scope string_scope.
Local Open Scope Z_scope.

Lemma chain_in_each (T : jsstring) (l : list MatchLocation) :
  forall lo, chain_in T lo l ->
  forall a, In a l ->
    lo <= loc_start a /\ loc_start a < loc_end a /\ loc_end a <= len T
    /\ loc_match a = [substring T (loc_start a) (loc_end a)].
Proof.
  induction l as [|b l IH]; simpl; intros lo H a Ha; [contradiction|].
  destruct H as (H1 & H2 & H3 & H4 & H5).
  destruct Ha as [<-|Ha]; [auto|].
  destruct (IH _ H5 a Ha) as (K1 & K2 & K3 & K4).
  repeat split; auto; lia.
Qed.

Lemma chain_in_count (T : jsstring) (l : list MatchLocation) :
  forall lo, chain_in T lo l -> l <> [] -> lo + Z.of_nat (length l) <= len T.
Proof.
  induction l as [|b l IH]; simpl; intros lo H Hne; [congruence|].
  destruct H as (H1 & H2 & H3 & H4 & H5).
  destruct l as [|c l'].
  - simpl. lia.
  - assert (Hn : c :: l' <> []) by discriminate.
    specialize (IH _ H5 Hn). simpl length in *. lia.
Qed.

Lemma locate_chain_from (fuel : nat) (regex : RegExp) (text : jsstring)
      (captureGroup : option Z) (ds : list MatchLocation) :
  engine_ok regex text = true ->
  captures_inside regex text captureGroup = true ->
  locate fuel regex text captureGroup = Ok ds ->
  chain_in text (Z.of_nat (first_search regex)) ds.
Proof.
  intros Hok Hin Hloc. unfold first_search.
  destruct (global regex) eqn:Hg.
  - unfold locate in Hloc. rewrite Hg in Hloc.
    apply (collect_chain_in regex text captureGroup Hok Hin fuel (lastIndex regex)
             (Z.of_nat (lastIndex regex)) [] ds); simpl; auto; lia.
  - exact (locate_chain_in fuel regex text captureGroup ds Hok Hin Hloc).
Qed.

(** X1. The locations that a search returns, for a pattern whose matches
    lie where the pattern engine says and whose selected capture group has
    its text inside the full match: each starts at or after the position
    the search has started from ([lastIndex] with the [g] flag, 0 without
    it), is not empty, ends inside the text, and carries the text that
    lies between its start and its end; there are at most as many as the
    text has characters. *)
Theorem descriptors_lie_in_text
        (fuel : nat) (regex : RegExp) (text : jsstring) (captureGroup : option Z)
        (ds : list MatchLocation)
        (Hok : engine_ok regex text = true)
        (Hin : captures_inside regex text captureGroup = true)
        (Hloc : locate fuel regex text captureGroup = Ok ds) :
  (forall a, In a ds ->
             Z.of_nat (first_search regex) <= loc_start a
             /\ loc_start a < loc_end a
             /\ loc_end a <= len text
             /\ loc_match a = [substring text (loc_start a) (loc_end a)])
  /\ (length ds <= length text)%nat.
Proof.
  pose proof (locate_chain_from fuel regex text captureGroup ds Hok Hin Hloc) as Hc.
  split.
  - intros a Ha. exact (chain_in_each text ds _ Hc a Ha).
  - destruct ds as [|d ds']; [simpl; lia|].
    assert (Hn : d :: ds' <> []) by discriminate.
    pose proof (chain_in_count text (d :: ds') _ Hc Hn) as H.
    unfold len in H. lia.
Qed.

Lemma descriptors_lie_in_text_witness :
  (forall a, In a [mkLoc 3 4 [lit "a"]; mkLoc 5 6 [lit "a"]] ->
             Z.of_nat (first_search (mkRegExp true 2 (exec_re (literal "a")))) <= loc_start a
             /\ loc_start a < loc_end a
             /\ loc_end a <= len (lit "banana")
             /\ loc_match a = [substring (lit "banana") (loc_start a) (loc_end a)])
  /\ (length [mkLoc 3 4 [lit "a"]; mkLoc 5 6 [lit "a"]] <= length (lit "banana"))%nat.
Proof.
  apply (descriptors_lie_in_text 8 (mkRegExp true 2 (exec_re (literal "a"))) (lit "banana") None);
    vm_compute; reflexivity.
Defined.

End DescriptorFacts.

Section RevertTwice.
Import Scenario.
Import String.StringSyntax.
Local Open Scope string_scope.

Lemma revert_clears (st st1 : State) :
  revert st = (Ok tt, st1) -> reverts st1 = Some [].
Proof.
  unfold revert. destruct (reverts st) as [l|]; [|discriminate].
  unfold bind.
  destruct (revert_loop (length l) 0 st) as [[[]|e|] st'] eqn:E; try discriminate.
  intros H. injection H as <-. reflexivity.
Qed.

(** X2. A [revert] that has returned leaves the revert list empty, so a
    second [revert] right after it returns as well and changes nothing. *)
Theorem revert_twice (st st1 : State)
        (Hrev : revert st = (Ok tt, st1)) :
  reverts st1 = Some [] /\ revert st1 = (Ok tt, st1).
Proof.
  pose proof (revert_clears st st1 Hrev) as H.
  split; [exact H|]. apply revert_empty. exact H.
Qed.

(** The paragraph [<p>This is a test</p>] after the word test has been
    replaced. *)
Lemma revert_twice_witness :
  let st := snd (findAndReplaceDOMText 3 (compile false re_test) 0 em None (page p_test)) in
  let st1 := snd (revert st) in
  reverts st1 = Some [] /\ revert st1 = (Ok tt, st1).
Proof.
  apply (revert_twice
           (snd (findAndReplaceDOMText 3 (compile false re_test) 0 em None (page p_test)))).
  vm_compute. reflexivity.
Defined.

End RevertTwice.

(** *** [bulshitize] *)

Section BullshitFacts.
Import String.StringSyntax.
Local Open Scope string_scope.
Local Open Scope Z_scope.

Lemma substr_tail (pre s3 : jsstring) :
  length s3 = 3%nat -> substr (pre ++ s3) (len (pre ++ s3) - 3) = s3.
Proof.
  intros H. unfold substr, len. rewrite length_app, H.
  replace (Z.of_nat (length pre + 3) - 3 <? 0) with false by (symmetry; apply Z.ltb_ge; lia).
  rewrite Z.min_l by lia.
  replace (Z.to_nat (Z.of_nat (length pre + 3) - 3)) with (length pre + 0)%nat by lia.
  rewrite skipn_app, skipn_all2 by lia.
  replace (length pre + 0 - length pre)%nat with 0%nat by lia. reflexivity.
Qed.

Lemma substr_three (s : jsstring) :
  length (substr s (len s - 3)) = 3%nat ->
  s = firstn (length s - 3) s ++ substr s (len s - 3).
Proof.
  unfold substr, len. intros H. rewrite length_skipn in H.
  destruct (Z.of_nat (length s) - 3 <? 0) eqn:E.
  - apply Z.ltb_lt in E. lia.
  - apply Z.ltb_ge in E. rewrite Z.min_l in * by lia.
    replace (Z.to_nat (Z.of_nat (length s) - 3)) with (length s - 3)%nat by lia.
    symmetry. apply firstn_skipn.
Qed.

(** X7. [bulshitize]: the element has the term as its title and the style
    color:red; its content is the word Bullshit, with a small b exactly
    when the first character of the term is a letter that [toUpperCase]
    changes, and followed by ing exactly when the term ends in ing, which
    a term of fewer than three characters never does; for the empty term
    it is Bullshit. *)
Theorem bulshitize_word (term : jsstring) :
  let a := bulshitize term in
  abbr_title a = term
  /\ abbr_style a = lit "color:red"
  /\ (ends_ing term ->
      abbr_innerHTML a = (if is_own_upper (charAt0 term) then lit "Bullshiting"
                          else lit "bullshiting"))
  /\ (~ ends_ing term ->
      abbr_innerHTML a = (if is_own_upper (charAt0 term) then lit "Bullshit"
                          else lit "bullshit"))
  /\ ((length term < 3)%nat -> ~ ends_ing term)
  /\ (forall c rest, term = c :: rest ->
                     is_own_upper (charAt0 term) = negb (has_upper c))
  /\ (term = [] -> abbr_innerHTML a = lit "Bullshit").
Proof.
  cbv zeta. unfold bulshitize. cbn [abbr_title abbr_style abbr_innerHTML].
  split; [reflexivity|]. split; [reflexivity|].
  assert (Hshort : (length term < 3)%nat -> ~ ends_ing term).
  { intros Hl [pre ->]. rewrite length_app in Hl. simpl in Hl. lia. }
  split; [|split; [|split; [exact Hshort|split; [intros c rest ->; reflexivity|]]]].
  - intros [pre ->]. rewrite substr_tail by reflexivity.
    unfold JsString.eqb. destruct (list_eq_dec ascii_dec (lit "ing") (lit "ing")); [|congruence].
    destruct (is_own_upper _); reflexivity.
  - intros Hn. unfold JsString.eqb.
    destruct (list_eq_dec ascii_dec (substr term (len term - 3)) (lit "ing")) as [E|E].
    + exfalso. apply Hn. exists (firstn (length term - 3) term).
      rewrite <- E. apply substr_three. rewrite E. reflexivity.
    + destruct (is_own_upper _); reflexivity.
  - intros ->. reflexivity.
Qed.

(** Three terms of the list. *)
Lemma bulshitize_examples :
  abbr_innerHTML (bulshitize (lit "synergy")) = lit "bullshit"
  /\ abbr_innerHTML (bulshitize (lit "Leveraging")) = lit "Bullshiting"
  /\ abbr_innerHTML (bulshitize (lit "24/7")) = lit "Bullshit".
Proof. vm_compute. auto. Qed.

End BullshitFacts.

(** *** The replacement nodes of a call are new *)

Section FreshFacts.
Local Open Scope nat_scope.

Lemma keeps_bind {A B : Type} (m : M A) (f : A -> M B) :
  keeps m -> (forall a, keeps (f a)) -> keeps (bind m f).
Proof.
  intros Hm Hf st b st' H. apply bind_ok in H as (a & st1 & H1 & H2).
  destruct (Hm _ _ _ H1) as [N1 R1]. destruct (Hf a _ _ _ H2) as [N2 R2].
  split; [lia|congruence].
Qed.

Lemma keeps_ret {A : Type} (a : A) : keeps (ret a).
Proof. intros st b st' H. injection H as <- <-. auto. Qed.

Lemma keeps_throw {A : Type} (e : Exn) : keeps (@throw A e).
Proof. intros st b st' H. discriminate. Qed.

Lemma keeps_deref {A : Type} (o : option A) : keeps (deref o).
Proof. destruct o; [apply keeps_ret|apply keeps_throw]. Qed.

Lemma keeps_get_node (x : nat) : keeps (get_node x).
Proof.
  intros st a st'. unfold get_node. destruct (lookup x (dom st)); [|discriminate].
  intros H. injection H as <- <-. auto.
Qed.

Lemma keeps_get_data (x : nat) : keeps (get_data x).
Proof.
  apply keeps_bind; [apply keeps_get_node|].
  intros [i d|i t cs]; [apply keeps_ret|apply keeps_throw].
Qed.

Lemma keeps_get_parentNode (x : nat) : keeps (get_parentNode x).
Proof. intros st a st' H. injection H as <- <-. auto. Qed.

Lemma keeps_get_nextSibling (x : nat) : keeps (get_nextSibling x).
Proof. intros st a st' H. injection H as <- <-. auto. Qed.

Lemma keeps_get_firstChild (x : nat) : keeps (get_firstChild x).
Proof. intros st a st' H. injection H as <- <-. auto. Qed.

Lemma keeps_dom_op (op : forest -> forest + DomError) : keeps (dom_op op).
Proof.
  intros st a st'. unfold dom_op. destruct (op (dom st)); [|discriminate].
  intros H. injection H as <- <-. auto.
Qed.

Lemma keeps_createTextNode (d : jsstring) : keeps (createTextNode d).
Proof. intros st a st' H. injection H as <- <-. simpl. auto. Qed.

Lemma keeps_insert_before_it (n : Node) (x : nat) : keeps (insert_before_it n x).
Proof.
  apply keeps_bind; [apply keeps_get_parentNode|]. intros p.
  apply keeps_bind; [apply keeps_deref|]. intros p'. apply keeps_dom_op.
Qed.

Lemma keeps_insert_made_before (o : option Node) (x : nat) : keeps (insert_made_before o x).
Proof.
  apply keeps_bind; [apply keeps_get_parentNode|]. intros p.
  apply keeps_bind; [apply keeps_deref|]. intros p'.
  apply keeps_bind; [apply keeps_deref|]. intros n.
  apply keeps_bind; [apply keeps_dom_op|]. intros _. apply keeps_ret.
Qed.

Lemma keeps_remove_it (x : nat) : keeps (remove_it x).
Proof.
  apply keeps_bind; [apply keeps_get_parentNode|]. intros p.
  apply keeps_bind; [apply keeps_deref|]. intros p'. apply keeps_dom_op.
Qed.

Lemma keeps_forward_or_up (fuel node cur : nat) : keeps (forward_or_up fuel node cur).
Proof.
  revert cur. induction fuel as [|fuel IH]; intros cur; simpl.
  - intros st a st' H. discriminate.
  - apply keeps_bind; [apply keeps_get_nextSibling|]. intros [s|]; [apply keeps_ret|].
    apply keeps_bind; [apply keeps_get_parentNode|]. intros [p|]; [|apply keeps_throw].
    destruct (p =? node); [apply keeps_ret|apply IH].
Qed.

Lemma keeps_make (stencil : nat) (reparse : Node -> list Shape) (fill : jsstring) (mi : Z) :
  keeps (makeReplacementNode stencil reparse fill mi).
Proof.
  intros st a st' H. destruct (make_keeps _ _ _ _ _ _ _ H) as (_ & H1 & H2). auto.
Qed.

(** The node that [makeReplacementNode] returns is a new one. *)
Lemma make_fresh (stencil : nat) (reparse : Node -> list Shape) (fill : jsstring) (mi : Z)
      (st st' : State) (n : Node) :
  makeReplacementNode stencil reparse fill mi st = (Ok (Some n), st') ->
  nextId st <= nid n.
Proof.
  unfold makeReplacementNode, bind at 1, get_node.
  destruct (lookup stencil (dom st)) as [sn|]; [|discriminate].
  unfold ret at 1. destruct (reparse sn) as [|sh l].
  - destruct (truthy fill); discriminate.
  - unfold bind at 1, alloc. destruct (truthy fill).
    + unfold bind at 1. rewrite createTextNode_eq.
      destruct sh as [d|t cs]; simpl; [discriminate|].
      unfold ret. intros H. injection H as <- _. simpl. lia.
    + unfold ret. intros H. injection H as <- _. destruct sh; simpl; lia.
Qed.

Lemma insert_made_before_some (o : option Node) (x : nat) (st st' : State) (n : Node) :
  insert_made_before o x st = (Ok n, st') -> o = Some n.
Proof.
  unfold insert_made_before, bind, get_parentNode.
  destruct (parentNode x (dom st)) as [p|]; simpl; [|discriminate].
  destruct o as [m|]; simpl; [|discriminate].
  destruct (dom_op (insertBefore p m x) st) as [[[]|e|] st1]; try discriminate.
  unfold ret. intros H. injection H as <- _. reflexivity.
Qed.

Section Made.
Variable stencil : nat.
Variable reparse : Node -> list Shape.
Local Abbreviation make := (makeReplacementNode stencil reparse).

Lemma replace_inner_fresh (mi : Z) (inner : list nat) :
  forall (els : list nat) (st st' : State) (out : list nat),
    replace_inner make mi inner els st = (Ok out, st') ->
    nextId st <= nextId st' /\ reverts st' = reverts st
    /\ exists news, out = els ++ news /\ forall e, In e news -> nextId st <= e.
Proof.
  induction inner as [|x inner IH]; intros els st st' out H; simpl in H.
  - injection H as <- <-. split; [lia|]. split; [reflexivity|].
    exists []. split; [symmetry; apply app_nil_r|intros e []].
  - apply bind_ok in H as (d & st1 & H1 & H). destruct (keeps_get_data _ _ _ _ H1) as [N1 R1].
    apply bind_ok in H as (o & st2 & H2 & H). destruct (keeps_make _ _ _ _ _ _ _ H2) as [N2 R2].
    apply bind_ok in H as (p & st3 & H3 & H).
    destruct (keeps_get_parentNode _ _ _ _ H3) as [N3 R3].
    apply bind_ok in H as (p' & st4 & H4 & H). destruct (keeps_deref _ _ _ _ H4) as [N4 R4].
    apply bind_ok in H as (n & st5 & H5 & H). destruct (keeps_deref _ _ _ _ H5) as [N5 R5].
    destruct o as [n'|]; [|discriminate]. simpl in H5. injection H5 as -> E5.
    pose proof (make_fresh _ _ _ _ _ _ _ H2) as F2.
    apply bind_ok in H as ([] & st6 & H6 & H). destruct (keeps_dom_op _ _ _ _ H6) as [N6 R6].
    destruct (IH _ _ _ _ H) as (N7 & R7 & news & -> & Hn).
    split; [lia|]. split; [congruence|].
    exists (nid n :: news). split; [rewrite <- app_assoc; reflexivity|].
    intros e [<-|He]; [lia|]. specialize (Hn e He). lia.
Qed.

Lemma push_revert_records (a : RevertAction) (st st' : State) :
  push_revert a st = (Ok tt, st') -> recorded st' = S (recorded st).
Proof.
  unfold push_revert, recorded. destruct (reverts st) as [l|]; [|discriminate].
  intros H. injection H as <-. simpl. rewrite length_app. simpl. lia.
Qed.

(** [replace] adds one inverse to the revert list, of nodes it has made
    itself. *)
Lemma replace_fresh (range : Range) (st st' : State) (el : nat) :
  replace make range st = (Ok el, st') ->
  nextId st <= nextId st'
  /\ recorded st' = S (recorded st)
  /\ exists news, pending_els st' = pending_els st ++ news
                  /\ forall e, In e news -> nextId st <= e.
Proof.
  unfold replace. destruct (r_startNode range =? r_endNode range).
  - intros H.
    apply bind_ok in H as ([] & st1 & H1 & H).
    assert (K1 : nextId st <= nextId st1 /\ reverts st1 = reverts st).
    { destruct (r_startNodeIndex range >? 0)%Z.
      - refine (keeps_bind _ _ (keeps_get_data _) _ _ _ _ H1). intros d.
        apply keeps_bind; [apply keeps_createTextNode|]. intros b.
        apply keeps_insert_before_it.
      - exact (keeps_ret _ _ _ _ H1). }
    destruct K1 as [N1 R1].
    apply bind_ok in H as (o & st2 & H2 & H). destruct (keeps_make _ _ _ _ _ _ _ H2) as [N2 R2].
    apply bind_ok in H as (n & st3 & H3 & H).
    destruct (keeps_insert_made_before _ _ _ _ _ H3) as [N3 R3].
    apply insert_made_before_some in H3. subst o.
    pose proof (make_fresh _ _ _ _ _ _ _ H2) as F2.
    apply bind_ok in H as (d & st4 & H4 & H). destruct (keeps_get_data _ _ _ _ H4) as [N4 R4].
    apply bind_ok in H as ([] & st5 & H5 & H).
    assert (K5 : nextId st4 <= nextId st5 /\ reverts st5 = reverts st4).
    { destruct (r_endNodeIndex range <? len d)%Z.
      - refine (keeps_bind _ _ (keeps_createTextNode _) _ _ _ _ H5). intros b.
        apply keeps_insert_before_it.
      - exact (keeps_ret _ _ _ _ H5). }
    destruct K5 as [N5 R5].
    apply bind_ok in H as ([] & st6 & H6 & H). destruct (keeps_remove_it _ _ _ _ H6) as [N6 R6].
    apply bind_ok in H as ([] & st7 & H7 & H).
    pose proof (push_revert_eq _ _ _ H7) as P7.
    pose proof (push_revert_records _ _ _ H7) as C7.
    apply push_revert_inv in H7 as (_ & N7 & _).
    injection H as _ <-.
    split; [lia|].
    split; [rewrite C7; unfold recorded; rewrite R6, R5, R4, R3, R2, R1; reflexivity|].
    exists [nid n]. split.
    + rewrite P7. unfold pending_els. rewrite R6, R5, R4, R3, R2, R1. reflexivity.
    + intros e [<-|[]]. lia.
  - intros H.
    apply bind_ok in H as (ds & st1 & H1 & H). destruct (keeps_get_data _ _ _ _ H1) as [N1 R1].
    apply bind_ok in H as (b & st2 & H2 & H).
    destruct (keeps_createTextNode _ _ _ _ H2) as [N2 R2].
    apply bind_ok in H as (de & st3 & H3 & H). destruct (keeps_get_data _ _ _ _ H3) as [N3 R3].
    apply bind_ok in H as (a & st4 & H4 & H).
    destruct (keeps_createTextNode _ _ _ _ H4) as [N4 R4].
    apply bind_ok in H as (oA & st5 & H5 & H). destruct (keeps_make _ _ _ _ _ _ _ H5) as [N5 R5].
    apply bind_ok in H as (innerEls & st6 & H6 & H).
    destruct (replace_inner_fresh _ _ _ _ _ _ H6) as (N6 & R6 & news & E6 & F6).
    simpl in E6. subst innerEls.
    apply bind_ok in H as (oB & st7 & H7 & H). destruct (keeps_make _ _ _ _ _ _ _ H7) as [N7 R7].
    apply bind_ok in H as ([] & st8 & H8 & H).
    destruct (keeps_insert_before_it _ _ _ _ _ H8) as [N8 R8].
    apply bind_ok in H as (elA & st9 & H9 & H).
    destruct (keeps_insert_made_before _ _ _ _ _ H9) as [N9 R9].
    apply insert_made_before_some in H9. subst oA.
    pose proof (make_fresh _ _ _ _ _ _ _ H5) as F5.
    apply bind_ok in H as ([] & st10 & H10 & H).
    destruct (keeps_remove_it _ _ _ _ H10) as [N10 R10].
    apply bind_ok in H as (elB & st11 & H11 & H).
    destruct (keeps_insert_made_before _ _ _ _ _ H11) as [N11 R11].
    apply insert_made_before_some in H11. subst oB.
    pose proof (make_fresh _ _ _ _ _ _ _ H7) as F7.
    apply bind_ok in H as ([] & st12 & H12 & H).
    destruct (keeps_insert_before_it _ _ _ _ _ H12) as [N12 R12].
    apply bind_ok in H as ([] & st13 & H13 & H).
    destruct (keeps_remove_it _ _ _ _ H13) as [N13 R13].
    apply bind_ok in H as ([] & st14 & H14 & H).
    pose proof (push_revert_eq _ _ _ H14) as P14.
    pose proof (push_revert_records _ _ _ H14) as C14.
    apply push_revert_inv in H14 as (_ & N14 & _).
    injection H as _ <-.
    split; [lia|].
    split; [rewrite C14; unfold recorded;
            rewrite R13, R12, R11, R10, R9, R8, R7, R6, R5, R4, R3, R2, R1; reflexivity|].
    exists (nid elA :: news ++ [nid elB]). split.
    + rewrite P14. unfold pending_els.
      rewrite R13, R12, R11, R10, R9, R8, R7, R6, R5, R4, R3, R2, R1. reflexivity.
    + intros e [<-|He]; [lia|]. apply in_app_or in He as [He|[<-|[]]].
      * specialize (F6 e He). lia.
      * lia.
Qed.



Lemma matches_visit_text (w : Walk) (n : Node) :
  matches (if is_text n then visit_text w (len (data_of n)) else w) = matches w.
Proof. destruct (is_text n); reflexivity. Qed.

(** A round of the walk records an inverse when it takes up the next
    match, and no other. *)
Lemma walk_step_records (fuel node : nat) (w : Walk) (st st' : State) (nx : Next) :
  walk_step fuel node (replace make) w st = (Ok nx, st') ->
  match nx with
  | Continue w' => recorded st' + length (matches w') = recorded st + length (matches w)
  | Break => recorded st' <= recorded st + S (length (matches w))
  end.
Proof.
  intros H. unfold walk_step in H.
  apply bind_ok in H as (n & st1 & H1 & H). destruct (keeps_get_node _ _ _ _ H1) as [N1 R1].
  unfold get_node in H1. destruct (lookup (curNode w) (dom st)); [|discriminate].
  injection H1 as -> <-.
  pose proof (matches_visit_text w n) as Hm.
  set (w1 := if is_text n then visit_text w (len (data_of n)) else w) in *.
  assert (Other : forall st2,
             (fc <- get_firstChild (curNode w1) ;;
              ns <- get_nextSibling (curNode w1) ;;
              match (match fc with Some c => Some c | None => ns end) with
              | Some c => ret (Continue (move_to w1 c))
              | None =>
                  nx <- forward_or_up fuel node (curNode w1) ;;
                  match nx with
                  | Some c => ret (Continue (move_to w1 c))
                  | None => ret Break
                  end
              end) st = (Ok nx, st2) ->
             match nx with
             | Continue w' =>
                 recorded st2 + length (matches w') = recorded st + length (matches w)
             | Break => recorded st2 <= recorded st + S (length (matches w))
             end).
  { intros st2 H2.
    apply bind_ok in H2 as (fc & st3 & H3 & H2).
    destruct (keeps_get_firstChild _ _ _ _ H3) as [_ R3].
    apply bind_ok in H2 as (ns & st4 & H4 & H2).
    destruct (keeps_get_nextSibling _ _ _ _ H4) as [_ R4].
    assert (E4 : recorded st4 = recorded st) by (unfold recorded; rewrite R4, R3; reflexivity).
    destruct (match fc with Some c => Some c | None => ns end) as [c|].
    - injection H2 as <- <-. cbn [matches move_to]. rewrite Hm, E4. reflexivity.
    - apply bind_ok in H2 as (o & st5 & H5 & H2).
      destruct (keeps_forward_or_up _ _ _ _ _ _ H5) as [_ R5].
      assert (E5 : recorded st5 = recorded st) by (unfold recorded; rewrite R5; exact E4).
      destruct o as [c|]; injection H2 as <- <-.
      + cbn [matches move_to]. rewrite Hm, E5. reflexivity.
      + rewrite E5. lia. }
  destruct (startNode w1) as [s|]; [destruct (endNode w1) as [e|]|]; try exact (Other _ H).
  apply bind_ok in H as (cur & st2 & H2 & H).
  destruct (replace_fresh _ _ _ _ H2) as (_ & C2 & _).
  apply bind_ok in H as (de & st3 & H3 & H).
  destruct (keeps_get_data _ _ _ _ H3) as [_ R3].
  assert (E3 : recorded st3 = S (recorded st)) by (unfold recorded in *; rewrite R3; exact C2).
  rewrite Hm in H.
  destruct (matches w) as [|loc rest].
  - injection H as <- <-. rewrite E3. simpl. lia.
  - apply bind_ok in H as (o & st4 & H4 & H).
    destruct (keeps_forward_or_up _ _ _ _ _ _ H4) as [_ R4].
    assert (E4 : recorded st4 = S (recorded st)) by (unfold recorded in *; rewrite R4; exact E3).
    destruct o as [c|]; injection H as <- <-.
    + cbn [matches length]. rewrite E4. lia.
    + rewrite E4. simpl. lia.
Qed.

(** A walk records at most one inverse for each match. *)
Lemma walk_loop_records (fuel bound node : nat) :
  forall (w : Walk) (st st' : State),
    walk_loop fuel bound node (replace make) w st = (Ok tt, st') ->
    recorded st' <= recorded st + S (length (matches w)).
Proof.
  induction fuel as [|fuel IH]; intros w st st' H; [discriminate|].
  cbn [walk_loop] in H. apply bind_ok in H as (nx & st1 & H1 & H).
  pose proof (walk_step_records bound node w st st1 nx H1) as C1.
  destruct nx as [w'|].
  - specialize (IH w' st1 st' H). lia.
  - injection H as <-. exact C1.
Qed.

End Made.

End FreshFacts.

(** *** Steps of [replace] that do not fail *)

Section ProgressFacts.

Variable k : nat.
Variable tg : jsstring.
Local Abbreviation Kept := (Invariants.Kept k tg).
Local Abbreviation Inserted := (Invariants.Inserted k tg).
Local Abbreviation make_el := (Invariants.make_el tg).

Lemma bind_eq {A B : Type} (m : M A) (f : A -> M B) (st st1 : State) (a : A) :
  m st = (Ok a, st1) -> bind m f st = f a st1.
Proof. intros H. unfold bind. rewrite H. reflexivity. Qed.

(** A Text node with a parent, at its place. *)
Lemma parent_text_place (f : forest) (x p : nat) (d : jsstring) :
  NoDup (all_ids f) ->
  lookup x f = Some (Text x d) ->
  parentNode x f = Some p ->
  exists pre t l r fs post,
    f = pre ++ plug (mkFrame p t l r :: fs) (Text x d) :: post.
Proof.
  intros Hnd Hx Hp. unfold parentNode in Hp.
  destruct (place_in x f) as [[p' [[l n] r]]|] eqn:E; [|discriminate].
  injection Hp as ->.
  destruct (place_in_sound x p f n l r E) as (pre & t & fs & post & Hf & Hn).
  pose proof (lookup_focus pre post (mkFrame p t l r :: fs) n) as Hl.
  rewrite <- Hf in Hl. specialize (Hl Hnd). rewrite Hn, Hx in Hl. injection Hl as <-.
  exists pre, t, l, r, fs, post. exact Hf.
Qed.

(** Nodes put before a Text node leave it with its parent. *)
Lemma parent_put_keep (f : forest) (x p : nat) (d : jsstring) (news : list Node) :
  NoDup (all_ids f) ->
  NoDup (all_ids (put x d news true f)) ->
  lookup x f = Some (Text x d) ->
  parentNode x f = Some p ->
  parentNode x (put x d news true f) = Some p.
Proof.
  intros Hnd Hnd' Hx Hp.
  destruct (parent_text_place f x p d Hnd Hx Hp) as (pre & t & l & r & fs & post & Hf).
  rewrite Hf in Hnd, Hnd' |- *.
  rewrite (put_focus x d news true pre post _ fs Hnd) in Hnd' |- *.
  cbn [f_id f_tag f_left f_right] in Hnd' |- *. rewrite app_nil_r in Hnd' |- *.
  assert (E : plug fs (Element p t (l ++ (news ++ [Text x d]) ++ r))
              = plug (mkFrame p t (l ++ news) r :: fs) (Text x d)).
  { simpl. unfold wrap. simpl. rewrite <- !app_assoc. reflexivity. }
  rewrite E in Hnd' |- *. unfold parentNode.
  pose proof (place_in_focus pre post (mkFrame p t (l ++ news) r) fs (Text x d) Hnd') as H.
  cbn [nid] in H. rewrite H. reflexivity.
Qed.

Lemma insert_before_it_ok (st : State) (P1 P2 : list Node) (n : Node)
      (x p : nat) (dx : jsstring) :
  Kept st (P1 ++ [n] ++ P2) ->
  parentNode x (dom st) = Some p ->
  insert_before_it n x st = (Ok tt, set_dom st (put x dx [n] true (dom st))).
Proof.
  intros HK Hp. unfold insert_before_it, bind, get_parentNode. rewrite Hp. simpl.
  unfold dom_op, insertBefore.
  rewrite (subst_in_notin (nid n) _ (dom st) (pending_fresh k tg st P1 P2 n HK)).
  rewrite Hp, Nat.eqb_refl. unfold set_dom, put. rewrite app_nil_r. reflexivity.
Qed.

Lemma remove_it_ok (st : State) (x p : nat) (dx : jsstring) :
  lookup x (dom st) = Some (Text x dx) ->
  parentNode x (dom st) = Some p ->
  remove_it x st = (Ok tt, set_dom st (put x dx [] false (dom st))).
Proof.
  intros Hx Hp. unfold remove_it, bind, get_parentNode. rewrite Hp. simpl.
  unfold dom_op, removeChild. rewrite Hp, Hx, Nat.eqb_refl. reflexivity.
Qed.

Lemma replace_child_ok (st : State) (P1 P2 : list Node) (n : Node)
      (x p : nat) (dx : jsstring) :
  Kept st (P1 ++ [n] ++ P2) ->
  lookup x (dom st) = Some (Text x dx) ->
  parentNode x (dom st) = Some p ->
  bind (get_parentNode x) (fun p => bind (deref p) (fun p => dom_op (replaceChild p n x))) st
  = (Ok tt, set_dom st (put x dx [n] false (dom st))).
Proof.
  intros HK Hx Hp. unfold bind, get_parentNode. rewrite Hp. simpl.
  unfold dom_op, replaceChild.
  rewrite (subst_in_notin (nid n) _ (dom st) (pending_fresh k tg st P1 P2 n HK)).
  rewrite Hp, Hx, Nat.eqb_refl. reflexivity.
Qed.

Lemma push_revert_ok (a : RevertAction) (st : State) :
  reverts st <> None -> exists st', push_revert a st = (Ok tt, st').
Proof.
  unfold push_revert. destruct (reverts st); [|congruence]. eauto.
Qed.

Lemma Inserted_parent (st st' : State) (x p : nat) (d : jsstring) (news : list Node) :
  Inserted st st' x d news ->
  Kept st [] ->
  lookup x (dom st) = Some (Text x d) ->
  parentNode x (dom st) = Some p ->
  parentNode x (dom st') = Some p.
Proof.
  intros [D K' _ _ _ _] HK Hx Hp. rewrite D.
  apply parent_put_keep; auto.
  - exact (k_nodup _ _ _ _ HK).
  - rewrite <- D. exact (k_nodup _ _ _ _ K').
Qed.

Lemma insert_text_ok (st : State) (x p : nat) (d t : jsstring) :
  Kept st [] ->
  parentNode x (dom st) = Some p ->
  exists st', bind (createTextNode t) (fun n => insert_before_it n x) st = (Ok tt, st').
Proof.
  intros HK Hp. unfold bind at 1. rewrite createTextNode_eq.
  eexists. apply (insert_before_it_ok _ [] [] _ x p d).
  - exact (Kept_text k tg st [] t HK).
  - exact Hp.
Qed.

End ProgressFacts.

(** *** The single-node branch returns *)

Section SingleTotal.

Variable k : nat.
Variable tg : jsstring.
Local Abbreviation Kept := (Invariants.Kept k tg).
Local Abbreviation Inserted := (Invariants.Inserted k tg).
Local Abbreviation make_el := (Invariants.make_el tg).
Local Abbreviation i_kept := (Invariants.i_kept k tg).
Local Abbreviation i_persist := (Invariants.i_persist k tg).
Local Abbreviation i_next := (Invariants.i_next k tg).

(** The single-node branch for a Text node that has a parent: the call
    returns, and the node has given way to at most one Text node, the
    replacement node and at most one more Text node. *)
Lemma replace_single_total (st : State) (x p : nat) (d : jsstring) (si ei : Z)
      (inner : list nat) (mt : list jsstring) (mi : Z) :
  Kept st [] ->
  lookup x (dom st) = Some (Text x d) ->
  parentNode x (dom st) = Some p ->
  exists el st',
    replace (makeReplacementNode k (reparse_name tg)) (mkRange x si x ei inner mt mi) st = (Ok el, st')
    /\ exists bef eln aft,
         dom st' = put x d (bef ++ [eln] ++ aft) false (dom st)
         /\ Kept st' []
         /\ Persist st st'
         /\ nid eln = el
         /\ text_of eln = hd [] mt
         /\ flat_map text_of bef = (if (si >? 0)%Z then substring d 0 si else [])
         /\ flat_map text_of aft = (if (ei <? len d)%Z then substring_from d ei else [])
         /\ eln = make_el el (hd [] mt)
         /\ nextId st <= el
         /\ (forall m, In m (bef ++ aft) -> is_text m = true)
         /\ pending_els st' = pending_els st ++ [el]
         /\ ((ei <? len d)%Z = true -> exists a, aft = [Text a (substring_from d ei)])
         /\ length bef = (if (si >? 0)%Z then 1 else 0)
         /\ length aft = (if (ei <? len d)%Z then 1 else 0).
Proof.
  intros HK Hx Hp. unfold replace.
  cbn [r_startNode r_endNode r_matchIndex r_startNodeIndex r_endNodeIndex r_match].
  rewrite Nat.eqb_refl.
  (* the Text node before the match *)
  assert (A : exists st1 bef,
             (if (si >? 0)%Z
              then bind (get_data x) (fun d0 =>
                   bind (createTextNode (substring d0 0 si)) (fun before =>
                   insert_before_it before x))
              else ret tt) st = (Ok tt, st1)
             /\ Inserted st st1 x d bef
             /\ flat_map text_of bef = (if (si >? 0)%Z then substring d 0 si else [])
             /\ (forall m, In m bef -> is_text m = true)
             /\ length bef = (if (si >? 0)%Z then 1 else 0)).
  { destruct (si >? 0)%Z.
    - destruct (insert_text_ok k tg st x p d (substring d 0 si) HK Hp) as [st1 E].
      exists st1, [Text (nextId st) (substring d 0 si)].
      split; [|split; [|split; [|split]]].
      + rewrite (bind_eq _ _ _ _ _ (get_data_eq x st d Hx)). exact E.
      + apply insert_text; assumption.
      + simpl. apply app_nil_r.
      + intros m [<-|[]]. reflexivity.
      + reflexivity.
    - exists st, []. split; [reflexivity|]. split; [|split; [reflexivity|split]].
      + apply Inserted_refl; assumption.
      + intros m [].
      + reflexivity. }
  destruct A as (st1 & bef & EA & IA & TA & XA & LA).
  rewrite (bind_eq _ _ _ _ _ EA).
  pose proof (i_persist _ _ _ _ _ IA x d Hx) as Hx1.
  pose proof (i_kept _ _ _ _ _ IA) as HK1.
  pose proof (Inserted_parent k tg _ _ x p d _ IA HK Hx Hp) as Hp1.
  (* the replacement node *)
  rewrite (bind_eq _ _ _ _ _ (makeReplacementNode_eq k tg [] (hd [] mt) mi st1 HK1)).
  set (eln := make_el (nextId st1) (hd [] mt)).
  set (st2 := set_next st1 (nextId st1 + el_size (hd [] mt))).
  pose proof (Kept_el k tg st1 [] (hd [] mt) HK1) as HK2. fold eln st2 in HK2.
  pose proof (insert_before_it_ok k tg st2 [] [] eln x p d HK2 Hp1) as EB.
  rewrite (bind_eq _ _ _ _ _ (insert_made_before_eq _ _ _ _ EB)).
  set (st3 := set_dom st2 (put x d [eln] true (dom st2))) in *.
  assert (IB : Inserted st1 st3 x d [eln]).
  { apply (Inserted_weaken k tg st1 st2); [reflexivity|simpl; lia|reflexivity|].
    apply Inserted_one; auto. }
  pose proof (i_persist _ _ _ _ _ IB x d Hx1) as Hx3.
  pose proof (i_kept _ _ _ _ _ IB) as HK3.
  pose proof (Inserted_parent k tg _ _ x p d _ IB HK1 Hx1 Hp1) as Hp3.
  (* the Text node after the match *)
  rewrite (bind_eq _ _ _ _ _ (get_data_eq x st3 d Hx3)).
  assert (C : exists st5 aft,
             (if (ei <? len d)%Z
              then bind (createTextNode (substring_from d ei)) (fun after =>
                   insert_before_it after x)
              else ret tt) st3 = (Ok tt, st5)
             /\ Inserted st3 st5 x d aft
             /\ flat_map text_of aft
                = (if (ei <? len d)%Z then substring_from d ei else [])
             /\ (forall m, In m aft -> is_text m = true)
             /\ ((ei <? len d)%Z = true -> exists a, aft = [Text a (substring_from d ei)])
             /\ length aft = (if (ei <? len d)%Z then 1 else 0)).
  { destruct (ei <? len d)%Z.
    - destruct (insert_text_ok k tg st3 x p d (substring_from d ei) HK3 Hp3) as [st5 E].
      exists st5, [Text (nextId st3) (substring_from d ei)].
      split; [exact E|]. split; [|split; [|split; [|split]]].
      + apply insert_text; assumption.
      + simpl. apply app_nil_r.
      + intros m [<-|[]]. reflexivity.
      + intros _. eexists. reflexivity.
      + reflexivity.
    - exists st3, []. split; [reflexivity|]. split; [|split; [reflexivity|split; [|split]]].
      + apply Inserted_refl; assumption.
      + intros m [].
      + discriminate.
      + reflexivity. }
  destruct C as (st5 & aft & EC & IC & TC & XC & YC & LC).
  rewrite (bind_eq _ _ _ _ _ EC).
  pose proof (i_next _ _ _ _ _ IA) as NA.
  pose proof (Inserted_parent k tg _ _ x p d _ IC HK3 Hx3 Hp3) as Hp5.
  pose proof (Inserted_trans k tg _ _ _ x d _ _ IA (Inserted_trans k tg _ _ _ x d _ _ IB IC))
    as [D5 K5 P5 F5 N5 R5].
  pose proof (P5 x d Hx) as Hx5.
  (* the Text node goes *)
  rewrite (bind_eq _ _ _ _ _ (remove_it_ok st5 x p d Hx5 Hp5)).
  destruct (Kept_put_state k tg st5 [] [] [] x d false K5 Hx5) as [K6 P6].
  set (st6 := set_dom st5 (put x d [] false (dom st5))) in *.
  destruct (push_revert_ok (RevertOne (nid eln)) st6 (k_reverts _ _ _ _ K6)) as [st7 EG].
  rewrite (bind_eq _ _ _ _ _ EG).
  pose proof (push_revert_eq _ _ _ EG) as Hp7.
  apply push_revert_inv in EG as (Hd7 & Hn7 & Hr7).
  exists (nid eln), st7. split; [reflexivity|].
  exists bef, eln, aft.
  split; [|split; [|split; [|split; [|split; [|split; [|split; [|split; [|split; [|split;
    [|split; [|split; [exact YC|split; [exact LA|exact LC]]]]]]]]]]]]].
  - rewrite Hd7. simpl. rewrite D5. rewrite put_put by exact F5.
    rewrite app_nil_r. reflexivity.
  - exact (Kept_same_dom k tg _ _ _ K6 Hd7 Hn7 Hr7).
  - intros y dy Hy. rewrite Hd7. apply P6, P5, Hy.
  - reflexivity.
  - apply text_make_el.
  - exact TA.
  - exact TC.
  - reflexivity.
  - exact NA.
  - intros m Hm. apply in_app_or in Hm as [Hm|Hm]; auto.
  - rewrite Hp7. unfold pending_els. simpl. rewrite R5. reflexivity.
Qed.

End SingleTotal.

(** *** The branch for several nodes returns *)

Section MultiTotal.

Variable k : nat.
Variable tg : jsstring.
Local Abbreviation Kept := (Invariants.Kept k tg).
Local Abbreviation make_el := (Invariants.make_el tg).

(** A Text node keeps its parent when nodes elsewhere give way to nodes
    with their text. *)
Lemma parent_old_Tracked (X : list nat) (f f' : forest) (y : nat) :
  Tracked X f f' -> NoDup (all_ids f) -> NoDup (all_ids f') ->
  parent_old k f y -> ~ In y X -> parent_old k f' y.
Proof.
  intros HT Hnd Hnd' ((d & Hy) & p & Hp & Hpk) HX.
  destruct (parent_text_place f y p d Hnd Hy Hp) as (pre & t & l & r & fs & post & Hf).
  destruct (HT pre (mkFrame p t l r :: fs) (Text y d) post Hf)
    as (pre' & fs' & post' & Hf' & Hsim & _).
  { intros x Hx [E|[]]. apply HX. rewrite E. exact Hx. }
  destruct (Forall2_sim_cons _ _ _ Hsim) as (fr' & fs0' & -> & (Hid & _) & _).
  rewrite Hf' in Hnd' |- *. split.
  - exists d. exact (lookup_focus pre' post' (fr' :: fs0') (Text y d) Hnd').
  - exists p. split; [|exact Hpk]. unfold parentNode.
    pose proof (place_in_focus pre' post' fr' fs0' (Text y d) Hnd') as E.
    cbn [nid] in E. rewrite E. simpl in Hid. rewrite <- Hid. reflexivity.
Qed.

Lemma parent_old_below (st : State) (P : list Node) (y : nat) :
  Kept st P -> parent_old k (dom st) y -> y < nextId st.
Proof.
  intros HK ((d & Hy) & _). apply (k_below _ _ _ _ HK). exact (lookup_ids _ _ _ Hy).
Qed.

(** The loop of lines 250-255 returns when each inner node is a Text node
    with a parent. *)
Lemma replace_inner_total (mi : Z) (inner : list nat) :
  forall (els : list nat) (st : State) (P : list Node),
    Kept st P ->
    NoDup inner ->
    (forall y, In y inner -> parent_old k (dom st) y) ->
    exists out st',
      replace_inner (makeReplacementNode k (reparse_name tg)) mi inner els st = (Ok out, st').
Proof.
  induction inner as [|x inner IH]; intros els st P HK Hnd Hpar; simpl.
  - eexists _, _. reflexivity.
  - destruct (Hpar x (or_introl eq_refl)) as ((d & Hx) & p & Hp & Hpk).
    rewrite (bind_eq _ _ _ _ _ (get_data_eq x st d Hx)).
    rewrite (bind_eq _ _ _ _ _ (makeReplacementNode_eq k tg P d mi st HK)).
    pose proof (Kept_el k tg st P d HK) as HK2.
    rewrite <- (app_nil_r (P ++ [make_el (nextId st) d])) in HK2.
    rewrite <- app_assoc in HK2.
    set (st2 := set_next st (nextId st + el_size d)) in *.
    assert (Eg : get_parentNode x st2 = (Ok (Some p), st2)).
    { unfold get_parentNode. change (dom st2) with (dom st). rewrite Hp. reflexivity. }
    rewrite (bind_eq _ _ _ _ _ Eg).
    assert (Ed : deref (Some p) st2 = (Ok p, st2)) by reflexivity.
    rewrite (bind_eq _ _ _ _ _ Ed).
    assert (Er : dom_op (replaceChild p (make_el (nextId st) d) x) st2
                 = (Ok tt, set_dom st2 (put x d [make_el (nextId st) d] false (dom st2)))).
    { pose proof (replace_child_ok k tg st2 P [] (make_el (nextId st) d) x p d HK2 Hx Hp) as E.
      rewrite (bind_eq _ _ _ _ _ Eg), (bind_eq _ _ _ _ _ Ed) in E. exact E. }
    assert (Em : deref (Some (make_el (nextId st) d)) st2 = (Ok (make_el (nextId st) d), st2))
      by reflexivity.
    rewrite (bind_eq _ _ _ _ _ Em).
    rewrite (bind_eq _ _ _ _ _ Er).
    destruct (Kept_put_state k tg st2 P [] [make_el (nextId st) d] x d false HK2 Hx)
      as [HK5 _].
    rewrite app_nil_r in HK5.
    apply (IH _ _ P HK5).
    + inversion Hnd; assumption.
    + intros y Hy. cbn [dom set_dom].
      apply (parent_old_Tracked [x] (dom st)).
      * apply Tracked_put.
        -- exact (k_nodup _ _ _ _ HK).
        -- exact Hx.
        -- cbn [flat_map]. rewrite app_nil_r. apply text_make_el.
        -- left. reflexivity.
      * exact (k_nodup _ _ _ _ HK).
      * exact (k_nodup _ _ _ _ HK5).
      * apply Hpar. right. exact Hy.
      * intros [E'|[]]. inversion Hnd; subst. contradiction.
Qed.

(** The branch for a match over several nodes returns when the start node,
    the inner nodes and the end node are distinct Text nodes with
    parents. *)
Lemma replace_multi_total (st : State) (s e : nat) (si ei : Z)
      (inner : list nat) (mt : list jsstring) (mi : Z) :
  Kept st [] ->
  NoDup (s :: inner ++ [e]) ->
  (forall y, In y (s :: inner ++ [e]) -> parent_old k (dom st) y) ->
  exists el st',
    replace (makeReplacementNode k (reparse_name tg)) (mkRange s si e ei inner mt mi) st = (Ok el, st').
Proof.
  intros HK Hnd Hpar. unfold replace.
  cbn [r_startNode r_endNode r_matchIndex r_startNodeIndex r_endNodeIndex r_match
       r_innerNodes].
  assert (Hse : s <> e).
  { inversion Hnd as [|? ? Hn _]; subst. intros ->. apply Hn.
    apply in_or_app. right. left. reflexivity. }
  assert (Hsi : ~ In s inner).
  { inversion Hnd as [|? ? Hn _]; subst. intros H. apply Hn. apply in_or_app. left. exact H. }
  assert (Hndi : NoDup inner /\ ~ In e inner).
  { inversion Hnd as [|? ? _ Hn]; subst. split.
    - exact (NoDup_app_l _ _ Hn).
    - apply NoDup_remove_2 in Hn. rewrite app_nil_r in Hn. exact Hn. }
  destruct Hndi as [Hndi Hei].
  destruct (Nat.eqb_spec s e) as [E|_]; [contradiction|].
  assert (Hps : parent_old k (dom st) s) by (apply Hpar; left; reflexivity).
  assert (Hpe : parent_old k (dom st) e).
  { apply Hpar. right. apply in_or_app. right. left. reflexivity. }
  assert (Hpi : forall y, In y inner -> parent_old k (dom st) y).
  { intros y Hy. apply Hpar. right. apply in_or_app. left. exact Hy. }
  pose proof Hps as ((ds & Hs) & _). pose proof Hpe as ((de & He) & _).
  rewrite (bind_eq _ _ _ _ _ (get_data_eq s st ds Hs)).
  rewrite (bind_eq _ _ _ _ _ (createTextNode_eq _ st)).
  pose proof (Kept_text k tg st [] (substring ds 0 si) HK) as HK1.
  set (before := Text (nextId st) (substring ds 0 si)) in *.
  set (st1 := set_next st (S (nextId st))) in *.
  rewrite (bind_eq _ _ _ _ _ (get_data_eq e st1 de He)).
  rewrite (bind_eq _ _ _ _ _ (createTextNode_eq _ st1)).
  pose proof (Kept_text k tg _ _ (substring_from de ei) HK1) as HK2.
  set (after := Text (nextId st1) (substring_from de ei)) in *.
  set (st2 := set_next st1 (S (nextId st1))) in *.
  rewrite (bind_eq _ _ _ _ _ (makeReplacementNode_eq k tg _ _ mi _ HK2)).
  pose proof (Kept_el k tg _ _ (substring_from ds si) HK2) as HK3.
  set (elA := make_el (nextId st2) (substring_from ds si)) in *.
  set (st3 := set_next st2 _) in *.
  destruct (replace_inner_total mi inner [] st3 _ HK3 Hndi Hpi) as (innerEls & st4 & Ein).
  rewrite (bind_eq _ _ _ _ _ Ein).
  assert (Hold3 : forall y, In y inner -> y < nextId st3).
  { intros y Hy. exact (parent_old_below st3 _ y HK3 (Hpi y Hy)). }
  destruct (replace_inner_inv k tg mi inner [] st3 st4 _ innerEls HK3 Hold3 Ein)
    as (HK4 & HP4 & HT4 & _).
  assert (Hs4 : lookup s (dom st4) = Some (Text s ds)) by (apply HP4; exact Hs).
  assert (He4 : lookup e (dom st4) = Some (Text e de)) by (apply HP4; exact He).
  assert (Hps4 : parent_old k (dom st4) s).
  { apply (parent_old_Tracked inner (dom st3)); auto.
    - exact (k_nodup _ _ _ _ HK3).
    - exact (k_nodup _ _ _ _ HK4). }
  assert (Hpe4 : parent_old k (dom st4) e).
  { apply (parent_old_Tracked inner (dom st3)); auto.
    - exact (k_nodup _ _ _ _ HK3).
    - exact (k_nodup _ _ _ _ HK4). }
  destruct Hps4 as (_ & ps & Hps4 & _).
  rewrite (bind_eq _ _ _ _ _ (makeReplacementNode_eq k tg _ _ mi _ HK4)).
  pose proof (Kept_el k tg _ _ (substring de 0 ei) HK4) as HK5.
  set (elB := make_el (nextId st4) (substring de 0 ei)) in *.
  set (st5 := set_next st4 _) in *.
  (* the start node *)
  rewrite (bind_eq _ _ _ _ _
             (insert_before_it_ok k tg st5 [] [after; elA; elB] before s ps ds HK5 Hps4)).
  destruct (Kept_put_state k tg st5 [] [after; elA; elB] [before] s ds true HK5 Hs4)
    as [HK6 HP6].
  assert (Hps6 : parentNode s (put s ds [before] true (dom st5)) = Some ps).
  { apply parent_put_keep; auto.
    - exact (k_nodup _ _ _ _ HK5).
    - exact (k_nodup _ _ _ _ HK6). }
  set (st6 := set_dom st5 _) in *.
  assert (Hs6 : lookup s (dom st6) = Some (Text s ds)) by (apply HP6; exact Hs4).
  rewrite (bind_eq _ _ _ _ _
             (insert_made_before_eq _ _ _ _
                (insert_before_it_ok k tg st6 [after] [elB] elA s ps ds HK6 Hps6))).
  destruct (Kept_put_state k tg st6 [after] [elB] [elA] s ds true HK6 Hs6) as [HK7 HP7].
  assert (Hps7 : parentNode s (put s ds [elA] true (dom st6)) = Some ps).
  { apply parent_put_keep; auto.
    - exact (k_nodup _ _ _ _ HK6).
    - exact (k_nodup _ _ _ _ HK7). }
  set (st7 := set_dom st6 _) in *.
  assert (Hs7 : lookup s (dom st7) = Some (Text s ds)) by (apply HP7; exact Hs6).
  rewrite (bind_eq _ _ _ _ _ (remove_it_ok st7 s ps ds Hs7 Hps7)).
  destruct (Kept_put_state k tg st7 [] [after; elB] [] s ds false HK7 Hs7) as [HK8 HP8].
  set (st8 := set_dom st7 _) in *.
  assert (Hf1 : dom st8 = put s ds [before; elA] false (dom st4)).
  { unfold st8, st7, st6. simpl.
    rewrite (put_put s ds [before] [elA] true).
    - rewrite (put_put s ds ([before] ++ [elA]) [] false); [reflexivity|].
      simpl. rewrite app_nil_r. intros [H|H].
      + exact (pending_not k tg st5 _ before s _ HK5 (or_introl eq_refl) Hs4 (or_introl H)).
      + exact (pending_not k tg st5 _ elA s _ HK5 (or_intror (or_intror (or_introl eq_refl)))
                 Hs4 H).
    - simpl. intros [H|[]].
      exact (pending_not k tg st5 _ before s _ HK5 (or_introl eq_refl) Hs4 (or_introl H)). }
  assert (He8 : lookup e (dom st8) = Some (Text e de)).
  { apply HP8, HP7, HP6. exact He4. }
  assert (Hpe8 : parent_old k (dom st8) e).
  { apply (parent_old_Tracked [s] (dom st4)).
    - rewrite Hf1. apply Tracked_put.
      + exact (k_nodup _ _ _ _ HK4).
      + exact Hs4.
      + unfold before. cbn [flat_map text_of]. rewrite app_nil_r.
        fold (text_of elA). unfold elA. rewrite text_make_el. apply substring_split.
      + left. reflexivity.
    - exact (k_nodup _ _ _ _ HK4).
    - exact (k_nodup _ _ _ _ HK8).
    - exact Hpe4.
    - intros [E|[]]. exact (Hse E). }
  destruct Hpe8 as (_ & pe & Hpe8 & _).
  (* the end node *)
  rewrite (bind_eq _ _ _ _ _
             (insert_made_before_eq _ _ _ _
                (insert_before_it_ok k tg st8 [after] [] elB e pe de HK8 Hpe8))).
  destruct (Kept_put_state k tg st8 [after] [] [elB] e de true HK8 He8) as [HK9 HP9].
  assert (Hpe9 : parentNode e (put e de [elB] true (dom st8)) = Some pe).
  { apply parent_put_keep; auto.
    - exact (k_nodup _ _ _ _ HK8).
    - exact (k_nodup _ _ _ _ HK9). }
  set (st9 := set_dom st8 _) in *.
  assert (He9 : lookup e (dom st9) = Some (Text e de)) by (apply HP9; exact He8).
  rewrite (bind_eq _ _ _ _ _
             (insert_before_it_ok k tg st9 [] [] after e pe de HK9 Hpe9)).
  destruct (Kept_put_state k tg st9 [] [] [after] e de true HK9 He9) as [HK10 HP10].
  assert (Hpe10 : parentNode e (put e de [after] true (dom st9)) = Some pe).
  { apply parent_put_keep; auto.
    - exact (k_nodup _ _ _ _ HK9).
    - exact (k_nodup _ _ _ _ HK10). }
  set (st10 := set_dom st9 _) in *.
  assert (He10 : lookup e (dom st10) = Some (Text e de)) by (apply HP10; exact He9).
  rewrite (bind_eq _ _ _ _ _ (remove_it_ok st10 e pe de He10 Hpe10)).
  destruct (Kept_put_state k tg st10 [] [] [] e de false HK10 He10) as [HK11 _].
  set (st11 := set_dom st10 _) in *.
  destruct (push_revert_ok (RevertSpan (nid elA) innerEls (nid elB)) st11
              (k_reverts _ _ _ _ HK11)) as [st12 Ep].
  rewrite (bind_eq _ _ _ _ _ Ep).
  eexists _, _. reflexivity.
Qed.

End MultiTotal.

(** *** The walk returns *)

Section WalkTotal.
Local Open Scope Z_scope.

Variable k : nat.
Variable tg : jsstring.
Variable R : nat.
Variable T : jsstring.
Hypothesis T_not_empty : T <> [].
Local Abbreviation Place := (Invariants.Place k tg R T).
Local Abbreviation Inv := (Invariants.Inv k tg R T).
Local Abbreviation InvEnd := (Invariants.InvEnd k tg R T).
Local Abbreviation v_place := (Invariants.v_place k tg R T).
Local Abbreviation v_cur := (Invariants.v_cur k tg R T).
Local Abbreviation v_at := (Invariants.v_at k tg R T).
Local Abbreviation v_pending := (Invariants.v_pending k tg R T).
Local Abbreviation v_seen := (Invariants.v_seen k tg R T).
Local Abbreviation v_extra := (Invariants.v_extra k tg R T).
Local Abbreviation e_place := (Invariants.e_place k tg R T).
Local Abbreviation e_cur := (Invariants.e_cur k tg R T).
Local Abbreviation e_inner := (Invariants.e_inner k tg R T).
Local Abbreviation e_at := (Invariants.e_at k tg R T).
Local Abbreviation e_pending := (Invariants.e_pending k tg R T).
Local Abbreviation e_extra := (Invariants.e_extra k tg R T).
Local Abbreviation chain_in := (Invariants.chain_in T).
Local Abbreviation pending := (Invariants.pending T).
Local Abbreviation onward := (Invariants.onward R).
Local Abbreviation replaced := (Invariants.replaced k tg R).
Local Abbreviation Extra := (Invariants.Extra k).
Local Abbreviation x_wrapped := (Invariants.x_wrapped k).
Local Abbreviation x_frames := (Invariants.x_frames k).
Local Abbreviation x_marked := (Invariants.x_marked k).
Local Abbreviation Ended := (Invariants.Ended k tg R T).
Local Abbreviation advanced := (Measure.advanced k tg R T).

Lemma NoDup_frame_ids_map (fs : list Frame) :
  NoDup (frame_ids fs) -> NoDup (map f_id fs).
Proof.
  induction fs as [|fr fs IH]; simpl; intros H; [constructor|].
  unfold frame_ids in H. cbn [flat_map] in H. fold (frame_ids fs) in H.
  inversion H as [|? ? Hn Hnd]; subst. constructor.
  - intros Hin. apply Hn. apply in_or_app. right.
    apply in_map_iff in Hin as (fr' & E & Hfr'). rewrite <- E.
    apply frame_id_in. exact Hfr'.
  - apply IH. exact (NoDup_app_r _ _ Hnd).
Qed.

(** The elements on the way up are old and distinct: there are at most [k]
    of them. *)
Lemma frames_bound (st : State) (pre post : forest) (inner outer : list Frame) (sub : Node) :
  Place st pre inner outer sub post ->
  old_frames k (inner ++ outer) ->
  (length inner <= k)%nat.
Proof.
  intros [HK Hd _ _] Hold.
  pose proof (k_nodup _ _ _ _ HK) as Hnd. rewrite Hd in Hnd.
  apply NoDup_forest_tree in Hnd.
  apply (Permutation_NoDup (ids_plug _ _)) in Hnd. apply NoDup_app_r in Hnd.
  apply NoDup_frame_ids_map in Hnd.
  assert (Hincl : incl (map f_id (inner ++ outer)) (seq 0 k)).
  { intros i Hi. apply in_map_iff in Hi as (fr & <- & Hfr).
    apply in_seq. destruct (Hold fr Hfr) as [H _]. lia. }
  pose proof (NoDup_incl_length Hnd Hincl) as H.
  rewrite length_map, length_app, length_seq in H. lia.
Qed.

Lemma right_ids_nil (fs : list Frame) : right_ids fs = [] -> right_text fs = [].
Proof.
  induction fs as [|fr fs IH]; [reflexivity|].
  unfold right_ids, right_text. cbn [flat_map]. fold (right_ids fs) (right_text fs).
  intros H. apply app_eq_nil in H as [H1 H2]. rewrite (IH H2), app_nil_r.
  destruct (f_right fr) as [|c cs]; [reflexivity|].
  simpl in H1. pose proof (nid_in_ids c) as Hc.
  destruct (ids c); [destruct Hc|discriminate].
Qed.

Lemma pending_before_end (w : Walk) : pending w -> atIndex w < len T.
Proof.
  intros (_ & _ & H). destruct (startNode w).
  - lia.
  - simpl in H. lia.
Qed.

(** The inner loop of the walk returns, and finds a node when there is one
    to the right. *)
Lemma forward_or_up_total (fuel : nat) :
  forall (w : Walk) (st : State) (pre post : forest) (inner outer : list Frame)
         (sub : Node),
    InvEnd w st pre inner outer sub post ->
    (length inner <= fuel)%nat ->
    exists o,
      forward_or_up fuel R (nid sub) st = (Ok o, st)
      /\ match o with
         | Some c => exists inner' sub',
             Inv (move_to w c) st pre inner' outer sub' post
             /\ (todo inner' sub' <= length (right_ids inner))%nat
         | None => right_ids inner = []
         end.
Proof.
  induction fuel as [|fuel IH]; intros w st pre post inner outer sub HI Hf.
  - destruct inner; [exfalso; exact (e_inner _ _ _ _ _ _ _ HI eq_refl)|simpl in Hf; lia].
  - destruct inner as [|fr inner]; [exfalso; exact (e_inner _ _ _ _ _ _ _ HI eq_refl)|].
    destruct (next_sibling_at k tg R T st pre post fr inner outer sub
                (e_place _ _ _ _ _ _ _ HI)) as [Hns Hpn].
    cbn [forward_or_up]. unfold bind at 1, get_nextSibling. rewrite Hns.
    destruct (f_right fr) as [|sib r] eqn:Er.
    + unfold bind at 1, get_parentNode. rewrite Hpn.
      destruct (Nat.eqb_spec (f_id fr) R) as [E|E].
      * eexists. split; [reflexivity|].
        pose proof (e_place _ _ _ _ _ _ _ HI) as [HK Hd Hr Ht].
        destruct inner as [|fr2 inner]; [unfold right_ids; simpl; rewrite Er; reflexivity|].
        exfalso. pose proof (k_nodup _ _ _ _ HK) as Hnd. rewrite Hd in Hnd.
        apply NoDup_forest_tree in Hnd. rewrite plug_app in Hnd.
        apply NoDup_plug_inner in Hnd.
        change (plug (fr :: fr2 :: inner) sub) with (plug (fr2 :: inner) (wrap fr sub)) in Hnd, Hr.
        apply (NoDup_plug_frames _ _ (f_id fr) Hnd).
        -- rewrite ids_wrap. left. reflexivity.
        -- rewrite E, <- Hr. clear. revert fr2 sub fr.
           induction inner as [|fr3 inner IHi]; intros fr2 sub fr.
           ++ simpl. left. reflexivity.
           ++ change (plug (fr2 :: fr3 :: inner) (wrap fr sub))
                with (plug (fr3 :: inner) (wrap fr2 (wrap fr sub))).
              specialize (IHi fr3 (wrap fr sub) fr2).
              unfold frame_ids in *. cbn [flat_map] in *.
              apply in_or_app. right. exact IHi.
      * simpl in Hf.
        destruct (IH (move_to w (f_id fr)) st pre post inner outer (wrap fr sub)
                    (step_up k tg R T w st pre post fr inner outer sub HI Er E)
                    ltac:(lia)) as (o & Ho & Hpost).
        exists o. split; [exact Ho|].
        destruct o as [c|].
        -- destruct Hpost as (inner' & sub' & Hinv & Hm). exists inner', sub'.
           split; [exact Hinv|].
           unfold right_ids. cbn [flat_map]. rewrite Er. simpl. exact Hm.
        -- unfold right_ids. cbn [flat_map]. rewrite Er. simpl. exact Hpost.
    + eexists. split; [reflexivity|].
      eexists _, _. split.
      * exact (step_next k tg R T w st pre post fr inner outer sub sib r HI Er).
      * unfold todo, right_ids. cbn [flat_map f_right]. rewrite Er. cbn [flat_map].
        rewrite !length_app. lia.
Qed.

(** A round of the outer loop that has no match to replace goes on to a
    node further on: the match it is looking for lies in the text that is
    left. *)
Lemma onward_total (fuel : nat) (w : Walk) (st : State) (pre post : forest)
      (inner outer : list Frame) (sub : Node) :
  InvEnd w st pre inner outer sub post ->
  children sub = [] ->
  (length inner <= fuel)%nat ->
  exists c inner' sub',
    onward fuel w st = (Ok (Continue (move_to w c)), st)
    /\ Inv (move_to w c) st pre inner' outer sub' post
    /\ (todo inner' sub' <= length (right_ids inner))%nat.
Proof.
  intros HI Hch Hf. pose proof (e_place _ _ _ _ _ _ _ HI) as HP.
  pose proof (Place_lookup k tg R T _ _ _ _ _ _ HP) as Hl.
  destruct inner as [|fr inner]; [exfalso; exact (e_inner _ _ _ _ _ _ _ HI eq_refl)|].
  destruct (next_sibling_at k tg R T st pre post fr inner outer sub HP) as [Hns _].
  unfold Invariants.onward, bind at 1, get_firstChild.
  rewrite <- (e_cur _ _ _ _ _ _ _ HI).
  assert (Hfc : firstChild (nid sub) (dom st) = None).
  { unfold firstChild. rewrite Hl. destruct sub; simpl in Hch; [reflexivity|].
    rewrite Hch. reflexivity. }
  rewrite Hfc. unfold bind at 1, get_nextSibling. rewrite Hns.
  destruct (f_right fr) as [|sib r] eqn:Er.
  - destruct (forward_or_up_total fuel w st pre post (fr :: inner) outer sub HI Hf)
      as (o & Ho & Hpost).
    rewrite (bind_eq _ _ _ _ _ Ho).
    destruct o as [c|].
    + destruct Hpost as (inner' & sub' & Hinv & Hm).
      exists c, inner', sub'. split; [reflexivity|]. split; [exact Hinv|exact Hm].
    + exfalso.
      pose proof (pending_before_end w (e_pending _ _ _ _ _ _ _ HI)) as Hlt.
      pose proof (e_at _ _ _ _ _ _ _ HI) as Hat.
      pose proof (text_at k tg R T _ _ _ _ _ _ HP) as HT.
      rewrite (right_ids_nil _ Hpost), app_nil_r in HT.
      rewrite HT, len_app in Hlt. lia.
  - exists (nid sib). eexists _, sib. split; [reflexivity|]. split.
    + exact (step_next k tg R T w st pre post fr inner outer sub sib r HI Er).
    + unfold todo, right_ids. cbn [flat_map f_right]. rewrite Er. cbn [flat_map].
      rewrite !length_app. lia.
Qed.

Lemma text_ids_length (l : list Node) :
  (forall m, In m l -> is_text m = true) -> length (flat_map ids l) = length l.
Proof.
  induction l as [|a l IH]; simpl; intros H; [reflexivity|].
  rewrite length_app, IH by (intros m Hm; apply H; right; exact Hm).
  destruct a; [reflexivity|]. specialize (H _ (or_introl eq_refl)). discriminate.
Qed.

(** A match inside one Text node: [replace] returns, and the replacement
    node has at most one new node to its right. *)
Lemma after_single_total (w : Walk) (st : State) (pre post : forest)
      (inner outer : list Frame) (x : nat) (d : jsstring) (si ei : Z)
      (inn : list nat) (mt : list jsstring) (mi : Z) :
  Inv w st pre inner outer (Text x d) post ->
  0 <= si -> si < ei -> ei <= len d ->
  hd [] mt = substring d si ei ->
  exists el st1,
    replace (makeReplacementNode k (reparse_name tg)) (mkRange x si x ei inn mt mi) st = (Ok el, st1)
    /\ exists pre' inner' outer' sub' post',
         Place st1 pre' inner' outer' sub' post'
         /\ nid sub' = el
         /\ inner' <> []
         /\ len (left_text inner') + len (text_of sub') = len (left_text inner) + ei
         /\ lookup x (dom st1) = Some (Text x d)
         /\ Wrapped k st1
         /\ old_frames k (inner' ++ outer')
         /\ (length (right_ids inner') <= S (length (right_ids inner)))%nat
         /\ (recorded st < recorded st1)%nat.
Proof.
  intros HI H0 H1 H2 Hmt.
  destruct (Inv_inner k tg R T _ _ _ _ _ _ _ _ HI) as (fr & inner0 & ->).
  pose proof (v_place _ _ _ _ _ _ _ HI) as [HK Hd Hr Ht].
  pose proof (v_extra _ _ _ _ _ _ _ HI) as [X1 X2 _].
  pose proof (Place_lookup k tg R T _ _ _ _ _ _ (v_place _ _ _ _ _ _ _ HI)) as Hx.
  simpl in Hx.
  destruct (next_sibling_at k tg R T st pre post fr inner0 outer _
              (v_place _ _ _ _ _ _ _ HI)) as [_ Hpx]. simpl in Hpx.
  destruct (replace_single_total k tg st x (f_id fr) d si ei inn mt mi HK Hx Hpx)
    as (el & st1 & Hrun & bef & eln & aft & Hd1 & HK1 & HP1 & Hel & Te & Tb & Ta & Ee
        & Hnx & Htx & Hpe & _ & Lb & La).
  exists el, st1. split; [exact Hrun|].
  assert (Hnd : NoDup (all_ids (pre ++ plug (fr :: inner0 ++ outer) (Text x d) :: post))).
  { change (fr :: inner0 ++ outer) with ((fr :: inner0) ++ outer). rewrite <- Hd.
    exact (k_nodup _ _ _ _ HK). }
  assert (E3 : flat_map text_of bef ++ text_of eln ++ flat_map text_of aft = d).
  { rewrite Tb, Ta, Te, Hmt. apply three_pieces; assumption. }
  simpl app in X2. apply (old_frames_cons k) in X2 as [[X2a X2b] X2c].
  assert (HW : Wrapped k st1).
  { intros e' He'. rewrite Hpe in He'. pose proof (k_nodup _ _ _ _ HK1) as Hnd1.
    rewrite Hd1 in Hnd1 |- *.
    apply in_app_or in He' as [He'|[<-|[]]].
    - apply (wrapper_put k (dom st) e' x d); auto.
      + exact (k_nodup _ _ _ _ HK).
      + rewrite !flat_map_app. simpl. rewrite app_nil_r. exact E3.
      + split; [exists d; exact Hx|]. exists (f_id fr). split; [exact Hpx|exact X2a].
    - apply (wrapper_make_el k tg _ _ (hd [] mt)).
      + pose proof (stencil_below k tg st [] HK). lia.
      + rewrite <- Ee. rewrite <- Hel at 1.
        apply (put_new_lookup x d _ false (dom st) eln); auto.
        * exact (k_nodup _ _ _ _ HK).
        * apply in_or_app. right. left. reflexivity. }
  rewrite Hd in Hd1. simpl app in Hd1. rewrite (put_focus x d _ false pre post fr _ Hnd) in Hd1.
  set (fr' := mkFrame (f_id fr) (f_tag fr) (f_left fr ++ bef) (aft ++ f_right fr)).
  exists pre, (fr' :: inner0), outer, eln, (post ++ [Text x d]).
  split; [|split; [exact Hel|split; [discriminate|split; [|split; [|split; [exact HW|split;
    [|split]]]]]]].
  - constructor.
    + exact HK1.
    + rewrite Hd1. simpl. unfold wrap, fr'. simpl.
      rewrite app_nil_r. rewrite <- !app_assoc. reflexivity.
    + rewrite <- Hr. simpl. apply nid_plug_cong. reflexivity.
    + rewrite <- Ht. rewrite !text_plug. simpl. unfold right_text. simpl.
      fold (right_text inner0). rewrite !flat_map_app.
      rewrite <- E3. rewrite <- !app_assoc. reflexivity.
  - simpl. rewrite flat_map_app, Te, Hmt, !len_app, Tb.
    rewrite piece_before_len by lia. rewrite substring_len by lia. lia.
  - apply HP1. exact Hx.
  - simpl app. apply (old_frames_cons k fr'). split; [|exact X2c].
    split; [exact X2a|]. simpl. intros c Hc. apply in_app_or in Hc as [Hc|Hc].
    + apply settled_is_text. apply Htx. apply in_or_app. right. exact Hc.
    + apply X2b. exact Hc.
  - unfold right_ids, fr'. cbn [flat_map f_right]. rewrite flat_map_app, !length_app.
    rewrite text_ids_length by (intros m Hm; apply Htx; apply in_or_app; right; exact Hm).
    rewrite La. destruct (ei <? len d); lia.
  - destruct (replace_fresh _ _ _ _ _ _ Hrun) as (_ & C & _). rewrite C. lia.
Qed.

Lemma app_inv_length {A : Type} (a a' b b' : list A) :
  length a = length a' -> a ++ b = a' ++ b' -> a = a' /\ b = b'.
Proof.
  revert a'. induction a as [|x a IH]; intros [|x' a'] Hl H; simpl in *; try discriminate.
  - auto.
  - injection H as -> H. injection Hl as Hl. destruct (IH a' Hl H) as [-> ->]. auto.
Qed.

(** A match over several nodes: [replace] returns, and the last
    replacement node has one new node to its right. *)
Lemma after_multi_total (w : Walk) (st : State) (pre post : forest)
      (inner outer : list Frame) (s e : nat) (de : jsstring) (si ei : Z)
      (inn : list nat) (mt : list jsstring) (mi : Z) :
  Inv w st pre inner outer (Text e de) post ->
  s <> e -> ~ In e inn -> NoDup (s :: inn) ->
  (forall y, In y (s :: inn) -> In y (left_ids (inner ++ outer))) ->
  (forall y, In y (s :: inn) -> parent_old k (dom st) y) ->
  0 <= ei -> ei <= len de ->
  exists el st1,
    replace (makeReplacementNode k (reparse_name tg)) (mkRange s si e ei inn mt mi) st = (Ok el, st1)
    /\ exists pre' inner' outer' sub' post',
         Place st1 pre' inner' outer' sub' post'
         /\ nid sub' = el
         /\ inner' <> []
         /\ len (left_text inner') + len (text_of sub') = len (left_text inner) + ei
         /\ lookup e (dom st1) = Some (Text e de)
         /\ Wrapped k st1
         /\ old_frames k (inner' ++ outer')
         /\ (length (right_ids inner') <= S (length (right_ids inner)))%nat
         /\ (recorded st < recorded st1)%nat.
Proof.
  intros HI Hse Hin Hnds Hleft Hpar H0 H1.
  pose proof (focus_parent_old k tg R T _ _ _ _ _ _ _ _ HI) as Hpe0.
  destruct (Inv_inner k tg R T _ _ _ _ _ _ _ _ HI) as (fr & inner0 & ->).
  pose proof (v_place _ _ _ _ _ _ _ HI) as [HK Hd Hr Ht].
  pose proof (v_extra _ _ _ _ _ _ _ HI) as [X1 X2 _].
  pose proof (k_nodup _ _ _ _ HK) as Hnd0.
  assert (Hfn : NoDup (frame_ids ((fr :: inner0) ++ outer))).
  { rewrite Hd in Hnd0. apply NoDup_forest_tree in Hnd0.
    apply (Permutation_NoDup (ids_plug _ _)) in Hnd0. exact (NoDup_app_r _ _ Hnd0). }
  assert (Hold : forall y, In y inn -> (y < nextId st)%nat).
  { intros y Hy. apply (k_below _ _ _ _ HK). rewrite Hd.
    unfold all_ids. rewrite ids_forest_split. apply in_or_app. right. apply in_or_app. left.
    apply (Permutation_in _ (Permutation_sym (ids_plug _ _))).
    apply in_or_app. right. apply left_ids_frame. apply Hleft. right. exact Hy. }
  assert (Hnd3 : NoDup (s :: inn ++ [e])).
  { change (s :: inn ++ [e]) with ((s :: inn) ++ [e]).
    apply NoDup_app_intro; [exact Hnds|constructor; [intros []|constructor]|].
    intros y Hy [<-|[]]. destruct Hy as [E|Hy]; [exact (Hse E)|exact (Hin Hy)]. }
  assert (Hpar3 : forall y, In y (s :: inn ++ [e]) -> parent_old k (dom st) y).
  { intros y Hy. change (s :: inn ++ [e]) with ((s :: inn) ++ [e]) in Hy.
    apply in_app_or in Hy as [Hy|[<-|[]]]; [exact (Hpar y Hy)|exact Hpe0]. }
  destruct (replace_multi_total k tg st s e si ei inn mt mi HK Hnd3 Hpar3) as (el & st1 & Hrun).
  exists el, st1. split; [exact Hrun|].
  destruct (replace_multi k tg st st1 s e si ei inn mt mi el HK Hse Hold Hrun)
    as (ds & de' & f1 & elB & aft & Hs & He & HT & Hnd1 & He1 & Hd1 & Hel & TB & TA & HK1 & HP1
        & Haft & EB & Hnx & elA & innerEls & Hpe & Hnews).
  pose proof (Place_lookup k tg R T _ _ _ _ _ _ (v_place _ _ _ _ _ _ _ HI)) as He0.
  simpl in He0.
  rewrite He0 in He. injection He as <-.
  destruct (HT pre ((fr :: inner0) ++ outer) (Text e de) post Hd)
    as (pre' & fs' & post' & Ef1 & Hsim & Hright).
  { intros y [<-|Hy] [E|[]]; [exact (Hse (eq_sym E))|]. apply Hin. rewrite E. exact Hy. }
  assert (Hrs : map f_right fs' = map f_right ((fr :: inner0) ++ outer)).
  { apply Hright. intros y Hy. apply left_not_right; [exact Hfn|]. apply Hleft. exact Hy. }
  pose proof (old_frames_sim k _ _ Hsim Hrs X2) as X2'.
  apply Forall2_app_inv_l in Hsim as (inner' & outer' & Hsi & Hso & ->).
  assert (Hrin : map f_right inner' = map f_right (fr :: inner0)).
  { rewrite !map_app in Hrs.
    apply (app_inv_length _ _ _ _) in Hrs as [Hrs _]; [exact Hrs|].
    rewrite !length_map. symmetry. exact (Forall2_length Hsi). }
  destruct (Forall2_sim_cons _ _ _ Hsi) as (fr' & inner0' & -> & Hfr & Hsi0).
  simpl app in X2'. apply (old_frames_cons k) in X2' as [[X2a X2b] X2c].
  assert (E2 : text_of elB ++ text_of aft = de).
  { rewrite TB, TA. apply substring_split. }
  assert (Hpe1 : parent_old k f1 e).
  { split; [exists de; exact He1|]. exists (f_id fr'). split; [|exact X2a].
    unfold parentNode. rewrite Ef1 in Hnd1 |- *. cbn [app] in Hnd1 |- *.
    pose proof (place_in_focus pre' post' fr' (inner0' ++ outer') (Text e de) Hnd1) as E.
    cbn [nid] in E. rewrite E. reflexivity. }
  assert (HW1 : forall e', In e' (pending_els st ++ elA :: innerEls) -> wrapper k f1 e').
  { intros e' He'. apply in_app_or in He' as [He'|He'].
    - pose proof (X1 e' He') as Hw. pose proof Hw as (Hk & t & cs & Hl & Hthin).
      split; [exact Hk|]. exists t, cs. split; [|exact Hthin].
      apply (Tracked_lookup (s :: inn) (dom st)); auto.
      intros y Hy. exact (wrapper_avoid k (dom st) e' y _ Hnd0 Hw Hl (Hpar y Hy)).
    - destruct (Hnews e' He') as [Hn (fill & Hl)].
      apply (wrapper_make_el k tg f1 e' fill); [|exact Hl].
      pose proof (stencil_below k tg st [] HK). lia. }
  assert (HW : Wrapped k st1).
  { intros e' He'. rewrite Hpe in He'. pose proof (k_nodup _ _ _ _ HK1) as Hnd1'.
    rewrite Hd1 in Hnd1' |- *.
    change (elA :: innerEls ++ [el]) with ((elA :: innerEls) ++ [el]) in He'.
    rewrite app_assoc in He'.
    apply in_app_or in He' as [He'|[<-|[]]].
    - apply (wrapper_put k f1 e' e de); auto.
      cbn [flat_map]. rewrite app_nil_r. exact E2.
    - apply (wrapper_make_el k tg _ _ (substring de 0 ei)).
      + pose proof (stencil_below k tg st [] HK). lia.
      + rewrite <- EB. rewrite <- Hel at 1.
        apply (put_new_lookup e de _ false f1 elB); auto. left. reflexivity. }
  rewrite Ef1 in Hd1, Hnd1. simpl app in Hd1, Hnd1.
  rewrite (put_focus e de _ false pre' post' fr' _ Hnd1) in Hd1.
  set (frB := mkFrame (f_id fr') (f_tag fr') (f_left fr') (aft :: f_right fr')).
  exists pre', (frB :: inner0'), outer', elB, (post' ++ [Text e de]).
  split; [|split; [exact Hel|split; [discriminate|split; [|split; [|split; [exact HW|split;
    [|split]]]]]]].
  - constructor.
    + exact HK1.
    + rewrite Hd1. simpl. unfold wrap, frB. simpl. reflexivity.
    + rewrite <- Hr. rewrite (sim_nid_plug _ _ (Text e de) Hsi). simpl.
      apply nid_plug_cong. reflexivity.
    + rewrite <- Ht. rewrite (sim_text_plug _ _ (Text e de) Hsi).
      rewrite !text_plug. simpl. unfold right_text. simpl. fold (right_text inner0').
      rewrite <- E2. rewrite <- !app_assoc. reflexivity.
  - rewrite (sim_left_text _ _ Hsi).
    change (left_text (frB :: inner0')) with (left_text (fr' :: inner0')).
    rewrite TB. rewrite substring_len by lia. lia.
  - apply HP1. exact He0.
  - simpl app. apply (old_frames_cons k frB). split; [|exact X2c].
    split; [exact X2a|]. simpl. intros c [<-|Hc].
    + apply settled_is_text. exact Haft.
    + apply X2b. exact Hc.
  - rewrite <- (right_ids_eq _ _ Hrin).
    unfold right_ids, frB. cbn [flat_map f_right]. rewrite !length_app.
    destruct aft; [simpl; lia|discriminate].
  - destruct (replace_fresh _ _ _ _ _ _ Hrun) as (_ & C & _). rewrite C. lia.
Qed.

(** After the replacement the walk goes on behind the node that [replace]
    has returned, or the match was the last one. *)
Lemma replaced_total (fuel : nat) (w1 : Walk) (s e : nat) (de : jsstring)
      (st : State) (B : nat) :
  (exists el st1,
      replace (makeReplacementNode k (reparse_name tg))
              (mkRange s (startNodeIndex w1) e (endNodeIndex w1) (innerNodes w1)
                       (loc_match (matchLocation w1)) (matchIndex w1)) st = (Ok el, st1)
      /\ exists pre' inner' outer' sub' post',
           Place st1 pre' inner' outer' sub' post'
           /\ nid sub' = el
           /\ inner' <> []
           /\ len (left_text inner') + len (text_of sub')
              = atIndex w1 - (len de - endNodeIndex w1)
           /\ lookup e (dom st1) = Some (Text e de)
           /\ Wrapped k st1
           /\ old_frames k (inner' ++ outer')
           /\ (length (right_ids inner') <= B)%nat
           /\ (recorded st < recorded st1)%nat) ->
  0 <= atIndex w1 - (len de - endNodeIndex w1) ->
  chain_in (atIndex w1 - (len de - endNodeIndex w1)) (matches w1) ->
  (k <= fuel)%nat ->
  exists nx st',
    replaced fuel w1 s e st = (Ok nx, st')
    /\ advanced (B + length (matches w1))
                (recorded st + length (matches w1)) nx st'.
Proof.
  intros (el & st1 & Hr & pre' & inner' & outer' & sub' & post' & HP & Hel & Hin & Hat & He
          & HW & HF & HB & Hpc) H0 Hch Hfuel.
  unfold Invariants.replaced. rewrite (bind_eq _ _ _ _ _ Hr).
  rewrite (bind_eq _ _ _ _ _ (get_data_eq e st1 de He)).
  destruct (matches w1) as [|loc rest] eqn:Em.
  - eexists _, _. split; [reflexivity|]. simpl. split.
    + exact (Place_ended k tg R T _ _ _ _ _ _ HP Hin HW).
    + lia.
  - set (wmid := mkWalk None None (startNodeIndex w1) (endNodeIndex w1) []
                        (atIndex w1 - (len de - endNodeIndex w1)) el loc rest
                        (matchIndex w1 + 1)).
    assert (HI : InvEnd wmid st1 pre' inner' outer' sub' post').
    { constructor; auto.
      - split; [reflexivity|]. split; [exact H0|]. exact Hch.
      - reflexivity.
      - constructor; [exact HW|exact HF|intros y []]. }
    pose proof (frames_bound st1 pre' post' inner' outer' sub' HP HF) as Hlen.
    destruct (forward_or_up_total fuel wmid st1 pre' post' inner' outer' sub' HI
                ltac:(lia)) as (o & Ho & Hpost).
    rewrite Hel in Ho. rewrite (bind_eq _ _ _ _ _ Ho).
    destruct o as [c|].
    + destruct Hpost as (inner'' & sub'' & Hinv & Hm).
      eexists _, _. split; [reflexivity|].
      exists pre', inner'', outer', sub'', post'.
      split; [exact Hinv|]. split; [constructor|]. simpl. split; lia.
    + exfalso.
      pose proof (pending_before_end wmid (e_pending _ _ _ _ _ _ _ HI)) as Hlt.
      pose proof (e_at _ _ _ _ _ _ _ HI) as Hat'.
      pose proof (text_at k tg R T _ _ _ _ _ _ HP) as HT.
      rewrite (right_ids_nil _ Hpost), app_nil_r in HT.
      rewrite HT, len_app in Hlt. lia.
Qed.

Lemma onward_advanced (fuel : nat) (w1 : Walk) (st : State) (pre post : forest)
      (inner outer : list Frame) (sub : Node) (m p : nat) :
  InvEnd w1 st pre inner outer sub post ->
  children sub = [] ->
  (k <= fuel)%nat ->
  NoDup (marked w1) ->
  (length (right_ids inner) + length (matches w1) < m)%nat ->
  (p <= recorded st + length (matches w1))%nat ->
  exists nx st', onward fuel w1 st = (Ok nx, st') /\ advanced m p nx st'.
Proof.
  intros HI Hch Hfuel Hnd Hm Hp.
  pose proof (frames_bound st pre post inner outer sub (e_place _ _ _ _ _ _ _ HI)
                (x_frames _ _ _ (e_extra _ _ _ _ _ _ _ HI))) as Hlen.
  destruct (onward_total fuel w1 st pre post inner outer sub HI Hch ltac:(lia))
    as (c & inner' & sub' & Ho & Hinv & Ht).
  eexists _, _. split; [exact Ho|].
  exists pre, inner', outer, sub', post.
  split; [exact Hinv|]. split; [exact Hnd|]. simpl. split; lia.
Qed.

(** One round of the outer loop returns. *)
Lemma walk_step_total (fuel : nat) (w : Walk) (st : State) (pre post : forest)
      (inner outer : list Frame) (sub : Node) :
  Inv w st pre inner outer sub post ->
  NoDup (marked w) ->
  (k <= fuel)%nat ->
  exists nx st',
    walk_step fuel R (replace (makeReplacementNode k (reparse_name tg))) w st = (Ok nx, st')
    /\ advanced (todo inner sub + length (matches w))
                (recorded st + length (matches w)) nx st'.
Proof.
  intros HI Hndm Hfuel.
  pose proof (v_place _ _ _ _ _ _ _ HI) as HP.
  pose proof (Place_lookup k tg R T _ _ _ _ _ _ HP) as Hl.
  pose proof (v_cur _ _ _ _ _ _ _ HI) as Hcur.
  pose proof (v_at _ _ _ _ _ _ _ HI) as Hat.
  pose proof (v_seen _ _ _ _ _ _ _ HI) as Hseen. unfold seen in Hseen.
  pose proof (v_extra _ _ _ _ _ _ _ HI) as HX.
  rewrite Hcur in Hl.
  rewrite (walk_step_eq k tg R fuel w st sub Hl). cbv zeta.
  destruct (v_pending _ _ _ _ _ _ _ HI) as (Hend & Hat0 & Hmode).
  destruct sub as [x d | i t cs].
  - (* a Text node *)
    simpl is_text. simpl data_of. simpl in Hcur.
    pose proof (text_at k tg R T _ _ _ _ _ _ HP) as HT. simpl in HT.
    pose proof (len_nonneg d) as Hd0.
    pose proof (focus_parent_old k tg R T _ _ _ _ _ _ _ _ HI) as Hpo.
    assert (Htodo : todo inner (Text x d) = S (length (right_ids inner))) by reflexivity.
    destruct (startNode w) as [s|] eqn:Es.
    + (* the start node is set *)
      destruct Hmode as (Hlt & Hle & Hmt & Hch).
      destruct Hseen as [Hs Hinn].
      unfold marked in Hndm. rewrite Es in Hndm.
      rewrite (visit_mid w (len d) s Es Hend). cbv zeta.
      destruct (len d + atIndex w >=? loc_end (matchLocation w)) eqn:Ee.
      * apply Z.geb_le in Ee. rewrite Htodo. cbn [startNode endNode].
        refine (replaced_total fuel _ s (curNode w) d st (S (length (right_ids inner)))
                  _ _ _ Hfuel); simpl.
        -- rewrite <- Hcur.
           assert (Hse : s <> x) by exact (not_seen k tg R T _ _ _ _ _ _ s HP Hs).
           assert (Hnin : ~ In x (innerNodes w)).
           { intros Hx. exact (not_seen k tg R T _ _ _ _ _ _ x HP (Hinn x Hx) eq_refl). }
           assert (Hleft : forall y, In y (s :: innerNodes w) ->
                                     In y (left_ids (inner ++ outer))).
           { intros y [<-|Hy]; [exact Hs|exact (Hinn y Hy)]. }
           assert (Hpar : forall y, In y (s :: innerNodes w) -> parent_old k (dom st) y).
           { intros y Hy. apply (x_marked _ _ _ HX). unfold marked. rewrite Es. exact Hy. }
           destruct (after_multi_total w st pre post inner outer s x d (startNodeIndex w)
                       (loc_end (matchLocation w) - atIndex w) (innerNodes w)
                       (loc_match (matchLocation w)) (matchIndex w) HI Hse Hnin Hndm
                       Hleft Hpar ltac:(lia) ltac:(lia))
             as (el & st1 & Hr & pre' & inner' & outer' & sub' & post' & H1 & H2 & H3 & H4
                 & H5 & H6).
           exists el, st1. split; [exact Hr|].
           exists pre', inner', outer', sub', post'.
           refine (conj H1 (conj H2 (conj H3 (conj _ (conj H5 H6))))). lia.
        -- lia.
        -- replace (atIndex w + len d - (len d - (loc_end (matchLocation w) - atIndex w)))
             with (loc_end (matchLocation w)) by lia. exact Hch.
      * rewrite Z.geb_leb in Ee. apply Z.leb_gt in Ee. rewrite Htodo. cbn [startNode endNode].
        refine (onward_advanced fuel _ st pre post inner outer (Text x d) _ _ _ eq_refl
                  Hfuel _ _ _).
        -- destruct (Inv_inner k tg R T _ _ _ _ _ _ _ _ HI) as (fr & inner0 & Ein).
           constructor.
           ++ exact HP.
           ++ exact Hcur.
           ++ rewrite Ein. discriminate.
           ++ simpl. rewrite Hat. lia.
           ++ split; [reflexivity|]. split; [simpl; lia|]. simpl.
              split; [lia|]. split; [exact Hle|]. split; [exact Hmt|exact Hch].
           ++ unfold seen. simpl. split.
              ** apply in_or_app. left. exact Hs.
              ** intros y Hy. apply in_app_or in Hy as [Hy|[<-|[]]].
                 --- apply in_or_app. left. apply Hinn, Hy.
                 --- apply in_or_app. right. left. exact Hcur.
           ++ apply (Extra_marked k w); [exact HX|]. unfold marked. simpl. rewrite Es.
              intros y [<-|Hy]; [left; left; reflexivity|].
              apply in_app_or in Hy as [Hy|[<-|[]]]; [left; right; exact Hy|].
              right. rewrite <- Hcur. exact Hpo.
        -- unfold marked. simpl.
           change (s :: innerNodes w ++ [curNode w]) with ((s :: innerNodes w) ++ [curNode w]).
           apply NoDup_app_intro; [exact Hndm|constructor; [intros []|constructor]|].
           intros y Hy [<-|[]]. rewrite <- Hcur in Hy.
           assert (Hyl : In x (left_ids (inner ++ outer))).
           { destruct Hy as [<-|Hy]; [exact Hs|exact (Hinn _ Hy)]. }
           exact (not_seen k tg R T _ _ _ _ _ _ x HP Hyl eq_refl).
        -- simpl. lia.
        -- simpl. lia.
    + (* no start node yet *)
      simpl in Hmode. destruct Hmode as (Hlo & Hlt & Hle & Hmt & Hch).
      rewrite (visit_free w (len d) Es Hend). cbv zeta.
      rewrite Htodo.
      destruct (len d + atIndex w >? loc_start (matchLocation w)) eqn:Eb;
        destruct (len d + atIndex w >=? loc_end (matchLocation w)) eqn:Ee;
        cbn [startNode endNode].
      * (* the match lies in this node *)
        apply Z.geb_le in Ee. apply Z.gtb_lt in Eb.
        refine (replaced_total fuel _ (curNode w) (curNode w) d st
                  (S (length (right_ids inner))) _ _ _ Hfuel); simpl.
        -- rewrite <- Hcur.
           assert (Hmt' : hd [] (loc_match (matchLocation w))
                          = substring d (loc_start (matchLocation w) - atIndex w)
                                      (loc_end (matchLocation w) - atIndex w)).
           { rewrite Hmt. simpl. rewrite HT.
             rewrite substring_middle by (rewrite <- Hat; lia).
             rewrite <- Hat. reflexivity. }
           destruct (after_single_total w st pre post inner outer x d
                       (loc_start (matchLocation w) - atIndex w)
                       (loc_end (matchLocation w) - atIndex w) (innerNodes w)
                       (loc_match (matchLocation w)) (matchIndex w) HI
                       ltac:(lia) ltac:(lia) ltac:(lia) Hmt')
             as (el & st1 & Hr & pre' & inner' & outer' & sub' & post' & H1 & H2 & H3 & H4
                 & H5 & H6).
           exists el, st1. split; [exact Hr|].
           exists pre', inner', outer', sub', post'.
           refine (conj H1 (conj H2 (conj H3 (conj _ (conj H5 H6))))). lia.
        -- lia.
        -- replace (atIndex w + len d - (len d - (loc_end (matchLocation w) - atIndex w)))
             with (loc_end (matchLocation w)) by lia. exact Hch.
      * (* the match starts in this node *)
        rewrite Z.geb_leb in Ee. apply Z.leb_gt in Ee. apply Z.gtb_lt in Eb.
        refine (onward_advanced fuel _ st pre post inner outer (Text x d) _ _ _ eq_refl
                  Hfuel _ _ _).
        -- destruct (Inv_inner k tg R T _ _ _ _ _ _ _ _ HI) as (fr & inner0 & Ein).
           constructor.
           ++ exact HP.
           ++ exact Hcur.
           ++ rewrite Ein. discriminate.
           ++ simpl. rewrite Hat. lia.
           ++ split; [reflexivity|]. split; [simpl; lia|]. simpl.
              split; [lia|]. split; [exact Hle|]. split; [exact Hmt|exact Hch].
           ++ unfold seen. simpl. rewrite Hseen. split.
              ** apply in_or_app. right. left. exact Hcur.
              ** intros y [].
           ++ apply (Extra_marked k w); [exact HX|]. unfold marked. simpl. rewrite Hseen.
              intros y [<-|[]]. right. rewrite <- Hcur. exact Hpo.
        -- unfold marked. simpl. rewrite Hseen. constructor; [intros []|constructor].
        -- simpl. lia.
        -- simpl. lia.
      * exfalso. apply Z.geb_le in Ee.
        destruct (Z.gtb_spec (len d + atIndex w) (loc_start (matchLocation w)));
          [discriminate|lia].
      * (* the match starts later *)
        assert (Eb' : len d + atIndex w <= loc_start (matchLocation w)).
        { destruct (Z.gtb_spec (len d + atIndex w) (loc_start (matchLocation w)));
            [discriminate|lia]. }
        refine (onward_advanced fuel _ st pre post inner outer (Text x d) _ _ _ eq_refl
                  Hfuel _ _ _).
        -- destruct (Inv_inner k tg R T _ _ _ _ _ _ _ _ HI) as (fr & inner0 & Ein).
           constructor.
           ++ exact HP.
           ++ exact Hcur.
           ++ rewrite Ein. discriminate.
           ++ simpl. rewrite Hat. lia.
           ++ split; [reflexivity|]. split; [simpl; lia|]. simpl.
              split; [lia|]. split; [exact Hlt|]. split; [exact Hle|].
              split; [exact Hmt|exact Hch].
           ++ unfold seen. simpl. exact Hseen.
           ++ apply (Extra_marked k w); [exact HX|]. unfold marked. simpl. rewrite Es.
              intros y [].
        -- unfold marked. simpl. constructor.
        -- simpl. lia.
        -- simpl. lia.
  - (* an element *)
    cbn [is_text].
    assert (Hon : match startNode w with
                  | Some s => match endNode w with
                              | Some e => replaced fuel w s e st
                              | None => onward fuel w st
                              end
                  | None => onward fuel w st
                  end = onward fuel w st).
    { rewrite Hend. destruct (startNode w); reflexivity. }
    rewrite Hon. clear Hon.
    destruct cs as [|c cs].
    + refine (onward_advanced fuel w st pre post inner outer (Element i t []) _ _ _ eq_refl
                Hfuel Hndm _ _).
      * constructor.
        -- exact HP.
        -- exact Hcur.
        -- intros ->. apply T_not_empty. rewrite <- (p_text _ _ _ _ _ _ _ _ _ _ HP). reflexivity.
        -- rewrite Hat. unfold len at 3. simpl. lia.
        -- exact (v_pending _ _ _ _ _ _ _ HI).
        -- apply (seen_more w (left_ids (inner ++ outer))); [|exact (v_seen _ _ _ _ _ _ _ HI)].
           intros y Hy. apply in_or_app. left. exact Hy.
        -- exact HX.
      * unfold todo. simpl. lia.
      * lia.
    + unfold Invariants.onward, bind at 1, get_firstChild.
      unfold firstChild. rewrite Hl.
      unfold bind at 1, get_nextSibling. unfold ret.
      eexists _, _. split; [reflexivity|].
      exists pre, (mkFrame i t [] cs :: inner), outer, c, post.
      split; [exact (step_down k tg R T w st pre post inner outer i t c cs HI)|].
      split; [exact Hndm|]. split.
      * unfold todo, right_ids. cbn [flat_map f_right ids length matches move_to].
        fold (right_ids inner). rewrite !length_app. simpl. lia.
      * simpl. lia.
Qed.

(** The outer loop returns within as many rounds as there are nodes and
    matches to go, and has then replaced every match. *)
Lemma walk_loop_total (bound : nat) (fuel : nat) :
  forall (w : Walk) (st : State) (pre post : forest) (inner outer : list Frame)
         (sub : Node),
    Inv w st pre inner outer sub post ->
    NoDup (marked w) ->
    (k <= bound)%nat ->
    (todo inner sub + length (matches w) < fuel)%nat ->
    exists st',
      walk_loop fuel bound R (replace (makeReplacementNode k (reparse_name tg))) w st = (Ok tt, st')
      /\ Ended st'
      /\ (recorded st + length (matches w) < recorded st')%nat.
Proof.
  induction fuel as [|fuel IH]; intros w st pre post inner outer sub HI Hnd Hb Hm; [lia|].
  cbn [walk_loop].
  destruct (walk_step_total bound w st pre post inner outer sub HI Hnd Hb)
    as (nx & st1 & Hs & Hadv).
  rewrite (bind_eq _ _ _ _ _ Hs).
  destruct nx as [w'|].
  - destruct Hadv as (pre' & inner' & outer' & sub' & post' & HI' & Hnd' & Hm' & Hp').
    destruct (IH w' st1 pre' post' inner' outer' sub' HI' Hnd' Hb ltac:(lia))
      as (st' & Hrun & Hend & Hp).
    exists st'. split; [exact Hrun|]. split; [exact Hend|]. lia.
  - destruct Hadv as [Hend Hp]. exists st1. split; [reflexivity|]. split; [exact Hend|exact Hp].
Qed.

End WalkTotal.

(** *** The walk from a Text node returns *)

Section TextRootTotal.
Local Open Scope Z_scope.

Variable k : nat.
Variable tg : jsstring.
Variable R : nat.
Variable d : jsstring.
Local Abbreviation Gen := (Invariants.Gen k tg R d).
Local Abbreviation TextEnded := (Invariants.TextEnded k tg R d).

(** The node after a node has the parent of that node. *)
Lemma next_sibling_parent (f : forest) (x a : nat) :
  NoDup (all_ids f) -> nextSibling x f = Some a ->
  exists p, parentNode a f = Some p.
Proof.
  intros Hnd H. unfold nextSibling in H.
  destruct (place_in x f) as [[p [[l n] [|s r]]]|] eqn:E; try discriminate.
  injection H as <-.
  destruct (place_in_sound x p f n l (s :: r) E) as (pre & t & fs & post & Hf & _).
  assert (Hf' : f = pre ++ plug (mkFrame p t (l ++ [n]) r :: fs) s :: post).
  { rewrite Hf. simpl. unfold wrap. simpl. rewrite <- app_assoc. reflexivity. }
  exists p. unfold parentNode. rewrite Hf' at 1.
  rewrite place_in_focus by (rewrite <- Hf'; exact Hnd). reflexivity.
Qed.

(** One round of the outer loop at a Text node with a parent that holds
    the rest of the data: the round returns, with one match less to go. *)
Lemma gen_step_total (fuel : nat) (w : Walk) (st : State) :
  Gen w st ->
  (exists p, parentNode (curNode w) (dom st) = Some p) ->
  (1 <= fuel)%nat ->
  exists nx st',
    walk_step fuel R (replace (makeReplacementNode k (reparse_name tg))) w st = (Ok nx, st')
    /\ (recorded st < recorded st')%nat
    /\ match nx with
       | Continue w' =>
           Gen w' st'
           /\ (exists p, parentNode (curNode w') (dom st') = Some p)
           /\ S (length (matches w')) = length (matches w)
       | Break => TextEnded st' /\ matches w = []
       end.
Proof.
  intros HG [p Hp] Hfuel.
  assert (Hstep : exists nx st',
             walk_step fuel R (replace (makeReplacementNode k (reparse_name tg))) w st = (Ok nx, st')
             /\ (recorded st < recorded st')%nat
             /\ match nx with
                | Continue w' =>
                    (exists p, parentNode (curNode w') (dom st') = Some p)
                    /\ S (length (matches w')) = length (matches w)
                | Break => matches w = []
                end).
  { destruct HG as [HK HW (pfx & dc & Ed & Hat & Hl) Hpar [Hs He] Hch Hroot].
    rewrite (walk_step_eq k tg R fuel w st _ Hl). cbv zeta.
    cbn [is_text data_of].
    rewrite (visit_free w (len dc) Hs He). cbv zeta.
    simpl in Hch. destruct Hch as (Hlo & Hlt & Hle & Hmt & Hch).
    assert (Hlen : len d = len pfx + len dc) by (rewrite Ed; apply len_app).
    pose proof (len_nonneg pfx) as Hp0. pose proof (len_nonneg dc) as Hd0.
    destruct (len dc + atIndex w >? loc_start (matchLocation w)) eqn:Eb.
    2:{ exfalso. destruct (Z.gtb_spec (len dc + atIndex w) (loc_start (matchLocation w)));
          [discriminate|lia]. }
    destruct (len dc + atIndex w >=? loc_end (matchLocation w)) eqn:Ee.
    2:{ exfalso. rewrite Z.geb_leb in Ee. apply Z.leb_gt in Ee. lia. }
    simpl. unfold Invariants.replaced.
    cbn [startNodeIndex endNodeIndex innerNodes matchLocation matchIndex matches atIndex].
    set (x := curNode w) in *.
    set (si := loc_start (matchLocation w) - atIndex w) in *.
    set (ei := loc_end (matchLocation w) - atIndex w) in *.
    destruct (replace_single_total k tg st x p dc si ei (innerNodes w)
                (loc_match (matchLocation w)) (matchIndex w) HK Hl Hp)
      as (el & st1 & Hr & bef & eln & aft & Hd1 & HK1 & HP1 & Hel & Te & Tb & Ta & Eel
          & Hnx & Htx & Hpe & Haft & _).
    rewrite (bind_eq _ _ _ _ _ Hr).
    rewrite (bind_eq _ _ _ _ _ (get_data_eq x st1 dc (HP1 x dc Hl))).
    assert (Hpc : (recorded st < recorded st1)%nat).
    { destruct (replace_fresh _ _ _ _ _ _ Hr) as (_ & C & _). rewrite C. lia. }
    pose proof (k_nodup _ _ _ _ HK) as Hnd. pose proof (k_nodup _ _ _ _ HK1) as Hnd1.
    destruct (matches w) as [|loc rest] eqn:Em.
    - eexists _, _. split; [reflexivity|]. split; [exact Hpc|reflexivity].
    - simpl in Hch. destruct Hch as (Hlo' & Hlt' & Hle' & Hmt2 & Hch').
      destruct Haft as [a ->]; [apply Z.ltb_lt; unfold ei; lia|].
      destruct (parent_text_place (dom st) x p dc Hnd Hl Hp)
        as (pre & tg' & l & r & fs & post & Ef).
      rewrite Ef in Hd1, Hnd.
      rewrite (put_focus x dc _ false pre post (mkFrame p tg' l r) fs Hnd) in Hd1.
      cbn [f_id f_tag f_left f_right] in Hd1. rewrite app_nil_r in Hd1.
      set (ta := Text a (substring_from dc ei)) in *.
      assert (Ze : dom st1 = pre ++ plug (mkFrame p tg' (l ++ bef) (ta :: r) :: fs) eln
                                 :: (post ++ [Text x dc])).
      { rewrite Hd1. simpl. unfold wrap. simpl. rewrite <- !app_assoc. reflexivity. }
      assert (Hns : nextSibling el (dom st1) = Some a).
      { unfold nextSibling. rewrite <- Hel. rewrite Ze at 1.
        rewrite place_in_focus by (rewrite <- Ze; exact Hnd1). reflexivity. }
      destruct fuel as [|fuel]; [lia|].
      assert (Hf : forward_or_up (S fuel) R el st1 = (Ok (Some a), st1)).
      { cbn [forward_or_up]. unfold bind, get_nextSibling. rewrite Hns. reflexivity. }
      rewrite (bind_eq _ _ _ _ _ Hf). unfold ret.
      eexists _, _. split; [reflexivity|]. split; [exact Hpc|].
      cbn [curNode matches]. split; [|reflexivity].
      exact (next_sibling_parent (dom st1) el a Hnd1 Hns). }
  destruct Hstep as (nx & st' & Hrun & Hpc & Hpost).
  exists nx, st'. split; [exact Hrun|]. split; [exact Hpc|].
  pose proof (gen_step k tg R d fuel w st st' nx HG Hrun) as H.
  destruct nx as [w'|].
  - destruct Hpost as [Hq Hm]. split; [exact H|]. split; [exact Hq|exact Hm].
  - split; [exact H|exact Hpost].
Qed.

Lemma gen_loop_total (bound : nat) (fuel : nat) :
  forall (w : Walk) (st : State),
    Gen w st ->
    (exists p, parentNode (curNode w) (dom st) = Some p) ->
    (1 <= bound)%nat ->
    (length (matches w) < fuel)%nat ->
    exists st',
      walk_loop fuel bound R (replace (makeReplacementNode k (reparse_name tg))) w st = (Ok tt, st')
      /\ TextEnded st'
      /\ (recorded st + length (matches w) < recorded st')%nat.
Proof.
  induction fuel as [|fuel IH]; intros w st HG Hp Hb Hm; [lia|].
  cbn [walk_loop].
  destruct (gen_step_total bound w st HG Hp Hb) as (nx & st1 & Hs & Hpc & Hpost).
  rewrite (bind_eq _ _ _ _ _ Hs).
  destruct nx as [w'|].
  - destruct Hpost as (HG' & Hp' & Hm').
    destruct (IH w' st1 HG' Hp' Hb ltac:(lia)) as (st' & Hrun & Hend & Hp2).
    exists st'. split; [exact Hrun|]. split; [exact Hend|]. lia.
  - destruct Hpost as [Hend Hm0]. exists st1. split; [reflexivity|].
    split; [exact Hend|]. rewrite Hm0. simpl. lia.
Qed.

End TextRootTotal.

(** *** The call returns *)

Section CallTotal.
Import Scenario.
Import String.StringSyntax.
Local Open Scope string_scope.
Local Open Scope Z_scope.

Lemma ids_below_length (l : list nat) (b : nat) :
  NoDup l -> (forall i, In i l -> (i < b)%nat) -> (length l <= b)%nat.
Proof.
  intros Hnd Hb.
  assert (Hincl : incl l (seq 0 b)).
  { intros i Hi. apply in_seq. specialize (Hb i Hi). lia. }
  pose proof (NoDup_incl_length Hnd Hincl) as H. rewrite length_seq in H. exact H.
Qed.

Lemma prepared_parent (nodeName : Replacement) (st : State) (x p : nat) :
  parentNode x (dom st) = Some p -> parentNode x (dom (prepared nodeName st)) = Some p.
Proof.
  destruct nodeName; simpl; auto.
  unfold parentNode, place_in. intros H.
  destruct (first_some (place x) (dom st)) as [[q z]|] eqn:E; [|discriminate].
  rewrite (first_some_app (place x) (dom st) _ _ E). exact H.
Qed.

Lemma recorded_pending (st : State) : (recorded st <= length (pending_els st))%nat.
Proof.
  unfold recorded, pending_els. destruct (reverts st) as [l|]; [|simpl; lia].
  induction l as [|a l IH]; simpl; [lia|]. rewrite length_app.
  destruct a; simpl; lia.
Qed.

(** X4. A call with a node name that the parser reads back as an element
    without a child, on an element or on a Text node that has a parent,
    returns once the matches are located: with fuel beyond the number of
    node objects and of matches the walk ends; the replacement function
    has then returned once for every match, no more and no less, each time
    recording one inverse for [revert], so that the revert list holds as
    many inverses as there are matches, with at least one replacement node
    each. *)
Theorem replace_completes
        (fuel : nat) (regex : RegExp) (node : nat) (tag tg : jsstring)
        (captureGroup : option Z) (st : State) (n : Node)
        (ds : list MatchLocation)
        (Hwf : well_formed st = true)
        (Hback : parse_back tag = [E tg []])
        (Hnode : lookup node (dom st) = Some n)
        (Hatt : is_text n = true -> parentNode node (dom st) <> None)
        (Hok : engine_ok regex (text_of n) = true)
        (Hin : captures_inside regex (text_of n) captureGroup = true)
        (Hloc : locate fuel regex (text_of n) captureGroup = Ok ds)
        (Hfuel : (nextId st + length ds < fuel)%nat) :
  exists st',
    findAndReplaceDOMText fuel regex node (NodeName tag) captureGroup st = (Ok tt, st')
    /\ recorded st' = length ds
    /\ (length ds <= length (pending_els st'))%nat.
Proof.
  assert (Hfin : forall st', recorded st' = length ds ->
                             recorded st' = length ds
                             /\ (length ds <= length (pending_els st'))%nat).
  { intros st' E. split; [exact E|]. rewrite <- E. apply recorded_pending. }
  rewrite (far_unfold fuel regex node (NodeName tag) captureGroup st _ Hnode).
  pose proof (prepared_keeps (NodeName tag) st node _ Hnode) as Hn'.
  pose proof (Kept_prepared tag tg st Hwf Hback) as HK.
  destruct (well_formed_spec st Hwf) as [Hnd Hb].
  pose proof (locate_chain_in fuel regex _ captureGroup _ Hok Hin Hloc) as Hch.
  destruct (truthy (text_of n)) eqn:Et; simpl negb; cbv iota.
  2:{ eexists. split; [reflexivity|]. apply Hfin.
      destruct ds as [|a ds']; [reflexivity|]. exfalso.
      revert Hch Et. generalize (text_of n). intros T Hch Et.
      destruct Hch as (H1 & H2 & H3 & _).
      destruct T; [|discriminate].
      unfold len in H3. simpl in H3. lia. }
  rewrite Hloc.
  destruct ds as [|first rest].
  { eexists. split; [reflexivity|]. apply Hfin. reflexivity. }
  unfold _stepThroughMatches. simpl replacer.
  rewrite (reparse_back tag tg Hback).
  destruct (lookup_sound _ _ _ Hnode) as (pre & fs & post & Hd & Hid).
  assert (Hd' : dom (prepared (NodeName tag) st)
                = pre ++ plug fs n :: (post ++ [stencil (nextId st) tag])).
  { simpl. rewrite Hd, <- app_assoc. reflexivity. }
  assert (Hsub : forall i, In i (ids n) -> (i < nextId st)%nat).
  { intros i Hi. apply Hb. rewrite Hd. unfold all_ids. rewrite ids_forest_split.
    apply in_or_app. right. apply in_or_app. left. apply in_ids_plug. exact Hi. }
  assert (Hfs : forall i, In i (frame_ids fs) -> (i < nextId st)%nat).
  { intros i Hi. apply Hb. rewrite Hd. unfold all_ids. rewrite ids_forest_split.
    apply in_or_app. right. apply in_or_app. left.
    apply (Permutation_in _ (Permutation_sym (ids_plug fs _))).
    apply in_or_app. right. exact Hi. }
  destruct n as [x d|i t cs].
  - simpl in Hid. subst x.
    assert (Hpar : exists p, parentNode node (dom (prepared (NodeName tag) st)) = Some p).
    { destruct (parentNode node (dom st)) as [p|] eqn:Ep.
      - exists p. apply prepared_parent. exact Ep.
      - exfalso. exact (Hatt eq_refl eq_refl). }
    assert (HG : Gen (nextId st) tg node d
                     (mkWalk None None 0 0 [] 0 node first rest 0)
                     (prepared (NodeName tag) st)).
    { constructor; cbn [curNode atIndex startNode endNode matchLocation matches].
      - exact HK.
      - intros el [].
      - exists [], d. split; [reflexivity|]. split; [reflexivity|exact Hn'].
      - intros p Hp. unfold parentNode in Hp. rewrite Hd' in Hp.
        pose proof (k_nodup _ _ _ _ HK) as Hnd'. rewrite Hd' in Hnd'.
        destruct fs as [|fr fs].
        + pose proof (place_in_top pre _ (Text node d) Hnd') as E.
          simpl in E, Hp. rewrite E in Hp. discriminate.
        + pose proof (place_in_focus pre _ fr fs (Text node d) Hnd') as E.
          simpl nid in E. rewrite E in Hp. injection Hp as <-.
          apply Hfs. left. reflexivity.
      - split; reflexivity.
      - exact Hch.
      - left. split; reflexivity. }
    destruct (gen_loop_total (nextId st) tg node d fuel fuel _ _ HG Hpar)
      as (st' & Hrun & _ & Hp).
    + simpl in Hfuel. lia.
    + cbn [matches]. simpl in Hfuel. lia.
    + exists st'. split; [exact Hrun|]. apply Hfin.
      pose proof (walk_loop_records _ _ _ _ _ _ _ _ Hrun) as Hup.
      cbn [matches] in Hp, Hup. simpl in Hp, Hup |- *. lia.
  - simpl in Hid. subst i.
    assert (Hsize : (length (ids (Element node t cs)) <= nextId st)%nat).
    { apply ids_below_length; [|exact Hsub].
      rewrite Hd in Hnd. apply NoDup_forest_tree in Hnd.
      exact (NoDup_plug_inner _ _ Hnd). }
    assert (HI : Inv (nextId st) tg node (text_of (Element node t cs))
                     (mkWalk None None 0 0 [] 0 node first rest 0)
                     (prepared (NodeName tag) st) pre [] fs (Element node t cs)
                     (post ++ [stencil (nextId st) tag])).
    { constructor.
      - constructor; auto.
      - reflexivity.
      - reflexivity.
      - reflexivity.
      - split; [reflexivity|]. split; [simpl; lia|]. exact Hch.
      - reflexivity.
      - apply settled_below. exact Hsub.
      - constructor.
        + intros el [].
        + apply old_frames_below. exact Hfs.
        + intros y []. }
    destruct (walk_loop_total (nextId st) tg node (text_of (Element node t cs))
                (truthy_not_empty _ Et) fuel fuel _ _ pre
                (post ++ [stencil (nextId st) tag]) [] fs (Element node t cs) HI)
      as (st' & Hrun & _ & Hp).
    + constructor.
    + simpl in Hfuel. lia.
    + unfold todo. cbn [matches right_ids flat_map length]. simpl length in Hfuel. lia.
    + exists st'. split; [exact Hrun|]. apply Hfin.
      pose proof (walk_loop_records _ _ _ _ _ _ _ _ Hrun) as Hup.
      cbn [matches] in Hp, Hup. simpl in Hp, Hup |- *. lia.
Qed.

(** The match foo bar baz over the three Text nodes of foo [<b>bar</b>]
    baz; and the two matches of the global pattern a in [<p>a-a</p>]. *)
Lemma replace_completes_witness :
  (exists st',
      findAndReplaceDOMText 9 (compile false re_foo_bar_baz) 0 (NodeName (lit "em")) None
                            (page div_foo) = (Ok tt, st')
      /\ recorded st' = length [mkLoc 0 11 [lit "foo bar baz"]]
      /\ (length [mkLoc 0 11 [lit "foo bar baz"]] <= length (pending_els st'))%nat)
  /\ (exists st',
         findAndReplaceDOMText 9 (compile true re_a) 0 (NodeName (lit "em")) None
                               (page p_a_a) = (Ok tt, st')
         /\ recorded st' = length [mkLoc 0 1 [lit "a"]; mkLoc 2 3 [lit "a"]]
         /\ (length [mkLoc 0 1 [lit "a"]; mkLoc 2 3 [lit "a"]]
             <= length (pending_els st'))%nat).
Proof.
  split.
  - apply (replace_completes 9 (compile false re_foo_bar_baz) 0 (lit "em") (lit "em") None
             (page div_foo) div_foo [mkLoc 0 11 [lit "foo bar baz"]]).
    + reflexivity.
    + reflexivity.
    + reflexivity.
    + discriminate.
    + vm_compute. reflexivity.
    + reflexivity.
    + vm_compute. reflexivity.
    + simpl. lia.
  - apply (replace_completes 9 (compile true re_a) 0 (lit "em") (lit "em") None
             (page p_a_a) p_a_a [mkLoc 0 1 [lit "a"]; mkLoc 2 3 [lit "a"]]).
    + reflexivity.
    + reflexivity.
    + reflexivity.
    + discriminate.
    + vm_compute. reflexivity.
    + reflexivity.
    + vm_compute. reflexivity.
    + simpl. lia.
Defined.

End CallTotal.

(** *** The pieces of a Text node *)

Section SingleSplit.
Import Scenario.
Import String.StringSyntax.
Local Open Scope string_scope.
Local Open Scope Z_scope.

Lemma texts_shape (l : list Node) (s : jsstring) (b : bool) :
  (forall m, In m l -> is_text m = true) ->
  length l = (if b then 1 else 0)%nat ->
  flat_map text_of l = (if b then s else []) ->
  map shape l = (if b then [T s] else []).
Proof.
  intros Ht Hl Hs. destruct b.
  - destruct l as [|a [|a' l']]; try discriminate.
    specialize (Ht a (or_introl eq_refl)). destruct a; [|discriminate].
    simpl in Hs. rewrite app_nil_r in Hs. subst. reflexivity.
  - destruct l; [reflexivity|discriminate].
Qed.

(** X5. The function that [_genReplacer] returns for a node name that the
    parser reads back as an element [tg] without a child, called for a
    range inside one Text node [x] that is a child of the element [p]:
    the call returns the replacement node, a new element [tg] whose one
    child is a Text node with the matched text (no child when that text is
    empty); in the children of [p] the node [x] has given way
    to a Text node with the data before the range (left out when the range
    starts at 0), the replacement node, and a Text node with the data
    after the range (left out when the range ends at the end of the data);
    the node [x] is out of the document with its data, and the revert list
    holds the one replacement node. *)
Theorem single_node_split
        (st0 : State) (name tg : jsstring) (x p : nat) (d t : jsstring) (l r : list Node)
        (si ei : Z) (innerNodes : list nat) (m : jsstring) (matchIndex : Z)
        (replaceFn : Range -> M nat) (st : State)
        (Hwf : well_formed st0 = true)
        (Hback : parse_back name = [E tg []])
        (Hp : lookup p (dom st0) = Some (Element p t (l ++ Text x d :: r)))
        (Hgen : _genReplacer (NodeName name) st0 = (Ok replaceFn, st)) :
  exists el st' bef aft,
    replaceFn (mkRange x si x ei innerNodes [m] matchIndex) st = (Ok el, st')
    /\ lookup p (dom st')
       = Some (Element p t
                 (l ++ bef
                    ++ [Element el tg (if truthy m then [Text (S el) m] else [])]
                    ++ aft ++ r))
    /\ map shape bef = (if si >? 0 then [T (substring d 0 si)] else [])
    /\ map shape aft = (if ei <? len d then [T (substring_from d ei)] else [])
    /\ In (Text x d) (dom st')
    /\ (nextId st0 < el)%nat
    /\ pending_els st' = [el].
Proof.
  rewrite genReplacer_eq in Hgen. injection Hgen as <- <-.
  pose proof (Kept_prepared name tg st0 Hwf Hback) as HK.
  pose proof (prepared_keeps (NodeName name) st0 p _ Hp) as Hp'.
  set (st := prepared (NodeName name) st0) in *.
  pose proof (k_nodup _ _ _ _ HK) as Hnd.
  destruct (lookup_sound p (dom st) _ Hp') as (pre & fs & post & Hf & _).
  assert (Hf' : dom st = pre ++ plug (mkFrame p t l r :: fs) (Text x d) :: post) by exact Hf.
  assert (Hx : lookup x (dom st) = Some (Text x d)).
  { rewrite Hf' at 1. change x with (nid (Text x d)) at 1.
    apply lookup_focus. rewrite <- Hf'. exact Hnd. }
  assert (Hpx : parentNode x (dom st) = Some p).
  { apply (child_parent (dom st) p t _ (Text x d) Hnd Hp').
    apply in_or_app. right. left. reflexivity. }
  simpl replacer. rewrite (reparse_back name tg Hback).
  destruct (replace_single_total (nextId st0) tg st x p d si ei innerNodes [m] matchIndex
              HK Hx Hpx)
    as (el & st' & Hrun & bef & eln & aft & Hd1 & HK1 & HP1 & Hel & Te & Tb & Ta & Ee
        & Hnx & Htx & Hpe & _ & Lb & La).
  exists el, st', bef, aft. split; [exact Hrun|].
  pose proof (k_nodup _ _ _ _ HK1) as Hnd1.
  rewrite Hf' in Hd1, Hnd.
  rewrite (put_focus x d _ false pre post (mkFrame p t l r) fs Hnd) in Hd1.
  cbn [f_id f_tag f_left f_right] in Hd1. rewrite app_nil_r in Hd1.
  split; [|split; [|split; [|split; [|split]]]].
  - rewrite Hd1 in Hnd1 |- *.
    pose proof (lookup_focus pre (post ++ [Text x d]) fs
                  (Element p t (l ++ (bef ++ [eln] ++ aft) ++ r)) Hnd1) as H.
    cbn [nid] in H. rewrite H. rewrite Ee. unfold make_el. cbn [hd].
    rewrite <- !app_assoc. reflexivity.
  - apply texts_shape; auto. intros n Hn. apply Htx. apply in_or_app. left. exact Hn.
  - apply texts_shape; auto. intros n Hn. apply Htx. apply in_or_app. right. exact Hn.
  - rewrite Hd1. apply in_or_app. right. right. apply in_or_app. right. left. reflexivity.
  - simpl in Hnx. lia.
  - rewrite Hpe. reflexivity.
Qed.

(** The paragraph [<p>This is a test</p>] and the range of the word test. *)
Lemma single_node_split_witness :
  exists el st' bef aft,
    replacer em (page p_test) (mkRange 1 10 1 14 [] [lit "test"] 0)
             (prepared em (page p_test)) = (Ok el, st')
    /\ lookup 0 (dom st')
       = Some (Element 0 (lit "p")
                 ([] ++ bef ++ [Element el (lit "em") [Text (S el) (lit "test")]] ++ aft ++ []))
    /\ map shape bef = [T (lit "This is a ")]
    /\ map shape aft = []
    /\ In (Text 1 (lit "This is a test")) (dom st')
    /\ (2 < el)%nat
    /\ pending_els st' = [el].
Proof.
  apply (single_node_split (page p_test) (lit "em") (lit "em") 1 0 (lit "This is a test")
           (lit "p")
           [] [] 10 14 [] (lit "test") 0 (replacer em (page p_test))
           (prepared em (page p_test))); reflexivity.
Defined.

End SingleSplit.

(** *** The text of the subtree *)

Section FlattenedText.
Import Scenario.
Import String.StringSyntax.
Local Open Scope string_scope.
Local Open Scope Z_scope.

(** C2, as amended. A call with a node name other than [plaintext] that
    completes leaves the node with the aggregate text it had, whatever the
    subtree and the pattern: [lookup node] after the call gives a node
    whose [text_of] is the one before the call; and every replacement node
    that the call has recorded is a new element with no child or with one
    Text node as its only child ([wrapper]). The store holds node objects
    with distinct identities ([well_formed]), the host's [exec] keeps to
    its contract on this text ([engine_ok]), and the text of the selected
    capture group, if one is selected, occurs inside the full match
    ([captures_inside]); without a capture group the last condition holds
    by itself.

    The replacement function of the call, whenever it returns for a match
    from the index [si] of a Text node [s] to the index [ei] of another
    Text node [e] with the Text nodes [inner] in between, has changed the
    store, wherever these nodes are in the document, to [span_replaced]:
    every inner node has given way to a replacement node for its data; in
    the place of [s] are a Text node with the data of [s] before [si] and a
    replacement node for the data from [si] on; in the place of [e] are a
    replacement node for the data of [e] before [ei] and a Text node with
    the data from [ei] on; the replacement nodes are those recorded for
    [revert], and the last of them is returned. Whenever it returns for a
    match inside one Text node [x], from the index [si] to the index [ei],
    the node [x] has given way to a Text node with the data before [si]
    (left out when [si] is 0), a replacement node for the text of the
    match, which is recorded and returned, and a Text node with the data
    from [ei] on (left out when [ei] is the length of the data). A
    replacement node is an element of the name [tg] that the parser reads
    back, whose only child is a Text node with the text it is made for,
    and which has no child when that text is empty ([make_el]). *)
Theorem flattened_text_preserved
        (fuel : nat) (regex : RegExp) (node : nat) (tag : jsstring)
        (captureGroup : option Z) (st st' : State) (n : Node)
        (Hwf : well_formed st = true)
        (Htag : map lower tag <> lit "plaintext")
        (Hnode : lookup node (dom st) = Some n)
        (Hok : engine_ok regex (text_of n) = true)
        (Hin : captures_inside regex (text_of n) captureGroup = true)
        (Hrun : findAndReplaceDOMText fuel regex node (NodeName tag) captureGroup st
                = (Ok tt, st')) :
  (exists n', lookup node (dom st') = Some n' /\ text_of n' = text_of n)
  /\ (forall el, In el (pending_els st') -> wrapper (nextId st) (dom st') el)
  /\ (forall (st1 st2 : State) (s e : nat) (ds de : jsstring) (si ei : Z)
             (inner : list nat) (dl : list jsstring) (mt : list jsstring) (mi : Z)
             (el : nat),
        between (nextId st) tag st1 ->
        s <> e ->
        lookup s (dom st1) = Some (Text s ds) ->
        lookup e (dom st1) = Some (Text e de) ->
        Forall2 (fun x d => lookup x (dom st1) = Some (Text x d)) inner dl ->
        replacer (NodeName tag) st (mkRange s si e ei inner mt mi) st1 = (Ok el, st2) ->
        exists tg,
          parse_back tag = [E tg []]
          /\ dom st2
             = span_replaced tg (nextId st1) s ds si e de ei (combine inner dl) (dom st1)
          /\ el = nid (span_elB tg (nextId st1) ds si (combine inner dl) de ei)
          /\ pending_els st2
             = pending_els st1
               ++ nid (span_elA tg (nextId st1) ds si)
               :: inner_els (S (S (nextId st1)) + el_size (substring_from ds si))
                            (combine inner dl)
               ++ [el])
  /\ (forall (st1 st2 : State) (x : nat) (d : jsstring) (si ei : Z)
             (inner : list nat) (m : jsstring) (mi : Z) (el : nat),
        between (nextId st) tag st1 ->
        lookup x (dom st1) = Some (Text x d) ->
        replacer (NodeName tag) st (mkRange x si x ei inner [m] mi) st1 = (Ok el, st2) ->
        exists tg bef aft,
          parse_back tag = [E tg []]
          /\ dom st2 = put x d (bef ++ [make_el tg el m] ++ aft) false (dom st1)
          /\ map shape bef = (if si >? 0 then [T (substring d 0 si)] else [])
          /\ map shape aft = (if ei <? len d then [T (substring_from d ei)] else [])
          /\ pending_els st2 = pending_els st1 ++ [el]).
Proof.
  destruct (parse_back_cases tag) as [E0|[[_ Ep]|(tg & Eb & _)]].
  - pose proof (call_without_element fuel regex node tag captureGroup st st' n E0 Hnode Hrun)
      as ->.
    split; [exists n; split; [apply prepared_keeps; exact Hnode|reflexivity]|].
    assert (Hno : forall range st1 el st2,
               replacer (NodeName tag) st range st1 <> (Ok el, st2)).
    { intros range st1 el st2. simpl replacer. apply replace_fails.
      intros fill i st3 o st4. apply make_none. exact E0. }
    split; [|split].
    + intros el Hel. unfold pending_els in Hel. rewrite prepared_reverts in Hel.
      destruct Hel.
    + intros st1 st2 s e ds de si ei inner dl mt mi el _ _ _ _ _ Hrep. exfalso.
      exact (Hno _ _ _ _ Hrep).
    + intros st1 st2 x d si ei inner m mi el _ _ Hrep. exfalso.
      exact (Hno _ _ _ _ Hrep).
  - contradiction.
  - destruct (call_Undo fuel regex node tag tg captureGroup st st' n Hwf Eb Hnode Hok Hin Hrun)
      as [_ (n' & Hl & Ht & _) _ Hw].
    split; [exists n'; auto|]. split; [exact Hw|]. split.
    + intros st1 st2 s e ds de si ei inner dl mt mi el Hbt Hse Hs He Hdl Hrep.
      exists tg. split; [exact Eb|].
      simpl replacer in Hrep. rewrite (reparse_back tag tg Eb) in Hrep.
      exact (replace_multi_exact (nextId st) tg st1 st2 s e ds de si ei inner dl mt mi el
               (Kept_between (nextId st) tg tag st1 Hbt Eb) Hse Hs He Hdl Hrep).
    + intros st1 st2 x d si ei inner m mi el Hbt Hx Hrep.
      simpl replacer in Hrep. rewrite (reparse_back tag tg Eb) in Hrep.
      pose proof (Kept_between (nextId st) tg tag st1 Hbt Eb) as HK.
      destruct (replace_single_parent (nextId st) tg st1 st2 x si ei inner [m] mi el Hrep)
        as [p Hp].
      destruct (replace_single_total (nextId st) tg st1 x p d si ei inner [m] mi HK Hx Hp)
        as (el' & st3 & Hrun' & bef & eln & aft & Hd1 & _ & _ & Hel & _ & Tb & Ta & Ee
            & _ & Htx & Hpe & _ & Lb & La).
      rewrite Hrep in Hrun'. injection Hrun' as <- <-.
      exists tg, bef, aft. split; [exact Eb|].
      split; [rewrite Hd1, Ee; reflexivity|].
      split; [|split; [|exact Hpe]].
      * apply texts_shape; auto. intros n0 Hn0. apply Htx. apply in_or_app. left. exact Hn0.
      * apply texts_shape; auto. intros n0 Hn0. apply Htx. apply in_or_app. right. exact Hn0.
Qed.

(** The match that spans the three Text nodes of [foo <b>bar</b> baz]: the
    call completes, the [div] has the children Text (empty), em["foo "],
    b[em["bar"]], em[" baz"], Text (empty), and its text is as before. The
    call has made one replacement, from index 0 of the Text node 1 to
    index 4 of the Text node 4 over the Text node 3, in the store that
    [_genReplacer] has left; the store after it is [span_replaced]. In the
    same store, the replacement function for the range 0 to 3 of the Text
    node 1 puts em["foo"] and the Text node " " in its place. *)
Lemma flattened_text_preserved_witness :
  let st := page div_foo in
  let r := findAndReplaceDOMText 9 (compile true re_foo_bar_baz) 0 em None st in
  let inner := [(3%nat, lit "bar")] in
  let r1 := replacer em st (mkRange 1 0 1 3 [] [lit "foo"] 0) (prepared em st) in
  fst r = Ok tt
  /\ child_shapes 0 (snd r)
     = Some [T []; E (lit "em") [T (lit "foo ")];
             E (lit "b") [E (lit "em") [T (lit "bar")]];
             E (lit "em") [T (lit " baz")]; T []]
  /\ (exists n', lookup 0 (dom (snd r)) = Some n' /\ text_of n' = lit "foo bar baz")
  /\ (forall el, In el (pending_els (snd r)) -> wrapper 5 (dom (snd r)) el)
  /\ replacer em st (mkRange 1 0 4 4 [3%nat] [lit "foo bar baz"] 0) (prepared em st)
     = (Ok 12%nat, snd r)
  /\ (exists tg,
        parse_back (lit "em") = [E tg []]
        /\ dom (snd r)
           = span_replaced tg 6 1 (lit "foo ") 0 4 (lit " baz") 4 inner
                           (dom (prepared em st))
        /\ 12%nat = nid (span_elB tg 6 (lit "foo ") 0 inner (lit " baz") 4)
        /\ pending_els (snd r)
           = pending_els (prepared em st)
             ++ nid (span_elA tg 6 (lit "foo ") 0)
             :: inner_els (S (S 6) + el_size (substring_from (lit "foo ") 0)) inner
             ++ [12%nat])
  /\ fst r1 = Ok 6%nat
  /\ (exists tg bef aft,
        parse_back (lit "em") = [E tg []]
        /\ dom (snd r1)
           = put 1 (lit "foo ") (bef ++ [make_el tg 6 (lit "foo")] ++ aft) false
                 (dom (prepared em st))
        /\ map shape bef = (if 0 >? 0 then [T (substring (lit "foo ") 0 0)] else [])
        /\ map shape aft
           = (if 3 <? len (lit "foo ") then [T (substring_from (lit "foo ") 3)] else [])
        /\ pending_els (snd r1) = pending_els (prepared em st) ++ [6%nat]).
Proof.
  cbv zeta.
  assert (Hbt : between 5 (lit "em") (prepared em (page div_foo))).
  { vm_compute. repeat split; try discriminate.
    - repeat constructor; simpl; intuition discriminate.
    - intros i Hi. simpl in Hi. lia.
    - right. left. reflexivity. }
  destruct (flattened_text_preserved 9 (compile true re_foo_bar_baz) 0 (lit "em") None
              (page div_foo)
              (snd (findAndReplaceDOMText 9 (compile true re_foo_bar_baz) 0 em None
                      (page div_foo)))
              div_foo)
    as (H1 & H2 & H3 & H4).
  - reflexivity.
  - vm_compute. discriminate.
  - reflexivity.
  - vm_compute. reflexivity.
  - reflexivity.
  - vm_compute. reflexivity.
  - split; [vm_compute; reflexivity|].
    split; [vm_compute; reflexivity|].
    split; [exact H1|]. split; [exact H2|].
    split; [vm_compute; reflexivity|].
    split; [|split; [vm_compute; reflexivity|]].
    + apply (H3 (prepared em (page div_foo)) _ 1%nat 4%nat (lit "foo ") (lit " baz") 0 4
                [3%nat] [lit "bar"] [lit "foo bar baz"] 0 12%nat).
      * exact Hbt.
      * discriminate.
      * reflexivity.
      * reflexivity.
      * constructor; [reflexivity|constructor].
      * vm_compute. reflexivity.
    + apply (H4 (prepared em (page div_foo)) _ 1%nat (lit "foo ") 0 3 [] (lit "foo") 0 6%nat).
      * exact Hbt.
      * reflexivity.
      * vm_compute. reflexivity.
Defined.

(** C2, as stated, fails in three ways. The pattern a(?=(bab)) with
    capture group 1 on [<p>abab</p>] matches "a" at 0 and captures the
    "bab" after it; [indexOf] does not find it in "a", the location is -1
    to 2, and the call completes with the children em["bab"], Text "ab":
    the text of the paragraph has become "babab". With the node name
    [plaintext] the parser reads the end tag of the stencil as text, and
    the call for the pattern test on [<p>This is a test</p>] completes
    with that text added. And when the match foo spans the Text nodes
    "fo", "" and "o", the replacement node of the empty Text node has no
    Text child. *)
Lemma text_or_structure_differs :
  (let r := findAndReplaceDOMText 9 (compile false re_ahead) 0 em (Some 1) (page p_abab) in
   fst r = Ok tt
   /\ flat 0 (page p_abab) = Some (lit "abab")
   /\ child_shapes 0 (snd r) = Some [E (lit "em") [T (lit "bab")]; T (lit "ab")]
   /\ flat 0 (snd r) = Some (lit "babab")
   /\ flat 0 (snd r) <> flat 0 (page p_abab))
  /\ (let r := findAndReplaceDOMText 9 (compile false re_test) 0 plaintext None
                                     (page p_test) in
      fst r = Ok tt
      /\ flat 0 (page p_test) = Some (lit "This is a test")
      /\ child_shapes 0 (snd r)
         = Some [T (lit "This is a ");
                 E (lit "plaintext") [T (lit "</plaintext>"); T (lit "test")]]
      /\ flat 0 (snd r) = Some (lit "This is a </plaintext>test")
      /\ flat 0 (snd r) <> flat 0 (page p_test))
  /\ (let r := findAndReplaceDOMText 9 (compile false re_foo) 0 em None (page p_fo_o) in
      fst r = Ok tt
      /\ child_shapes 0 (snd r)
         = Some [T []; E (lit "em") [T (lit "fo")]; E (lit "em") [];
                 E (lit "em") [T (lit "o")]; T []]).
Proof.
  vm_compute. repeat split; try reflexivity; discriminate.
Qed.

End FlattenedText.

(** *** One call after another *)

Section LaterCalls.
Import Scenario.
Import String.StringSyntax.
Local Open Scope string_scope.
Local Open Scope Z_scope.




End LaterCalls.

(** *** A Text node without a parent *)

Section DetachedRoot.
Import Scenario.
Import String.StringSyntax.
Local Open Scope string_scope.
Local Open Scope Z_scope.










End DetachedRoot.

(** *** Taking a replacement node out again *)

Section UnwrapTotal.

(** Taking out a replacement node that has a parent and a Text child does
    not fail. *)
Lemma unwrap_total (st : State) (el p c : nat) (t d : jsstring) :
  NoDup (all_ids (dom st)) ->
  lookup el (dom st) = Some (Element el t [Text c d]) ->
  parentNode el (dom st) = Some p ->
  exists st', unwrap el st = (Ok tt, st').
Proof.
  intros Hnd Hel Hp. unfold unwrap.
  unfold bind at 1, get_parentNode. rewrite Hp.
  unfold bind at 1. simpl deref. unfold ret at 1.
  unfold parentNode in Hp.
  destruct (place_in el (dom st)) as [[p' [[l n] r]]|] eqn:Hpl; [|discriminate].
  injection Hp as ->.
  destruct (place_in_sound _ _ _ _ _ _ Hpl) as (pre & tg & fs & post & Hd & Hn).
  assert (En : n = Element el t [Text c d]).
  { pose proof (lookup_focus pre post (mkFrame p tg l r :: fs) n) as H.
    rewrite <- Hd, Hn in H. specialize (H Hnd). congruence. }
  subst n. clear Hn.
  unfold bind at 1, get_firstChild. unfold firstChild.
  rewrite Hel.
  unfold bind at 1. simpl deref. unfold ret at 1.
  simpl nid.
  set (fr := mkFrame p tg l r) in *.
  set (frel := mkFrame el t [] []).
  assert (Hc : dom st = pre ++ plug (frel :: fr :: fs) (Text c d) :: post) by exact Hd.
  assert (Hlc : lookup c (dom st) = Some (Text c d)).
  { rewrite Hc. apply (lookup_focus pre post (frel :: fr :: fs) (Text c d)).
    rewrite <- Hc. exact Hnd. }
  unfold bind at 1, get_node. rewrite Hlc.
  (* insertBefore *)
  unfold bind at 1, dom_op at 1, insertBefore. simpl nid.
  assert (E1 : subst_in c (fun _ => []) (dom st)
               = pre ++ plug_list (fr :: fs) [Element el t []] ++ post).
  { rewrite Hc. rewrite (subst_in_focus_text c d). reflexivity. rewrite <- Hc. exact Hnd. }
  rewrite E1. clear E1.
  rewrite plug_list_one. cbn [app].
  assert (Hnd' : NoDup (all_ids (pre ++ plug (fr :: fs) (Element el t [Text c d]) :: post)))
    by (rewrite <- Hd; exact Hnd).
  assert (N1 : NoDup (all_ids (pre ++ plug (fr :: fs) (Element el t []) :: post))).
  { pose proof (NoDup_splice pre post [] (fr :: fs) (Element el t [Text c d])
                             [Element el t []] Hnd') as H.
    rewrite plug_list_one, !app_nil_r in H. apply H.
    - simpl. constructor; [intros []|constructor].
    - simpl. intros x [<-|[]]. left. reflexivity. }
  unfold parentNode.
  pose proof (place_in_focus pre post fr fs (Element el t []) N1) as E2.
  cbn [nid] in E2. rewrite E2. clear E2.
  cbn [f_id fr]. rewrite Nat.eqb_refl.
  pose proof (subst_in_focus (fun r : Node => [Text c d; r]) pre post (fr :: fs)
                             (Element el t []) N1) as E2.
  cbn [nid] in E2. rewrite E2. clear E2.
  cbv iota beta.
  (* removeChild *)
  set (fr2 := mkFrame p tg (l ++ [Text c d]) r).
  assert (F2 : pre ++ plug_list (fr :: fs) [Text c d; Element el t []] ++ post
               = pre ++ plug (fr2 :: fs) (Element el t []) :: post).
  { unfold plug_list, fr, fr2. cbn. unfold wrap. cbn. rewrite <- app_assoc. reflexivity. }
  assert (Hce : c <> el).
  { pose proof (NoDup_plug_inner _ _ (NoDup_forest_tree _ _ _ Hnd')) as H.
    simpl in H. inversion H as [|? ? Hi _]; subst. intros ->. apply Hi. left. reflexivity. }
  assert (N2 : NoDup (all_ids (pre ++ plug (fr2 :: fs) (Element el t []) :: post))).
  { rewrite <- F2.
    pose proof (NoDup_splice pre post [] (fr :: fs) (Element el t [Text c d])
                             [Text c d; Element el t []] Hnd') as H.
    rewrite !app_nil_r in H. apply H.
    - simpl. constructor; [intros [E|[]]; congruence|]. constructor; [intros []|constructor].
    - simpl. intros x [<-|[<-|[]]]; auto. }
  rewrite F2. clear F2.
  unfold bind at 1, dom_op at 1, removeChild, parentNode. cbn [dom].
  pose proof (place_in_focus pre post fr2 fs (Element el t []) N2) as E3.
  cbn [nid] in E3. rewrite E3. clear E3.
  pose proof (lookup_focus pre post (fr2 :: fs) (Element el t []) N2) as E3.
  cbn [nid] in E3. rewrite E3. clear E3.
  cbn [f_id fr2]. rewrite Nat.eqb_refl.
  cbv iota beta. unfold dom_op. eexists. reflexivity.
Qed.

End UnwrapTotal.

(** *** A replacement and its inverse *)

Section SingleRoundTrip.
Import Scenario.
Import String.StringSyntax.
Local Open Scope string_scope.
Local Open Scope Z_scope.

(** The shapes after [merge_texts] depend on the shapes after it of the
    rest of the list only. *)
Lemma merge_text_cons_shape (i j : nat) (d : jsstring) (cs cs' : list Node) :
  map shape (merge_texts cs) = map shape (merge_texts cs') ->
  map shape (merge_texts (Text i d :: cs)) = map shape (merge_texts (Text j d :: cs')).
Proof.
  intros H. cbn [merge_texts]. destruct d as [|a d]; [exact H|].
  destruct (merge_texts cs) as [|[i1 d1|i1 t1 l1] r1];
    destruct (merge_texts cs') as [|[i2 d2|i2 t2 l2] r2];
    simpl in H |- *; try discriminate; try congruence.
Qed.

Lemma merge_shape_prefix (L A B : list Node) :
  map shape (merge_texts A) = map shape (merge_texts B) ->
  map shape (merge_texts (L ++ A)) = map shape (merge_texts (L ++ B)).
Proof.
  intros H. induction L as [|c L IH]; [exact H|].
  destruct c as [i d|i t l].
  - simpl app. apply merge_text_cons_shape. exact IH.
  - simpl. f_equal. exact IH.
Qed.

(** Two adjacent Text nodes count as one with the joined data. *)
Lemma merge_two_shape (i j k : nat) (d1 d2 : jsstring) (cs : list Node) :
  map shape (merge_texts (Text i d1 :: Text j d2 :: cs))
  = map shape (merge_texts (Text k (d1 ++ d2) :: cs)).
Proof.
  cbn [merge_texts]. destruct d1 as [|a d1]; destruct d2 as [|b d2]; simpl app.
  - reflexivity.
  - destruct (merge_texts cs) as [|[i1 e1|i1 t1 l1] r1]; reflexivity.
  - rewrite app_nil_r. destruct (merge_texts cs) as [|[i1 e1|i1 t1 l1] r1]; reflexivity.
  - destruct (merge_texts cs) as [|[i1 e1|i1 t1 l1] r1]; simpl;
      rewrite <- ?app_assoc; reflexivity.
Qed.

Lemma merge_pieces_shape (L R bef aft : list Node) (c x : nat) (d1 m d3 d : jsstring)
      (b1 b3 : bool) :
  map shape bef = (if b1 then [T d1] else []) ->
  map shape aft = (if b3 then [T d3] else []) ->
  (if b1 then d1 else []) ++ m ++ (if b3 then d3 else []) = d ->
  map shape (merge_texts (L ++ bef ++ Text c m :: aft ++ R))
  = map shape (merge_texts (L ++ Text x d :: R)).
Proof.
  intros Hb Ha Hd. apply merge_shape_prefix.
  assert (A : map shape (merge_texts (Text c m :: aft ++ R))
              = map shape (merge_texts (Text x (m ++ if b3 then d3 else []) :: R))).
  { destruct b3.
    - destruct aft as [|[a da|a ta la] [|a' aft]]; try discriminate.
      simpl in Ha. injection Ha as ->. simpl app. apply merge_two_shape.
    - destruct aft; [|discriminate]. simpl app. rewrite app_nil_r.
      apply merge_text_cons_shape. reflexivity. }
  destruct b1.
  - destruct bef as [|[b db|b tb lb] [|b' bef]]; try discriminate.
    simpl in Hb. injection Hb as ->. simpl app.
    rewrite <- Hd.
    rewrite <- (merge_two_shape b x x d1 (m ++ if b3 then d3 else []) R).
    apply merge_text_cons_shape. exact A.
  - destruct bef; [|discriminate]. simpl app. simpl in Hd. rewrite <- Hd. exact A.
Qed.

Lemma normalize_text_list (l : list Node) :
  (forall n, In n l -> is_text n = true) -> map normalize_node l = l.
Proof.
  intros H. induction l as [|a l IH]; [reflexivity|]. simpl. f_equal.
  - specialize (H a (or_introl eq_refl)). destruct a; [reflexivity|discriminate].
  - apply IH. intros n Hn. apply H. right. exact Hn.
Qed.

Lemma pending_one (st : State) (el : nat) :
  pending_els st = [el] -> reverts st = Some [RevertOne el].
Proof.
  unfold pending_els. destruct (reverts st) as [l|]; [|discriminate].
  destruct l as [|a l]; [discriminate|]. simpl.
  destruct a as [e|eA inner eB]; simpl.
  - intros H. injection H as -> H. destruct l as [|b l]; [reflexivity|].
    simpl in H. destruct b; discriminate.
  - intros H. injection H as _ H. destruct inner; discriminate.
Qed.

(** X8. A replacement inside one Text node and its inverse: the function
    that [_genReplacer] returns for a node name that the parser reads back
    as an element [tg] without a child is called for a range that is not
    empty and lies inside the Text node [x], a child of the element [p],
    with the text of the range as the match; [revert] is called
    next. Both calls return. The element [p] then is, node identities
    apart, what [p.normalize()] makes of the element it was before the
    two calls: next to the Text nodes and elements it had it has the data
    of [x] again, in one Text node with the adjacent Text nodes. The node
    [x] itself is not put back, it stays out of the document; so does the
    replacement node, without a child; the revert list is empty. *)
Theorem single_node_round_trip
        (st0 : State) (name tg : jsstring) (x p : nat) (d t : jsstring) (l r : list Node)
        (si ei : Z) (innerNodes : list nat) (matchIndex : Z)
        (replaceFn : Range -> M nat) (st : State)
        (Hwf : well_formed st0 = true)
        (Hback : parse_back name = [E tg []])
        (Hp : lookup p (dom st0) = Some (Element p t (l ++ Text x d :: r)))
        (Hgen : _genReplacer (NodeName name) st0 = (Ok replaceFn, st))
        (Hsi : 0 <= si) (Hlt : si < ei) (Hei : ei <= len d) :
  exists el st1 st2 pn,
    replaceFn (mkRange x si x ei innerNodes [substring d si ei] matchIndex) st = (Ok el, st1)
    /\ revert st1 = (Ok tt, st2)
    /\ lookup p (dom st2) = Some pn
    /\ shape pn = shape (normalize_node (Element p t (l ++ Text x d :: r)))
    /\ In (Text x d) (dom st2)
    /\ In (Element el tg []) (dom st2)
    /\ reverts st2 = Some [].
Proof.
  rewrite genReplacer_eq in Hgen. injection Hgen as <- <-.
  pose proof (Kept_prepared name tg st0 Hwf Hback) as HK.
  pose proof (prepared_keeps (NodeName name) st0 p _ Hp) as Hp'.
  set (st := prepared (NodeName name) st0) in *.
  pose proof (k_nodup _ _ _ _ HK) as Hnd.
  destruct (lookup_sound p (dom st) _ Hp') as (pre & fs & post & Hf & _).
  assert (Hf' : dom st = pre ++ plug (mkFrame p t l r :: fs) (Text x d) :: post) by exact Hf.
  assert (Hx : lookup x (dom st) = Some (Text x d)).
  { rewrite Hf' at 1. change x with (nid (Text x d)) at 1.
    apply lookup_focus. rewrite <- Hf'. exact Hnd. }
  assert (Hpx : parentNode x (dom st) = Some p).
  { apply (child_parent (dom st) p t _ (Text x d) Hnd Hp').
    apply in_or_app. right. left. reflexivity. }
  simpl replacer. rewrite (reparse_back name tg Hback).
  assert (Hm : truthy (substring d si ei) = true).
  { pose proof (substring_len d si ei ltac:(lia) Hei) as L.
    destruct (substring d si ei); [unfold len in L; simpl in L; lia|reflexivity]. }
  set (m := substring d si ei) in *.
  destruct (replace_single_total (nextId st0) tg st x p d si ei innerNodes [m] matchIndex
              HK Hx Hpx)
    as (el & st1 & Hrun & bef & eln & aft & Hd1 & HK1 & HP1 & Hel & Te & Tb & Ta & Ee
        & Hnx & Htx & Hpe & _ & Lb & La).
  pose proof (k_nodup _ _ _ _ HK1) as Hnd1.
  rewrite Hf' in Hd1, Hnd.
  rewrite (put_focus x d _ false pre post (mkFrame p t l r) fs Hnd) in Hd1.
  cbn [f_id f_tag f_left f_right] in Hd1. rewrite app_nil_r in Hd1.
  unfold make_el in Ee. cbn [hd] in Ee. rewrite Hm in Ee. subst eln.
  set (c := S el) in *.
  set (fr := mkFrame p t (l ++ bef) (aft ++ r)).
  assert (Hd2 : dom st1
                = pre ++ plug (fr :: fs) (Element el tg [Text c m]) :: post ++ [Text x d]).
  { rewrite Hd1. unfold fr. cbn [plug]. unfold wrap. cbn [f_id f_tag f_left f_right].
    rewrite <- !app_assoc. reflexivity. }
  clear Hd1.
  assert (Hl1 : lookup el (dom st1) = Some (Element el tg [Text c m])).
  { rewrite Hd2. apply (lookup_focus pre (post ++ [Text x d]) (fr :: fs)
                                     (Element el tg [Text c m])).
    rewrite <- Hd2. exact Hnd1. }
  assert (Hpl : place_in el (dom st1) = Some (p, (l ++ bef, Element el tg [Text c m], aft ++ r))).
  { rewrite Hd2. apply (place_in_focus pre (post ++ [Text x d]) fr fs
                                       (Element el tg [Text c m])).
    rewrite <- Hd2. exact Hnd1. }
  assert (Hpar : parentNode el (dom st1) = Some p).
  { unfold parentNode. rewrite Hpl. reflexivity. }
  destruct (unwrap_total st1 el p c tg m Hnd1 Hl1 Hpar) as [st2 Hun].
  destruct (unwrap_eq st1 st2 el tg [Text c m] Hnd1 Hl1 eq_refl Hun)
    as (pre' & fr' & fs' & post' & c' & d' & extra & Ecs & Hd3 & Hd4 & Hnd2 & _ & Hn2 & Hr2).
  injection Ecs as <- <-.
  pose proof (place_in_focus pre' post' fr' fs' (Element el tg [Text c m])) as Hpl'.
  rewrite <- Hd3 in Hpl'. specialize (Hpl' Hnd1). cbn [nid] in Hpl'.
  rewrite Hpl in Hpl'. injection Hpl' as Ei El Er.
  assert (Etag : f_tag fr' = t).
  { pose proof (lookup_focus pre' post' fs' (wrap fr' (Element el tg [Text c m]))) as H.
    change (plug fs' (wrap fr' (Element el tg [Text c m])))
      with (plug (fr' :: fs') (Element el tg [Text c m])) in H.
    rewrite <- Hd3 in H. specialize (H Hnd1). cbn [nid wrap] in H.
    rewrite <- Ei in H.
    assert (G : lookup p (dom st1) = Some (wrap fr (Element el tg [Text c m]))).
    { rewrite Hd2.
      apply (lookup_focus pre (post ++ [Text x d]) fs (wrap fr (Element el tg [Text c m]))).
      change (plug fs (wrap fr (Element el tg [Text c m])))
        with (plug (fr :: fs) (Element el tg [Text c m])).
      rewrite <- Hd2. exact Hnd1. }
    rewrite G in H. unfold wrap in H. injection H as _ H _. symmetry. exact H. }
  rewrite <- Ei, <- El, <- Er, Etag in Hd4.
  set (pn := normalize_node (Element p t ((l ++ bef) ++ Text c m :: aft ++ r))) in *.
  assert (Hrev : reverts st1 = Some [RevertOne el]).
  { apply pending_one. rewrite Hpe. reflexivity. }
  exists el, st1, (mkState (dom st2) (nextId st2) (Some [])), pn.
  split; [exact Hrun|].
  split.
  { unfold revert. rewrite Hrev. cbn [length revert_loop].
    unfold bind at 1. unfold bind at 1. unfold call_revert. rewrite Hrev. cbn [nth_error].
    rewrite Hun. reflexivity. }
  cbn [dom reverts].
  split; [|split; [|split; [|split]]].
  - rewrite Hd4. change p with (nid pn) at 1.
    apply (lookup_focus pre' (post' ++ Element el tg [] :: extra) fs' pn).
    rewrite <- Hd4. exact Hnd2.
  - unfold pn. cbn [normalize_node shape]. f_equal.
    rewrite <- app_assoc. rewrite !map_app. cbn [map normalize_node].
    rewrite !map_app.
    rewrite (normalize_text_list bef), (normalize_text_list aft).
    + apply (merge_pieces_shape _ _ bef aft c x (substring d 0 si) m (substring_from d ei) d
               (si >? 0) (ei <? len d)).
      * apply texts_shape; auto. intros n Hn. apply Htx. apply in_or_app. left. exact Hn.
      * apply texts_shape; auto. intros n Hn. apply Htx. apply in_or_app. right. exact Hn.
      * apply three_pieces; assumption.
    + intros n Hn. apply Htx. apply in_or_app. right. exact Hn.
    + intros n Hn. apply Htx. apply in_or_app. left. exact Hn.
  - assert (Hin : In (Text x d) (dom st1)).
    { rewrite Hd2. apply in_or_app. right. right. apply in_or_app. right. left. reflexivity. }
    rewrite Hd3 in Hin. rewrite Hd4.
    apply in_app_or in Hin as [Hin|[Hin|Hin]].
    + apply in_or_app. left. exact Hin.
    + pose proof (plug_is_element fr' fs' (Element el tg [Text c m])) as H.
      rewrite Hin in H. discriminate.
    + apply in_or_app. right. right. apply in_or_app. left. exact Hin.
  - rewrite Hd4. apply in_or_app. right. right. apply in_or_app. right. left. reflexivity.
  - reflexivity.
Qed.

(** The paragraph [<p>This is a test</p>] and the range of the word test. *)
Lemma single_node_round_trip_witness :
  exists el st1 st2 pn,
    replacer em (page p_test)
             (mkRange 1 10 1 14 [] [substring (lit "This is a test") 10 14] 0)
             (prepared em (page p_test)) = (Ok el, st1)
    /\ revert st1 = (Ok tt, st2)
    /\ lookup 0 (dom st2) = Some pn
    /\ shape pn = shape (normalize_node
                           (Element 0 (lit "p") ([] ++ Text 1 (lit "This is a test") :: [])))
    /\ In (Text 1 (lit "This is a test")) (dom st2)
    /\ In (Element el (lit "em") []) (dom st2)
    /\ reverts st2 = Some [].
Proof.
  apply (single_node_round_trip (page p_test) (lit "em") (lit "em") 1 0
           (lit "This is a test") (lit "p")
           [] [] 10 14 [] 0 (replacer em (page p_test))
           (prepared em (page p_test))); first [reflexivity | lia | vm_compute; discriminate].
Defined.

End SingleRoundTrip.

(** *** A replacement node that is gone *)

Section RevertStops.
Import Scenario.
Import String.StringSyntax.
Local Open Scope string_scope.

Lemma unwrap_missing (el : nat) (st : State) :
  parentNode el (dom st) = None \/ firstChild el (dom st) = None ->
  unwrap el st = (Throw TypeError, st).
Proof.
  intros H. unfold unwrap, bind, get_parentNode, get_firstChild.
  destruct (parentNode el (dom st)) as [p|]; [|reflexivity].
  destruct H as [H|H]; [discriminate|]. simpl. rewrite H. reflexivity.
Qed.

(** X9. [revert] when the replacement node that the first recorded
    inverse takes out first has no parent (it has been taken out of the
    document) or no child: the call throws a [TypeError] at once, no node
    is changed, and the revert list is not emptied (line 185 is not
    reached); when that inverse belongs to a replacement inside one Text
    node nothing at all is changed, so that every further [revert] throws
    in the same way. *)
Theorem revert_stops_at_missing_node
        (st : State) (a : RevertAction) (rest : list RevertAction) (el : nat)
        (Hrev : reverts st = Some (a :: rest))
        (Hel : hd_error (rev_els a) = Some el)
        (Hbad : parentNode el (dom st) = None \/ firstChild el (dom st) = None) :
  let r := revert st in
  fst r = Throw TypeError
  /\ dom (snd r) = dom st
  /\ (exists l, reverts (snd r) = Some l /\ length l = S (length rest))
  /\ (a = RevertOne el -> snd r = st /\ revert (snd r) = (Throw TypeError, st)).
Proof.
  cbv zeta. destruct a as [e|elA innerEls elB]; simpl in Hel; injection Hel as ->.
  - assert (E : revert st = (Throw TypeError, st)).
    { unfold revert. rewrite Hrev. cbn [length revert_loop].
      unfold bind at 1. unfold bind at 1. unfold call_revert at 1. rewrite Hrev.
      cbn [nth_error]. rewrite (unwrap_missing el st Hbad). reflexivity. }
    rewrite E. cbn [fst snd].
    split; [reflexivity|]. split; [reflexivity|]. split.
    + exists (RevertOne el :: rest). split; [exact Hrev|reflexivity].
    + intros _. split; [reflexivity|exact E].
  - assert (E : revert st
                = (Throw TypeError,
                   mkState (dom st) (nextId st)
                           (Some (RevertSpan el (el :: innerEls ++ [elB]) elB :: rest)))).
    { unfold revert. rewrite Hrev. cbn [length revert_loop].
      unfold bind at 1. unfold bind at 1. unfold call_revert at 1. rewrite Hrev.
      cbn [nth_error unwrap_all update_nth]. unfold bind at 1.
      rewrite (unwrap_missing el
                 (mkState (dom st) (nextId st)
                          (Some (RevertSpan el (el :: innerEls ++ [elB]) elB :: rest)))
                 Hbad).
      reflexivity. }
    rewrite E. cbn [fst snd dom reverts].
    split; [reflexivity|]. split; [reflexivity|]. split.
    + eexists. split; reflexivity.
    + intros H. discriminate.
Qed.

(** The paragraph [<p>This is a test</p>] after the word test has been
    replaced and the replacement node taken out of the paragraph. *)
Lemma revert_stops_at_missing_node_witness :
  let st := mkState [Element 0 (lit "p") [Text 3 (lit "This is a ")];
                     Element 4 (lit "em") [Text 5 (lit "test")]]
                    6 (Some [RevertOne 4]) in
  let r := revert st in
  fst r = Throw TypeError
  /\ dom (snd r) = dom st
  /\ (exists l, reverts (snd r) = Some l /\ length l = 1%nat)
  /\ (RevertOne 4 = RevertOne 4 -> snd r = st /\ revert (snd r) = (Throw TypeError, st)).
Proof.
  apply (revert_stops_at_missing_node
           (mkState [Element 0 (lit "p") [Text 3 (lit "This is a ")];
                     Element 4 (lit "em") [Text 5 (lit "test")]]
                    6 (Some [RevertOne 4]))
           (RevertOne 4) [] 4).
  - reflexivity.
  - reflexivity.
  - left. reflexivity.
Defined.

End RevertStops.

(** *** A node name without an element *)

Section DroppedName.
Import Scenario.
Import String.StringSyntax.
Local Open Scope string_scope.
Local Open Scope Z_scope.

(** X12. A node name for which the parser gives no element back, such as
    [td], [tr] or [body]: [el] is [null] at line 204, and the replacement
    function never returns; a call that returns has made no replacement,
    it leaves the store as [_genReplacer] has left it. For [td] and the
    pattern test on [<p>This is a test</p>] the call throws a [TypeError]
    at [el.appendChild], after the Text node [before] has been inserted
    and before anything is recorded for [revert]. *)
Theorem no_element_no_replacement
        (fuel : nat) (regex : RegExp) (node : nat) (tag : jsstring)
        (captureGroup : option Z) (st : State) (n : Node)
        (Hback : parse_back tag = [])
        (Hnode : lookup node (dom st) = Some n) :
  (forall range st1 el st2, replacer (NodeName tag) st range st1 <> (Ok el, st2))
  /\ (forall st',
        findAndReplaceDOMText fuel regex node (NodeName tag) captureGroup st = (Ok tt, st') ->
        st' = prepared (NodeName tag) st)
  /\ (let r := findAndReplaceDOMText 9 (compile false re_test) 0 td None (page p_test) in
      fst r = Throw TypeError
      /\ child_shapes 0 (snd r) = Some [T (lit "This is a "); T (lit "This is a test")]
      /\ reverts (snd r) = Some []).
Proof.
  split; [|split].
  - intros range st1 el st2. simpl replacer. apply replace_fails.
    intros fill mi st3 o st4. apply make_none. exact Hback.
  - intros st'. apply (call_without_element fuel regex node tag captureGroup st st' n Hback Hnode).
  - vm_compute. repeat split; reflexivity.
Qed.

(** The node name [td]: the global pattern xyz has no match in
    [<p>abc</p>], and the call returns. *)
Lemma no_element_no_replacement_witness :
  parse_back (lit "td") = []
  /\ findAndReplaceDOMText 9 (compile true re_xyz) 0 td None (page p_abc)
     = (Ok tt, prepared td (page p_abc)).
Proof.
  split; [reflexivity|].
  set (r := findAndReplaceDOMText 9 (compile true re_xyz) 0 td None (page p_abc)).
  assert (E : r = (Ok tt, snd r)) by (vm_compute; reflexivity).
  rewrite E. apply (f_equal (pair (Ok tt))).
  exact (proj1 (proj2 (no_element_no_replacement 9 (compile true re_xyz) 0 (lit "td") None
                         (page p_abc) p_abc eq_refl eq_refl))
               (snd r) E).
Defined.

End DroppedName.
